(** * Cache replacement simulator: a shallow embedding and its properties

    The development follows [CacheReplacementSimulator.hpp/.cpp] and the
    command-line driver [main.cpp].

    Conventions.
    - C++ [int] values are modelled as [Z].  Arithmetic that the source
      performs with [++] or [+=] is written without wrap-around (signed
      overflow is undefined behaviour in C++); the explicit
      [static_cast<int>] conversions of the source are modelled by
      [static_cast_int], which wraps.
    - A [std::vector<Frame>] is a [list Frame]; an iterator into it is a
      position of type [nat]; [end()] is [None].
    - Effects that leave the simulator object (the two clocks, the random
      engine, the function-local statics, the standard streams and the file
      system) live in a [Process] record threaded by the state monad [M]. *)

From Stdlib Require Import ZArith List Bool Lia String Ascii Arith Permutation.
Import ListNotations.
Open Scope Z_scope.

(** ** Configuration constants (CacheReplacementSimulator.hpp) *)

Definition PRIVILEGED_PARTITION_SIZE : Z := 5.
Definition UNPRIVILEGED_PARTITION_SIZE : Z := 5.

Definition INT_MAX : Z := 2147483647.

(** [static_cast<int>(x)] for an integral [x]: reduction modulo 2^32 into
    the signed range. *)
Definition static_cast_int (x : Z) : Z :=
  (x + 2147483648) mod 4294967296 - 2147483648.

(** ** Data model *)

Record Frame := mkFrame {
  index : Z;        (* frame slot index *)
  page : Z;         (* loaded page number, or -1 if empty *)
  time : Z;         (* steady_clock time point, in clock ticks *)
  extra : Z;        (* CLOCK ref bit, NFU/AGING counter, ... *)
  frequency : Z;    (* LFU/LFRU usage frequency *)
  lastUsed : Z      (* LFU/LFRU logical timestamp *)
}.

Definition set_page (v : Z) (f : Frame) : Frame :=
  mkFrame (index f) v (time f) (extra f) (frequency f) (lastUsed f).
Definition set_time (v : Z) (f : Frame) : Frame :=
  mkFrame (index f) (page f) v (extra f) (frequency f) (lastUsed f).
Definition set_extra (v : Z) (f : Frame) : Frame :=
  mkFrame (index f) (page f) (time f) v (frequency f) (lastUsed f).
Definition set_frequency (v : Z) (f : Frame) : Frame :=
  mkFrame (index f) (page f) (time f) (extra f) v (lastUsed f).
Definition set_lastUsed (v : Z) (f : Frame) : Frame :=
  mkFrame (index f) (page f) (time f) (extra f) (frequency f) v.

Record PageRef := mkPageRef {
  pageNum : Z;      (* virtual page number *)
  pid : Z           (* process id, unused by the policies *)
}.

Record Partition := mkPartition {
  frames : list Frame;
  size : Z
}.

Record LFRUData := mkLFRUData {
  privileged : Partition;      (* LRU-managed *)
  unprivileged : Partition     (* LFU-managed *)
}.

Record AlgorithmData := mkAlgorithmData {
  hits : Z;
  misses : Z;
  pageTable : list Frame;
  victimList : list Frame;
  execTime : Z;                (* accumulated high_resolution_clock ticks *)
  lfruData : option LFRUData   (* unique_ptr, nullptr = None *)
}.

Definition set_pageTable (t : list Frame) (d : AlgorithmData) : AlgorithmData :=
  mkAlgorithmData (hits d) (misses d) t (victimList d) (execTime d) (lfruData d).
Definition push_victim (v : Frame) (d : AlgorithmData) : AlgorithmData :=
  mkAlgorithmData (hits d) (misses d) (pageTable d) (victimList d ++ [v])
                  (execTime d) (lfruData d).
Definition set_lfruData (l : option LFRUData) (d : AlgorithmData) : AlgorithmData :=
  mkAlgorithmData (hits d) (misses d) (pageTable d) (victimList d) (execTime d) l.

(** The data members of [CacheReplacementSimulator] that the policy
    functions read through the captured [this]. *)
Record Members := mkMembers {
  numFrames : Z;
  pageRefUpperBound : Z;
  maxPageCalls : Z;
  debug : bool;
  printRefs : bool;
  counter : Z;
  lastPageRef : Z;
  pageRefs : list PageRef
}.

(** ** The process: clocks, random engine, statics, streams, files *)

Inductive Output :=
| Loaded (n : nat) (filename : string)        (* the line printed after a successful load *)
| ErrorOpening (filename : string)            (* the line printed when the file cannot be opened *)
| Summary (label : string) (nframes nhits nmisses : Z)
| PageTableDump (table : list Frame)
| WarnLFRUAdjust (total : Z)                  (* the warning of main.cpp that LFRU needs more frames *)
| ErrorMessage (what : string)                (* "Error: " followed by the message *)
| Banner                                      (* the three header lines of main *)
| UsageAndAlgorithms (programName : string)   (* what printUsageAndAlgorithms prints *)
| Configuration (filename info : string) (nframes : Z) (showRefs debugFlag : bool)
| LoadingNotice                               (* "Loading page references..." *)
| LoadFailure (filename : string)             (* the two lines after a failed load *)
| StartNotice (showRefs : bool)               (* "Starting simulation...", the note, the rule *)
| Completed (totalTime : Z)                   (* the rule, the success line, the wall time *)
| SortedNotice                                (* the two lines printed for the code a *)
| Farewell                                    (* the closing line *)
| FatalError (what programName : string).     (* what the handler of std::exception prints *)

Record Process := mkProcess {
  steady_clock : nat -> Z;     (* reading returned by the n-th call of steady_clock::now() *)
  steady_reads : nat;
  high_resolution_clock : nat -> Z;
  high_reads : nat;
  rng : nat -> nat;            (* n-th raw output of the mt19937 engine *)
  rng_draws : nat;
  timeCounter : Z;             (* static int in getCurrentTime() *)
  clockHand : Z;               (* static int in clock() *)
  cout : list Output;
  cerr : list Output;
  files : string -> option string   (* None: the file cannot be opened *)
}.

Definition M (A : Type) : Type := Process -> A * Process.

Definition ret {A} (a : A) : M A := fun w => (a, w).
Definition bind {A B} (m : M A) (k : A -> M B) : M B :=
  fun w => let r := m w in k (fst r) (snd r).

Notation "x <- c1 ;; c2" := (bind c1 (fun x => c2))
  (at level 61, c1 at next level, right associativity).
Notation "c1 ;;; c2" := (bind c1 (fun _ => c2))
  (at level 61, right associativity).

Definition steady_clock_now : M Z := fun w =>
  (steady_clock w (steady_reads w),
   mkProcess (steady_clock w) (S (steady_reads w)) (high_resolution_clock w)
             (high_reads w) (rng w) (rng_draws w) (timeCounter w) (clockHand w)
             (cout w) (cerr w) (files w)).

Definition high_resolution_clock_now : M Z := fun w =>
  (high_resolution_clock w (high_reads w),
   mkProcess (steady_clock w) (steady_reads w) (high_resolution_clock w)
             (S (high_reads w)) (rng w) (rng_draws w) (timeCounter w) (clockHand w)
             (cout w) (cerr w) (files w)).

(** [std::uniform_int_distribution<> dist(a, b); dist(rng)]: some value of
    [a..b], determined by the engine's next output. *)
Definition uniform_int_distribution (a b : Z) : M Z := fun w =>
  (a + Z.of_nat (rng w (rng_draws w)) mod (b - a + 1),
   mkProcess (steady_clock w) (steady_reads w) (high_resolution_clock w)
             (high_reads w) (rng w) (S (rng_draws w)) (timeCounter w) (clockHand w)
             (cout w) (cerr w) (files w)).

(** [static int timeCounter = 0; return ++timeCounter;] *)
Definition getCurrentTime : M Z := fun w =>
  (timeCounter w + 1,
   mkProcess (steady_clock w) (steady_reads w) (high_resolution_clock w)
             (high_reads w) (rng w) (rng_draws w) (timeCounter w + 1) (clockHand w)
             (cout w) (cerr w) (files w)).

Definition get_clockHand : M Z := fun w => (clockHand w, w).
Definition put_clockHand (h : Z) : M unit := fun w =>
  (tt,
   mkProcess (steady_clock w) (steady_reads w) (high_resolution_clock w)
             (high_reads w) (rng w) (rng_draws w) (timeCounter w) h
             (cout w) (cerr w) (files w)).

Definition write_cout (o : Output) : M unit := fun w =>
  (tt,
   mkProcess (steady_clock w) (steady_reads w) (high_resolution_clock w)
             (high_reads w) (rng w) (rng_draws w) (timeCounter w) (clockHand w)
             (cout w ++ [o]) (cerr w) (files w)).
Definition write_cerr (o : Output) : M unit := fun w =>
  (tt,
   mkProcess (steady_clock w) (steady_reads w) (high_resolution_clock w)
             (high_reads w) (rng w) (rng_draws w) (timeCounter w) (clockHand w)
             (cout w) (cerr w ++ [o]) (files w)).
Definition open_file (filename : string) : M (option string) := fun w =>
  (files w filename, w).

(** ** Iterators over a vector *)

(** [std::ranges::find_if]: position of the first element satisfying [p]. *)
Fixpoint find_if {A} (p : A -> bool) (l : list A) : option nat :=
  match l with
  | [] => None
  | x :: r => if p x then Some O
              else match find_if p r with
                   | Some i => Some (S i)
                   | None => None
                   end
  end.

Definition any_of {A} (p : A -> bool) (l : list A) : bool := existsb p l.

(** [std::ranges::min_element]: walks the range once and keeps the first
    element that no later one is smaller than. *)
Fixpoint min_element_from {A} (comp : A -> A -> bool) (l : list A)
         (i smallest : nat) (sv : A) : nat :=
  match l with
  | [] => smallest
  | x :: r => if comp x sv then min_element_from comp r (S i) i x
              else min_element_from comp r (S i) smallest sv
  end.

Definition min_element {A} (comp : A -> A -> bool) (l : list A) : option nat :=
  match l with
  | [] => None
  | x :: r => Some (min_element_from comp r 1 0 x)
  end.

(** [std::ranges::max_element]: keeps the first element that no later one is
    larger than. *)
Fixpoint max_element_from {A} (comp : A -> A -> bool) (l : list A)
         (i largest : nat) (lv : A) : nat :=
  match l with
  | [] => largest
  | x :: r => if comp lv x then max_element_from comp r (S i) i x
              else max_element_from comp r (S i) largest lv
  end.

Definition max_element {A} (comp : A -> A -> bool) (l : list A) : option nat :=
  match l with
  | [] => None
  | x :: r => Some (max_element_from comp r 1 0 x)
  end.

(** Assignment through an iterator: [it->field = v] becomes
    [update it (set_field v)]. *)
Fixpoint update {A} (it : nat) (g : A -> A) (l : list A) : list A :=
  match l, it with
  | [], _ => []
  | x :: r, O => g x :: r
  | x :: r, S j => x :: update j g r
  end.

(** A default-constructed frame with the given time stamp; also the value
    read through an iterator that is out of range (never the case for the
    positions the policies obtain from the searches above). *)
Definition Frame_default (now : Z) : Frame := mkFrame (-1) (-1) now 0 0 0.

Definition deref (it : nat) (l : list Frame) : Frame := nth it l (Frame_default 0).

(** ** Replacement policies

    Each function returns [false] on a page hit and [true] on a page fault,
    together with the updated [AlgorithmData]. *)

Definition Policy : Type := Members -> AlgorithmData -> M (bool * AlgorithmData).

Definition is_requested (m : Members) (f : Frame) : bool := page f =? lastPageRef m.
Definition is_empty (f : Frame) : bool := page f =? -1.

(** *** OPTIMAL (Belady) *)

(** The inner [for] loop of [optimal]: [refs] is the part of [pageRefs] from
    position [i] on; the result is the position of the next use of [pg], or
    [INT_MAX] when there is none. *)
Fixpoint scan_next_use (refs : list PageRef) (i : Z) (pg : Z) : Z :=
  match refs with
  | [] => INT_MAX
  | r :: rest => if pageNum r =? pg then static_cast_int i
                 else scan_next_use rest (i + 1) pg
  end.

Definition next_use_distance (m : Members) (pg : Z) : Z :=
  scan_next_use (skipn (Z.to_nat (counter m + 1)) (pageRefs m)) (counter m + 1) pg.

(** The outer [for] loop of [optimal], with its two loop variables. *)
Fixpoint optimal_victim (m : Members) (l : list Frame) (it : nat)
         (maxDistance : Z) (victimIt : nat) : nat :=
  match l with
  | [] => victimIt
  | f :: r =>
      let distance := next_use_distance m (page f) in
      if distance >? maxDistance
      then optimal_victim m r (S it) distance it
      else optimal_victim m r (S it) maxDistance victimIt
  end.

Definition optimal : Policy := fun m data =>
  match find_if (is_requested m) (pageTable data) with
  | Some hitIt =>
      now <- steady_clock_now ;;
      ret (false,
           set_pageTable
             (update hitIt (fun f => set_extra (counter m) (set_time now f))
                     (pageTable data)) data)
  | None =>
      match find_if is_empty (pageTable data) with
      | Some emptyIt =>
          now <- steady_clock_now ;;
          ret (true,
               set_pageTable
                 (update emptyIt
                    (fun f => set_extra (counter m)
                                (set_time now (set_page (lastPageRef m) f)))
                    (pageTable data)) data)
      | None =>
          let victimIt := optimal_victim m (pageTable data) 0 (-1) 0 in
          let data1 := push_victim (deref victimIt (pageTable data)) data in
          now <- steady_clock_now ;;
          ret (true,
               set_pageTable
                 (update victimIt
                    (fun f => set_extra (counter m)
                                (set_time now (set_page (lastPageRef m) f)))
                    (pageTable data1)) data1)
      end
  end.

(** *** RANDOM *)

Definition random : Policy := fun m data =>
  match find_if (is_requested m) (pageTable data) with
  | Some hitIt =>
      now <- steady_clock_now ;;
      ret (false,
           set_pageTable
             (update hitIt (fun f => set_extra (counter m) (set_time now f))
                     (pageTable data)) data)
  | None =>
      match find_if is_empty (pageTable data) with
      | Some emptyIt =>
          now <- steady_clock_now ;;
          ret (true,
               set_pageTable
                 (update emptyIt
                    (fun f => set_extra (counter m)
                                (set_time now (set_page (lastPageRef m) f)))
                    (pageTable data)) data)
      | None =>
          victimIndex <- uniform_int_distribution 0 (numFrames m - 1) ;;
          let data1 := push_victim (deref (Z.to_nat victimIndex) (pageTable data)) data in
          now <- steady_clock_now ;;
          ret (true,
               set_pageTable
                 (update (Z.to_nat victimIndex)
                    (fun f => set_extra (counter m)
                                (set_time now (set_page (lastPageRef m) f)))
                    (pageTable data1)) data1)
      end
  end.

(** *** FIFO *)

Definition fifo : Policy := fun m data =>
  match find_if (is_requested m) (pageTable data) with
  | Some hitIt =>
      (* nothing is done to [extra] or [time] *)
      ret (false, data)
  | None =>
      match find_if is_empty (pageTable data) with
      | Some emptyIt =>
          now <- steady_clock_now ;;
          ret (true,
               set_pageTable
                 (update emptyIt
                    (fun f => set_extra (counter m)
                                (set_time now (set_page (lastPageRef m) f)))
                    (pageTable data)) data)
      | None =>
          match min_element (fun a b => extra a <? extra b) (pageTable data) with
          | Some victimIt =>
              let data1 := push_victim (deref victimIt (pageTable data)) data in
              now <- steady_clock_now ;;
              ret (true,
                   set_pageTable
                     (update victimIt
                        (fun f => set_extra (counter m)
                                    (set_time now (set_page (lastPageRef m) f)))
                        (pageTable data1)) data1)
          | None => ret (true, data)
          end
      end
  end.

(** *** LRU *)

Definition lru : Policy := fun m data =>
  match find_if (is_requested m) (pageTable data) with
  | Some hitIt =>
      now <- steady_clock_now ;;
      ret (false,
           set_pageTable
             (update hitIt (fun f => set_extra (counter m) (set_time now f))
                     (pageTable data)) data)
  | None =>
      match find_if is_empty (pageTable data) with
      | Some emptyIt =>
          now <- steady_clock_now ;;
          ret (true,
               set_pageTable
                 (update emptyIt
                    (fun f => set_extra (counter m)
                                (set_time now (set_page (lastPageRef m) f)))
                    (pageTable data)) data)
      | None =>
          match min_element (fun a b => time a <? time b) (pageTable data) with
          | Some victimIt =>
              let data1 := push_victim (deref victimIt (pageTable data)) data in
              now <- steady_clock_now ;;
              ret (true,
                   set_pageTable
                     (update victimIt
                        (fun f => set_extra (counter m)
                                    (set_time now (set_page (lastPageRef m) f)))
                        (pageTable data1)) data1)
          | None => ret (true, data)
          end
      end
  end.

(** *** CLOCK (second chance) *)

(** The [do ... while (clockHand != startHand)] loop followed by the
    eviction after a full cycle.  One unit of [fuel] is one execution of the
    loop body; the first component of the result counts the executions, the
    second says whether the victim was taken inside the loop ([true]) or by
    the statement after it ([false]).  [None] means the fuel ran out. *)
Fixpoint clock_search (fuel : nat) (m : Members) (startHand : Z)
         (iterations : nat) (data : AlgorithmData)
  : M (option (nat * bool * AlgorithmData)) :=
  match fuel with
  | O => ret None
  | S fuel' =>
      hand <- get_clockHand ;;
      if extra (deref (Z.to_nat hand) (pageTable data)) =? 0 then
        let data1 := push_victim (deref (Z.to_nat hand) (pageTable data)) data in
        let data2 :=
          set_pageTable
            (update (Z.to_nat hand)
                    (fun f => set_extra 1 (set_page (lastPageRef m) f))
                    (pageTable data1)) data1 in
        put_clockHand (Z.rem (hand + 1) (numFrames m)) ;;;
        ret (Some (S iterations, true, data2))
      else
        let data1 :=
          set_pageTable (update (Z.to_nat hand) (set_extra 0) (pageTable data)) data in
        put_clockHand (Z.rem (hand + 1) (numFrames m)) ;;;
        hand' <- get_clockHand ;;
        if negb (hand' =? startHand) then
          clock_search fuel' m startHand (S iterations) data1
        else
          (* a full cycle was made: evict at the current hand anyway *)
          let data2 := push_victim (deref (Z.to_nat hand') (pageTable data1)) data1 in
          let data3 :=
            set_pageTable
              (update (Z.to_nat hand')
                      (fun f => set_extra 1 (set_page (lastPageRef m) f))
                      (pageTable data2)) data2 in
          put_clockHand (Z.rem (hand' + 1) (numFrames m)) ;;;
          ret (Some (S iterations, false, data3))
  end.

Definition clock : Policy := fun m data =>
  hand0 <- get_clockHand ;;
  (if hand0 >=? numFrames m then put_clockHand 0 else ret tt) ;;;
  match find_if (is_requested m) (pageTable data) with
  | Some hitIt =>
      ret (false, set_pageTable (update hitIt (set_extra 1) (pageTable data)) data)
  | None =>
      match find_if is_empty (pageTable data) with
      | Some emptyIt =>
          ret (true,
               set_pageTable
                 (update emptyIt (fun f => set_extra 1 (set_page (lastPageRef m) f))
                         (pageTable data)) data)
      | None =>
          startHand <- get_clockHand ;;
          r <- clock_search (Z.to_nat (numFrames m)) m startHand 0 data ;;
          match r with
          | Some (_, _, data') => ret (true, data')
          | None => ret (true, data)   (* not reached, see [clock_search_terminates] *)
          end
      end
  end.

(** *** NFU *)

Definition nfu : Policy := fun m data =>
  match find_if (is_requested m) (pageTable data) with
  | Some hitIt =>
      now <- steady_clock_now ;;
      ret (false,
           set_pageTable
             (update hitIt (fun f => set_time now (set_extra (extra f + 1) f))
                     (pageTable data)) data)
  | None =>
      match find_if is_empty (pageTable data) with
      | Some emptyIt =>
          now <- steady_clock_now ;;
          ret (true,
               set_pageTable
                 (update emptyIt
                    (fun f => set_extra 0 (set_time now (set_page (lastPageRef m) f)))
                    (pageTable data)) data)
      | None =>
          match min_element (fun a b => extra a <? extra b) (pageTable data) with
          | Some victimIt =>
              let data1 := push_victim (deref victimIt (pageTable data)) data in
              now <- steady_clock_now ;;
              ret (true,
                   set_pageTable
                     (update victimIt
                        (fun f => set_extra 0 (set_time now (set_page (lastPageRef m) f)))
                        (pageTable data1)) data1)
          | None => ret (true, data)
          end
      end
  end.

(** *** AGING *)

Definition age_frame (f : Frame) : Frame :=
  if negb (page f =? -1) then set_extra (Z.quot (extra f) 2) f else f.

Definition aging : Policy := fun m data0 =>
  let data := set_pageTable (map age_frame (pageTable data0)) data0 in
  match find_if (is_requested m) (pageTable data) with
  | Some hitIt =>
      now <- steady_clock_now ;;
      ret (false,
           set_pageTable
             (update hitIt (fun f => set_time now (set_extra (extra f + 10000000) f))
                     (pageTable data)) data)
  | None =>
      match find_if is_empty (pageTable data) with
      | Some emptyIt =>
          now <- steady_clock_now ;;
          ret (true,
               set_pageTable
                 (update emptyIt
                    (fun f => set_extra 0 (set_time now (set_page (lastPageRef m) f)))
                    (pageTable data)) data)
      | None =>
          match min_element (fun a b => extra a <? extra b) (pageTable data) with
          | Some victimIt =>
              let data1 := push_victim (deref victimIt (pageTable data)) data in
              now <- steady_clock_now ;;
              ret (true,
                   set_pageTable
                     (update victimIt
                        (fun f => set_extra 0 (set_time now (set_page (lastPageRef m) f)))
                        (pageTable data1)) data1)
          | None => ret (true, data)
          end
      end
  end.

(** *** MRU *)

Definition mru : Policy := fun m data =>
  match find_if (is_requested m) (pageTable data) with
  | Some hitIt =>
      now <- steady_clock_now ;;
      ret (false, set_pageTable (update hitIt (set_time now) (pageTable data)) data)
  | None =>
      match find_if is_empty (pageTable data) with
      | Some emptyIt =>
          now <- steady_clock_now ;;
          ret (true,
               set_pageTable
                 (update emptyIt (fun f => set_time now (set_page (lastPageRef m) f))
                         (pageTable data)) data)
      | None =>
          match max_element (fun a b => time a <? time b) (pageTable data) with
          | Some victimIt =>
              let data1 := push_victim (deref victimIt (pageTable data)) data in
              now <- steady_clock_now ;;
              ret (true,
                   set_pageTable
                     (update victimIt
                        (fun f => set_time now (set_page (lastPageRef m) f))
                        (pageTable data1)) data1)
          | None => ret (true, data)
          end
      end
  end.

(** *** NRU (as implemented: the oldest access is evicted) *)

Definition nru : Policy := fun m data =>
  match find_if (is_requested m) (pageTable data) with
  | Some hitIt =>
      now <- steady_clock_now ;;
      ret (false, set_pageTable (update hitIt (set_time now) (pageTable data)) data)
  | None =>
      match find_if is_empty (pageTable data) with
      | Some emptyIt =>
          now <- steady_clock_now ;;
          ret (true,
               set_pageTable
                 (update emptyIt (fun f => set_time now (set_page (lastPageRef m) f))
                         (pageTable data)) data)
      | None =>
          match min_element (fun a b => time a <? time b) (pageTable data) with
          | Some victimIt =>
              let data1 := push_victim (deref victimIt (pageTable data)) data in
              now <- steady_clock_now ;;
              ret (true,
                   set_pageTable
                     (update victimIt
                        (fun f => set_time now (set_page (lastPageRef m) f))
                        (pageTable data1)) data1)
          | None => ret (true, data)
          end
      end
  end.

(** *** MFU *)

Definition mfu : Policy := fun m data =>
  match find_if (is_requested m) (pageTable data) with
  | Some hitIt =>
      ret (false,
           set_pageTable
             (update hitIt (fun f => set_extra (extra f + 1) f) (pageTable data)) data)
  | None =>
      match find_if is_empty (pageTable data) with
      | Some emptyIt =>
          ret (true,
               set_pageTable
                 (update emptyIt (fun f => set_extra 1 (set_page (lastPageRef m) f))
                         (pageTable data)) data)
      | None =>
          match max_element (fun a b => extra a <? extra b) (pageTable data) with
          | Some victimIt =>
              let data1 := push_victim (deref victimIt (pageTable data)) data in
              ret (true,
                   set_pageTable
                     (update victimIt
                        (fun f => set_extra 1 (set_page (lastPageRef m) f))
                        (pageTable data1)) data1)
          | None => ret (true, data)
          end
      end
  end.

(** *** LFU *)

Definition lfu_less (a b : Frame) : bool :=
  if negb (frequency a =? frequency b) then frequency a <? frequency b
  else lastUsed a <? lastUsed b.

Definition lfu : Policy := fun m data =>
  match find_if (is_requested m) (pageTable data) with
  | Some hitIt =>
      t <- getCurrentTime ;;
      ret (false,
           set_pageTable
             (update hitIt (fun f => set_lastUsed t (set_frequency (frequency f + 1) f))
                     (pageTable data)) data)
  | None =>
      match find_if is_empty (pageTable data) with
      | Some emptyIt =>
          t <- getCurrentTime ;;
          ret (true,
               set_pageTable
                 (update emptyIt
                    (fun f => set_lastUsed t (set_frequency 1 (set_page (lastPageRef m) f)))
                    (pageTable data)) data)
      | None =>
          match min_element lfu_less (pageTable data) with
          | Some victimIt =>
              let data1 := push_victim (deref victimIt (pageTable data)) data in
              t <- getCurrentTime ;;
              ret (true,
                   set_pageTable
                     (update victimIt
                        (fun f => set_lastUsed t
                                    (set_frequency 1 (set_page (lastPageRef m) f)))
                        (pageTable data1)) data1)
          | None => ret (true, data)
          end
      end
  end.

(** *** LFRU: two partitions *)

Definition hasSpace (p : Partition) : bool := any_of is_empty (frames p).
Definition hasPage (p : Partition) (pg : Z) : bool :=
  any_of (fun f => page f =? pg) (frames p).

Definition set_frames (fr : list Frame) (p : Partition) : Partition :=
  mkPartition fr (size p).

(** [frames.resize(size)]: every new element is a default-constructed
    [Frame], whose [time] member is initialised from the clock. *)
Fixpoint default_frames (n : nat) : M (list Frame) :=
  match n with
  | O => ret []
  | S k =>
      now <- steady_clock_now ;;
      r <- default_frames k ;;
      ret (Frame_default now :: r)
  end.

Definition Partition_new (partitionSize : Z) : M Partition :=
  fr <- default_frames (Z.to_nat partitionSize) ;;
  ret (mkPartition
         (map (fun f => set_lastUsed 0 (set_frequency 0 (set_page (-1) f))) fr)
         partitionSize).

Definition LFRUData_new : M LFRUData :=
  p <- Partition_new PRIVILEGED_PARTITION_SIZE ;;
  u <- Partition_new UNPRIVILEGED_PARTITION_SIZE ;;
  ret (mkLFRUData p u).

Definition updateLRU (partition : Partition) (pg : Z) : M Partition :=
  match find_if (fun f => page f =? pg) (frames partition) with
  | Some it =>
      t <- getCurrentTime ;;
      ret (set_frames (update it (set_lastUsed t) (frames partition)) partition)
  | None => ret partition
  end.

Definition updateLFU (partition : Partition) (pg : Z) : M Partition :=
  match find_if (fun f => page f =? pg) (frames partition) with
  | Some it =>
      ret (set_frames
             (update it (fun f => set_frequency (frequency f + 1) f) (frames partition))
             partition)
  | None => ret partition
  end.

(** The five assignments that empty a frame, shared by
    [removeFromPartition], [evictLFU] and [demoteLRU]. *)
Definition clear_frame (now : Z) (f : Frame) : Frame :=
  set_time now (set_extra 0 (set_lastUsed 0 (set_frequency 0 (set_page (-1) f)))).

Definition removeFromPartition (partition : Partition) (pg : Z) : M Partition :=
  match find_if (fun f => page f =? pg) (frames partition) with
  | Some it =>
      now <- steady_clock_now ;;
      ret (set_frames (update it (clear_frame now) (frames partition)) partition)
  | None => ret partition
  end.

Definition insertIntoPartition (partition : Partition) (pg : Z) : M Partition :=
  match find_if is_empty (frames partition) with
  | Some it =>
      t <- getCurrentTime ;;
      ret (set_frames
             (update it (fun f => set_frequency 1 (set_lastUsed t (set_page pg f)))
                     (frames partition))
             partition)
  | None => ret partition
  end.

Definition evictLFU (partition : Partition) : M (Z * Partition) :=
  match min_element lfu_less (frames partition) with
  | Some victimIt =>
      let evictedPage := page (deref victimIt (frames partition)) in
      now <- steady_clock_now ;;
      ret (evictedPage,
           set_frames (update victimIt (clear_frame now) (frames partition)) partition)
  | None => ret (-1, partition)
  end.

Definition demoteLRU (partition : Partition) : M (Z * Partition) :=
  match min_element (fun a b => lastUsed a <? lastUsed b) (frames partition) with
  | Some victimIt =>
      let demotedPage := page (deref victimIt (frames partition)) in
      now <- steady_clock_now ;;
      ret (demotedPage,
           set_frames (update victimIt (clear_frame now) (frames partition)) partition)
  | None => ret (-1, partition)
  end.

Definition handlePageInsertion (lf : LFRUData) (pg : Z) : M LFRUData :=
  if hasSpace (privileged lf) then
    p <- insertIntoPartition (privileged lf) pg ;;
    ret (mkLFRUData p (unprivileged lf))
  else
    d <- demoteLRU (privileged lf) ;;
    let demotedPage := fst d in
    let lf1 := mkLFRUData (snd d) (unprivileged lf) in
    u1 <- (if negb (hasSpace (unprivileged lf1))
           then e <- evictLFU (unprivileged lf1) ;; ret (snd e)
           else ret (unprivileged lf1)) ;;
    u2 <- insertIntoPartition u1 demotedPage ;;
    p <- insertIntoPartition (privileged lf1) pg ;;
    ret (mkLFRUData p u2).

Definition lfru : Policy := fun m data =>
  lf <- match lfruData data with
        | Some lf => ret lf
        | None => LFRUData_new
        end ;;
  if hasPage (privileged lf) (lastPageRef m) then
    p <- updateLRU (privileged lf) (lastPageRef m) ;;
    ret (false, set_lfruData (Some (mkLFRUData p (unprivileged lf))) data)
  else if hasPage (unprivileged lf) (lastPageRef m) then
    u <- removeFromPartition (unprivileged lf) (lastPageRef m) ;;
    let lf1 := mkLFRUData (privileged lf) u in
    lf2 <- (if negb (hasSpace (privileged lf1))
            then
              d <- demoteLRU (privileged lf1) ;;
              let demotedPage := fst d in
              u1 <- (if negb (hasSpace (unprivileged lf1))
                     then e <- evictLFU (unprivileged lf1) ;; ret (snd e)
                     else ret (unprivileged lf1)) ;;
              u2 <- insertIntoPartition u1 demotedPage ;;
              ret (mkLFRUData (snd d) u2)
            else ret lf1) ;;
    p <- insertIntoPartition (privileged lf2) (lastPageRef m) ;;
    ret (false, set_lfruData (Some (mkLFRUData p (unprivileged lf2))) data)
  else
    lf1 <- handlePageInsertion lf (lastPageRef m) ;;
    ret (true, set_lfruData (Some lf1) data).

(** ** The simulator *)

Record Algorithm := mkAlgorithm {
  label : string;
  algoFunc : Policy;
  selected : bool;
  data : AlgorithmData
}.

Definition set_selected (b : bool) (a : Algorithm) : Algorithm :=
  mkAlgorithm (label a) (algoFunc a) b (data a).
Definition set_data (d : AlgorithmData) (a : Algorithm) : Algorithm :=
  mkAlgorithm (label a) (algoFunc a) (selected a) d.

Record CacheReplacementSimulator := mkSimulator {
  members : Members;
  algorithms : list Algorithm
}.

(** [AlgorithmData(numFrames)]: [emplace_back(i)] for [i] in [0..numFrames-1]. *)
Fixpoint emplace_frames (n : nat) (i : Z) : M (list Frame) :=
  match n with
  | O => ret []
  | S k =>
      now <- steady_clock_now ;;
      r <- emplace_frames k (i + 1) ;;
      ret (mkFrame i (-1) now 0 0 0 :: r)
  end.

Definition AlgorithmData_new (nframes : Z) : M AlgorithmData :=
  t <- emplace_frames (Z.to_nat nframes) 0 ;;
  ret (mkAlgorithmData 0 0 t [] 0 None).

(** The policies in the fixed order of [initializeAlgorithms]. *)
Definition policy_list : list (string * Policy) :=
  [ ("OPTIMAL"%string, optimal); ("RANDOM"%string, random);
    ("FIFO"%string, fifo);       ("LRU"%string, lru);
    ("CLOCK"%string, clock);     ("NFU"%string, nfu);
    ("AGING"%string, aging);     ("MRU"%string, mru);
    ("NRU"%string, nru);         ("MFU"%string, mfu);
    ("LFU"%string, lfu);         ("LFRU"%string, lfru) ].

(** The second loop of [initializeAlgorithms]: allocate the data of every
    policy, and the partitions of LFRU. *)
Fixpoint allocate_data (nframes : Z) (l : list (string * Policy)) : M (list Algorithm) :=
  match l with
  | [] => ret []
  | (name, func) :: r =>
      d <- AlgorithmData_new nframes ;;
      d' <- (if String.eqb name "LFRU"
             then lf <- LFRUData_new ;; ret (set_lfruData (Some lf) d)
             else ret d) ;;
      rest <- allocate_data nframes r ;;
      ret (mkAlgorithm name func false d' :: rest)
  end.

Definition initializeAlgorithms (mem : Members) : M CacheReplacementSimulator :=
  algs <- allocate_data (numFrames mem) policy_list ;;
  ret (mkSimulator mem algs).

(** The default member initialisers followed by the constructor body. *)
Definition CacheReplacementSimulator_new : M CacheReplacementSimulator :=
  initializeAlgorithms (mkMembers 12 1048576 1000 false false 0 (-1) []).

Definition setConfiguration (frames maxCalls : Z) (debugMode printRefsMode : bool)
           (sim : CacheReplacementSimulator) : M CacheReplacementSimulator :=
  let mem := members sim in
  initializeAlgorithms
    (mkMembers (Z.max 1 frames) (pageRefUpperBound mem) maxCalls debugMode
               printRefsMode (counter mem) (lastPageRef mem) (pageRefs mem)).

Definition set_pageRefs (l : list PageRef) (sim : CacheReplacementSimulator)
  : CacheReplacementSimulator :=
  let mem := members sim in
  mkSimulator
    (mkMembers (numFrames mem) (pageRefUpperBound mem) (maxPageCalls mem) (debug mem)
               (printRefs mem) (counter mem) (lastPageRef mem) l)
    (algorithms sim).

Definition set_counter (c : Z) (mem : Members) : Members :=
  mkMembers (numFrames mem) (pageRefUpperBound mem) (maxPageCalls mem) (debug mem)
            (printRefs mem) c (lastPageRef mem) (pageRefs mem).
Definition set_lastPageRef (p : Z) (mem : Members) : Members :=
  mkMembers (numFrames mem) (pageRefUpperBound mem) (maxPageCalls mem) (debug mem)
            (printRefs mem) (counter mem) p (pageRefs mem).
Definition set_maxPageCalls (c : Z) (mem : Members) : Members :=
  mkMembers (numFrames mem) (pageRefUpperBound mem) c (debug mem)
            (printRefs mem) (counter mem) (lastPageRef mem) (pageRefs mem).

(** *** Selecting policies *)

Inductive Exception :=
| invalid_argument (what : string)
| out_of_range (what : string).

Definition what (e : Exception) : string :=
  match e with
  | invalid_argument msg => msg
  | out_of_range msg => msg
  end.

Definition selectAlgorithm (algoCode : ascii) (sim : CacheReplacementSimulator)
  : CacheReplacementSimulator * option Exception :=
  (* deselect all policies first *)
  let algs := map (set_selected false) (algorithms sim) in
  let one (i : nat) :=
    (mkSimulator (members sim) (update i (set_selected true) algs), None) in
  if Ascii.eqb algoCode "O" then one 0%nat
  else if Ascii.eqb algoCode "R" then one 1%nat
  else if Ascii.eqb algoCode "F" then one 2%nat
  else if Ascii.eqb algoCode "L" then one 3%nat
  else if Ascii.eqb algoCode "C" then one 4%nat
  else if Ascii.eqb algoCode "N" then one 5%nat
  else if Ascii.eqb algoCode "A" then one 6%nat
  else if Ascii.eqb algoCode "M" then one 7%nat
  else if Ascii.eqb algoCode "n" then one 8%nat
  else if Ascii.eqb algoCode "m" then one 9%nat
  else if Ascii.eqb algoCode "l" then one 10%nat
  else if Ascii.eqb algoCode "f" then one 11%nat
  else if Ascii.eqb algoCode "a" then
    (mkSimulator (members sim) (map (set_selected true) algs), None)
  else
    (mkSimulator (members sim) algs,
     Some (invalid_argument "Invalid algorithm choice")).

(** *** Running *)

Definition printSummary (mem : Members) (algo : Algorithm) : M unit :=
  write_cout (Summary (label algo) (numFrames mem) (hits (data algo)) (misses (data algo))).

Definition printStats (mem : Members) (algo : Algorithm) : M unit :=
  printSummary mem algo ;;;
  write_cout (PageTableDump (pageTable (data algo))).

(** The body of the [for] loop of [processPageReference] for one policy. *)
Definition process_one (mem : Members) (algo : Algorithm) : M Algorithm :=
  if negb (selected algo) then ret algo
  else
    tStart <- high_resolution_clock_now ;;
    r <- algoFunc algo mem (data algo) ;;
    tEnd <- high_resolution_clock_now ;;
    let fault := fst r in
    let d := snd r in
    let d1 := mkAlgorithmData (hits d) (misses d) (pageTable d) (victimList d)
                              (execTime d + (tEnd - tStart)) (lfruData d) in
    let d2 := if fault
              then mkAlgorithmData (hits d1) (misses d1 + 1) (pageTable d1)
                                   (victimList d1) (execTime d1) (lfruData d1)
              else mkAlgorithmData (hits d1 + 1) (misses d1) (pageTable d1)
                                   (victimList d1) (execTime d1) (lfruData d1) in
    let algo' := set_data d2 algo in
    (if printRefs mem then printStats mem algo' else ret tt) ;;;
    ret algo'.

Fixpoint process_each (mem : Members) (algs : list Algorithm) : M (list Algorithm) :=
  match algs with
  | [] => ret []
  | a :: r =>
      a' <- process_one mem a ;;
      r' <- process_each mem r ;;
      ret (a' :: r')
  end.

Definition processPageReference (pageRef : Z) (sim : CacheReplacementSimulator)
  : M CacheReplacementSimulator :=
  let mem := set_lastPageRef pageRef (members sim) in
  algs <- process_each mem (algorithms sim) ;;
  ret (mkSimulator mem algs).

Definition pageRefs_size (mem : Members) : Z := Z.of_nat (List.length (pageRefs mem)).

(** The [for] loop of [runSimulation]; one unit of [fuel] is one test of the
    loop condition followed, when it holds, by one execution of the body and
    of [++counter]. *)
Fixpoint runSimulation_for (fuel : nat) (sim : CacheReplacementSimulator)
  : M CacheReplacementSimulator :=
  match fuel with
  | O => ret sim
  | S fuel' =>
      let mem := members sim in
      if (counter mem <? maxPageCalls mem)
         && (counter mem <? static_cast_int (pageRefs_size mem))
      then
        sim1 <- processPageReference
                  (pageNum (nth (Z.to_nat (counter mem)) (pageRefs mem) (mkPageRef (-1) (-1))))
                  sim ;;
        runSimulation_for fuel'
          (mkSimulator (set_counter (counter (members sim1) + 1) (members sim1))
                       (algorithms sim1))
      else ret sim
  end.

(** The two statements of [runSimulation] that precede its loop. *)
Definition runSimulation_init (sim : CacheReplacementSimulator) : CacheReplacementSimulator :=
  let mem0 := set_counter 0 (members sim) in
  mkSimulator
    (set_maxPageCalls
       (Z.min (maxPageCalls mem0) (static_cast_int (pageRefs_size mem0))) mem0)
    (algorithms sim).

(** *** Hit ratios

    [getHitRatio] divides two [int]s converted to [double].  The conversions
    are exact and the quotient is rounded to the nearest binary64 number,
    ties to even.  A [double] is kept as an integer and a binary exponent:
    [(m, e)] stands for [m / 2^e].  For operands in the range of [int] the
    exponent chosen below is positive and the quotient is a normal number. *)
Definition double : Type := (Z * Z)%type.

(** The quotient of two positive integers, rounded to 53 significant bits. *)
Definition round_quotient (a b : Z) : double :=
  let e0 := 52 + Z.log2 b - Z.log2 a in
  let e := if a * 2 ^ e0 <? b * 2 ^ 52 then e0 + 1 else e0 in
  let q := (a * 2 ^ e) / b in
  let r := (a * 2 ^ e) mod b in
  let m := if (b <? 2 * r) || ((2 * r =? b) && Z.odd q) then q + 1 else q in
  (m, e).

(** [static_cast<double>(a) / b] for [b > 0]. *)
Definition double_div (a b : Z) : double :=
  if a =? 0 then (0, 0)
  else if a <? 0 then (- fst (round_quotient (- a) b), snd (round_quotient (- a) b))
  else round_quotient a b.

(** [x > y] on two [double]s. *)
Definition double_gt (x y : double) : bool :=
  fst y * 2 ^ snd x <? fst x * 2 ^ snd y.

Definition getHitRatio (d : AlgorithmData) : double :=
  let total := hits d + misses d in
  if total >? 0 then double_div (hits d) total else (0, 0).

(** *** Sorting the policies

    [std::ranges::sort] leaves the order of equivalent elements open.  The
    vector of policies has twelve elements, and on a range of at most
    sixteen elements the sort of libstdc++ is its insertion sort alone:
    each element in turn goes to the front if it precedes the first one,
    and is otherwise moved back past the elements it precedes. *)

(** [before] holds the elements in front of [val], the nearest first, and
    so does the result. *)
Fixpoint unguarded_linear_insert {A} (comp : A -> A -> bool) (val : A) (before : list A)
  : list A :=
  match before with
  | [] => [val]
  | x :: r => if comp val x then x :: unguarded_linear_insert comp val r
              else val :: before
  end.

Definition insertion_step {A} (comp : A -> A -> bool) (before : list A) (val : A)
  : list A :=
  match rev before with
  | [] => [val]
  | first :: _ => if comp val first then before ++ [val]
                  else unguarded_linear_insert comp val before
  end.

Definition ranges_sort {A} (comp : A -> A -> bool) (l : list A) : list A :=
  rev (fold_left (insertion_step comp) l []).

(** The last loop of [runSimulation]. *)
Fixpoint print_summaries (mem : Members) (algs : list Algorithm) : M unit :=
  match algs with
  | [] => ret tt
  | a :: r =>
      (if selected a then printSummary mem a else ret tt) ;;;
      print_summaries mem r
  end.

(** [runSimulation]: the loop, with the fuel that the trace needs, then the
    sort of the policies by descending hit ratio and one summary for each
    selected policy. *)
Definition runSimulation (sim : CacheReplacementSimulator) : M CacheReplacementSimulator :=
  sim1 <- runSimulation_for (S (List.length (pageRefs (members sim))))
                            (runSimulation_init sim) ;;
  let sorted :=
    ranges_sort (fun a b => double_gt (getHitRatio (data a)) (getHitRatio (data b)))
                (algorithms sim1) in
  print_summaries (members sim1) sorted ;;;
  ret (mkSimulator (members sim1) sorted).

(** *** Loading a trace file

    [file >> pid >> page] uses the formatted extraction of [int]: leading
    white space is skipped, an optional sign and a non-empty run of decimal
    digits are read, and a value outside the range of [int] sets the fail
    bit like a missing digit does. *)

Definition isspace (c : ascii) : bool :=
  Ascii.eqb c " " || Ascii.eqb c "009" || Ascii.eqb c "010"
  || Ascii.eqb c "011" || Ascii.eqb c "012" || Ascii.eqb c "013".

Fixpoint skip_whitespace (s : string) : string :=
  match s with
  | String c r => if isspace c then skip_whitespace r else s
  | EmptyString => s
  end.

Definition digit_value (c : ascii) : option Z :=
  let n := Z.of_nat (nat_of_ascii c) in
  if (48 <=? n) && (n <=? 57) then Some (n - 48) else None.

(** The digits of one field: the accumulated value, whether a digit was
    seen, and the unread rest of the stream. *)
Fixpoint read_digits (s : string) (acc : Z) (seen : bool) : Z * bool * string :=
  match s with
  | String c r =>
      match digit_value c with
      | Some d => read_digits r (acc * 10 + d) true
      | None => (acc, seen, s)
      end
  | EmptyString => (acc, seen, s)
  end.

(** [stream >> value] for an [int]: [None] when the extraction fails. *)
Definition extract_int (s : string) : option Z * string :=
  let s1 := skip_whitespace s in
  let signed :=
    match s1 with
    | String c r => if Ascii.eqb c "-" then (true, r)
                    else if Ascii.eqb c "+" then (false, r)
                    else (false, s1)
    | EmptyString => (false, s1)
    end in
  let d := read_digits (snd signed) 0 false in
  let v := if fst signed then - fst (fst d) else fst (fst d) in
  if negb (snd (fst d)) then (None, snd d)
  else if (v <? - INT_MAX - 1) || (v >? INT_MAX) then (None, snd d)
  else (Some v, snd d).

(** [file >> pid >> page]: the second extraction is not attempted once the
    first has failed. *)
Definition extract_pair (s : string) : option (Z * Z * string) :=
  match extract_int s with
  | (Some p, s1) =>
      match extract_int s1 with
      | (Some pg, s2) => Some (p, pg, s2)
      | (None, _) => None
      end
  | (None, _) => None
  end.

(** [while (file >> pid >> page) pageRefs.emplace_back(page, pid);] with one
    unit of [fuel] per test of the loop condition. *)
Fixpoint read_references (fuel : nat) (s : string) (acc : list PageRef) : list PageRef :=
  match fuel with
  | O => acc
  | S k =>
      match extract_pair s with
      | Some (p, pg, s') => read_references k s' (acc ++ [mkPageRef pg p])
      | None => acc
      end
  end.

Definition loadPageReferences (filename : string) (sim : CacheReplacementSimulator)
  : M (bool * CacheReplacementSimulator) :=
  file <- open_file filename ;;
  match file with
  | None =>
      write_cerr (ErrorOpening filename) ;;;
      ret (false, sim)
  | Some content =>
      let refs := read_references (S (String.length content)) content [] in
      write_cout (Loaded (List.length refs) filename) ;;;
      ret (true, set_pageRefs refs sim)
  end.

(** ** The command-line driver (main.cpp)

    [argv] is the list of the arguments, the program name first; [argc] is
    its length. *)

Definition validCodes : string := "ORFLCNAMnmlfa".

Fixpoint string_find (c : ascii) (s : string) : bool :=
  match s with
  | EmptyString => false
  | String x r => Ascii.eqb x c || string_find c r
  end.

(** [std::string::find] of a character: its first position, [None] for
    [npos]. *)
Fixpoint string_position (c : ascii) (s : string) : option nat :=
  match s with
  | EmptyString => None
  | String x r => if Ascii.eqb x c then Some O else option_map S (string_position c r)
  end.

(** [argv[i]] and [argv[i][0]]: the first character of an empty argument is
    its terminating zero. *)
Definition arg (i : nat) (argv : list string) : string := nth i argv EmptyString.

Definition first_char (s : string) : ascii :=
  match s with
  | String c _ => c
  | EmptyString => "000"%char
  end.

(** [std::stoi]: white space is skipped, an optional sign and a non-empty
    run of decimal digits are converted and what follows them is ignored;
    without a digit it throws [invalid_argument], with a value outside the
    range of [int] it throws [out_of_range]. *)
Definition stoi (s : string) : Z + Exception :=
  let s1 := skip_whitespace s in
  let signed :=
    match s1 with
    | String c r => if Ascii.eqb c "-" then (true, r)
                    else if Ascii.eqb c "+" then (false, r)
                    else (false, s1)
    | EmptyString => (false, s1)
    end in
  let d := read_digits (snd signed) 0 false in
  let v := if fst signed then - fst (fst d) else fst (fst d) in
  if negb (snd (fst d)) then inr (invalid_argument "stoi")
  else if (v <? - INT_MAX - 1) || (v >? INT_MAX) then inr (out_of_range "stoi")
  else inl v.

(** The text that [printAlgorithmInfo] writes for an algorithm code. *)
Definition printAlgorithmInfo (algorithmCode : ascii) : string :=
  ("Selected Algorithm: " ++
   (if Ascii.eqb algorithmCode "O" then "OPTIMAL (Belady's optimal algorithm)"
    else if Ascii.eqb algorithmCode "R" then "RANDOM (Random replacement)"
    else if Ascii.eqb algorithmCode "F" then "FIFO (First-In-First-Out)"
    else if Ascii.eqb algorithmCode "L" then "LRU (Least Recently Used)"
    else if Ascii.eqb algorithmCode "C" then "CLOCK (Second-chance algorithm)"
    else if Ascii.eqb algorithmCode "N" then "NFU (Not Frequently Used)"
    else if Ascii.eqb algorithmCode "A" then "AGING (Aging algorithm)"
    else if Ascii.eqb algorithmCode "M" then "MRU (Most Recently Used)"
    else if Ascii.eqb algorithmCode "n" then "NRU (Not Recently Used)"
    else if Ascii.eqb algorithmCode "m" then "MFU (Most Frequently Used)"
    else if Ascii.eqb algorithmCode "l" then "LFU (Least Frequently Used)"
    else if Ascii.eqb algorithmCode "f" then "LFRU (Least Frequently Recently Used)"
    else if Ascii.eqb algorithmCode "a" then "ALL (All algorithms for comparison)"
    else "Unknown"))%string.

Definition printUsageAndAlgorithms (programName : string) : M unit :=
  write_cout (UsageAndAlgorithms programName).

(** The check of one optional argument, [show_process] or [debug]: [None]
    when it passes. *)
Definition validate_flag (name : string) (s : string) : option string :=
  match stoi s with
  | inl v => if negb (v =? 0) && negb (v =? 1)
             then Some (name ++ " must be 0 or 1")%string
             else None
  | inr _ => Some ("Invalid " ++ name ++ " value: " ++ s)%string
  end.

(** [validateArguments]: [None] when it returns true, [Some errorMsg] when
    it returns false. *)
Definition validateArguments (argv : list string) : option string :=
  let argc := Z.of_nat (List.length argv) in
  if argc <? 4 then Some "Too few arguments"%string
  else if argc >? 6 then Some "Too many arguments"%string
  else
    let algoCode := first_char (arg 2 argv) in
    if negb (string_find algoCode validCodes)
    then Some ("Invalid algorithm code '" ++ String algoCode "'")%string
    else
      match stoi (arg 3 argv) with
      | inr _ => Some ("Invalid number of frames: " ++ arg 3 argv)%string
      | inl numFrames =>
          if numFrames <? 1 then Some "Number of frames must be at least 1"%string
          else if numFrames >? 1000 then Some "Number of frames too large (max 1000)"%string
          else
            match (if argc >? 4 then validate_flag "show_process" (arg 4 argv) else None) with
            | Some msg => Some msg
            | None => if argc >? 5 then validate_flag "debug" (arg 5 argv) else None
            end
      end.

(** The frame count that [main] passes to [setConfiguration]. *)
Definition main_frame_count (algorithmCode : ascii) (nframes : Z) : M Z :=
  if Ascii.eqb algorithmCode "f" || Ascii.eqb algorithmCode "a" then
    let totalLFRUFrames := PRIVILEGED_PARTITION_SIZE + UNPRIVILEGED_PARTITION_SIZE in
    if nframes <? totalLFRUFrames then
      write_cout (WarnLFRUAdjust totalLFRUFrames) ;;;
      ret totalLFRUFrames
    else ret nframes
  else ret nframes.

(** What [main] does with its arguments once they are converted: the exit
    code and the simulator. *)
Definition main_simulation (programName filename : string) (algorithmCode : ascii)
           (numFrames : Z) (showRefs debugFlag : bool)
  : M (Z * option CacheReplacementSimulator) :=
  write_cout (Configuration filename (printAlgorithmInfo algorithmCode) numFrames
                            showRefs debugFlag) ;;;
  numFrames1 <- main_frame_count algorithmCode numFrames ;;
  simulator0 <- CacheReplacementSimulator_new ;;
  simulator1 <- setConfiguration numFrames1 1000 debugFlag showRefs simulator0 ;;
  write_cout LoadingNotice ;;;
  loaded <- loadPageReferences filename simulator1 ;;
  if negb (fst loaded) then
    write_cerr (LoadFailure filename) ;;;
    ret (1, Some (snd loaded))
  else
    match selectAlgorithm algorithmCode (snd loaded) with
    | (simulator2, Some (invalid_argument msg)) =>
        (* the handler of std::invalid_argument around selectAlgorithm *)
        write_cerr (ErrorMessage msg) ;;;
        ret (1, Some simulator2)
    | (simulator2, Some e) =>
        (* any other exception reaches the handler of std::exception *)
        write_cerr (FatalError (what e) programName) ;;;
        ret (1, Some simulator2)
    | (simulator2, None) =>
        write_cout (StartNotice showRefs) ;;;
        startTime <- high_resolution_clock_now ;;
        simulator3 <- runSimulation simulator2 ;;
        endTime <- high_resolution_clock_now ;;
        write_cout (Completed (endTime - startTime)) ;;;
        (if Ascii.eqb algorithmCode "a" then write_cout SortedNotice else ret tt) ;;;
        write_cout Farewell ;;;
        ret (0, Some simulator3)
    end.

(** The conversion of an optional argument in the [try] block of [main]:
    false when the argument is absent. *)
Definition stoi_flag (present : bool) (s : string) : bool + Exception :=
  if present then
    match stoi s with
    | inl v => inl (negb (v =? 0))
    | inr e => inr e
    end
  else inl false.

(** [main]: the exit code and the simulator, when one was created.  An
    exception thrown by a conversion in the [try] block goes to the handler
    of [std::exception]; the last handler, [catch (...)], has nothing to
    catch, since [std::stoi] and [selectAlgorithm] throw nothing else. *)
Definition main (argv : list string) : M (Z * option CacheReplacementSimulator) :=
  let argc := Z.of_nat (List.length argv) in
  write_cout Banner ;;;
  if (argc =? 2)
     && (String.eqb (arg 1 argv) "--help" || String.eqb (arg 1 argv) "-h")
  then
    printUsageAndAlgorithms (arg 0 argv) ;;;
    ret (0, None)
  else
    match validateArguments argv with
    | Some errorMsg =>
        write_cerr (ErrorMessage errorMsg) ;;;
        printUsageAndAlgorithms (arg 0 argv) ;;;
        ret (1, None)
    | None =>
        let fatal (e : Exception) :=
          write_cerr (FatalError (what e) (arg 0 argv)) ;;;
          ret (1, None) in
        match stoi (arg 3 argv) with
        | inr e => fatal e
        | inl numFrames =>
            match stoi_flag (argc >? 4) (arg 4 argv) with
            | inr e => fatal e
            | inl showRefs =>
                match stoi_flag (argc >? 5) (arg 5 argv) with
                | inr e => fatal e
                | inl debugFlag =>
                    main_simulation (arg 0 argv) (arg 1 argv) (first_char (arg 2 argv))
                                    numFrames showRefs debugFlag
                end
            end
        end
    end.

(** A process in which nothing has run yet: both statics hold their
    initialisers and nothing was read or written. *)
Definition fresh_process (sc hc : nat -> Z) (r : nat -> nat)
           (fs : string -> option string) : Process :=
  mkProcess sc 0 hc 0 r 0 0 0 [] [] fs.

(** * Properties *)

(** ** Facts about the iterator functions *)

Section Iterators.
Context {A : Type}.
Implicit Types (p : A -> bool) (l : list A) (g : A -> A).

Lemma find_if_None p l :
  find_if p l = None <-> (forall x, In x l -> p x = false).
Proof.
  induction l as [|a l IH]; simpl.
  - split; [intros _ x [] | reflexivity].
  - destruct (p a) eqn:Ha.
    + split; [discriminate|]. intros H. rewrite (H a) in Ha by auto. discriminate.
    + destruct (find_if p l) as [i|].
      * split; [discriminate|]. intros H.
        assert (Some i = None :> option nat) by (apply IH; auto). discriminate.
      * split; [|reflexivity]. intros _ x [<-|Hx]; [assumption|].
        now apply IH.
Qed.

Lemma find_if_Some p l i :
  find_if p l = Some i ->
  exists x, nth_error l i = Some x /\ p x = true /\
            forall j y, (j < i)%nat -> nth_error l j = Some y -> p y = false.
Proof.
  revert i. induction l as [|a l IH]; simpl; intros i H; [discriminate|].
  destruct (p a) eqn:Ha.
  - injection H as <-. exists a. repeat split; auto. intros j y Hj. lia.
  - destruct (find_if p l) as [k|]; [|discriminate]. injection H as <-.
    destruct (IH k eq_refl) as (x & Hx & Hp & Hlt).
    exists x. repeat split; auto.
    intros [|j] y Hj Hy; simpl in Hy.
    + now injection Hy as <-.
    + apply (Hlt j); auto. lia.
Qed.

Lemma find_if_Some_lt p l i : find_if p l = Some i -> (i < List.length l)%nat.
Proof.
  intros H. destruct (find_if_Some _ _ _ H) as (x & Hx & _).
  apply nth_error_Some. congruence.
Qed.

Lemma find_if_exists p l x :
  In x l -> p x = true -> exists i, find_if p l = Some i.
Proof.
  intros Hin Hp. destruct (find_if p l) as [i|] eqn:E; [now exists i|].
  rewrite find_if_None in E. rewrite (E x Hin) in Hp. discriminate.
Qed.

Lemma length_update it g l : List.length (update it g l) = List.length l.
Proof.
  revert it. induction l as [|a l IH]; intros [|it]; simpl; auto.
Qed.

Lemma nth_error_update_eq it g l x :
  nth_error l it = Some x -> nth_error (update it g l) it = Some (g x).
Proof.
  revert it. induction l as [|a l IH]; intros [|it]; simpl; try discriminate.
  - now intros [= ->].
  - apply IH.
Qed.

Lemma nth_error_update_ne it j g l :
  it <> j -> nth_error (update it g l) j = nth_error l j.
Proof.
  revert it j. induction l as [|a l IH]; intros [|it] [|j] H; simpl; auto;
    try congruence.
Qed.

Lemma update_out_of_range it g l :
  (List.length l <= it)%nat -> update it g l = l.
Proof.
  revert it. induction l as [|a l IH]; intros [|it] H; simpl in *; auto; try lia.
  f_equal. apply IH. lia.
Qed.

Lemma min_element_from_lt comp l i s sv :
  (s < i)%nat ->
  (min_element_from comp l i s sv < i + List.length l)%nat.
Proof.
  revert i s sv. induction l as [|a l IH]; simpl; intros i s sv H; [lia|].
  destruct (comp a sv).
  - specialize (IH (S i) i a). lia.
  - specialize (IH (S i) s sv). lia.
Qed.

Lemma min_element_lt comp l it :
  min_element comp l = Some it -> (it < List.length l)%nat.
Proof.
  destruct l as [|a l]; simpl; [discriminate|]. intros [= <-].
  pose proof (min_element_from_lt comp l 1 0 a). lia.
Qed.

Lemma min_element_None comp l : min_element comp l = None -> l = [].
Proof. destruct l; [reflexivity|discriminate]. Qed.

Lemma max_element_from_lt comp l i s sv :
  (s < i)%nat ->
  (max_element_from comp l i s sv < i + List.length l)%nat.
Proof.
  revert i s sv. induction l as [|a l IH]; simpl; intros i s sv H; [lia|].
  destruct (comp sv a).
  - specialize (IH (S i) i a). lia.
  - specialize (IH (S i) s sv). lia.
Qed.

Lemma max_element_lt comp l it :
  max_element comp l = Some it -> (it < List.length l)%nat.
Proof.
  destruct l as [|a l]; simpl; [discriminate|]. intros [= <-].
  pose proof (max_element_from_lt comp l 1 0 a). lia.
Qed.

Lemma max_element_None comp l : max_element comp l = None -> l = [].
Proof. destruct l; [reflexivity|discriminate]. Qed.
End Iterators.

(** ** FIFO: a hit changes nothing *)

(** C4.  When the requested page is resident, [fifo] reports a hit and
    returns the policy data exactly as it received it: the page table, with
    every field of every frame, and the victim list are unchanged, and
    neither the clock nor any other part of the process is touched. *)
Theorem fifo_hit_is_noop (m : Members) (d : AlgorithmData) (w : Process) :
  (exists f, In f (pageTable d) /\ page f = lastPageRef m) ->
  fifo m d w = (false, d, w).
Proof.
  intros (f & Hin & Hp). unfold fifo.
  destruct (find_if_exists (is_requested m) (pageTable d) f Hin) as [i ->].
  - unfold is_requested. now apply Z.eqb_eq.
  - reflexivity.
Qed.

Lemma fifo_hit_is_noop_witness :
  let m := mkMembers 3 1048576 1000 false false 4 5 [] in
  let d := mkAlgorithmData 1 3 [mkFrame 0 7 10 0 0 0; mkFrame 1 5 11 1 0 0;
                                mkFrame 2 (-1) 2 0 0 0] [] 0 None in
  let w := fresh_process (fun n => Z.of_nat n) (fun n => Z.of_nat n) (fun n => n)
                         (fun _ => None) in
  fifo m d w = (false, d, w).
Proof.
  intros m d w. apply (fifo_hit_is_noop m d w).
  exists (mkFrame 1 5 11 1 0 0). split; [simpl; auto | reflexivity].
Defined.

(** ** Selecting an unknown policy *)

(** C10.  [selectAlgorithm] clears every [selected] flag before it looks at
    the code: whatever the code, the selection made before the call has no
    influence on the result.  A valid code then selects on top of the
    cleared flags and does not throw: the code [a] every policy, any other
    code the one policy whose position in the vector is the position of the
    code in [ORFLCNAMnmlf].  A code outside the thirteen valid ones throws
    [invalid_argument] after the flags were cleared: the simulator is left
    with no policy selected, the previous selection is not restored, and
    nothing else about the policies is changed. *)
Theorem selectAlgorithm_invalid_deselects_all
        (algoCode : ascii) (sim : CacheReplacementSimulator) :
  let cleared := mkSimulator (members sim) (map (set_selected false) (algorithms sim)) in
  selectAlgorithm algoCode sim = selectAlgorithm algoCode cleared /\
  (string_find algoCode validCodes = true ->
   snd (selectAlgorithm algoCode sim) = None /\
   if Ascii.eqb algoCode "a"
   then fst (selectAlgorithm algoCode sim)
        = mkSimulator (members sim) (map (set_selected true) (algorithms sim))
   else exists i,
       string_position algoCode validCodes = Some i /\ (i < 12)%nat /\
       fst (selectAlgorithm algoCode sim)
       = mkSimulator (members sim) (update i (set_selected true) (algorithms cleared))) /\
  (string_find algoCode validCodes = false ->
   selectAlgorithm algoCode sim =
     (cleared, Some (invalid_argument "Invalid algorithm choice"))
   /\ Forall (fun a => selected a = false)
             (algorithms (fst (selectAlgorithm algoCode sim)))).
Proof.
  intros cleared.
  assert (Hidem : map (set_selected false) (algorithms cleared)
                  = map (set_selected false) (algorithms sim)).
  { unfold cleared. cbn [algorithms]. rewrite map_map. apply map_ext.
    intros a. reflexivity. }
  split; [|split].
  - unfold selectAlgorithm. rewrite Hidem. reflexivity.
  - intros H. unfold validCodes in H. cbn [string_find] in H.
    rewrite !orb_true_iff, !Ascii.eqb_eq in H.
    assert (Hall : map (set_selected true) (map (set_selected false) (algorithms sim))
                   = map (set_selected true) (algorithms sim)).
    { rewrite map_map. apply map_ext. intros a. reflexivity. }
    repeat (destruct H as [H|H]; [subst algoCode; split; [reflexivity|];
                                  cbv [Ascii.eqb Bool.eqb andb];
                                  eexists; split; [reflexivity|]; split; [lia|reflexivity]|]).
    destruct H as [H|H]; [|discriminate H]. subst algoCode. split; [reflexivity|].
    unfold selectAlgorithm. cbv [Ascii.eqb Bool.eqb andb]. cbn [fst].
    now rewrite Hall.
  - intros H. unfold validCodes in H. cbn [string_find] in H.
    repeat (apply orb_false_elim in H; destruct H as [?E H]).
    clear H. unfold selectAlgorithm.
    repeat match goal with
           | E : Ascii.eqb _ algoCode = false |- _ => rewrite Ascii.eqb_sym in E
           end.
    repeat match goal with
           | E : Ascii.eqb algoCode _ = false |- _ => rewrite E; clear E
           end.
    split; [reflexivity|]. simpl.
    apply Forall_forall. intros a Ha. apply in_map_iff in Ha.
    destruct Ha as (b & <- & _). reflexivity.
Qed.

Lemma selectAlgorithm_invalid_deselects_all_witness :
  let sim := mkSimulator (mkMembers 3 1048576 1000 false false 0 (-1) [])
               [mkAlgorithm "FIFO" fifo true (mkAlgorithmData 0 0 [] [] 0 None);
                mkAlgorithm "LRU" lru true (mkAlgorithmData 0 0 [] [] 0 None)] in
  map selected (algorithms (fst (selectAlgorithm "R" sim))) = [false; true] /\
  snd (selectAlgorithm "R" sim) = None /\
  map selected (algorithms (fst (selectAlgorithm "X" sim))) = [false; false] /\
  snd (selectAlgorithm "X" sim) = Some (invalid_argument "Invalid algorithm choice").
Proof.
  intros sim.
  destruct (selectAlgorithm_invalid_deselects_all "R" sim) as (_ & HR & _).
  destruct (selectAlgorithm_invalid_deselects_all "X" sim) as (_ & _ & HX).
  destruct (HR eq_refl) as [HR1 HR2]. destruct (HX eq_refl) as [HX1 HX2].
  cbv [Ascii.eqb Bool.eqb andb] in HR2. destruct HR2 as (i & Hi & _ & HR2).
  injection Hi as <-.
  split; [rewrite HR2; reflexivity|]. split; [exact HR1|].
  split; [rewrite HX1; reflexivity|]. rewrite HX1. reflexivity.
Defined.

(** ** Effect of an assignment through an iterator on the pages held *)

Lemma map_page_update_keep (it : nat) (g : Frame -> Frame) (l : list Frame) :
  (forall f, page (g f) = page f) ->
  map page (update it g l) = map page l.
Proof.
  intros Hg. revert it. induction l as [|a l IH]; intros [|it]; simpl; auto.
  - now rewrite Hg.
  - now rewrite IH.
Qed.

Lemma map_page_update_set (it : nat) (g : Frame -> Frame) (p : Z) (l : list Frame) :
  (forall f, page (g f) = p) ->
  map page (update it g l) = update it (fun _ => p) (map page l).
Proof.
  intros Hg. revert it. induction l as [|a l IH]; intros [|it]; simpl; auto.
  - now rewrite Hg.
  - now rewrite IH.
Qed.

Lemma deref_nth_error (it : nat) (l : list Frame) (f : Frame) :
  nth_error l it = Some f -> deref it l = f.
Proof. intros H. unfold deref. now apply nth_error_nth. Qed.

Lemma nth_error_deref (it : nat) (l : list Frame) :
  (it < List.length l)%nat -> nth_error l it = Some (deref it l).
Proof. intros H. unfold deref. now apply nth_error_nth'. Qed.

(** ** CLOCK: the victim search *)

Lemma next_hand (h F : Z) :
  0 <= h < F -> Z.rem (h + 1) F = if h + 1 =? F then 0 else h + 1.
Proof.
  intros H. rewrite Z.rem_mod_nonneg by lia.
  destruct (Z.eqb_spec (h + 1) F) as [->|Hne].
  - apply Z_mod_same_full.
  - apply Z.mod_small. lia.
Qed.

(** Number of loop iterations after which the hand, now at [h], is back at
    [s]. *)
Definition revolution_left (s h F : Z) : Z :=
  if h <? s then s - h else s - h + F.

(** What one completed search does to the policy data.  [pos] is the
    position of the victim. *)
Definition evicts_one (m : Members) (d d' : AlgorithmData) (pos : nat) : Prop :=
  (pos < List.length (pageTable d))%nat /\
  (exists v, victimList d' = victimList d ++ [v]
             /\ index v = index (deref pos (pageTable d))
             /\ page v = page (deref pos (pageTable d))) /\
  map page (pageTable d') = update pos (fun _ => lastPageRef m) (map page (pageTable d)) /\
  map index (pageTable d') = map index (pageTable d) /\
  extra (deref pos (pageTable d')) = 1 /\
  hits d' = hits d /\ misses d' = misses d /\ lfruData d' = lfruData d.

Lemma map_index_update_keep (it : nat) (g : Frame -> Frame) (l : list Frame) :
  (forall f, index (g f) = index f) ->
  map index (update it g l) = map index l.
Proof.
  intros Hg. revert it. induction l as [|a l IH]; intros [|it]; simpl; auto.
  - now rewrite Hg.
  - now rewrite IH.
Qed.

Lemma deref_map_page (it : nat) (l l' : list Frame) :
  map page l' = map page l -> page (deref it l') = page (deref it l).
Proof.
  intros H. unfold deref.
  change (page (nth it l' (Frame_default 0))) with
    (page (nth it l' (Frame_default 0))).
  rewrite <- !(map_nth page). now rewrite H.
Qed.

Lemma deref_map_index (it : nat) (l l' : list Frame) :
  map index l' = map index l -> index (deref it l') = index (deref it l).
Proof.
  intros H. unfold deref. rewrite <- !(map_nth index). now rewrite H.
Qed.

Lemma deref_update_eq (it : nat) (g : Frame -> Frame) (l : list Frame) :
  (it < List.length l)%nat -> deref it (update it g l) = g (deref it l).
Proof.
  intros H. apply deref_nth_error. apply nth_error_update_eq.
  now apply nth_error_deref.
Qed.

Lemma clock_search_progress (fuel : nat) :
  forall (m : Members) (s : Z) (it : nat) (d : AlgorithmData) (w : Process),
    1 <= numFrames m ->
    List.length (pageTable d) = Z.to_nat (numFrames m) ->
    0 <= s < numFrames m ->
    0 <= clockHand w < numFrames m ->
    (Z.to_nat (revolution_left s (clockHand w) (numFrames m)) <= fuel)%nat ->
    exists iters inloop d' w' pos,
      clock_search fuel m s it d w = (Some (iters, inloop, d'), w') /\
      (it < iters)%nat /\
      (iters <= it + Z.to_nat (revolution_left s (clockHand w) (numFrames m)))%nat /\
      evicts_one m d d' pos /\
      0 <= clockHand w' < numFrames m.
Proof.
  induction fuel as [|fuel IH]; intros m s it d w HF Hlen Hs Hh Hfuel.
  - exfalso. unfold revolution_left in Hfuel.
    destruct (clockHand w <? s) eqn:E;
      [apply Z.ltb_lt in E | apply Z.ltb_ge in E]; lia.
  - assert (Hpos : (Z.to_nat (clockHand w) < List.length (pageTable d))%nat) by lia.
    cbn [clock_search]. unfold bind, get_clockHand, put_clockHand, ret. cbn [fst snd clockHand].
    destruct (extra (deref (Z.to_nat (clockHand w)) (pageTable d)) =? 0) eqn:Ebit.
    + (* the frame under the hand has its bit clear: it is the victim *)
      eexists _, _, _, _, (Z.to_nat (clockHand w)). split; [reflexivity|].
      assert (1 <= revolution_left s (clockHand w) (numFrames m)).
      { unfold revolution_left. destruct (clockHand w <? s) eqn:E;
          [apply Z.ltb_lt in E | apply Z.ltb_ge in E]; lia. }
      split; [lia|]. split; [lia|]. split.
      * unfold evicts_one; cbn -[deref update Z.to_nat]. split; [assumption|]. split; [eauto|].
        split; [now apply map_page_update_set|].
        split; [now apply map_index_update_keep|].
        rewrite deref_update_eq by assumption. auto.
      * cbn -[Z.rem]. rewrite next_hand by assumption.
        destruct (clockHand w + 1 =? numFrames m) eqn:E;
          [apply Z.eqb_eq in E | apply Z.eqb_neq in E]; lia.
    + (* second chance: clear the bit and advance *)
      set (d1 := set_pageTable (update (Z.to_nat (clockHand w)) (set_extra 0) (pageTable d)) d).
      set (h' := Z.rem (clockHand w + 1) (numFrames m)).
      assert (Hh' : h' = if clockHand w + 1 =? numFrames m then 0 else clockHand w + 1)
        by (apply next_hand; assumption).
      assert (Hh'r : 0 <= h' < numFrames m).
      { rewrite Hh'. destruct (clockHand w + 1 =? numFrames m) eqn:E;
          [apply Z.eqb_eq in E | apply Z.eqb_neq in E]; lia. }
      assert (Hpages : map page (pageTable d1) = map page (pageTable d))
        by (now apply map_page_update_keep).
      assert (Hidx : map index (pageTable d1) = map index (pageTable d))
        by (now apply map_index_update_keep).
      assert (Hlen1 : List.length (pageTable d1) = Z.to_nat (numFrames m))
        by (cbn; now rewrite length_update).
      destruct (h' =? s) eqn:Eback; cbn [negb].
      * (* a full cycle was made *)
        apply Z.eqb_eq in Eback.
        eexists _, _, _, _, (Z.to_nat h'). split; [reflexivity|].
        assert (1 <= revolution_left s (clockHand w) (numFrames m)).
        { unfold revolution_left. destruct (clockHand w <? s) eqn:E;
            [apply Z.ltb_lt in E | apply Z.ltb_ge in E]; lia. }
        split; [lia|]. split; [lia|]. split.
        -- unfold evicts_one; cbn -[deref update Z.to_nat]. split; [lia|]. split.
           ++ eexists. split; [reflexivity|]. split.
              ** now apply deref_map_index.
              ** now apply deref_map_page.
           ++ split.
              ** rewrite map_page_update_set with (p := lastPageRef m) by reflexivity.
                 f_equal. exact Hpages.
              ** split.
                 --- rewrite map_index_update_keep by reflexivity. exact Hidx.
                 --- rewrite deref_update_eq by (rewrite length_update; lia). auto.
        -- cbn -[Z.rem]. fold h'. rewrite next_hand by assumption.
           destruct (h' + 1 =? numFrames m) eqn:E;
             [apply Z.eqb_eq in E | apply Z.eqb_neq in E]; lia.
      * apply Z.eqb_neq in Eback.
        match goal with
        | |- context [clock_search fuel m s (S it) d1 ?w1] =>
            destruct (IH m s (S it) d1 w1) as (iters & inloop & d' & w' & pos & Hrun & Hlo & Hhi & Hev & Hw');
            cbn [clockHand]; fold h'; try assumption
        end.
        { unfold revolution_left in *. rewrite Hh' in *.
          destruct (clockHand w <? s) eqn:E1;
            [apply Z.ltb_lt in E1 | apply Z.ltb_ge in E1];
          destruct (clockHand w + 1 =? numFrames m) eqn:E2;
            [apply Z.eqb_eq in E2 | apply Z.eqb_neq in E2| apply Z.eqb_eq in E2 | apply Z.eqb_neq in E2];
          match goal with |- context [?a <? ?b] => destruct (Z.ltb_spec a b) end; lia. }
        exists iters, inloop, d', w', pos. split; [exact Hrun|].
        split; [lia|]. split.
        { cbn [clockHand] in Hhi. fold h' in Hhi.
          unfold revolution_left in *. rewrite Hh' in *.
          destruct (clockHand w <? s) eqn:E1;
            [apply Z.ltb_lt in E1 | apply Z.ltb_ge in E1];
          destruct (clockHand w + 1 =? numFrames m) eqn:E2;
            [apply Z.eqb_eq in E2 | apply Z.eqb_neq in E2| apply Z.eqb_eq in E2 | apply Z.eqb_neq in E2];
          match type of Hhi with context [?a <? ?b] => destruct (Z.ltb_spec a b) end; lia. }
        split; [|exact Hw'].
        destruct Hev as (Hp & (v & Hv & Hvi & Hvp) & Hmp & Hmi & Hex & Hh1 & Hm1 & Hl1).
        unfold evicts_one. rewrite Hlen1 in Hp. split; [lia|]. split.
        { exists v. split; [exact Hv|]. split.
          - rewrite Hvi. now apply deref_map_index.
          - rewrite Hvp. now apply deref_map_page. }
        rewrite Hpages in Hmp. rewrite Hidx in Hmi.
        repeat split; assumption.
Qed.

Lemma clock_search_fuel_mono (fuel : nat) :
  forall (fuel' : nat) (m : Members) (s : Z) (it : nat) (d : AlgorithmData)
         (w : Process) r w',
    (fuel <= fuel')%nat ->
    clock_search fuel m s it d w = (Some r, w') ->
    clock_search fuel' m s it d w = (Some r, w').
Proof.
  induction fuel as [|fuel IH]; intros fuel' m s it d w r w' Hle H.
  - discriminate.
  - destruct fuel' as [|fuel']; [lia|].
    cbn [clock_search] in *.
    unfold bind, get_clockHand, put_clockHand, ret in *. cbn [fst snd clockHand] in *.
    destruct (extra (deref (Z.to_nat (clockHand w)) (pageTable d)) =? 0); [exact H|].
    destruct (negb (Z.rem (clockHand w + 1) (numFrames m) =? s)); [|exact H].
    apply IH; [lia | exact H].
Qed.

(** The process as [clock] leaves it after its bounds check on the hand. *)
Definition clock_hand_checked (m : Members) (w : Process) : Process :=
  if clockHand w >=? numFrames m then snd (put_clockHand 0 w) else w.

(** C5.  On a full page table that does not hold the requested page, and
    for any values of the reference bits, the victim search of [clock]
    terminates: with any fuel of at least [numFrames] it returns the same
    result, after at least one and at most [numFrames] executions of the loop
    body.  [clock] then reports a fault, and exactly one frame, holding a
    resident page, has been appended to the victim list and replaced by the
    requested page with its reference bit set. *)
Theorem clock_search_within_one_revolution
        (m : Members) (d : AlgorithmData) (w : Process) :
  1 <= numFrames m ->
  List.length (pageTable d) = Z.to_nat (numFrames m) ->
  0 <= clockHand w ->
  (forall f, In f (pageTable d) -> page f <> -1) ->
  (forall f, In f (pageTable d) -> page f <> lastPageRef m) ->
  let w1 := clock_hand_checked m w in
  exists iters inloop d' w' pos,
    (forall fuel, (Z.to_nat (numFrames m) <= fuel)%nat ->
       clock_search fuel m (clockHand w1) 0 d w1 = (Some (iters, inloop, d'), w')) /\
    (1 <= iters <= Z.to_nat (numFrames m))%nat /\
    clock m d w = (true, d', w') /\
    evicts_one m d d' pos /\
    page (deref pos (pageTable d)) <> -1 /\
    0 <= clockHand w' < numFrames m.
Proof.
  intros HF Hlen Hh Hfull Hmiss w1.
  assert (Hh1 : 0 <= clockHand w1 < numFrames m).
  { unfold w1, clock_hand_checked.
    destruct (clockHand w >=? numFrames m) eqn:E; cbn; [lia|].
    rewrite Z.geb_leb in E. apply Z.leb_gt in E. lia. }
  destruct (clock_search_progress (Z.to_nat (numFrames m)) m (clockHand w1) 0 d w1)
    as (iters & inloop & d' & w' & pos & Hrun & Hlo & Hhi & Hev & Hw'); try assumption.
  { unfold revolution_left. rewrite Z.ltb_irrefl. lia. }
  unfold revolution_left in Hhi. rewrite Z.ltb_irrefl in Hhi.
  exists iters, inloop, d', w', pos.
  split; [|split; [lia|split; [|split; [exact Hev|split; [|exact Hw']]]]].
  - intros fuel Hfuel.
    now apply (clock_search_fuel_mono (Z.to_nat (numFrames m))).
  - unfold clock, bind, get_clockHand, ret. cbn [fst snd].
    assert (E1 : find_if (is_requested m) (pageTable d) = None).
    { apply find_if_None. intros f Hf. unfold is_requested.
      apply Z.eqb_neq. now apply Hmiss. }
    assert (E2 : find_if is_empty (pageTable d) = None).
    { apply find_if_None. intros f Hf. unfold is_empty.
      apply Z.eqb_neq. now apply Hfull. }
    rewrite E1, E2.
    replace (snd ((if clockHand w >=? numFrames m then put_clockHand 0 else
                     fun w0 : Process => (tt, w0)) w)) with w1.
    + rewrite Hrun. reflexivity.
    + unfold w1, clock_hand_checked.
      now destruct (clockHand w >=? numFrames m).
  - destruct Hev as (Hp & _). apply Hfull. unfold deref. apply nth_In. exact Hp.
Qed.

Lemma clock_search_within_one_revolution_witness :
  let m := mkMembers 3 1048576 1000 false false 5 9 [] in
  let d := mkAlgorithmData 2 3 [mkFrame 0 4 0 1 0 0; mkFrame 1 5 0 1 0 0;
                                mkFrame 2 6 0 1 0 0] [] 0 None in
  let w := fresh_process (fun n => Z.of_nat n) (fun n => Z.of_nat n) (fun n => n)
                         (fun _ => None) in
  let w1 := clock_hand_checked m w in
  exists iters inloop d' w' pos,
    (forall fuel, (Z.to_nat (numFrames m) <= fuel)%nat ->
       clock_search fuel m (clockHand w1) 0 d w1 = (Some (iters, inloop, d'), w')) /\
    (1 <= iters <= Z.to_nat (numFrames m))%nat /\
    clock m d w = (true, d', w') /\
    evicts_one m d d' pos /\
    page (deref pos (pageTable d)) <> -1 /\
    0 <= clockHand w' < numFrames m.
Proof.
  intros m d w.
  apply (clock_search_within_one_revolution m d w).
  - simpl; lia.
  - reflexivity.
  - simpl; lia.
  - simpl. intros f [<-|[<-|[<-|[]]]]; simpl; lia.
  - simpl. intros f [<-|[<-|[<-|[]]]]; simpl; lia.
Defined.

(** ** What one policy step does to the pages of a table *)

(** The three branches shared by the table-based policies, seen on the
    page numbers only: a hit keeps every page, a fault writes the requested
    page into an empty frame when there is one and over a victim only when
    the table is full. *)
Inductive table_step (p : Z) (t t' : list Frame) : bool -> Prop :=
| step_hit :
    In p (map page t) ->
    map page t' = map page t ->
    table_step p t t' false
| step_fill (pos : nat) :
    ~ In p (map page t) ->
    nth_error (map page t) pos = Some (-1) ->
    map page t' = update pos (fun _ => p) (map page t) ->
    table_step p t t' true
| step_evict (pos : nat) :
    ~ In p (map page t) ->
    ~ In (-1) (map page t) ->
    (pos < List.length t)%nat ->
    map page t' = update pos (fun _ => p) (map page t) ->
    table_step p t t' true.

(** The contract of a table-based policy for one reference: the counters
    and the LFRU substate are left alone, frame indices stay, the pages
    change as [table_step] says, and the CLOCK hand stays non-negative. *)
Definition table_policy_spec (m : Members) (d : AlgorithmData) (w : Process)
           (r : bool * AlgorithmData * Process) : Prop :=
  hits (snd (fst r)) = hits d /\
  misses (snd (fst r)) = misses d /\
  lfruData (snd (fst r)) = lfruData d /\
  map index (pageTable (snd (fst r))) = map index (pageTable d) /\
  table_step (lastPageRef m) (pageTable d) (pageTable (snd (fst r))) (fst (fst r)) /\
  0 <= clockHand (snd r).

Definition table_policy (pol : Policy) : Prop :=
  forall m d w,
    1 <= numFrames m ->
    List.length (pageTable d) = Z.to_nat (numFrames m) ->
    0 <= clockHand w ->
    table_policy_spec m d w (pol m d w).

Lemma hit_page_in_table (m : Members) (t : list Frame) (it : nat) :
  find_if (is_requested m) t = Some it -> In (lastPageRef m) (map page t).
Proof.
  intros H. destruct (find_if_Some _ _ _ H) as (x & Hx & Hp & _).
  unfold is_requested in Hp. apply Z.eqb_eq in Hp. rewrite <- Hp.
  apply in_map. eapply nth_error_In; eauto.
Qed.

Lemma miss_page_not_in_table (m : Members) (t : list Frame) :
  find_if (is_requested m) t = None -> ~ In (lastPageRef m) (map page t).
Proof.
  intros H Hin. apply in_map_iff in Hin. destruct Hin as (f & Hf & Hin).
  rewrite find_if_None in H. specialize (H f Hin).
  unfold is_requested in H. apply Z.eqb_neq in H. contradiction.
Qed.

Lemma empty_frame_at (t : list Frame) (it : nat) :
  find_if is_empty t = Some it -> nth_error (map page t) it = Some (-1).
Proof.
  intros H. destruct (find_if_Some _ _ _ H) as (x & Hx & Hp & _).
  unfold is_empty in Hp. apply Z.eqb_eq in Hp.
  rewrite nth_error_map, Hx. simpl. now rewrite Hp.
Qed.

Lemma full_table_no_empty (t : list Frame) :
  find_if is_empty t = None -> ~ In (-1) (map page t).
Proof.
  intros H Hin. apply in_map_iff in Hin. destruct Hin as (f & Hf & Hin).
  rewrite find_if_None in H. specialize (H f Hin).
  unfold is_empty in H. apply Z.eqb_neq in H. contradiction.
Qed.

Lemma optimal_victim_lt (m : Members) (l : list Frame) :
  forall (it : nat) (maxDistance : Z) (victimIt : nat),
    (victimIt < it + List.length l)%nat ->
    (optimal_victim m l it maxDistance victimIt < it + List.length l)%nat.
Proof.
  induction l as [|f l IH]; simpl; intros it md v H; [lia|].
  destruct (next_use_distance m (page f) >? md).
  - specialize (IH (S it) (next_use_distance m (page f)) it). lia.
  - specialize (IH (S it) md v). lia.
Qed.

Lemma nonempty_table (m : Members) (t : list Frame) :
  1 <= numFrames m -> List.length t = Z.to_nat (numFrames m) ->
  (0 < List.length t)%nat.
Proof. lia. Qed.

Ltac unfold_effects :=
  unfold bind, ret, steady_clock_now, getCurrentTime, uniform_int_distribution,
         get_clockHand, put_clockHand;
  cbn [fst snd pageTable victimList hits misses lfruData execTime
       set_pageTable push_victim clockHand].

(** Closes the goal of a three-branch policy once the two searches and the
    victim selection have been case-analysed. *)
Ltac table_branches m d Hlen HF :=
  unfold table_policy_spec; unfold_effects;
  repeat split; try assumption; try reflexivity;
  try (apply map_index_update_keep; reflexivity);
  try (rewrite map_index_update_keep by reflexivity; reflexivity);
  match goal with
  | Hhit : find_if (is_requested m) _ = Some _ |- table_step _ _ _ false =>
      apply step_hit;
      [ exact (hit_page_in_table _ _ _ Hhit)
      | apply map_page_update_keep; reflexivity ]
  | Hmiss : find_if (is_requested m) _ = None,
    Hemp : find_if is_empty _ = Some ?e |- table_step _ _ _ true =>
      apply (step_fill _ _ _ e);
      [ exact (miss_page_not_in_table _ _ Hmiss)
      | exact (empty_frame_at _ _ Hemp)
      | apply map_page_update_set; reflexivity ]
  | Hmiss : find_if (is_requested m) _ = None,
    Hemp : find_if is_empty _ = None |- table_step _ _ (update ?v _ _) true =>
      apply (step_evict _ _ _ v);
      [ exact (miss_page_not_in_table _ _ Hmiss)
      | exact (full_table_no_empty _ Hemp)
      | idtac
      | apply map_page_update_set; reflexivity ]
  | _ => idtac
  end.

Lemma fifo_table_policy : table_policy fifo.
Proof.
  intros m d w HF Hlen Hw. unfold fifo.
  destruct (find_if (is_requested m) (pageTable d)) as [hitIt|] eqn:Ehit.
  - unfold table_policy_spec; unfold_effects. repeat split; auto.
    apply step_hit; [exact (hit_page_in_table _ _ _ Ehit) | reflexivity].
  - destruct (find_if is_empty (pageTable d)) as [emptyIt|] eqn:Eemp.
    + table_branches m d Hlen HF.
    + destruct (min_element _ (pageTable d)) as [victimIt|] eqn:Ev.
      * table_branches m d Hlen HF. exact (min_element_lt _ _ _ Ev).
      * apply min_element_None in Ev. pose proof (nonempty_table m _ HF Hlen).
        rewrite Ev in *. simpl in *. lia.
Qed.

(** The proof shared by the policies that select their victim with
    [min_element] or [max_element]. *)
Ltac three_branch_policy pol :=
  let m := fresh "m" in let d := fresh "d" in let w := fresh "w" in
  let HF := fresh "HF" in let Hlen := fresh "Hlen" in let Hw := fresh "Hw" in
  let Ehit := fresh "Ehit" in let Eemp := fresh "Eemp" in let Ev := fresh "Ev" in
  intros m d w HF Hlen Hw; unfold pol;
  destruct (find_if (is_requested m) (pageTable d)) eqn:Ehit;
  [ table_branches m d Hlen HF
  | destruct (find_if is_empty (pageTable d)) eqn:Eemp;
    [ table_branches m d Hlen HF
    | match goal with
      | |- context [min_element ?c (pageTable d)] =>
          destruct (min_element c (pageTable d)) eqn:Ev;
          [ table_branches m d Hlen HF; exact (min_element_lt _ _ _ Ev)
          | apply min_element_None in Ev; pose proof (nonempty_table m _ HF Hlen);
            rewrite Ev in *; simpl in *; lia ]
      | |- context [max_element ?c (pageTable d)] =>
          destruct (max_element c (pageTable d)) eqn:Ev;
          [ table_branches m d Hlen HF; exact (max_element_lt _ _ _ Ev)
          | apply max_element_None in Ev; pose proof (nonempty_table m _ HF Hlen);
            rewrite Ev in *; simpl in *; lia ]
      end ] ].

Lemma lru_table_policy : table_policy lru.
Proof. three_branch_policy lru. Qed.

Lemma nru_table_policy : table_policy nru.
Proof. three_branch_policy nru. Qed.

Lemma mru_table_policy : table_policy mru.
Proof. three_branch_policy mru. Qed.

Lemma nfu_table_policy : table_policy nfu.
Proof. three_branch_policy nfu. Qed.

Lemma mfu_table_policy : table_policy mfu.
Proof. three_branch_policy mfu. Qed.

Lemma lfu_table_policy : table_policy lfu.
Proof. three_branch_policy lfu. Qed.

Lemma age_frame_page (f : Frame) : page (age_frame f) = page f.
Proof. unfold age_frame. now destruct (negb (page f =? -1)). Qed.

Lemma age_frame_index (f : Frame) : index (age_frame f) = index f.
Proof. unfold age_frame. now destruct (negb (page f =? -1)). Qed.

Lemma map_page_aged (t : list Frame) : map page (map age_frame t) = map page t.
Proof. rewrite map_map. apply map_ext. apply age_frame_page. Qed.

Lemma map_index_aged (t : list Frame) : map index (map age_frame t) = map index t.
Proof. rewrite map_map. apply map_ext. apply age_frame_index. Qed.

Lemma table_step_same_pages (p : Z) (t0 t t' : list Frame) (fault : bool) :
  map page t = map page t0 ->
  table_step p t t' fault -> table_step p t0 t' fault.
Proof.
  intros E H. assert (El : List.length t = List.length t0).
  { rewrite <- (length_map page t), E. apply length_map. }
  destruct H as [H1 H2 | pos H1 H2 H3 | pos H1 H2 H3 H4]; rewrite E in *.
  - now apply step_hit.
  - now apply (step_fill _ _ _ pos).
  - apply (step_evict _ _ _ pos); auto. lia.
Qed.

Lemma aging_table_policy : table_policy aging.
Proof.
  intros m d0 w HF Hlen Hw.
  pose (d := set_pageTable (map age_frame (pageTable d0)) d0).
  assert (Hlen' : List.length (pageTable d) = Z.to_nat (numFrames m))
    by (cbn; now rewrite length_map).
  assert (H : table_policy_spec m d w (aging m d0 w)).
  { unfold aging. fold d.
    destruct (find_if (is_requested m) (pageTable d)) eqn:Ehit;
    [ table_branches m d Hlen' HF
    | destruct (find_if is_empty (pageTable d)) eqn:Eemp;
      [ table_branches m d Hlen' HF
      | destruct (min_element (fun a b => extra a <? extra b) (pageTable d)) eqn:Ev;
        [ table_branches m d Hlen' HF; exact (min_element_lt _ _ _ Ev)
        | apply min_element_None in Ev; pose proof (nonempty_table m _ HF Hlen');
          rewrite Ev in *; simpl in *; lia ] ] ]. }
  destruct H as (H1 & H2 & H3 & H4 & H5 & H6).
  unfold table_policy_spec. repeat split; auto.
  - rewrite H4. apply map_index_aged.
  - eapply table_step_same_pages; [|exact H5]. apply map_page_aged.
Qed.

Lemma optimal_table_policy : table_policy optimal.
Proof.
  intros m d w HF Hlen Hw. unfold optimal.
  destruct (find_if (is_requested m) (pageTable d)) eqn:Ehit;
  [ table_branches m d Hlen HF
  | destruct (find_if is_empty (pageTable d)) eqn:Eemp;
    [ table_branches m d Hlen HF | table_branches m d Hlen HF ] ].
  pose proof (optimal_victim_lt m (pageTable d) 0 (-1) 0). lia.
Qed.

Lemma random_table_policy : table_policy random.
Proof.
  intros m d w HF Hlen Hw. unfold random.
  destruct (find_if (is_requested m) (pageTable d)) eqn:Ehit;
  [ table_branches m d Hlen HF
  | destruct (find_if is_empty (pageTable d)) eqn:Eemp;
    [ table_branches m d Hlen HF | table_branches m d Hlen HF ] ].
  pose proof (Z.mod_pos_bound (Z.of_nat (rng w (rng_draws w))) (numFrames m - 1 - 0 + 1)).
  lia.
Qed.

(** [clock] after its bounds check on the hand. *)
Definition clock_after_check : Policy := fun m data =>
  match find_if (is_requested m) (pageTable data) with
  | Some hitIt =>
      ret (false, set_pageTable (update hitIt (set_extra 1) (pageTable data)) data)
  | None =>
      match find_if is_empty (pageTable data) with
      | Some emptyIt =>
          ret (true,
               set_pageTable
                 (update emptyIt (fun f => set_extra 1 (set_page (lastPageRef m) f))
                         (pageTable data)) data)
      | None =>
          startHand <- get_clockHand ;;
          r <- clock_search (Z.to_nat (numFrames m)) m startHand 0 data ;;
          match r with
          | Some (_, _, data') => ret (true, data')
          | None => ret (true, data)
          end
      end
  end.

Lemma clock_unfold (m : Members) (d : AlgorithmData) (w : Process) :
  clock m d w = clock_after_check m d (clock_hand_checked m w).
Proof.
  unfold clock, clock_after_check, clock_hand_checked, bind, get_clockHand, ret.
  cbn [fst snd]. destruct (clockHand w >=? numFrames m); reflexivity.
Qed.

Lemma clock_hand_checked_range (m : Members) (w : Process) :
  1 <= numFrames m -> 0 <= clockHand w ->
  0 <= clockHand (clock_hand_checked m w) < numFrames m.
Proof.
  intros HF Hw. unfold clock_hand_checked.
  destruct (clockHand w >=? numFrames m) eqn:E; cbn; [lia|].
  rewrite Z.geb_leb in E. apply Z.leb_gt in E. lia.
Qed.

Lemma clock_table_policy : table_policy clock.
Proof.
  intros m d w HF Hlen Hw. rewrite clock_unfold.
  pose proof (clock_hand_checked_range m w HF Hw) as Hw1.
  set (w1 := clock_hand_checked m w) in *. clearbody w1.
  unfold clock_after_check.
  destruct (find_if (is_requested m) (pageTable d)) eqn:Ehit.
  - unfold table_policy_spec, ret. cbn [fst snd pageTable hits misses lfruData set_pageTable].
    repeat split; auto; try lia.
    + now apply map_index_update_keep.
    + apply step_hit; [exact (hit_page_in_table _ _ _ Ehit)|].
      now apply map_page_update_keep.
  - destruct (find_if is_empty (pageTable d)) as [e|] eqn:Eemp.
    + unfold table_policy_spec, ret. cbn [fst snd pageTable hits misses lfruData set_pageTable].
      repeat split; auto; try lia.
      * now apply map_index_update_keep.
      * apply (step_fill _ _ _ e);
          [ exact (miss_page_not_in_table _ _ Ehit)
          | exact (empty_frame_at _ _ Eemp)
          | now apply map_page_update_set ].
    + unfold bind, get_clockHand, ret. cbn [fst snd].
      destruct (clock_search_progress (Z.to_nat (numFrames m)) m (clockHand w1) 0 d w1)
        as (iters & inloop & d' & w' & pos & Hrun & _ & _ & Hev & Hw'); try assumption.
      { unfold revolution_left. rewrite Z.ltb_irrefl. lia. }
      rewrite Hrun. cbn [fst snd].
      destruct Hev as (Hp & _ & Hmp & Hmi & _ & Hh & Hm & Hl).
      unfold table_policy_spec. cbn [fst snd]. repeat split; auto; try lia.
      apply (step_evict _ _ _ pos); auto.
      * exact (miss_page_not_in_table _ _ Ehit).
      * exact (full_table_no_empty _ Eemp).
Qed.

(** ** Resident pages *)

Definition occupied (p : Z) : bool := negb (p =? -1).

(** The non-EMPTY page numbers held by a vector of frames. *)
Definition resident (t : list Frame) : list Z := filter occupied (map page t).

(** The page itself, unless it is the EMPTY sentinel. *)
Definition opt_page (p : Z) : list Z := filter occupied [p].

(** The pages a policy holds: those of its page table and, for LFRU, those
    of the two partitions together. *)
Definition contents (d : AlgorithmData) : list Z :=
  resident (pageTable d) ++
  match lfruData d with
  | Some lf => resident (frames (privileged lf) ++ frames (unprivileged lf))
  | None => []
  end.

(** One reference seen on the resident pages, up to their order. *)
Inductive resident_step (p : Z) (A A' : list Z) : bool -> Prop :=
| rs_hit :
    (p <> -1 -> In p A) ->
    Permutation A' A ->
    resident_step p A A' false
| rs_add :
    ~ In p A ->
    Permutation A' (opt_page p ++ A) ->
    resident_step p A A' true
| rs_replace (x : Z) (R : list Z) :
    ~ In p A ->
    Permutation A (x :: R) ->
    Permutation A' (opt_page p ++ R) ->
    resident_step p A A' true.

Lemma opt_page_empty : opt_page (-1) = [].
Proof. reflexivity. Qed.

Lemma opt_page_occupied (p : Z) : p <> -1 -> opt_page p = [p].
Proof.
  intros H. unfold opt_page, occupied. simpl.
  destruct (Z.eqb_spec p (-1)); [contradiction|reflexivity].
Qed.

Lemma In_opt_page (p q : Z) : In q (opt_page p) <-> q = p /\ p <> -1.
Proof.
  unfold opt_page. rewrite filter_In. simpl. unfold occupied.
  destruct (Z.eqb_spec q (-1)); simpl; split.
  - intros [_ H]; discriminate.
  - intros [-> H]; contradiction.
  - intros [[<-|[]] _]. auto.
  - intros [-> _]. auto.
Qed.

Lemma In_resident (t : list Frame) (p : Z) :
  In p (resident t) <-> In p (map page t) /\ p <> -1.
Proof.
  unfold resident. rewrite filter_In. unfold occupied.
  destruct (Z.eqb_spec p (-1)); simpl; intuition congruence.
Qed.

Lemma resident_app (t u : list Frame) : resident (t ++ u) = resident t ++ resident u.
Proof. unfold resident. now rewrite map_app, filter_app. Qed.

Lemma resident_length (t : list Frame) : (List.length (resident t) <= List.length t)%nat.
Proof.
  unfold resident. rewrite <- (length_map page t). apply filter_length_le.
Qed.

Lemma resident_full (t : list Frame) :
  ~ In (-1) (map page t) -> resident t = map page t.
Proof.
  intros H. unfold resident. induction (map page t) as [|a l IH]; simpl; auto.
  unfold occupied at 1. destruct (Z.eqb_spec a (-1)) as [->|Hne]; simpl.
  - exfalso. apply H. now left.
  - f_equal. apply IH. intros Hin. apply H. now right.
Qed.

Lemma update_split {A : Type} (l : list A) (it : nat) (x : A) :
  nth_error l it = Some x ->
  exists l1 l2, l = l1 ++ x :: l2 /\ List.length l1 = it /\
                forall g, update it g l = l1 ++ g x :: l2.
Proof.
  revert it. induction l as [|a l IH]; intros [|it] H; simpl in H; try discriminate.
  - injection H as ->. exists [], l. repeat split; auto.
  - destruct (IH it H) as (l1 & l2 & -> & Hlen & Hupd).
    exists (a :: l1), l2. repeat split; simpl; auto.
    intros g. now rewrite Hupd.
Qed.

(** Changing one page of a table: the resident pages before and after. *)
Lemma resident_after_update (t t' : list Frame) (pos : nat) (x p : Z) :
  nth_error (map page t) pos = Some x ->
  map page t' = update pos (fun _ => p) (map page t) ->
  exists R, Permutation (resident t) (opt_page x ++ R) /\
            Permutation (resident t') (opt_page p ++ R).
Proof.
  intros Hx Ht'. destruct (update_split _ _ _ Hx) as (l1 & l2 & E & _ & Hupd).
  exists (filter occupied l1 ++ filter occupied l2).
  unfold resident. rewrite Ht', Hupd, E. rewrite !filter_app. simpl.
  unfold opt_page. simpl. split.
  - destruct (occupied x); simpl; [symmetry; apply Permutation_middle | reflexivity].
  - destruct (occupied p); simpl; [symmetry; apply Permutation_middle | reflexivity].
Qed.

Lemma same_pages_same_resident (t t' : list Frame) :
  map page t' = map page t -> resident t' = resident t.
Proof. intros H. unfold resident. now rewrite H. Qed.

Lemma table_step_resident (p : Z) (t t' : list Frame) (fault : bool) :
  table_step p t t' fault ->
  resident_step p (resident t) (resident t') fault.
Proof.
  intros [Hin Hsame | pos Hnot Hpos Hupd | pos Hnot Hfull Hpos Hupd].
  - apply rs_hit.
    + intros Hp. apply In_resident. auto.
    + now rewrite (same_pages_same_resident _ _ Hsame).
  - destruct (resident_after_update _ _ _ _ _ Hpos Hupd) as (R & H1 & H2).
    rewrite opt_page_empty in H1. simpl in H1.
    apply rs_add.
    + rewrite In_resident. tauto.
    + rewrite H2. now rewrite H1.
  - assert (Hx : nth_error (map page t) pos = Some (page (deref pos t))).
    { rewrite nth_error_map, (nth_error_deref pos t Hpos). reflexivity. }
    destruct (resident_after_update _ _ _ _ _ Hx Hupd) as (R & H1 & H2).
    assert (Hocc : page (deref pos t) <> -1).
    { intros E. apply Hfull. rewrite <- E. apply in_map.
      unfold deref. now apply nth_In. }
    rewrite (opt_page_occupied _ Hocc) in H1. simpl in H1.
    apply (rs_replace _ _ _ (page (deref pos t)) R); auto.
    rewrite In_resident. tauto.
Qed.

Lemma resident_step_NoDup (p : Z) (A A' : list Z) (fault : bool) :
  resident_step p A A' fault -> NoDup A -> NoDup A'.
Proof.
  intros [Hin Hperm | Hnot Hperm | x R Hnot HA HA'] HN.
  - apply (Permutation_NoDup (Permutation_sym Hperm) HN).
  - apply (Permutation_NoDup (Permutation_sym Hperm)).
    destruct (Z.eq_dec p (-1)) as [->|Hp].
    + now rewrite opt_page_empty.
    + rewrite (opt_page_occupied _ Hp). simpl. now constructor.
  - apply (Permutation_NoDup (Permutation_sym HA')).
    pose proof (Permutation_NoDup HA HN) as HxR.
    apply NoDup_cons_iff in HxR. destruct HxR as [_ HR].
    destruct (Z.eq_dec p (-1)) as [->|Hp].
    + now rewrite opt_page_empty.
    + rewrite (opt_page_occupied _ Hp). simpl. constructor; auto.
      intros Hin. apply Hnot. apply (Permutation_in _ (Permutation_sym HA)).
      now right.
Qed.

(** ** LFRU: the partition helpers on resident pages *)

Lemma hasSpace_true (part : Partition) :
  hasSpace part = true <-> In (-1) (map page (frames part)).
Proof.
  unfold hasSpace, any_of. rewrite existsb_exists, in_map_iff.
  split; intros (f & H1 & H2).
  - exists f. unfold is_empty in H2. apply Z.eqb_eq in H2. auto.
  - exists f. unfold is_empty. split; [assumption|]. now apply Z.eqb_eq.
Qed.

Lemma hasSpace_false (part : Partition) :
  hasSpace part = false <-> ~ In (-1) (map page (frames part)).
Proof.
  rewrite <- hasSpace_true. destruct (hasSpace part); split; congruence.
Qed.

Lemma hasPage_true (part : Partition) (pg : Z) :
  hasPage part pg = true <-> In pg (map page (frames part)).
Proof.
  unfold hasPage, any_of. rewrite existsb_exists, in_map_iff.
  split; intros (f & H1 & H2).
  - exists f. apply Z.eqb_eq in H2. auto.
  - exists f. split; [assumption|]. now apply Z.eqb_eq.
Qed.

Lemma hasPage_false (part : Partition) (pg : Z) :
  hasPage part pg = false <-> ~ In pg (map page (frames part)).
Proof.
  rewrite <- hasPage_true. destruct (hasPage part pg); split; congruence.
Qed.

Lemma find_page_Some (t : list Frame) (pg : Z) :
  In pg (map page t) ->
  exists it, find_if (fun f => page f =? pg) t = Some it /\
             nth_error (map page t) it = Some pg.
Proof.
  intros Hin. apply in_map_iff in Hin. destruct Hin as (f & Hf & Hin).
  destruct (find_if_exists (fun f => page f =? pg) t f Hin) as [it Hit].
  - now apply Z.eqb_eq.
  - exists it. split; [assumption|].
    destruct (find_if_Some _ _ _ Hit) as (x & Hx & Hp & _).
    apply Z.eqb_eq in Hp. rewrite nth_error_map, Hx. simpl. now rewrite Hp.
Qed.

Lemma find_empty_Some (t : list Frame) :
  In (-1) (map page t) ->
  exists it, find_if is_empty t = Some it /\ nth_error (map page t) it = Some (-1).
Proof. apply find_page_Some. Qed.

Lemma In_after_update (l : list Z) (it : nat) (x p : Z) :
  nth_error l it = Some x -> In p (update it (fun _ => p) l).
Proof.
  intros H. destruct (update_split _ _ _ H) as (l1 & l2 & _ & _ & Hupd).
  rewrite Hupd. apply in_elt.
Qed.

(** What a partition helper leaves alone. *)
Definition same_shape (part part' : Partition) (w w' : Process) : Prop :=
  List.length (frames part') = List.length (frames part) /\
  clockHand w' = clockHand w.

Lemma updateLRU_spec (part : Partition) (pg : Z) (w : Process) :
  map page (frames (fst (updateLRU part pg w))) = map page (frames part) /\
  clockHand (snd (updateLRU part pg w)) = clockHand w.
Proof.
  unfold updateLRU. destruct (find_if _ (frames part)) as [it|].
  - unfold_effects. cbn [frames set_frames]. split; [|reflexivity].
    now apply map_page_update_keep.
  - unfold ret. simpl. auto.
Qed.

Lemma removeFromPartition_spec (part : Partition) (pg : Z) (w : Process) :
  hasPage part pg = true ->
  same_shape part (fst (removeFromPartition part pg w)) w
             (snd (removeFromPartition part pg w)) /\
  hasSpace (fst (removeFromPartition part pg w)) = true /\
  Permutation (resident (frames part))
              (opt_page pg ++ resident (frames (fst (removeFromPartition part pg w)))).
Proof.
  intros H. apply hasPage_true in H.
  destruct (find_page_Some _ _ H) as (it & Hit & Hnth).
  unfold removeFromPartition. rewrite Hit. unfold_effects. cbn [frames set_frames].
  set (fr' := update it _ (frames part)).
  assert (Hp : map page fr' = update it (fun _ => -1) (map page (frames part)))
    by (now apply map_page_update_set).
  split; [split; [apply length_update | reflexivity]|]. split.
  - apply hasSpace_true. cbn [frames set_frames]. rewrite Hp.
    now apply (In_after_update _ _ pg).
  - destruct (resident_after_update _ _ _ _ _ Hnth Hp) as (R & H1 & H2).
    rewrite opt_page_empty in H2. simpl in H2. now rewrite H2.
Qed.

Lemma insertIntoPartition_spec (part : Partition) (pg : Z) (w : Process) :
  hasSpace part = true ->
  same_shape part (fst (insertIntoPartition part pg w)) w
             (snd (insertIntoPartition part pg w)) /\
  Permutation (resident (frames (fst (insertIntoPartition part pg w))))
              (opt_page pg ++ resident (frames part)).
Proof.
  intros H. apply hasSpace_true in H.
  destruct (find_empty_Some _ H) as (it & Hit & Hnth).
  unfold insertIntoPartition. rewrite Hit. unfold_effects. cbn [frames set_frames].
  set (fr' := update it _ (frames part)).
  assert (Hp : map page fr' = update it (fun _ => pg) (map page (frames part)))
    by (now apply map_page_update_set).
  split; [split; [apply length_update | reflexivity]|].
  destruct (resident_after_update _ _ _ _ _ Hnth Hp) as (R & H1 & H2).
  rewrite opt_page_empty in H1. simpl in H1. now rewrite H2, H1.
Qed.

(** The common shape of [evictLFU] and [demoteLRU] on a full partition. *)
Lemma take_victim_spec (part : Partition) (it : nat) (now : Z) :
  hasSpace part = false ->
  (it < List.length (frames part))%nat ->
  let pg := page (deref it (frames part)) in
  let part' := set_frames (update it (clear_frame now) (frames part)) part in
  pg <> -1 /\
  List.length (frames part') = List.length (frames part) /\
  hasSpace part' = true /\
  Permutation (resident (frames part)) (pg :: resident (frames part')).
Proof.
  intros Hfull Hit pg part'. apply hasSpace_false in Hfull.
  assert (Hnth : nth_error (map page (frames part)) it = Some pg).
  { rewrite nth_error_map, (nth_error_deref it _ Hit). reflexivity. }
  assert (Hpg : pg <> -1).
  { intros E. apply Hfull. rewrite <- E. eapply nth_error_In; eauto. }
  assert (Hp : map page (frames part') = update it (fun _ => -1) (map page (frames part)))
    by (now apply map_page_update_set).
  split; [assumption|]. split; [apply length_update|]. split.
  - apply hasSpace_true. rewrite Hp. now apply (In_after_update _ _ pg).
  - destruct (resident_after_update _ _ _ _ _ Hnth Hp) as (R & H1 & H2).
    rewrite opt_page_empty in H2. rewrite (opt_page_occupied _ Hpg) in H1.
    simpl in *. now rewrite H2.
Qed.

Lemma demoteLRU_spec (part : Partition) (w : Process) :
  hasSpace part = false -> frames part <> [] ->
  fst (fst (demoteLRU part w)) <> -1 /\
  same_shape part (snd (fst (demoteLRU part w))) w (snd (demoteLRU part w)) /\
  hasSpace (snd (fst (demoteLRU part w))) = true /\
  Permutation (resident (frames part))
              (fst (fst (demoteLRU part w))
               :: resident (frames (snd (fst (demoteLRU part w))))).
Proof.
  intros Hfull Hne. unfold demoteLRU.
  destruct (min_element _ (frames part)) as [it|] eqn:E.
  - unfold_effects.
    destruct (take_victim_spec part it (steady_clock w (steady_reads w)) Hfull
                (min_element_lt _ _ _ E)) as (H1 & H2 & H3 & H4).
    unfold same_shape. auto.
  - apply min_element_None in E. contradiction.
Qed.

Lemma evictLFU_spec (part : Partition) (w : Process) :
  hasSpace part = false -> frames part <> [] ->
  fst (fst (evictLFU part w)) <> -1 /\
  same_shape part (snd (fst (evictLFU part w))) w (snd (evictLFU part w)) /\
  hasSpace (snd (fst (evictLFU part w))) = true /\
  Permutation (resident (frames part))
              (fst (fst (evictLFU part w))
               :: resident (frames (snd (fst (evictLFU part w))))).
Proof.
  intros Hfull Hne. unfold evictLFU.
  destruct (min_element _ (frames part)) as [it|] eqn:E.
  - unfold_effects.
    destruct (take_victim_spec part it (steady_clock w (steady_reads w)) Hfull
                (min_element_lt _ _ _ E)) as (H1 & H2 & H3 & H4).
    unfold same_shape. auto.
  - apply min_element_None in E. contradiction.
Qed.

(** Permutations of page lists are decided by counting occurrences. *)
Lemma count_occ_cons_app (a : Z) (l : list Z) (x : Z) :
  count_occ Z.eq_dec (a :: l) x = (count_occ Z.eq_dec [a] x + count_occ Z.eq_dec l x)%nat.
Proof. change (a :: l) with ([a] ++ l). apply count_occ_app. Qed.

Ltac perm_count :=
  apply (Permutation_count_occ Z.eq_dec);
  let x := fresh "x" in
  intros x;
  repeat match goal with
         | H : Permutation ?a ?b |- _ =>
             pose proof (proj1 (Permutation_count_occ Z.eq_dec a b) H x);
             clear H
         end;
  repeat match goal with
         | H : context [count_occ Z.eq_dec (_ ++ _) _] |- _ =>
             rewrite count_occ_app in H
         | H : context [count_occ Z.eq_dec (?a :: ?l) _] |- _ =>
             lazymatch l with
             | [] => fail
             | _ => rewrite (count_occ_cons_app a l) in H
             end
         end;
  repeat first
         [ rewrite count_occ_app
         | match goal with
           | |- context [count_occ Z.eq_dec (?a :: ?l) _] =>
               lazymatch l with
               | [] => fail
               | _ => rewrite (count_occ_cons_app a l)
               end
           end ];
  lia.

(** ** LFRU: one reference *)

Definition lfru_resident (lf : LFRUData) : list Z :=
  resident (frames (privileged lf) ++ frames (unprivileged lf)).

Definition lfru_shape (lf : LFRUData) : Prop :=
  frames (privileged lf) <> [] /\ frames (unprivileged lf) <> [].

(** The contract of [lfru] for one reference: the counters, the page table
    and the victim list are left alone, both partitions keep their number of
    frames, and the pages of the two partitions together change as
    [resident_step] says. *)
Definition lfru_spec (m : Members) (d : AlgorithmData) (lf : LFRUData) (w : Process)
           (r : bool * AlgorithmData * Process) : Prop :=
  hits (snd (fst r)) = hits d /\
  misses (snd (fst r)) = misses d /\
  pageTable (snd (fst r)) = pageTable d /\
  victimList (snd (fst r)) = victimList d /\
  (exists lf',
      lfruData (snd (fst r)) = Some lf' /\
      List.length (frames (privileged lf')) = List.length (frames (privileged lf)) /\
      List.length (frames (unprivileged lf')) = List.length (frames (unprivileged lf)) /\
      resident_step (lastPageRef m) (lfru_resident lf) (lfru_resident lf') (fst (fst r))) /\
  clockHand (snd r) = clockHand w.

Lemma nonempty_length {A : Type} (l l' : list A) :
  List.length l' = List.length l -> l <> [] -> l' <> [].
Proof. destruct l, l'; simpl; congruence. Qed.

Lemma lfru_contract (m : Members) (d : AlgorithmData) (lf : LFRUData) (w : Process) :
  lfruData d = Some lf -> lfru_shape lf ->
  lfru_spec m d lf w (lfru m d w).
Proof.
  intros Hlf [HP HU]. unfold lfru, handlePageInsertion. rewrite Hlf.
  destruct lf as [P U]. unfold bind, ret.
  cbn [fst snd privileged unprivileged] in *.
  destruct (hasPage P (lastPageRef m)) eqn:EP.
  - (* hit in the privileged partition *)
    destruct (updateLRU_spec P (lastPageRef m) w) as [Hpg Hw].
    unfold lfru_spec, lfru_resident.
    cbn [fst snd hits misses pageTable victimList lfruData set_lfruData
         privileged unprivileged].
    repeat split; auto.
    eexists. split; [reflexivity|]. cbn [privileged unprivileged].
    split; [| split; [reflexivity|]].
    + rewrite <- (length_map page), Hpg. apply length_map.
    + rewrite !resident_app. rewrite (same_pages_same_resident _ _ Hpg).
      apply rs_hit; [|reflexivity].
      intros Hne. apply in_or_app. left. apply In_resident. split; [|assumption].
      now apply hasPage_true.
  - destruct (hasPage U (lastPageRef m)) eqn:EU.
    + (* hit in the unprivileged partition: promotion *)
      destruct (removeFromPartition_spec U (lastPageRef m) w EU)
        as ([Hul Huw] & Hus & Hup).
      destruct (removeFromPartition U (lastPageRef m) w) as [u w1].
      cbn [fst snd privileged unprivileged] in *.
      destruct (hasSpace P) eqn:ES; cbn [negb fst snd privileged unprivileged].
      * destruct (insertIntoPartition_spec P (lastPageRef m) w1 ES) as ([Hpl Hpw] & Hpp).
        destruct (insertIntoPartition P (lastPageRef m) w1) as [p w2].
        unfold lfru_spec, lfru_resident.
        cbn [fst snd hits misses pageTable victimList lfruData set_lfruData
             privileged unprivileged] in *.
        repeat split; auto; try congruence.
        eexists. split; [reflexivity|]. cbn [privileged unprivileged].
        split; [assumption|]. split; [assumption|].
        apply rs_hit.
        -- intros Hne. rewrite resident_app. apply in_or_app. right.
           apply In_resident. split; [|assumption]. now apply hasPage_true.
        -- rewrite !resident_app. perm_count.
      * destruct (demoteLRU_spec P w1 ES HP) as (Hd & [Hdl Hdw] & Hds & Hdp).
        destruct (demoteLRU P w1) as [[dp P1] w2].
        cbn [fst snd] in *. rewrite Hus. cbn [negb fst snd].
        destruct (insertIntoPartition_spec u dp w2 Hus) as ([Hil Hiw] & Hip).
        destruct (insertIntoPartition u dp w2) as [u2 w3].
        cbn [fst snd privileged unprivileged] in *.
        destruct (insertIntoPartition_spec P1 (lastPageRef m) w3 Hds) as ([Hpl Hpw] & Hpp).
        destruct (insertIntoPartition P1 (lastPageRef m) w3) as [p w4].
        unfold lfru_spec, lfru_resident.
        cbn [fst snd hits misses pageTable victimList lfruData set_lfruData
             privileged unprivileged] in *.
        repeat split; auto; try congruence.
        eexists. split; [reflexivity|]. cbn [privileged unprivileged].
        split; [congruence|]. split; [congruence|].
        rewrite (opt_page_occupied _ Hd) in Hip.
        apply rs_hit.
        -- intros Hne. rewrite resident_app. apply in_or_app. right.
           apply In_resident. split; [|assumption]. now apply hasPage_true.
        -- rewrite !resident_app. perm_count.
    + (* fault *)
      assert (Hnot : ~ In (lastPageRef m) (resident (frames P ++ frames U))).
      { rewrite resident_app. intros Hin. apply in_app_or in Hin.
        apply hasPage_false in EP, EU.
        destruct Hin as [Hin|Hin]; apply In_resident in Hin; tauto. }
      destruct (hasSpace P) eqn:ES; cbn [negb fst snd privileged unprivileged].
      * destruct (insertIntoPartition_spec P (lastPageRef m) w ES) as ([Hpl Hpw] & Hpp).
        destruct (insertIntoPartition P (lastPageRef m) w) as [p w1].
        unfold lfru_spec, lfru_resident.
        cbn [fst snd hits misses pageTable victimList lfruData set_lfruData
             privileged unprivileged] in *.
        repeat split; auto.
        eexists. split; [reflexivity|]. cbn [privileged unprivileged].
        split; [assumption|]. split; [reflexivity|].
        apply rs_add; [assumption|]. rewrite !resident_app. perm_count.
      * destruct (demoteLRU_spec P w ES HP) as (Hd & [Hdl Hdw] & Hds & Hdp).
        destruct (demoteLRU P w) as [[dp P1] w1].
        cbn [fst snd privileged unprivileged] in *.
        destruct (hasSpace U) eqn:ESU; cbn [negb fst snd privileged unprivileged].
        -- destruct (insertIntoPartition_spec U dp w1 ESU) as ([Hil Hiw] & Hip).
           destruct (insertIntoPartition U dp w1) as [u2 w2].
           cbn [fst snd] in *.
           destruct (insertIntoPartition_spec P1 (lastPageRef m) w2 Hds) as ([Hpl Hpw] & Hpp).
           destruct (insertIntoPartition P1 (lastPageRef m) w2) as [p w3].
           unfold lfru_spec, lfru_resident.
           cbn [fst snd hits misses pageTable victimList lfruData set_lfruData
                privileged unprivileged] in *.
           repeat split; auto; try congruence.
           eexists. split; [reflexivity|]. cbn [privileged unprivileged].
           split; [congruence|]. split; [congruence|].
           rewrite (opt_page_occupied _ Hd) in Hip.
           apply rs_add; [assumption|]. rewrite !resident_app. perm_count.
        -- destruct (evictLFU_spec U w1 ESU HU) as (He & [Hel Hew] & Hes & Hep).
           destruct (evictLFU U w1) as [[ep U1] w2].
           cbn [fst snd] in *.
           destruct (insertIntoPartition_spec U1 dp w2 Hes) as ([Hil Hiw] & Hip).
           destruct (insertIntoPartition U1 dp w2) as [u2 w3].
           cbn [fst snd] in *.
           destruct (insertIntoPartition_spec P1 (lastPageRef m) w3 Hds) as ([Hpl Hpw] & Hpp).
           destruct (insertIntoPartition P1 (lastPageRef m) w3) as [p w4].
           unfold lfru_spec, lfru_resident.
           cbn [fst snd hits misses pageTable victimList lfruData set_lfruData
                privileged unprivileged] in *.
           repeat split; auto; try congruence.
           eexists. split; [reflexivity|]. cbn [privileged unprivileged].
           split; [congruence|]. split; [congruence|].
           rewrite (opt_page_occupied _ Hd) in Hip.
           apply (rs_replace _ _ _ ep (dp :: resident (frames P1) ++ resident (frames U1)));
             [assumption | |]; rewrite !resident_app; perm_count.
Qed.

(** ** One reference, one policy *)

(** The shape of the data of a policy of the simulator: a table-based
    policy owns a page table of [nF] frames and no LFRU substate; LFRU owns
    two partitions of the configured sizes and never loads a page into its
    page table. *)
Definition algorithm_ok (nF : Z) (a : Algorithm) : Prop :=
  (table_policy (algoFunc a) /\
   lfruData (data a) = None /\
   List.length (pageTable (data a)) = Z.to_nat nF)
  \/
  (algoFunc a = lfru /\
   resident (pageTable (data a)) = [] /\
   exists lf, lfruData (data a) = Some lf /\
              List.length (frames (privileged lf)) = Z.to_nat PRIVILEGED_PARTITION_SIZE /\
              List.length (frames (unprivileged lf)) = Z.to_nat UNPRIVILEGED_PARTITION_SIZE).

(** What [processPageReference] does to one policy. *)
Record policy_step (mem : Members) (a a' : Algorithm) : Prop := {
  ps_label : label a' = label a;
  ps_func : algoFunc a' = algoFunc a;
  ps_selected : selected a' = selected a;
  ps_ok : algorithm_ok (numFrames mem) a';
  ps_idle : selected a = false -> a' = a;
  ps_run : selected a = true ->
           exists fault : bool,
             resident_step (lastPageRef mem) (contents (data a)) (contents (data a')) fault /\
             hits (data a') = hits (data a) + (if fault then 0 else 1) /\
             misses (data a') = misses (data a) + (if fault then 1 else 0)
}.

Lemma lfru_shape_of_lengths (lf : LFRUData) :
  List.length (frames (privileged lf)) = Z.to_nat PRIVILEGED_PARTITION_SIZE ->
  List.length (frames (unprivileged lf)) = Z.to_nat UNPRIVILEGED_PARTITION_SIZE ->
  lfru_shape lf.
Proof.
  intros H1 H2. split; intros E; rewrite E in *; discriminate.
Qed.

Lemma clockHand_high_resolution_clock_now (w : Process) :
  clockHand (snd (high_resolution_clock_now w)) = clockHand w.
Proof. reflexivity. Qed.

Lemma clockHand_printStats (mem : Members) (a : Algorithm) (w : Process) :
  clockHand (snd (printStats mem a w)) = clockHand w.
Proof. reflexivity. Qed.

Lemma process_one_unselected (mem : Members) (a : Algorithm) (w : Process) :
  selected a = false -> process_one mem a w = (a, w).
Proof. intros H. unfold process_one. now rewrite H. Qed.

(** The data and the process after a selected policy has been called and
    its counters updated. *)
Lemma process_one_selected (mem : Members) (a : Algorithm) (w : Process) :
  selected a = true ->
  let w1 := snd (high_resolution_clock_now w) in
  let r := algoFunc a mem (data a) w1 in
  exists a' w',
    process_one mem a w = (a', w') /\
    clockHand w' = clockHand (snd r) /\
    label a' = label a /\ algoFunc a' = algoFunc a /\ selected a' = selected a /\
    pageTable (data a') = pageTable (snd (fst r)) /\
    victimList (data a') = victimList (snd (fst r)) /\
    lfruData (data a') = lfruData (snd (fst r)) /\
    hits (data a') = hits (snd (fst r)) + (if fst (fst r) then 0 else 1) /\
    misses (data a') = misses (snd (fst r)) + (if fst (fst r) then 1 else 0).
Proof.
  intros Hsel w1 r. unfold process_one. rewrite Hsel. cbn [negb].
  unfold bind, ret. cbn [fst snd]. fold w1. fold r.
  destruct r as [[fault d] w2]. cbn [fst snd].
  destruct (printRefs mem); destruct fault; eexists _, _;
    (split; [reflexivity|]); cbn; repeat split; try reflexivity; try lia;
    first [exact Hsel | symmetry; exact Hsel].
Qed.

Lemma process_one_step (mem : Members) (a : Algorithm) (w : Process) :
  1 <= numFrames mem ->
  algorithm_ok (numFrames mem) a ->
  0 <= clockHand w ->
  policy_step mem a (fst (process_one mem a w)) /\
  0 <= clockHand (snd (process_one mem a w)).
Proof.
  intros HF Hok Hw. destruct (selected a) eqn:Hsel.
  2:{ rewrite (process_one_unselected _ _ _ Hsel). split; [|exact Hw].
      constructor; auto. congruence. }
  destruct (process_one_selected mem a w Hsel)
    as (a' & w' & E & Hw' & Hl & Hf & Hs & Ht & Hv & Hlf & Hh & Hm).
  rewrite E. cbn [fst snd].
  set (w1 := snd (high_resolution_clock_now w)) in *.
  assert (Hw1 : 0 <= clockHand w1) by exact Hw.
  destruct Hok as [(Hpol & Hnone & Hlen) | (Hfun & Hres & lf & Hsome & HlP & HlU)].
  - destruct (Hpol mem (data a) w1 HF Hlen Hw1) as (H1 & H2 & H3 & H4 & H5 & H6).
    split; [|lia].
    assert (Hlen' : List.length (pageTable (data a')) = Z.to_nat (numFrames mem)).
    { rewrite Ht, <- (length_map index), H4, length_map. exact Hlen. }
    constructor; auto.
    + left. rewrite Hf, Hlf, H3. auto.
    + congruence.
    + intros _. exists (fst (fst (algoFunc a mem (data a) w1))).
      split; [|split; congruence].
      unfold contents. rewrite Hlf, H3, Hnone, !app_nil_r, Ht.
      now apply table_step_resident.
  - pose proof (lfru_contract mem (data a) lf w1 Hsome (lfru_shape_of_lengths lf HlP HlU))
      as Hc.
    rewrite <- Hfun in Hc.
    destruct Hc as (H1 & H2 & H3 & H4 & (lf' & H5 & H6 & H7 & H8) & H9).
    split; [|rewrite Hw', H9; exact Hw1].
    constructor; auto.
    + right. split; [congruence|]. split; [congruence|].
      exists lf'. split; [congruence|]. split; congruence.
    + congruence.
    + intros _. exists (fst (fst (algoFunc a mem (data a) w1))).
      split; [|split; congruence].
      unfold contents. rewrite Hlf, H5, Hsome, Ht, H3, Hres. simpl. exact H8.
Qed.

(** [process_each] steps every policy, each from some process state in
    which the CLOCK hand is non-negative. *)
Lemma process_each_steps (mem : Members) (algs : list Algorithm) (w : Process) :
  1 <= numFrames mem ->
  Forall (algorithm_ok (numFrames mem)) algs ->
  0 <= clockHand w ->
  Forall2 (policy_step mem) algs (fst (process_each mem algs w)) /\
  0 <= clockHand (snd (process_each mem algs w)).
Proof.
  intros HF. revert w. induction algs as [|a algs IH]; intros w Hok Hw.
  - split; [constructor|exact Hw].
  - inversion Hok as [|? ? Ha Hrest]; subst.
    cbn [process_each]. unfold bind, ret. cbn [fst snd].
    destruct (process_one_step mem a w HF Ha Hw) as [Hstep Hw1].
    destruct (IH (snd (process_one mem a w)) Hrest Hw1) as [Hsteps Hw2].
    split; [constructor; assumption | exact Hw2].
Qed.

Lemma policy_steps_ok (mem : Members) (algs algs' : list Algorithm) :
  Forall2 (policy_step mem) algs algs' ->
  Forall (algorithm_ok (numFrames mem)) algs'.
Proof.
  induction 1 as [|a a' l l' H _ IH]; constructor; auto. apply H.
Qed.

(** ** The simulator after [setConfiguration] *)

Lemma resident_all_empty (t : list Frame) :
  Forall (fun f => page f = -1) t -> resident t = [].
Proof.
  induction 1 as [|f t Hf _ IH]; [reflexivity|].
  unfold resident in *. simpl. rewrite Hf. simpl. exact IH.
Qed.

Lemma emplace_frames_spec (n : nat) :
  forall (i : Z) (w : Process),
    List.length (fst (emplace_frames n i w)) = n /\
    Forall (fun f => page f = -1) (fst (emplace_frames n i w)).
Proof.
  induction n as [|n IH]; intros i w; cbn [emplace_frames].
  - split; [reflexivity|constructor].
  - unfold bind, ret. cbn [fst snd].
    destruct (IH (i + 1) (snd (steady_clock_now w))) as [H1 H2].
    split; [cbn [List.length]; f_equal; exact H1
           | constructor; [reflexivity|exact H2]].
Qed.

Lemma default_frames_spec (n : nat) :
  forall (w : Process),
    List.length (fst (default_frames n w)) = n.
Proof.
  induction n as [|n IH]; intros w; cbn [default_frames]; [reflexivity|].
  unfold bind, ret. cbn [fst snd List.length]. f_equal. apply IH.
Qed.

Lemma Partition_new_spec (partitionSize : Z) (w : Process) :
  List.length (frames (fst (Partition_new partitionSize w))) = Z.to_nat partitionSize /\
  Forall (fun f => page f = -1) (frames (fst (Partition_new partitionSize w))).
Proof.
  unfold Partition_new, bind, ret. cbn [fst snd frames]. split.
  - rewrite length_map. apply default_frames_spec.
  - apply Forall_map. apply Forall_forall. intros f _. reflexivity.
Qed.

(** A policy as [initializeAlgorithms] leaves it. *)
Definition initial_algorithm (nF : Z) (a : Algorithm) : Prop :=
  algorithm_ok nF a /\ selected a = false /\
  hits (data a) = 0 /\ misses (data a) = 0 /\
  victimList (data a) = [] /\ contents (data a) = [].

Definition policy_entry_ok (e : string * Policy) : Prop :=
  (String.eqb (fst e) "LFRU" = true /\ snd e = lfru) \/
  (String.eqb (fst e) "LFRU" = false /\ table_policy (snd e)).

Lemma policy_list_ok : Forall policy_entry_ok policy_list.
Proof.
  unfold policy_list.
  repeat (apply Forall_cons;
          [ solve [ left; split; reflexivity
                  | right; split; [reflexivity|];
                    first [ exact optimal_table_policy | exact random_table_policy
                          | exact fifo_table_policy | exact lru_table_policy
                          | exact clock_table_policy | exact nfu_table_policy
                          | exact aging_table_policy | exact mru_table_policy
                          | exact nru_table_policy | exact mfu_table_policy
                          | exact lfu_table_policy ] ]
          | ]).
  apply Forall_nil.
Qed.

Lemma allocate_data_initial (nF : Z) (l : list (string * Policy)) :
  Forall policy_entry_ok l ->
  forall w : Process,
    Forall (initial_algorithm nF) (fst (allocate_data nF l w)) /\
    map label (fst (allocate_data nF l w)) = map fst l /\
    map algoFunc (fst (allocate_data nF l w)) = map snd l.
Proof.
  induction 1 as [|[name pol] l He _ IH]; intros w; cbn [allocate_data].
  - repeat split; constructor.
  - unfold bind, ret, AlgorithmData_new, LFRUData_new, bind, ret. cbn [fst snd].
    destruct (emplace_frames_spec (Z.to_nat nF) 0 w) as [Hlen Hemp].
    destruct (emplace_frames (Z.to_nat nF) 0 w) as [t w1]. cbn [fst snd] in *.
    destruct He as [[Hn Hp]|[Hn Hp]]; cbn [fst snd] in Hn, Hp; rewrite Hn;
      cbn [fst snd].
    + destruct (Partition_new_spec PRIVILEGED_PARTITION_SIZE w1) as [HP1 HP2].
      destruct (Partition_new PRIVILEGED_PARTITION_SIZE w1) as [P w2].
      cbn [fst snd] in *.
      destruct (Partition_new_spec UNPRIVILEGED_PARTITION_SIZE w2) as [HU1 HU2].
      destruct (Partition_new UNPRIVILEGED_PARTITION_SIZE w2) as [U w3].
      cbn [fst snd] in *.
      destruct (IH w3) as (H1 & H2 & H3).
      split; [|split; simpl; f_equal; assumption].
      constructor; [|exact H1].
      assert (Hres : resident (frames P ++ frames U) = []).
      { apply resident_all_empty. apply Forall_app. auto. }
      unfold initial_algorithm, algorithm_ok, contents.
      cbn [data selected hits misses victimList lfruData pageTable algoFunc
           set_lfruData privileged unprivileged].
      rewrite Hres, (resident_all_empty t Hemp).
      repeat split; auto. right. split; [assumption|]. split; [reflexivity|].
      eexists. split; [reflexivity|]. auto.
    + destruct (IH w1) as (H1 & H2 & H3).
      split; [|split; simpl; f_equal; assumption].
      constructor; [|exact H1].
      unfold initial_algorithm, algorithm_ok, contents.
      cbn [data selected hits misses victimList lfruData pageTable algoFunc].
      rewrite (resident_all_empty t Hemp).
      repeat split; auto.
Qed.

Lemma setConfiguration_members (frames maxCalls : Z) (dbg pr : bool)
      (sim : CacheReplacementSimulator) (w : Process) :
  members (fst (setConfiguration frames maxCalls dbg pr sim w)) =
  mkMembers (Z.max 1 frames) (pageRefUpperBound (members sim)) maxCalls dbg pr
            (counter (members sim)) (lastPageRef (members sim))
            (pageRefs (members sim)).
Proof. reflexivity. Qed.

Lemma setConfiguration_algorithms (frames maxCalls : Z) (dbg pr : bool)
      (sim : CacheReplacementSimulator) (w : Process) :
  Forall (initial_algorithm (Z.max 1 frames))
         (algorithms (fst (setConfiguration frames maxCalls dbg pr sim w))) /\
  map label (algorithms (fst (setConfiguration frames maxCalls dbg pr sim w)))
  = map fst policy_list /\
  map algoFunc (algorithms (fst (setConfiguration frames maxCalls dbg pr sim w)))
  = map snd policy_list.
Proof.
  unfold setConfiguration, initializeAlgorithms, bind, ret.
  cbn [fst snd algorithms numFrames].
  apply allocate_data_initial. exact policy_list_ok.
Qed.

(** ** No policy touches the hit and miss counters *)

Definition keeps_counters (pol : Policy) : Prop :=
  forall m d w,
    hits (snd (fst (pol m d w))) = hits d /\
    misses (snd (fst (pol m d w))) = misses d.

Ltac keeps_counters_tac :=
  unfold bind, ret, steady_clock_now, getCurrentTime, uniform_int_distribution;
  repeat match goal with
         | |- context [match ?x with _ => _ end] => destruct x
         end;
  cbn [fst snd hits misses set_pageTable push_victim set_lfruData];
  split; reflexivity.

Lemma optimal_keeps_counters : keeps_counters optimal.
Proof. intros m d w. unfold optimal. keeps_counters_tac. Qed.

Lemma random_keeps_counters : keeps_counters random.
Proof. intros m d w. unfold random. keeps_counters_tac. Qed.

Lemma fifo_keeps_counters : keeps_counters fifo.
Proof. intros m d w. unfold fifo. keeps_counters_tac. Qed.

Lemma lru_keeps_counters : keeps_counters lru.
Proof. intros m d w. unfold lru. keeps_counters_tac. Qed.

Lemma nfu_keeps_counters : keeps_counters nfu.
Proof. intros m d w. unfold nfu. keeps_counters_tac. Qed.

Lemma aging_keeps_counters : keeps_counters aging.
Proof. intros m d w. unfold aging. keeps_counters_tac. Qed.

Lemma mru_keeps_counters : keeps_counters mru.
Proof. intros m d w. unfold mru. keeps_counters_tac. Qed.

Lemma nru_keeps_counters : keeps_counters nru.
Proof. intros m d w. unfold nru. keeps_counters_tac. Qed.

Lemma mfu_keeps_counters : keeps_counters mfu.
Proof. intros m d w. unfold mfu. keeps_counters_tac. Qed.

Lemma lfu_keeps_counters : keeps_counters lfu.
Proof. intros m d w. unfold lfu. keeps_counters_tac. Qed.

Lemma lfru_keeps_counters : keeps_counters lfru.
Proof. intros m d w. unfold lfru. keeps_counters_tac. Qed.

Lemma clock_search_keeps_counters (fuel : nat) :
  forall m s it d w n b d',
    fst (clock_search fuel m s it d w) = Some (n, b, d') ->
    hits d' = hits d /\ misses d' = misses d.
Proof.
  induction fuel as [|fuel IH]; intros m s it d w n b d' H; [discriminate|].
  cbn [clock_search] in H. unfold bind, ret, get_clockHand, put_clockHand in H.
  cbn [fst snd clockHand] in H.
  destruct (extra (deref (Z.to_nat (clockHand w)) (pageTable d)) =? 0).
  - injection H as _ _ <-. split; reflexivity.
  - destruct (negb (Z.rem (clockHand w + 1) (numFrames m) =? s)).
    + apply IH in H. exact H.
    + injection H as _ _ <-. split; reflexivity.
Qed.

Lemma clock_keeps_counters : keeps_counters clock.
Proof.
  intros m d w. rewrite clock_unfold. unfold clock_after_check.
  destruct (find_if (is_requested m) (pageTable d)); [split; reflexivity|].
  destruct (find_if is_empty (pageTable d)); [split; reflexivity|].
  unfold bind, ret, get_clockHand. cbn [fst snd].
  destruct (clock_search _ m _ 0 d _) as [[[[n b] d']|] w'] eqn:E;
    cbn [fst snd]; [|split; reflexivity].
  eapply clock_search_keeps_counters. rewrite E. reflexivity.
Qed.

Lemma every_policy_keeps_counters (name : string) (pol : Policy) :
  In (name, pol) policy_list -> keeps_counters pol.
Proof.
  unfold policy_list. simpl.
  intros H.
  repeat match type of H with
         | _ \/ _ => destruct H as [H|H]
         end;
    try contradiction; injection H as _ <-.
  - exact optimal_keeps_counters.
  - exact random_keeps_counters.
  - exact fifo_keeps_counters.
  - exact lru_keeps_counters.
  - exact clock_keeps_counters.
  - exact nfu_keeps_counters.
  - exact aging_keeps_counters.
  - exact mru_keeps_counters.
  - exact nru_keeps_counters.
  - exact mfu_keeps_counters.
  - exact lfu_keeps_counters.
  - exact lfru_keeps_counters.
Qed.

(** ** The loop of [runSimulation] *)

Definition loop_condition (mem : Members) : bool :=
  (counter mem <? maxPageCalls mem)
  && (counter mem <? static_cast_int (pageRefs_size mem)).

Definition current_page (mem : Members) : Z :=
  pageNum (nth (Z.to_nat (counter mem)) (pageRefs mem) (mkPageRef (-1) (-1))).

(** The members while the current reference is processed, and after the
    increment of the counter. *)
Definition during (mem : Members) : Members := set_lastPageRef (current_page mem) mem.
Definition advance (mem : Members) : Members := set_counter (counter mem + 1) (during mem).

Lemma runSimulation_for_S (fuel : nat) (sim : CacheReplacementSimulator) (w : Process) :
  runSimulation_for (S fuel) sim w =
  if loop_condition (members sim) then
    runSimulation_for fuel
      (mkSimulator (advance (members sim))
                   (fst (process_each (during (members sim)) (algorithms sim) w)))
      (snd (process_each (during (members sim)) (algorithms sim) w))
  else (sim, w).
Proof.
  cbn [runSimulation_for]. unfold loop_condition.
  destruct ((counter (members sim) <? maxPageCalls (members sim))
            && (counter (members sim) <? static_cast_int (pageRefs_size (members sim))));
    reflexivity.
Qed.

(** Induction over the loop: a property of the members and the policies
    that every iteration preserves holds when the loop is left, whatever
    the fuel. *)
Lemma runSimulation_for_invariant (I : Members -> list Algorithm -> Prop) :
  (forall mem algs algs',
      I mem algs ->
      Forall (algorithm_ok (numFrames mem)) algs ->
      loop_condition mem = true ->
      Forall2 (policy_step (during mem)) algs algs' ->
      I (advance mem) algs') ->
  forall (fuel : nat) (sim : CacheReplacementSimulator) (w : Process),
    1 <= numFrames (members sim) ->
    Forall (algorithm_ok (numFrames (members sim))) (algorithms sim) ->
    0 <= clockHand w ->
    I (members sim) (algorithms sim) ->
    I (members (fst (runSimulation_for fuel sim w)))
      (algorithms (fst (runSimulation_for fuel sim w))).
Proof.
  intros Hstep. induction fuel as [|fuel IH]; intros sim w HF Hok Hw HI.
  - exact HI.
  - rewrite runSimulation_for_S.
    destruct (loop_condition (members sim)) eqn:Hc; [|exact HI].
    destruct (process_each_steps (during (members sim)) (algorithms sim) w HF Hok Hw)
      as [Hsteps Hw'].
    apply IH; cbn [members algorithms]; auto.
    + exact (policy_steps_ok _ _ _ Hsteps).
    + eapply Hstep; eauto.
Qed.

(** The counter after the loop has run for as many references as the fuel
    allows. *)
Lemma runSimulation_for_counter (fuel : nat) :
  forall (sim : CacheReplacementSimulator) (w : Process),
    let mem := members sim in
    0 <= counter mem ->
    counter mem + Z.of_nat fuel <= maxPageCalls mem ->
    counter mem + Z.of_nat fuel <= static_cast_int (pageRefs_size mem) ->
    let r := fst (runSimulation_for fuel sim w) in
    counter (members r) = counter mem + Z.of_nat fuel /\
    (fuel <> O ->
     lastPageRef (members r)
     = pageNum (nth (Z.to_nat (counter mem) + fuel - 1) (pageRefs mem) (mkPageRef (-1) (-1)))) /\
    pageRefs (members r) = pageRefs mem /\ numFrames (members r) = numFrames mem.
Proof.
  induction fuel as [|fuel IH]; intros sim w mem Hc Hm Hn.
  - cbn [runSimulation_for]. unfold ret. cbn [fst]. fold mem.
    repeat split; try lia; try (intros H; now elim H).
  - rewrite runSimulation_for_S.
    assert (E : loop_condition mem = true).
    { unfold loop_condition. apply andb_true_intro. split; apply Z.ltb_lt; lia. }
    fold mem. rewrite E.
    match goal with
    | |- context [runSimulation_for fuel ?s ?w1] => pose proof (IH s w1) as H
    end.
    cbn [members advance during set_counter set_lastPageRef counter
         maxPageCalls pageRefs_size pageRefs numFrames] in H.
    change (pageRefs_size (advance mem)) with (pageRefs_size mem) in H.
    destruct H as (H1 & H2 & H3 & H4); [lia | lia | lia |].
    cbn zeta. rewrite H1, H3, H4. repeat split; try lia.
    intros _. destruct fuel as [|fuel'].
    + cbn [runSimulation_for ret fst members advance during set_counter set_lastPageRef
           lastPageRef]. unfold current_page. f_equal. f_equal. lia.
    + rewrite H2 by discriminate. f_equal. f_equal. lia.
Qed.

(** ** The simulator at the start of a run *)

Definition same_policy (a a' : Algorithm) : Prop :=
  label a' = label a /\ algoFunc a' = algoFunc a /\ data a' = data a.

Lemma same_policy_refl (l : list Algorithm) : Forall2 same_policy l l.
Proof. induction l; constructor; auto. repeat split. Qed.

Lemma same_policy_map (b : bool) (l l' : list Algorithm) :
  Forall2 same_policy l l' ->
  Forall2 same_policy l (map (set_selected b) l').
Proof. induction 1; simpl; constructor; auto. Qed.

Lemma same_policy_update (b : bool) (i : nat) (l l' : list Algorithm) :
  Forall2 same_policy l l' ->
  Forall2 same_policy l (update i (set_selected b) l').
Proof.
  intros H. revert i. induction H as [|a a' l l' Ha Hl IH]; intros [|i]; simpl;
    constructor; auto.
Qed.

Lemma selectAlgorithm_same_policies (algoCode : ascii) (sim : CacheReplacementSimulator) :
  members (fst (selectAlgorithm algoCode sim)) = members sim /\
  Forall2 same_policy (algorithms sim) (algorithms (fst (selectAlgorithm algoCode sim))).
Proof.
  unfold selectAlgorithm.
  repeat match goal with
         | |- context [if Ascii.eqb algoCode ?c then _ else _] =>
             destruct (Ascii.eqb algoCode c)
         end;
    cbn [fst members algorithms]; (split; [reflexivity|]);
    repeat first [apply same_policy_update | apply same_policy_map];
    apply same_policy_refl.
Qed.

Lemma selectAlgorithm_all (sim : CacheReplacementSimulator) :
  Forall (fun a => selected a = true) (algorithms (fst (selectAlgorithm "a" sim))).
Proof.
  cbn. apply Forall_map. apply Forall_map. apply Forall_forall. reflexivity.
Qed.

(** A policy that has not processed any reference yet. *)
Definition ready_algorithm (nF : Z) (a : Algorithm) : Prop :=
  algorithm_ok nF a /\ hits (data a) = 0 /\ misses (data a) = 0 /\
  victimList (data a) = [] /\ contents (data a) = [].

Lemma ready_same_policy (nF : Z) (a a' : Algorithm) :
  same_policy a a' -> ready_algorithm nF a -> ready_algorithm nF a'.
Proof.
  intros (H1 & H2 & H3) (Hok & Hh & Hm & Hv & Hc).
  unfold ready_algorithm, algorithm_ok in *. rewrite H2, H3. auto.
Qed.

(** The simulator that the loop of [runSimulation] starts from, after
    [setConfiguration], a load of [refs] and [selectAlgorithm]. *)
Definition configured (frames maxCalls : Z) (dbg pr : bool) (refs : list PageRef)
           (algoCode : ascii) (sim0 : CacheReplacementSimulator) (w0 : Process)
  : CacheReplacementSimulator :=
  fst (selectAlgorithm algoCode
         (set_pageRefs refs (fst (setConfiguration frames maxCalls dbg pr sim0 w0)))).

Lemma configured_start (frames maxCalls : Z) (dbg pr : bool) (refs : list PageRef)
      (algoCode : ascii) (sim0 : CacheReplacementSimulator) (w0 : Process) :
  let sim := runSimulation_init (configured frames maxCalls dbg pr refs algoCode sim0 w0) in
  numFrames (members sim) = Z.max 1 frames /\
  pageRefs (members sim) = refs /\
  counter (members sim) = 0 /\
  maxPageCalls (members sim)
  = Z.min maxCalls (static_cast_int (Z.of_nat (List.length refs))) /\
  Forall (ready_algorithm (Z.max 1 frames)) (algorithms sim) /\
  map label (algorithms sim) = map fst policy_list /\
  map algoFunc (algorithms sim) = map snd policy_list.
Proof.
  intros sim. unfold sim, configured, runSimulation_init.
  destruct (selectAlgorithm_same_policies algoCode
              (set_pageRefs refs (fst (setConfiguration frames maxCalls dbg pr sim0 w0))))
    as [Hm Hs].
  destruct (setConfiguration_algorithms frames maxCalls dbg pr sim0 w0) as (Hi & Hl & Hf).
  cbn [members algorithms]. rewrite Hm.
  cbn [set_pageRefs members algorithms] in *. rewrite setConfiguration_members.
  cbn [numFrames pageRefs counter maxPageCalls set_counter set_maxPageCalls pageRefs_size].
  repeat split; auto.
  - clear Hl Hf. induction Hs as [|a a' l l' Ha _ IH]; [constructor|].
    inversion Hi as [|? ? Hia Hil]; subst. constructor; [|now apply IH].
    apply (ready_same_policy _ a a' Ha).
    destruct Hia as (H1 & _ & H2 & H3 & H4 & H5). repeat split; assumption.
  - rewrite <- Hl. clear Hl Hf Hi.
    induction Hs as [|a a' l l' Ha _ IH]; [reflexivity|].
    simpl. rewrite IH. f_equal. apply Ha.
  - rewrite <- Hf. clear Hl Hf Hi.
    induction Hs as [|a a' l l' Ha _ IH]; [reflexivity|].
    simpl. rewrite IH. f_equal. apply Ha.
Qed.

Lemma ready_algorithms_ok (nF : Z) (algs : list Algorithm) :
  Forall (ready_algorithm nF) algs -> Forall (algorithm_ok nF) algs.
Proof. apply Forall_impl. intros a H. apply H. Qed.

(** ** Counter accounting *)

Lemma Forall2_In_r {A B : Type} (R : A -> B -> Prop) (l : list A) (l' : list B) (b : B) :
  Forall2 R l l' -> In b l' -> exists a, In a l /\ R a b.
Proof.
  induction 1 as [|x y l l' Hxy _ IH]; intros Hin; [contradiction|].
  destruct Hin as [<-|Hin].
  - exists x. split; [now left|assumption].
  - destruct (IH Hin) as (a & Ha & HR). exists a. split; [now right|assumption].
Qed.

Lemma counters_invariant_step (mem : Members) (algs algs' : list Algorithm) :
  Forall (fun a => selected a = true ->
                   hits (data a) + misses (data a) = counter mem) algs ->
  Forall2 (policy_step (during mem)) algs algs' ->
  Forall (fun a => selected a = true ->
                   hits (data a) + misses (data a) = counter (advance mem)) algs'.
Proof.
  intros HI Hsteps. apply Forall_forall. intros a' Hin Hsel.
  destruct (Forall2_In_r _ _ _ _ Hsteps Hin) as (a & Ha & Hstep).
  rewrite Forall_forall in HI. specialize (HI a Ha).
  destruct Hstep as [_ _ Hs _ _ Hrun]. rewrite Hs in Hsel.
  destruct (Hrun Hsel) as (fault & _ & Hh & Hm).
  rewrite Hh, Hm. cbn [advance set_counter counter]. specialize (HI Hsel).
  change (counter (during mem)) with (counter mem).
  destruct fault; lia.
Qed.

(** C2.  No policy function modifies [hits] or [misses]; for each selected
    policy [processPageReference] calls the policy function once, keeps the
    frames, the victims and the partitions as the function left them, and
    adds one to [misses] when the function returned true (a fault) and one
    to [hits] when it returned false; a policy that is not selected is left
    as it is; hence, once the reference with zero-based index [t] has been
    processed, every selected policy has [hits + misses = t + 1]. *)
Theorem hits_plus_misses_counts_references :
  (forall name pol, In (name, pol) policy_list -> keeps_counters pol) /\
  (forall mem a w,
      In (label a, algoFunc a) policy_list -> selected a = true ->
      let r := algoFunc a mem (data a) (snd (high_resolution_clock_now w)) in
      let fault := fst (fst r) in
      let a' := fst (process_one mem a w) in
      hits (data a') = hits (data a) + (if fault then 0 else 1) /\
      misses (data a') = misses (data a) + (if fault then 1 else 0) /\
      pageTable (data a') = pageTable (snd (fst r)) /\
      victimList (data a') = victimList (snd (fst r)) /\
      lfruData (data a') = lfruData (snd (fst r))) /\
  (forall mem a w, selected a = false -> process_one mem a w = (a, w)) /\
  (forall frames maxCalls dbg pr refs algoCode sim0 w0 w (t : nat),
      0 <= clockHand w ->
      Z.of_nat t < maxCalls ->
      Z.of_nat t < static_cast_int (Z.of_nat (List.length refs)) ->
      let r := fst (runSimulation_for (S t)
                      (runSimulation_init
                         (configured frames maxCalls dbg pr refs algoCode sim0 w0)) w) in
      counter (members r) = Z.of_nat t + 1 /\
      lastPageRef (members r) = pageNum (nth t refs (mkPageRef (-1) (-1))) /\
      forall a, In a (algorithms r) -> selected a = true ->
                hits (data a) + misses (data a) = Z.of_nat t + 1).
Proof.
  split; [exact every_policy_keeps_counters|]. split; [|split].
  - intros mem a w Hin Hsel r fault a'.
    destruct (process_one_selected mem a w Hsel)
      as (a1 & w' & E & _ & _ & _ & _ & Ht & Hv & Hlf & Hh & Hm).
    destruct (every_policy_keeps_counters _ _ Hin mem (data a)
                (snd (high_resolution_clock_now w))) as [Kh Km].
    unfold a', fault, r. rewrite E. cbn [fst]. rewrite Hh, Hm, Kh, Km, Ht, Hv, Hlf.
    repeat split; reflexivity.
  - intros mem a w Hsel. now apply process_one_unselected.
  - intros frames maxCalls dbg pr refs algoCode sim0 w0 w t Hw Ht1 Ht2 r.
    destruct (configured_start frames maxCalls dbg pr refs algoCode sim0 w0)
      as (HF & Hrefs & Hc & Hmax & Hready & _ & _).
    set (sim := runSimulation_init
                  (configured frames maxCalls dbg pr refs algoCode sim0 w0)) in *.
    destruct (runSimulation_for_counter (S t) sim w) as (H1 & H2 & H3 & H4).
    + rewrite Hc. lia.
    + rewrite Hc, Hmax. lia.
    + unfold pageRefs_size. rewrite Hc, Hrefs. lia.
    + fold r in H1, H2. rewrite Hc in H1, H2. rewrite Hrefs in H2.
      split; [lia|]. split.
      * rewrite H2 by discriminate. f_equal. f_equal. simpl. lia.
      * assert (Hinv :
          Forall (fun a => selected a = true ->
                           hits (data a) + misses (data a) = counter (members r))
                 (algorithms r)).
        { apply (runSimulation_for_invariant
                   (fun mem algs =>
                      Forall (fun a => selected a = true ->
                                       hits (data a) + misses (data a) = counter mem)
                             algs)
                   (fun mem algs algs' HI _ _ Hs =>
                      counters_invariant_step mem algs algs' HI Hs)).
          - rewrite HF. lia.
          - rewrite HF. exact (ready_algorithms_ok _ _ Hready).
          - exact Hw.
          - rewrite Hc. revert Hready. apply Forall_impl.
            intros a (_ & Hh & Hm & _) _. lia. }
        intros a Hin Hsel. rewrite Forall_forall in Hinv.
        rewrite (Hinv a Hin Hsel). lia.
Qed.

Lemma hits_plus_misses_counts_references_witness :
  let refs := [mkPageRef 7 1; mkPageRef 0 1; mkPageRef 7 1] in
  let sim0 := mkSimulator (mkMembers 12 1048576 1000 false false 0 (-1) []) [] in
  let w := fresh_process (fun n => Z.of_nat n) (fun n => Z.of_nat n) (fun n => n)
                         (fun _ => None) in
  let r := fst (runSimulation_for 2
                  (runSimulation_init (configured 3 1000 false false refs "a"%char sim0 w))
                  w) in
  counter (members r) = 2 /\
  lastPageRef (members r) = 0 /\
  forall a, In a (algorithms r) -> selected a = true ->
            hits (data a) + misses (data a) = 2.
Proof.
  intros refs sim0 w.
  apply (proj2 (proj2 (proj2 hits_plus_misses_counts_references))
               3 1000 false false refs "a"%char sim0 w w 1%nat).
  - simpl. lia.
  - simpl. lia.
  - vm_compute. reflexivity.
Defined.

(** ** Resident pages are never duplicated *)

Lemma no_duplicates_step (mem : Members) (algs algs' : list Algorithm) :
  Forall (fun a => NoDup (contents (data a))) algs ->
  Forall2 (policy_step (during mem)) algs algs' ->
  Forall (fun a => NoDup (contents (data a))) algs'.
Proof.
  intros HI Hsteps. apply Forall_forall. intros a' Hin.
  destruct (Forall2_In_r _ _ _ _ Hsteps Hin) as (a & Ha & Hstep).
  rewrite Forall_forall in HI. specialize (HI a Ha).
  destruct Hstep as [_ _ _ _ Hidle Hrun].
  destruct (selected a) eqn:Hsel.
  - destruct (Hrun eq_refl) as (fault & Hres & _).
    exact (resident_step_NoDup _ _ _ _ Hres HI).
  - now rewrite (Hidle eq_refl).
Qed.

(** C3.  Whatever the trace, the configuration and the selection, and
    after any number of iterations of the simulation loop, the non-EMPTY
    pages in the page table of every policy are pairwise distinct, and so are
    the non-EMPTY pages of the privileged and the unprivileged partition of
    LFRU taken together: no page is resident twice, nor in both partitions. *)
Theorem resident_pages_never_duplicated
        (nframes maxCalls : Z) (dbg pr : bool) (refs : list PageRef) (algoCode : ascii)
        (sim0 : CacheReplacementSimulator) (w0 w : Process) (fuel : nat) :
  0 <= clockHand w ->
  let r := fst (runSimulation_for fuel
                  (runSimulation_init
                     (configured nframes maxCalls dbg pr refs algoCode sim0 w0)) w) in
  forall a, In a (algorithms r) ->
    NoDup (resident (pageTable (data a))) /\
    match lfruData (data a) with
    | Some lf => NoDup (resident (frames (privileged lf) ++ frames (unprivileged lf)))
    | None => True
    end.
Proof.
  intros Hw r.
  destruct (configured_start nframes maxCalls dbg pr refs algoCode sim0 w0)
    as (HF & Hrefs & Hc & Hmax & Hready & _ & _).
  set (sim := runSimulation_init
                (configured nframes maxCalls dbg pr refs algoCode sim0 w0)) in *.
  assert (Hinv : Forall (fun a => NoDup (contents (data a))) (algorithms r)).
  { apply (runSimulation_for_invariant
             (fun _ algs => Forall (fun a => NoDup (contents (data a))) algs)
             (fun mem algs algs' HI _ _ Hs => no_duplicates_step mem algs algs' HI Hs)).
    - rewrite HF. lia.
    - rewrite HF. exact (ready_algorithms_ok _ _ Hready).
    - exact Hw.
    - revert Hready. apply Forall_impl.
      intros a (_ & _ & _ & _ & Hcont). rewrite Hcont. constructor. }
  intros a Hin. rewrite Forall_forall in Hinv. specialize (Hinv a Hin).
  unfold contents in Hinv. split.
  - exact (NoDup_app_remove_r _ _ Hinv).
  - destruct (lfruData (data a)); [|exact I].
    exact (NoDup_app_remove_l _ _ Hinv).
Qed.

Lemma resident_pages_never_duplicated_witness :
  let refs := [mkPageRef 7 1; mkPageRef 0 1; mkPageRef 7 1; mkPageRef 3 1] in
  let sim0 := mkSimulator (mkMembers 12 1048576 1000 false false 0 (-1) []) [] in
  let w := fresh_process (fun n => Z.of_nat n) (fun n => Z.of_nat n) (fun n => n)
                         (fun _ => None) in
  let r := fst (runSimulation_for 4
                  (runSimulation_init (configured 2 1000 false false refs "a"%char sim0 w))
                  w) in
  Forall (fun a =>
            NoDup (resident (pageTable (data a))) /\
            match lfruData (data a) with
            | Some lf => NoDup (resident (frames (privileged lf) ++ frames (unprivileged lf)))
            | None => True
            end)
         (algorithms r).
Proof.
  intros refs sim0 w r. apply Forall_forall.
  apply (resident_pages_never_duplicated 2 1000 false false refs "a"%char sim0 w w 4%nat).
  simpl. lia.
Defined.

(** ** Frame count configuration *)


Lemma clockHand_write_cout (o : Output) (w : Process) :
  clockHand (snd (write_cout o w)) = clockHand w.
Proof. reflexivity. Qed.



(** ** CLOCK: the hand outlives the simulator *)

(** One complete use of a simulator, as the test suite does it: construct,
    configure, load, select, run. *)
Definition simulate (filename : string) (algoCode : ascii) (nframes maxCalls : Z)
  : M CacheReplacementSimulator :=
  sim0 <- CacheReplacementSimulator_new ;;
  sim1 <- setConfiguration nframes maxCalls false false sim0 ;;
  loaded <- loadPageReferences filename sim1 ;;
  runSimulation (fst (selectAlgorithm algoCode (snd loaded))).

(** Hits, misses and evicted pages of the policies that were selected. *)
Definition outcome (sim : CacheReplacementSimulator) : list (string * Z * Z * list Z) :=
  map (fun a => (label a, hits (data a), misses (data a), map page (victimList (data a))))
      (filter selected (algorithms sim)).

Definition newline : string := String "010" EmptyString.

(** C8.  Two simulators run one after the other in the same process, with
    the same configuration (2 frames, CLOCK) and the same trace of pages
    0, 1, 2, 1: the first run ends with 1 hit, 3 misses and victim 0 and
    leaves the static hand at 1; the second run starts from that hand and
    ends with 0 hits, 4 misses and victims 1 and 0. *)
Lemma clock_hand_leaks_between_runs :
  let trace := ("1 0" ++ newline ++ "1 1" ++ newline ++ "1 2" ++ newline
                ++ "1 1" ++ newline)%string in
  let w0 := fresh_process (fun n => Z.of_nat n) (fun n => Z.of_nat n) (fun n => n)
                          (fun _ => Some trace) in
  let first := simulate "trace.txt" "C" 2 1000 w0 in
  let second := simulate "trace.txt" "C" 2 1000 (snd first) in
  outcome (fst first) = [("CLOCK"%string, 1, 3, [0])] /\
  clockHand (snd first) = 1 /\
  outcome (fst second) = [("CLOCK"%string, 0, 4, [1; 0])].
Proof. vm_compute. repeat split; reflexivity. Qed.

(** ** The steady clock along a computation *)

(** [w'] is a later state of the process of [w]: the same clock, read at
    least as often. *)
Definition later (w w' : Process) : Prop :=
  steady_clock w' = steady_clock w /\ (steady_reads w <= steady_reads w')%nat.

Lemma later_refl (w : Process) : later w w.
Proof. split; [reflexivity|lia]. Qed.

Lemma later_trans (w1 w2 w3 : Process) : later w1 w2 -> later w2 w3 -> later w1 w3.
Proof. intros [H1 H2] [H3 H4]. split; [congruence|lia]. Qed.

(** A computation that only moves the process forward. *)
Definition advances {A : Type} (c : M A) : Prop := forall w, later w (snd (c w)).

Lemma advances_ret {A : Type} (a : A) : advances (ret a).
Proof. intros w. apply later_refl. Qed.

Lemma advances_bind {A B : Type} (c : M A) (k : A -> M B) :
  advances c -> (forall a, advances (k a)) -> advances (bind c k).
Proof.
  intros Hc Hk w. unfold bind. cbn zeta.
  eapply later_trans; [apply Hc | apply Hk].
Qed.

Lemma advances_steady_clock_now : advances steady_clock_now.
Proof. intros w. split; cbn; [reflexivity|lia]. Qed.

Lemma advances_high_resolution_clock_now : advances high_resolution_clock_now.
Proof. intros w. split; cbn; [reflexivity|lia]. Qed.

Lemma advances_getCurrentTime : advances getCurrentTime.
Proof. intros w. split; cbn; [reflexivity|lia]. Qed.

Lemma advances_uniform_int_distribution (a b : Z) : advances (uniform_int_distribution a b).
Proof. intros w. split; cbn; [reflexivity|lia]. Qed.

Lemma advances_get_clockHand : advances get_clockHand.
Proof. intros w. apply later_refl. Qed.

Lemma advances_put_clockHand (h : Z) : advances (put_clockHand h).
Proof. intros w. split; cbn; [reflexivity|lia]. Qed.

Lemma advances_write_cout (o : Output) : advances (write_cout o).
Proof. intros w. split; cbn; [reflexivity|lia]. Qed.

Lemma advances_default_frames (n : nat) : advances (default_frames n).
Proof.
  induction n as [|n IH]; cbn [default_frames]; [apply advances_ret|].
  apply advances_bind; [apply advances_steady_clock_now|]. intros now.
  apply advances_bind; [exact IH|]. intros r. apply advances_ret.
Qed.

Lemma advances_clock_search (fuel : nat) :
  forall m s it d, advances (clock_search fuel m s it d).
Proof.
  induction fuel as [|fuel IH]; intros m s it d; cbn [clock_search];
    [apply advances_ret|].
  apply advances_bind; [apply advances_get_clockHand|]. intros hand.
  destruct (extra (deref (Z.to_nat hand) (pageTable d)) =? 0).
  - apply advances_bind; [apply advances_put_clockHand|]. intros _. apply advances_ret.
  - apply advances_bind; [apply advances_put_clockHand|]. intros _.
    apply advances_bind; [apply advances_get_clockHand|]. intros hand'.
    destruct (negb (hand' =? s)); [apply IH|].
    apply advances_bind; [apply advances_put_clockHand|]. intros _. apply advances_ret.
Qed.

(** Decomposes a computation built from the effects above. *)
Ltac advances_tac :=
  repeat first
         [ apply advances_ret
         | apply advances_steady_clock_now
         | apply advances_high_resolution_clock_now
         | apply advances_getCurrentTime
         | apply advances_uniform_int_distribution
         | apply advances_get_clockHand
         | apply advances_put_clockHand
         | apply advances_write_cout
         | apply advances_default_frames
         | apply advances_clock_search
         | apply advances_bind; [|intro]
         | match goal with
           | |- advances (match ?x with _ => _ end) => destruct x
           end ].

Lemma advances_policies (name : string) (pol : Policy) :
  In (name, pol) policy_list -> forall m d, advances (pol m d).
Proof.
  unfold policy_list. simpl. intros H m d.
  repeat match type of H with
         | _ \/ _ => destruct H as [H|H]
         end;
    try contradiction; injection H as _ <-.
  - unfold optimal. advances_tac.
  - unfold random. advances_tac.
  - unfold fifo. advances_tac.
  - unfold lru. advances_tac.
  - unfold clock. advances_tac.
  - unfold nfu. advances_tac.
  - unfold aging. advances_tac.
  - unfold mru. advances_tac.
  - unfold nru. advances_tac.
  - unfold mfu. advances_tac.
  - unfold lfu. advances_tac.
  - unfold lfru, handlePageInsertion, updateLRU, removeFromPartition,
      insertIntoPartition, demoteLRU, evictLFU, LFRUData_new, Partition_new.
    advances_tac.
Qed.

Lemma advances_process_one (mem : Members) (a : Algorithm) :
  In (label a, algoFunc a) policy_list -> advances (process_one mem a).
Proof.
  intros Hin. unfold process_one, printStats, printSummary.
  destruct (negb (selected a)); [apply advances_ret|].
  apply advances_bind; [apply advances_high_resolution_clock_now|]. intros tStart.
  apply advances_bind; [apply (advances_policies _ _ Hin)|]. intros r.
  advances_tac.
Qed.

(** ** NRU against LRU *)

Definition strictly_increasing (c : nat -> Z) : Prop :=
  forall i j, (i < j)%nat -> c i < c j.

(** Every time stamp of the table is one of the first [n] clock readings. *)
Definition stamped (c : nat -> Z) (n : nat) (t : list Frame) : Prop :=
  Forall (fun f => exists k, (k < n)%nat /\ time f = c k) t.

(** The frames of two tables are ordered by their time stamps in the same
    way, position by position. *)
Definition same_recency (tL tN : list Frame) : Prop :=
  forall p q, In p (combine tL tN) -> In q (combine tL tN) ->
              (time (fst p) <? time (fst q)) = (time (snd p) <? time (snd q)).

Definition frame_id (f : Frame) : Z * Z := (index f, page f).

(** The data of LRU and of NRU agree on everything that is observable of a
    replacement decision: which page sits in which frame, which frame is
    older than which, and which frames were evicted, in order. *)
Record lru_nru_related (dL dN : AlgorithmData) : Prop := {
  rel_frames : map frame_id (pageTable dL) = map frame_id (pageTable dN);
  rel_recency : same_recency (pageTable dL) (pageTable dN);
  rel_victims : map frame_id (victimList dL) = map frame_id (victimList dN)
}.

Lemma frame_id_pages (t1 t2 : list Frame) :
  map frame_id t1 = map frame_id t2 -> map page t1 = map page t2.
Proof.
  intros H. replace (map page t1) with (map snd (map frame_id t1))
    by (rewrite map_map; reflexivity).
  rewrite H, map_map. reflexivity.
Qed.

Lemma find_if_same_pages (p : Z) (t1 t2 : list Frame) :
  map page t1 = map page t2 ->
  find_if (fun f => page f =? p) t1 = find_if (fun f => page f =? p) t2.
Proof.
  revert t2. induction t1 as [|a t1 IH]; intros [|b t2] H; simpl in H;
    try discriminate; [reflexivity|].
  injection H as Hab Ht. simpl. rewrite Hab, (IH t2 Ht). reflexivity.
Qed.

Lemma min_element_from_pairs {A B : Type} (compA : A -> A -> bool)
      (compB : B -> B -> bool) (r : list (A * B)) :
  forall (i s : nat) (sv : A * B),
    (forall p q, In p (sv :: r) -> In q (sv :: r) ->
                 compA (fst p) (fst q) = compB (snd p) (snd q)) ->
    min_element_from compA (map fst r) i s (fst sv)
    = min_element_from compB (map snd r) i s (snd sv).
Proof.
  induction r as [|x r IH]; intros i s sv H; [reflexivity|].
  cbn [map min_element_from].
  rewrite (H x sv) by (simpl; auto).
  destruct (compB (snd x) (snd sv)).
  - apply IH. intros p q Hp Hq. apply H; simpl in *; tauto.
  - apply IH. intros p q Hp Hq. apply H; simpl in *; tauto.
Qed.

Lemma map_fst_combine {A B : Type} (l1 : list A) (l2 : list B) :
  List.length l1 = List.length l2 -> map fst (combine l1 l2) = l1.
Proof.
  revert l2. induction l1 as [|a l1 IH]; intros [|b l2] H; simpl in *;
    try discriminate; [reflexivity|]. f_equal. apply IH. lia.
Qed.

Lemma map_snd_combine {A B : Type} (l1 : list A) (l2 : list B) :
  List.length l1 = List.length l2 -> map snd (combine l1 l2) = l2.
Proof.
  revert l2. induction l1 as [|a l1 IH]; intros [|b l2] H; simpl in *;
    try discriminate; [reflexivity|]. f_equal. apply IH. lia.
Qed.

Lemma min_element_same_recency (tL tN : list Frame) :
  List.length tL = List.length tN ->
  same_recency tL tN ->
  min_element (fun a b => time a <? time b) tL
  = min_element (fun a b => time a <? time b) tN.
Proof.
  intros Hlen Hrec. destruct tL as [|a tL], tN as [|b tN]; simpl in Hlen;
    try discriminate; [reflexivity|].
  unfold min_element. f_equal.
  assert (Hl : List.length tL = List.length tN) by lia.
  pose proof (min_element_from_pairs (fun a b => time a <? time b)
                (fun a b => time a <? time b) (combine tL tN) 1 0 (a, b)) as H.
  rewrite (map_fst_combine _ _ Hl), (map_snd_combine _ _ Hl) in H.
  apply H. intros p q Hp Hq. apply Hrec; assumption.
Qed.

Lemma In_combine_update (gL gN : Frame -> Frame) (tL tN : list Frame) (it : nat)
      (p : Frame * Frame) :
  In p (combine (update it gL tL) (update it gN tN)) ->
  In p (combine tL tN) \/
  exists q, In q (combine tL tN) /\ p = (gL (fst q), gN (snd q)).
Proof.
  revert tN it. induction tL as [|a tL IH]; intros [|b tN] [|it]; simpl;
    try tauto.
  - intros [<-|H]; [right; exists (a, b); auto | auto].
  - intros [<-|H]; [auto|].
    destruct (IH tN it H) as [H'|(q & Hq & ->)]; [auto|].
    right. exists q. auto.
Qed.

Lemma same_recency_update (gL gN : Frame -> Frame) (nL nN : Z)
      (tL tN : list Frame) (it : nat) :
  same_recency tL tN ->
  (forall f, In f tL -> time f < nL) ->
  (forall f, In f tN -> time f < nN) ->
  (forall f, time (gL f) = nL) ->
  (forall f, time (gN f) = nN) ->
  same_recency (update it gL tL) (update it gN tN).
Proof.
  intros Hrec HL HN HgL HgN p q Hp Hq.
  assert (Hold : forall x, In x (combine tL tN) ->
                           time (fst x) < nL /\ time (snd x) < nN).
  { intros [a b] Hx. split; [apply HL | apply HN].
    - eapply in_combine_l; eauto.
    - eapply in_combine_r; eauto. }
  destruct (In_combine_update _ _ _ _ _ _ Hp) as [Hp'|(p0 & Hp0 & ->)];
    destruct (In_combine_update _ _ _ _ _ _ Hq) as [Hq'|(q0 & Hq0 & ->)];
    cbn [fst snd]; rewrite ?HgL, ?HgN.
  - now apply Hrec.
  - destruct (Hold p Hp'). transitivity true; [|symmetry]; apply Z.ltb_lt; lia.
  - destruct (Hold q Hq'). transitivity false; [|symmetry]; apply Z.ltb_ge; lia.
  - now rewrite !Z.ltb_irrefl.
Qed.

Lemma map_frame_id_update_keep (it : nat) (g : Frame -> Frame) (l : list Frame) :
  (forall f, frame_id (g f) = frame_id f) ->
  map frame_id (update it g l) = map frame_id l.
Proof.
  intros Hg. revert it. induction l as [|a l IH]; intros [|it]; simpl; auto.
  - now rewrite Hg.
  - now rewrite IH.
Qed.

Lemma map_frame_id_update_set (it : nat) (g : Frame -> Frame) (p : Z) (l : list Frame) :
  (forall f, frame_id (g f) = (index f, p)) ->
  map frame_id (update it g l) = update it (fun x => (fst x, p)) (map frame_id l).
Proof.
  intros Hg. revert it. induction l as [|a l IH]; intros [|it]; simpl; auto.
  - now rewrite Hg.
  - now rewrite IH.
Qed.

Lemma stamped_fresh (c : nat -> Z) (n : nat) (t : list Frame) :
  strictly_increasing c -> stamped c n t ->
  forall f, In f t -> time f < c n.
Proof.
  intros Hc Hs f Hin. unfold stamped in Hs. rewrite Forall_forall in Hs.
  destruct (Hs f Hin) as (k & Hk & ->). now apply Hc.
Qed.

Lemma stamped_mono (c : nat -> Z) (n n' : nat) (t : list Frame) :
  (n <= n')%nat -> stamped c n t -> stamped c n' t.
Proof.
  intros Hle. apply Forall_impl. intros f (k & Hk & E). exists k. split; [lia|exact E].
Qed.

Lemma stamped_update (c : nat -> Z) (n : nat) (g : Frame -> Frame)
      (t : list Frame) (it : nat) :
  (forall f, time (g f) = c n) ->
  stamped c n t -> stamped c (S n) (update it g t).
Proof.
  intros Hg Hs. revert it. induction Hs as [|f t Hf Ht IH]; intros [|it]; simpl;
    constructor.
  - exists n. split; [lia|apply Hg].
  - apply (stamped_mono c n (S n)); [lia|exact Ht].
  - destruct Hf as (k & Hk & E). exists k. split; [lia|exact E].
  - apply IH.
Qed.

Lemma deref_frame_id (it : nat) (tL tN : list Frame) :
  map frame_id tL = map frame_id tN ->
  frame_id (deref it tL) = frame_id (deref it tN).
Proof.
  intros H. unfold deref.
  change (frame_id (nth it tL (Frame_default 0)))
    with (frame_id (nth it tL (Frame_default 0))).
  rewrite <- !(map_nth frame_id). now rewrite H.
Qed.

(** One reference: [nru] does to its data what [lru] does to its own. *)
Lemma nru_simulates_lru (m : Members) (dL dN : AlgorithmData) (wL wN : Process) :
  strictly_increasing (steady_clock wL) ->
  strictly_increasing (steady_clock wN) ->
  lru_nru_related dL dN ->
  stamped (steady_clock wL) (steady_reads wL) (pageTable dL) ->
  stamped (steady_clock wN) (steady_reads wN) (pageTable dN) ->
  fst (fst (lru m dL wL)) = fst (fst (nru m dN wN)) /\
  lru_nru_related (snd (fst (lru m dL wL))) (snd (fst (nru m dN wN))) /\
  stamped (steady_clock wL) (steady_reads (snd (lru m dL wL)))
          (pageTable (snd (fst (lru m dL wL)))) /\
  stamped (steady_clock wN) (steady_reads (snd (nru m dN wN)))
          (pageTable (snd (fst (nru m dN wN)))).
Proof.
  intros HcL HcN [Hfr Hrec Hvic] HsL HsN.
  pose proof (frame_id_pages _ _ Hfr) as Hpg.
  assert (Hlen : List.length (pageTable dL) = List.length (pageTable dN)).
  { rewrite <- (length_map frame_id (pageTable dL)), Hfr. apply length_map. }
  pose proof (stamped_fresh _ _ _ HcL HsL) as HfL.
  pose proof (stamped_fresh _ _ _ HcN HsN) as HfN.
  unfold lru, nru, is_requested, is_empty.
  rewrite <- (find_if_same_pages (lastPageRef m) _ _ Hpg).
  rewrite <- (find_if_same_pages (-1) _ _ Hpg).
  rewrite <- (min_element_same_recency _ _ Hlen Hrec).
  destruct (find_if (fun f => page f =? lastPageRef m) (pageTable dL)) as [hitIt|].
  { unfold_effects. cbn [steady_reads steady_clock]. split; [reflexivity|].
    split; [constructor; cbn [pageTable victimList set_pageTable]|split].
    - rewrite !map_frame_id_update_keep by reflexivity. exact Hfr.
    - eapply same_recency_update; eauto; reflexivity.
    - exact Hvic.
    - apply stamped_update; [reflexivity|exact HsL].
    - apply stamped_update; [reflexivity|exact HsN]. }
  destruct (find_if (fun f => page f =? -1) (pageTable dL)) as [emptyIt|].
  { unfold_effects. cbn [steady_reads steady_clock]. split; [reflexivity|].
    split; [constructor; cbn [pageTable victimList set_pageTable]|split].
    - rewrite !(map_frame_id_update_set _ _ (lastPageRef m)) by reflexivity.
      now rewrite Hfr.
    - eapply same_recency_update; eauto; reflexivity.
    - exact Hvic.
    - apply stamped_update; [reflexivity|exact HsL].
    - apply stamped_update; [reflexivity|exact HsN]. }
  destruct (min_element (fun a b => time a <? time b) (pageTable dL)) as [victimIt|].
  { unfold_effects. cbn [steady_reads steady_clock]. split; [reflexivity|].
    split; [constructor; cbn [pageTable victimList set_pageTable push_victim]|split].
    - rewrite !(map_frame_id_update_set _ _ (lastPageRef m)) by reflexivity.
      now rewrite Hfr.
    - eapply same_recency_update; eauto; reflexivity.
    - rewrite !map_app, Hvic. cbn [map].
      now rewrite (deref_frame_id victimIt _ _ Hfr).
    - apply stamped_update; [reflexivity|exact HsL].
    - apply stamped_update; [reflexivity|exact HsN]. }
  unfold ret. cbn [fst snd]. split; [reflexivity|].
  split; [constructor; assumption | split; assumption].
Qed.

(** *** Along a run *)

Definition listed (a : Algorithm) : Prop := In (label a, algoFunc a) policy_list.

Lemma process_each_app (mem : Members) (l1 l2 : list Algorithm) (w : Process) :
  process_each mem (l1 ++ l2) w =
  (fst (process_each mem l1 w) ++ fst (process_each mem l2 (snd (process_each mem l1 w))),
   snd (process_each mem l2 (snd (process_each mem l1 w)))).
Proof.
  revert w. induction l1 as [|a l1 IH]; intros w.
  - cbn [app process_each]. unfold ret. cbn [fst snd app].
    now destruct (process_each mem l2 w).
  - cbn [app process_each]. unfold bind, ret. cbn [fst snd].
    rewrite IH. reflexivity.
Qed.

Lemma advances_process_each (mem : Members) (l : list Algorithm) :
  Forall listed l -> advances (process_each mem l).
Proof.
  induction 1 as [|a l Ha _ IH]; cbn [process_each]; [apply advances_ret|].
  apply advances_bind; [now apply advances_process_one|]. intros a'.
  apply advances_bind; [exact IH|]. intros r. apply advances_ret.
Qed.

Lemma process_one_listed (mem : Members) (a : Algorithm) (w : Process) :
  listed a -> listed (fst (process_one mem a w)).
Proof.
  intros H. unfold listed. destruct (selected a) eqn:Hsel.
  - destruct (process_one_selected mem a w Hsel) as (a' & w' & E & _ & Hl & Hf & _).
    rewrite E. cbn [fst]. now rewrite Hl, Hf.
  - now rewrite (process_one_unselected _ _ _ Hsel).
Qed.

Lemma process_each_listed (mem : Members) (l : list Algorithm) :
  Forall listed l -> forall w, Forall listed (fst (process_each mem l w)).
Proof.
  induction 1 as [|a l Ha _ IH]; intros w; cbn [process_each].
  - constructor.
  - unfold bind, ret. cbn [fst snd]. constructor; [now apply process_one_listed|apply IH].
Qed.

Lemma process_each_length (mem : Members) (l : list Algorithm) (w : Process) :
  List.length (fst (process_each mem l w)) = List.length l.
Proof.
  revert w. induction l as [|a l IH]; intros w; cbn [process_each]; [reflexivity|].
  unfold bind, ret. cbn [fst snd List.length]. now rewrite IH.
Qed.

(** The process after the policy of a selected algorithm has returned, up
    to the end of [process_one]. *)
Lemma process_one_selected_later (mem : Members) (a : Algorithm) (w : Process) :
  selected a = true ->
  later (snd (algoFunc a mem (data a) (snd (high_resolution_clock_now w))))
        (snd (process_one mem a w)).
Proof.
  intros Hsel. unfold process_one. rewrite Hsel. cbn [negb].
  unfold bind, ret. cbn [fst snd].
  destruct (algoFunc a mem (data a) (snd (high_resolution_clock_now w))) as [[fault d] w2].
  cbn [fst snd]. destruct (printRefs mem); split; cbn; try reflexivity; lia.
Qed.

Lemma runSimulation_for_invariant_process
      (I : Members -> list Algorithm -> Process -> Prop) :
  (forall mem algs w,
      I mem algs w ->
      loop_condition mem = true ->
      I (advance mem) (fst (process_each (during mem) algs w))
        (snd (process_each (during mem) algs w))) ->
  forall (fuel : nat) (sim : CacheReplacementSimulator) (w : Process),
    I (members sim) (algorithms sim) w ->
    I (members (fst (runSimulation_for fuel sim w)))
      (algorithms (fst (runSimulation_for fuel sim w)))
      (snd (runSimulation_for fuel sim w)).
Proof.
  intros Hstep. induction fuel as [|fuel IH]; intros sim w HI.
  - exact HI.
  - rewrite runSimulation_for_S.
    destruct (loop_condition (members sim)) eqn:Hc; [|exact HI].
    apply IH. cbn [members algorithms]. now apply Hstep.
Qed.

(** LRU and NRU at their positions in the vector of policies, both
    selected, with equal counters and related data whose time stamps are
    past readings of a strictly increasing clock. *)
Definition lru_nru_invariant (algs : list Algorithm) (w : Process) : Prop :=
  exists l1 aL l2 aN l3,
    algs = l1 ++ aL :: l2 ++ aN :: l3 /\
    List.length l1 = 3%nat /\ List.length l2 = 4%nat /\
    Forall listed algs /\
    label aL = "LRU"%string /\ algoFunc aL = lru /\ selected aL = true /\
    label aN = "NRU"%string /\ algoFunc aN = nru /\ selected aN = true /\
    hits (data aL) = hits (data aN) /\
    misses (data aL) = misses (data aN) /\
    lru_nru_related (data aL) (data aN) /\
    stamped (steady_clock w) (steady_reads w) (pageTable (data aL)) /\
    stamped (steady_clock w) (steady_reads w) (pageTable (data aN)) /\
    strictly_increasing (steady_clock w).

Lemma stamped_later (w w' : Process) (t : list Frame) :
  later w w' ->
  stamped (steady_clock w) (steady_reads w) t ->
  stamped (steady_clock w') (steady_reads w') t.
Proof.
  intros [Hc Hn] H. rewrite Hc. eapply stamped_mono; eauto.
Qed.

Lemma lru_nru_invariant_step (mem : Members) (algs : list Algorithm) (w : Process) :
  lru_nru_invariant algs w ->
  lru_nru_invariant (fst (process_each mem algs w)) (snd (process_each mem algs w)).
Proof.
  intros (l1 & aL & l2 & aN & l3 & -> & Hl1 & Hl2 & Hlisted & HlL & HfL & HsL
          & HlN & HfN & HsN & Hh & Hm & Hrel & HstL & HstN & Hinc).
  pose proof Hlisted as Hall.
  apply Forall_app in Hlisted. destruct Hlisted as [Hli1 Hli].
  inversion Hli as [|? ? HliL Hli']; subst. clear Hli.
  apply Forall_app in Hli'. destruct Hli' as [Hli2 Hli].
  inversion Hli as [|? ? HliN Hli3]; subst. clear Hli.
  (* the five parts of the loop over the policies *)
  rewrite process_each_app.
  set (w1 := snd (process_each mem l1 w)).
  assert (L1 : later w w1) by (apply advances_process_each; assumption).
  change (process_each mem (aL :: l2 ++ aN :: l3) w1)
    with (process_each mem ([aL] ++ (l2 ++ aN :: l3)) w1).
  rewrite process_each_app.
  assert (EL : process_each mem [aL] w1
               = ([fst (process_one mem aL w1)], snd (process_one mem aL w1)))
    by reflexivity.
  rewrite EL. cbn [fst snd].
  set (w2 := snd (process_one mem aL w1)).
  rewrite process_each_app.
  set (w3 := snd (process_each mem l2 w2)).
  assert (L3 : later w2 w3) by (apply advances_process_each; assumption).
  change (process_each mem (aN :: l3) w3) with (process_each mem ([aN] ++ l3) w3).
  rewrite process_each_app.
  assert (EN : process_each mem [aN] w3
               = ([fst (process_one mem aN w3)], snd (process_one mem aN w3)))
    by reflexivity.
  rewrite EN. cbn [fst snd].
  set (w4 := snd (process_one mem aN w3)).
  set (w5 := snd (process_each mem l3 w4)).
  assert (L5 : later w4 w5) by (apply advances_process_each; assumption).
  (* the two calls *)
  destruct (process_one_selected mem aL w1 HsL)
    as (aL' & w2' & EaL & _ & HlL' & HfL' & HsL' & HtL & HvL & _ & HhL & HmL).
  pose proof (process_one_selected_later mem aL w1 HsL) as L2.
  destruct (process_one_selected mem aN w3 HsN)
    as (aN' & w4' & EaN & _ & HlN' & HfN' & HsN' & HtN & HvN & _ & HhN & HmN).
  pose proof (process_one_selected_later mem aN w3 HsN) as L4.
  fold w2 in L2. fold w4 in L4.
  rewrite HfL in *. rewrite HfN in *.
  set (wL := snd (high_resolution_clock_now w1)) in *.
  set (wN := snd (high_resolution_clock_now w3)) in *.
  assert (LL : later w wL).
  { eapply later_trans; [exact L1|]. apply advances_high_resolution_clock_now. }
  assert (L12 : later wL (snd (lru mem (data aL) wL))).
  { apply (advances_policies "LRU" lru); simpl; tauto. }
  assert (LN : later w wN).
  { eapply later_trans; [exact LL|]. eapply later_trans; [exact L12|].
    eapply later_trans; [exact L2|]. eapply later_trans; [exact L3|].
    apply advances_high_resolution_clock_now. }
  assert (L34 : later wN (snd (nru mem (data aN) wN))).
  { apply (advances_policies "NRU" nru); simpl; tauto. }
  assert (IncL : strictly_increasing (steady_clock wL)) by (now rewrite (proj1 LL)).
  assert (IncN : strictly_increasing (steady_clock wN)) by (now rewrite (proj1 LN)).
  destruct (nru_simulates_lru mem (data aL) (data aN) wL wN IncL IncN Hrel
              (stamped_later _ _ _ LL HstL) (stamped_later _ _ _ LN HstN))
    as (Hfault & Hrel' & HstL' & HstN').
  assert (LLend : later (snd (lru mem (data aL) wL)) w5).
  { eapply later_trans; [exact L2|]. eapply later_trans; [exact L3|].
    eapply later_trans; [|exact L5].
    eapply later_trans; [apply advances_high_resolution_clock_now|].
    eapply later_trans; [exact L34|exact L4]. }
  assert (LNend : later (snd (nru mem (data aN) wN)) w5).
  { eapply later_trans; [exact L4|exact L5]. }
  assert (Ew5 : steady_clock w5 = steady_clock w).
  { rewrite (proj1 LNend), (proj1 L34), (proj1 LN). reflexivity. }
  fold w1 in EaL. rewrite EaL in *. fold w3 in EaN. rewrite EaN in *.
  cbn [fst snd] in *.
  exists (fst (process_each mem l1 w)), aL', (fst (process_each mem l2 w2)), aN',
         (fst (process_each mem l3 w4)).
  split; [reflexivity|].
  split; [now rewrite process_each_length|].
  split; [now rewrite process_each_length|].
  split.
  { apply Forall_app. split; [now apply process_each_listed|].
    constructor; [unfold listed; rewrite HlL', HfL', HlL; simpl; tauto|].
    apply Forall_app. split; [now apply process_each_listed|].
    constructor; [unfold listed; rewrite HlN', HfN', HlN; simpl; tauto|].
    now apply process_each_listed. }
  repeat (split; [congruence|]).
  split.
  { rewrite HhL, HhN, Hfault.
    destruct (lru_keeps_counters mem (data aL) wL) as [-> _].
    destruct (nru_keeps_counters mem (data aN) wN) as [-> _]. lia. }
  split.
  { rewrite HmL, HmN, Hfault.
    destruct (lru_keeps_counters mem (data aL) wL) as [_ ->].
    destruct (nru_keeps_counters mem (data aN) wN) as [_ ->]. lia. }
  split.
  { destruct Hrel' as [R1 R2 R3]. constructor; rewrite ?HtL, ?HtN, ?HvL, ?HvN; assumption. }
  split.
  { rewrite HtL. rewrite <- (proj1 LL) in *.
    rewrite <- (proj1 L12) in HstL'.
    apply (stamped_later _ _ _ LLend) in HstL'. exact HstL'. }
  split.
  { rewrite HtN. rewrite <- (proj1 L34) in HstN'.
    apply (stamped_later _ _ _ LNend) in HstN'. exact HstN'. }
  now rewrite Ew5.
Qed.

(** *** At the start of a run *)

Lemma emplace_frames_later (n : nat) : forall i, advances (emplace_frames n i).
Proof.
  induction n as [|n IH]; intros i; cbn [emplace_frames]; [apply advances_ret|].
  apply advances_bind; [apply advances_steady_clock_now|]. intros now.
  apply advances_bind; [apply IH|]. intros r. apply advances_ret.
Qed.

Lemma emplace_frames_reads (n : nat) :
  forall i w, steady_reads (snd (emplace_frames n i w)) = (steady_reads w + n)%nat.
Proof.
  induction n as [|n IH]; intros i w; cbn [emplace_frames].
  - unfold ret. cbn. lia.
  - unfold bind, ret. cbn [fst snd]. rewrite IH. cbn. lia.
Qed.

Lemma emplace_frames_ids (n : nat) :
  forall i w w',
    map frame_id (fst (emplace_frames n i w)) = map frame_id (fst (emplace_frames n i w')).
Proof.
  induction n as [|n IH]; intros i w w'; cbn [emplace_frames]; [reflexivity|].
  unfold bind, ret. cbn [fst snd map]. f_equal. apply IH.
Qed.

(** The frames of two fresh tables carry, position by position, readings
    that are equally far from the first reading of their table. *)
Lemma emplace_frames_times (n : nat) :
  forall i i' w w' p,
    steady_clock w' = steady_clock w ->
    In p (combine (fst (emplace_frames n i w)) (fst (emplace_frames n i' w'))) ->
    exists k, (k < n)%nat /\
              time (fst p) = steady_clock w (steady_reads w + k) /\
              time (snd p) = steady_clock w (steady_reads w' + k).
Proof.
  induction n as [|n IH]; intros i i' w w' p Hc; cbn [emplace_frames].
  - intros [].
  - unfold bind, ret. cbn [fst snd combine]. intros [<-|Hin].
    + exists 0%nat. cbn [fst snd time steady_clock_now]. rewrite Hc, !Nat.add_0_r.
      repeat split. lia.
    + apply IH in Hin; [|cbn; exact Hc].
      destruct Hin as (k & Hk & H1 & H2). exists (S k).
      cbn [steady_clock steady_reads steady_clock_now snd] in H1, H2.
      split; [lia|]. rewrite H1, H2. split; f_equal; lia.
Qed.

Lemma emplace_frames_stamped (n : nat) :
  forall i w,
    stamped (steady_clock w) (steady_reads w + n) (fst (emplace_frames n i w)).
Proof.
  induction n as [|n IH]; intros i w; cbn [emplace_frames].
  - constructor.
  - unfold bind, ret. cbn [fst snd]. constructor.
    + exists (steady_reads w). split; [lia|reflexivity].
    + specialize (IH (i + 1) (snd (steady_clock_now w))).
      cbn [steady_clock steady_reads steady_clock_now snd] in IH.
      eapply stamped_mono; [|exact IH]. lia.
Qed.

Lemma fresh_tables_same_recency (n : nat) (i i' : Z) (w w' : Process) :
  steady_clock w' = steady_clock w ->
  strictly_increasing (steady_clock w) ->
  same_recency (fst (emplace_frames n i w)) (fst (emplace_frames n i' w')).
Proof.
  intros Hc Hinc p q Hp Hq.
  destruct (emplace_frames_times n i i' w w' p Hc Hp) as (k & _ & -> & ->).
  destruct (emplace_frames_times n i i' w w' q Hc Hq) as (k' & _ & -> & ->).
  destruct (Nat.lt_ge_cases k k') as [Hlt|Hge].
  - transitivity true; [|symmetry]; apply Z.ltb_lt; apply Hinc; lia.
  - transitivity false; [|symmetry]; apply Z.ltb_ge.
    + destruct (Nat.eq_dec k k') as [->|Hne]; [lia|].
      apply Z.lt_le_incl. apply Hinc. lia.
    + destruct (Nat.eq_dec k k') as [->|Hne]; [lia|].
      apply Z.lt_le_incl. apply Hinc. lia.
Qed.

Lemma allocate_data_app (nF : Z) (l1 l2 : list (string * Policy)) (w : Process) :
  allocate_data nF (l1 ++ l2) w =
  (fst (allocate_data nF l1 w) ++ fst (allocate_data nF l2 (snd (allocate_data nF l1 w))),
   snd (allocate_data nF l2 (snd (allocate_data nF l1 w)))).
Proof.
  revert w. induction l1 as [|[name pol] l1 IH]; intros w.
  - cbn [app allocate_data]. unfold ret. cbn [fst snd app].
    now destruct (allocate_data nF l2 w).
  - cbn [app allocate_data]. unfold bind, ret. cbn [fst snd].
    rewrite IH. reflexivity.
Qed.

Lemma advances_allocate_data (nF : Z) (l : list (string * Policy)) :
  advances (allocate_data nF l).
Proof.
  induction l as [|[name pol] l IH]; cbn [allocate_data]; [apply advances_ret|].
  unfold AlgorithmData_new, LFRUData_new, Partition_new.
  apply advances_bind.
  { apply advances_bind; [apply emplace_frames_later|]. intros t. apply advances_ret. }
  intros d. apply advances_bind.
  { destruct (String.eqb name "LFRU"); advances_tac. }
  intros d'. apply advances_bind; [exact IH|]. intros rest. apply advances_ret.
Qed.

Lemma allocate_data_table_policy (nF : Z) (name : string) (pol : Policy) (w : Process) :
  String.eqb name "LFRU" = false ->
  allocate_data nF [(name, pol)] w =
  ([mkAlgorithm name pol false
                (mkAlgorithmData 0 0 (fst (emplace_frames (Z.to_nat nF) 0 w)) [] 0 None)],
   snd (emplace_frames (Z.to_nat nF) 0 w)).
Proof.
  intros H. cbn [allocate_data]. rewrite H.
  unfold AlgorithmData_new, bind, ret. cbn [fst snd]. reflexivity.
Qed.

Lemma listed_of_maps (l : list (string * Policy)) (algs : list Algorithm) :
  map label algs = map fst l -> map algoFunc algs = map snd l ->
  Forall (fun a => In (label a, algoFunc a) l) algs.
Proof.
  revert l. induction algs as [|a algs IH]; intros [|[n p] l] H1 H2;
    simpl in *; try discriminate; constructor.
  - injection H1 as -> _. injection H2 as -> _. now left.
  - injection H1 as _ H1. injection H2 as _ H2.
    eapply Forall_impl; [|exact (IH l H1 H2)]. intros a' Ha'. now right.
Qed.

Lemma selectAlgorithm_all_algorithms (sim : CacheReplacementSimulator) :
  algorithms (fst (selectAlgorithm "a" sim))
  = map (set_selected true) (map (set_selected false) (algorithms sim)).
Proof. reflexivity. Qed.

Lemma lru_nru_invariant_initial (nframes maxCalls : Z) (dbg pr : bool)
      (refs : list PageRef) (sim0 : CacheReplacementSimulator) (w0 w : Process) :
  strictly_increasing (steady_clock w0) ->
  later (snd (setConfiguration nframes maxCalls dbg pr sim0 w0)) w ->
  lru_nru_invariant
    (algorithms (runSimulation_init
                   (configured nframes maxCalls dbg pr refs "a" sim0 w0))) w.
Proof.
  intros Hinc Hlater.
  destruct (setConfiguration_algorithms nframes maxCalls dbg pr sim0 w0) as (_ & Hlab & Hfun).
  pose proof (listed_of_maps _ _ Hlab Hfun) as Hlisted.
  unfold configured, runSimulation_init. cbn [algorithms].
  rewrite selectAlgorithm_all_algorithms. cbn [algorithms set_pageRefs].
  revert Hlater Hlisted.
  unfold setConfiguration, initializeAlgorithms, bind, ret. cbn [fst snd algorithms numFrames].
  set (nF := Z.max 1 nframes).
  set (l1 := [("OPTIMAL"%string, optimal); ("RANDOM"%string, random);
              ("FIFO"%string, fifo)]).
  set (l2 := [("CLOCK"%string, clock); ("NFU"%string, nfu);
              ("AGING"%string, aging); ("MRU"%string, mru)]).
  set (l3 := [("MFU"%string, mfu); ("LFU"%string, lfu); ("LFRU"%string, lfru)]).
  change policy_list
    with (l1 ++ [("LRU"%string, lru)] ++ l2 ++ [("NRU"%string, nru)] ++ l3).
  rewrite allocate_data_app.
  set (wa := snd (allocate_data nF l1 w0)).
  assert (La : later w0 wa) by apply advances_allocate_data.
  rewrite allocate_data_app.
  rewrite (allocate_data_table_policy nF "LRU" lru wa eq_refl). cbn [fst snd].
  set (wa' := snd (emplace_frames (Z.to_nat nF) 0 wa)).
  assert (La' : later wa wa') by apply emplace_frames_later.
  rewrite allocate_data_app.
  set (wb := snd (allocate_data nF l2 wa')).
  assert (Lb : later wa' wb) by apply advances_allocate_data.
  rewrite allocate_data_app.
  rewrite (allocate_data_table_policy nF "NRU" nru wb eq_refl). cbn [fst snd].
  set (wb' := snd (emplace_frames (Z.to_nat nF) 0 wb)).
  assert (Lb' : later wb wb') by apply emplace_frames_later.
  set (wend := snd (allocate_data nF l3 wb')).
  assert (Lend : later wb' wend) by apply advances_allocate_data.
  intros Hlater Hlisted.
  assert (Ewa : steady_clock wa = steady_clock w0) by apply La.
  assert (Ewb : steady_clock wb = steady_clock wa).
  { rewrite (proj1 Lb), (proj1 La'). reflexivity. }
  assert (Lwa : later wa' w).
  { eapply later_trans; [exact Lb|]. eapply later_trans; [exact Lb'|].
    eapply later_trans; [exact Lend|exact Hlater]. }
  assert (Lwb : later wb' w).
  { eapply later_trans; [exact Lend|exact Hlater]. }
  assert (Ew : steady_clock w = steady_clock w0).
  { rewrite (proj1 Lwa), (proj1 La'). exact Ewa. }
  assert (Hok : Forall policy_entry_ok l1 /\ Forall policy_entry_ok l2).
  { pose proof policy_list_ok as H.
    change policy_list
      with (l1 ++ [("LRU"%string, lru)] ++ l2 ++ [("NRU"%string, nru)] ++ l3) in H.
    apply Forall_app in H. destruct H as [H1 H].
    apply Forall_app in H. destruct H as [_ H].
    apply Forall_app in H. destruct H as [H2 _]. split; assumption. }
  assert (Hlen1 : List.length (fst (allocate_data nF l1 w0)) = 3%nat).
  { rewrite <- (length_map label).
    rewrite (proj1 (proj2 (allocate_data_initial nF l1 (proj1 Hok) w0))). reflexivity. }
  assert (Hlen2 : List.length (fst (allocate_data nF l2 wa')) = 4%nat).
  { rewrite <- (length_map label).
    rewrite (proj1 (proj2 (allocate_data_initial nF l2 (proj2 Hok) wa'))). reflexivity. }
  match goal with
  | |- lru_nru_invariant ?algs _ => assert (HL : Forall listed algs)
  end.
  { apply Forall_map. apply Forall_map.
    revert Hlisted. apply Forall_impl. intros a Ha. exact Ha. }
  revert HL. rewrite !map_app. cbn [map app]. intros HL.
  eexists _, _, _, _, _. split; [reflexivity|].
  split; [now rewrite !length_map|].
  split; [now rewrite !length_map|].
  split; [exact HL|].
  cbn [label algoFunc selected data set_selected hits misses pageTable victimList].
  repeat (split; [reflexivity|]).
  split; [|split; [|split]].
  - constructor; cbn [pageTable victimList].
    + apply emplace_frames_ids.
    + apply fresh_tables_same_recency; [exact Ewb|]. now rewrite Ewa.
    + reflexivity.
  - eapply stamped_later; [exact Lwa|].
    rewrite (proj1 La'). unfold wa'. rewrite emplace_frames_reads.
    apply emplace_frames_stamped.
  - eapply stamped_later; [exact Lwb|].
    rewrite (proj1 Lb'). unfold wb'. rewrite emplace_frames_reads.
    apply emplace_frames_stamped.
  - now rewrite Ew.
Qed.

(** C6.  In a run of all policies under a steady clock whose successive
    readings strictly increase, and after any number of iterations of the
    simulation loop, LRU and NRU (the fourth and the ninth policy) have the
    same hit and miss counts -- so at every step they returned the same
    outcome --, hold the same page in every frame, and have evicted the same
    frames with the same pages in the same order: at every eviction both
    chose the frame with the smallest time stamp, which is the same frame. *)
Theorem nru_matches_lru
        (nframes maxCalls : Z) (dbg pr : bool) (refs : list PageRef)
        (sim0 : CacheReplacementSimulator) (w0 w : Process) (fuel : nat) :
  strictly_increasing (steady_clock w0) ->
  later (snd (setConfiguration nframes maxCalls dbg pr sim0 w0)) w ->
  let r := fst (runSimulation_for fuel
                  (runSimulation_init
                     (configured nframes maxCalls dbg pr refs "a" sim0 w0)) w) in
  exists aL aN,
    nth_error (algorithms r) 3 = Some aL /\
    nth_error (algorithms r) 8 = Some aN /\
    label aL = "LRU"%string /\ algoFunc aL = lru /\
    label aN = "NRU"%string /\ algoFunc aN = nru /\
    hits (data aL) = hits (data aN) /\
    misses (data aL) = misses (data aN) /\
    map frame_id (pageTable (data aL)) = map frame_id (pageTable (data aN)) /\
    map frame_id (victimList (data aL)) = map frame_id (victimList (data aN)).
Proof.
  intros Hinc Hlater r.
  pose proof (runSimulation_for_invariant_process
                (fun _ algs w' => lru_nru_invariant algs w')
                (fun mem algs w' HI _ => lru_nru_invariant_step (during mem) algs w' HI)
                fuel
                (runSimulation_init (configured nframes maxCalls dbg pr refs "a" sim0 w0))
                w
                (lru_nru_invariant_initial nframes maxCalls dbg pr refs sim0 w0 w
                   Hinc Hlater)) as H.
  cbv beta in H. fold r in H.
  destruct H as (l1 & aL & l2 & aN & l3 & E & Hl1 & Hl2 & _ & HlL & HfL & _
                 & HlN & HfN & _ & Hh & Hm & [R1 R2 R3] & _).
  exists aL, aN. rewrite E.
  split. { rewrite nth_error_app2 by lia. rewrite Hl1. reflexivity. }
  split. { do 4 (destruct l1 as [|? l1]; try discriminate Hl1).
           do 5 (destruct l2 as [|? l2]; try discriminate Hl2). reflexivity. }
  repeat split; assumption.
Qed.

Lemma nru_matches_lru_witness :
  let refs := map (fun p => mkPageRef p 1) [7; 0; 1; 2; 0; 3; 0; 4] in
  let sim0 := mkSimulator (mkMembers 12 1048576 1000 false false 0 (-1) []) [] in
  let w0 := fresh_process (fun n => Z.of_nat n) (fun n => Z.of_nat n) (fun n => n)
                          (fun _ => None) in
  let w := snd (setConfiguration 3 1000 false false sim0 w0) in
  let r := fst (runSimulation_for 8
                  (runSimulation_init (configured 3 1000 false false refs "a" sim0 w0))
                  w) in
  exists aL aN,
    nth_error (algorithms r) 3 = Some aL /\
    nth_error (algorithms r) 8 = Some aN /\
    label aL = "LRU"%string /\ algoFunc aL = lru /\
    label aN = "NRU"%string /\ algoFunc aN = nru /\
    hits (data aL) = hits (data aN) /\
    misses (data aL) = misses (data aN) /\
    map frame_id (pageTable (data aL)) = map frame_id (pageTable (data aN)) /\
    map frame_id (victimList (data aL)) = map frame_id (victimList (data aN)).
Proof.
  intros refs sim0 w0 w.
  apply (nru_matches_lru 3 1000 false false refs sim0 w0 w 8%nat).
  - intros i j Hij. simpl. lia.
  - apply later_refl.
Defined.

(** Without the condition on the clock LRU and NRU can differ.  Here the
    steady clock advances once in sixteen readings, so that it never goes
    back but returns the same value several times in a row.  With 2 frames,
    all policies selected and the pages 0, 1, 0, 2, 0, LRU ends with 2 hits,
    3 misses and the victim 1, NRU with 1 hit, 4 misses and the victims 0
    and 1: the two frames of NRU carried the same time stamp when page 2
    came, and [min_element] took the first. *)
Lemma nru_differs_from_lru_on_coarse_clock :
  let refs := map (fun p => mkPageRef p 1) [0; 1; 0; 2; 0] in
  let sim0 := mkSimulator (mkMembers 12 1048576 1000 false false 0 (-1) []) [] in
  let w0 := fresh_process (fun n => Z.of_nat (n / 16)) (fun n => Z.of_nat n) (fun n => n)
                          (fun _ => None) in
  let w := snd (setConfiguration 2 1000 false false sim0 w0) in
  let r := fst (runSimulation_for 5
                  (runSimulation_init (configured 2 1000 false false refs "a" sim0 w0))
                  w) in
  let result := fun a => (label a, hits (data a), misses (data a),
                          map page (victimList (data a))) in
  (forall i j, (i <= j)%nat -> steady_clock w0 i <= steady_clock w0 j) /\
  later (snd (setConfiguration 2 1000 false false sim0 w0)) w /\
  option_map result (nth_error (algorithms r) 3) = Some ("LRU"%string, 2, 3, [1]) /\
  option_map result (nth_error (algorithms r) 8) = Some ("NRU"%string, 1, 4, [0; 1]).
Proof.
  intros refs sim0 w0 w r result. split; [|split; [apply later_refl|]].
  - intros i j Hij. cbn [steady_clock fresh_process].
    apply inj_le. now apply Nat.Div0.div_le_mono.
  - vm_compute. split; reflexivity.
Qed.

(** ** Trace ingestion *)

(** What the extraction loop reads from a stream: pairs, one after the
    other, up to the first pair that cannot be extracted. *)
Inductive ingests : string -> list PageRef -> Prop :=
| ingests_stop s :
    extract_pair s = None -> ingests s []
| ingests_pair s pid page s' refs :
    extract_pair s = Some (pid, page, s') ->
    ingests s' refs ->
    ingests s (mkPageRef page pid :: refs).

Lemma skip_whitespace_length (s : string) :
  (String.length (skip_whitespace s) <= String.length s)%nat.
Proof.
  induction s as [|c r IH]; simpl; [lia|].
  destruct (isspace c); simpl; lia.
Qed.

Lemma read_digits_length (s : string) :
  forall acc seen,
    (String.length (snd (read_digits s acc seen)) <= String.length s)%nat /\
    (seen = false -> snd (fst (read_digits s acc seen)) = true ->
     (String.length (snd (read_digits s acc seen)) < String.length s)%nat).
Proof.
  induction s as [|c r IH]; intros acc seen; simpl.
  - split; [lia|]. intros -> H. discriminate H.
  - destruct (digit_value c) as [d|]; simpl.
    + destruct (IH (acc * 10 + d) true) as [H1 _]. split; [lia|]. intros _ _. lia.
    + split; [lia|]. intros -> H. discriminate H.
Qed.

Definition after_sign (s1 : string) : bool * string :=
  match s1 with
  | String c r => if Ascii.eqb c "-" then (true, r)
                  else if Ascii.eqb c "+" then (false, r)
                  else (false, s1)
  | EmptyString => (false, s1)
  end.

Lemma extract_int_unfold (s : string) :
  extract_int s =
  let signed := after_sign (skip_whitespace s) in
  let d := read_digits (snd signed) 0 false in
  let v := if fst signed then - fst (fst d) else fst (fst d) in
  if negb (snd (fst d)) then (None, snd d)
  else if (v <? - INT_MAX - 1) || (v >? INT_MAX) then (None, snd d)
  else (Some v, snd d).
Proof. reflexivity. Qed.

Lemma after_sign_length (s : string) :
  (String.length (snd (after_sign s)) <= String.length s)%nat.
Proof.
  destruct s as [|c r]; cbn [after_sign snd String.length]; [lia|].
  destruct (Ascii.eqb c "-"); cbn [snd String.length]; [lia|].
  destruct (Ascii.eqb c "+"); cbn [snd String.length]; lia.
Qed.

Lemma extract_int_length (s : string) (v : Z) (s' : string) :
  extract_int s = (Some v, s') -> (String.length s' < String.length s)%nat.
Proof.
  rewrite extract_int_unfold. cbv zeta. intros H.
  pose proof (skip_whitespace_length s) as Hs.
  pose proof (after_sign_length (skip_whitespace s)) as Hsg.
  destruct (read_digits_length (snd (after_sign (skip_whitespace s))) 0 false)
    as [_ Hd].
  destruct (snd (fst (read_digits (snd (after_sign (skip_whitespace s))) 0 false)))
    eqn:Eseen; cbn [negb] in H; [|discriminate H].
  specialize (Hd eq_refl eq_refl).
  match type of H with
  | (if ?c then _ else _) = _ => destruct c
  end; [discriminate H|].
  injection H as _ <-. lia.
Qed.

Lemma extract_pair_length (s : string) (pid page : Z) (s' : string) :
  extract_pair s = Some (pid, page, s') -> (String.length s' < String.length s)%nat.
Proof.
  unfold extract_pair. intros H.
  destruct (extract_int s) as [[p|] s1] eqn:E1; [|discriminate H].
  destruct (extract_int s1) as [[pg|] s2] eqn:E2; [|discriminate H].
  inversion H; subst.
  apply extract_int_length in E1. apply extract_int_length in E2. lia.
Qed.

(** The loop of the model never runs out of fuel: with more fuel than the
    stream has characters it returns what the stream holds. *)
Lemma read_references_ingests (fuel : nat) :
  forall s acc refs,
    (String.length s < fuel)%nat -> ingests s refs ->
    read_references fuel s acc = acc ++ refs.
Proof.
  induction fuel as [|k IH]; intros s acc refs Hlen Hin; [lia|].
  simpl. inversion Hin as [s0 Hnone|s0 pid page s' refs' Hsome Hrest]; subst.
  - rewrite Hnone. symmetry. apply app_nil_r.
  - rewrite Hsome. pose proof (extract_pair_length _ _ _ _ Hsome) as Hl.
    rewrite (IH s' (acc ++ [mkPageRef page pid]) refs') by (assumption || lia).
    rewrite <- app_assoc. reflexivity.
Qed.

Lemma ingests_total (s : string) : exists refs, ingests s refs.
Proof.
  remember (String.length s) as n eqn:Hn. revert s Hn.
  induction n as [n IH] using lt_wf_ind. intros s Hn.
  destruct (extract_pair s) as [[[pid page] s']|] eqn:E.
  - pose proof (extract_pair_length _ _ _ _ E) as Hl.
    destruct (IH (String.length s') ltac:(lia) s' eq_refl) as [refs Hr].
    exists (mkPageRef page pid :: refs). eapply ingests_pair; eassumption.
  - exists []. apply ingests_stop. exact E.
Qed.

(** *** Well-formed text

    A field is written as any white space (blanks, tabs, line ends), an
    optional sign and a non-empty run of decimal digits.  A trace text is a
    sequence of pairs of fields followed by a tail. *)

Definition digit_char (d : Z) : ascii := ascii_of_nat (Z.to_nat (48 + d)).

Fixpoint numeral (ds : list Z) : string :=
  match ds with
  | [] => EmptyString
  | d :: r => String (digit_char d) (numeral r)
  end.

Definition numeral_value (ds : list Z) : Z :=
  fold_left (fun acc d => acc * 10 + d) ds 0.

Fixpoint all_blank (s : string) : bool :=
  match s with
  | EmptyString => true
  | String c r => isspace c && all_blank r
  end.

Inductive Sign : Type := Unsigned | Plus | Minus.

Definition sign_text (sg : Sign) : string :=
  match sg with
  | Unsigned => EmptyString
  | Plus => "+"
  | Minus => "-"
  end.

Record Field : Type := mkField {
  blanks : string;
  sign : Sign;
  digits : list Z
}.

Definition field_text (f : Field) : string :=
  (blanks f ++ sign_text (sign f) ++ numeral (digits f))%string.

Definition field_value (f : Field) : Z :=
  match sign f with
  | Minus => - numeral_value (digits f)
  | _ => numeral_value (digits f)
  end.

Definition well_formed (f : Field) : Prop :=
  all_blank (blanks f) = true /\
  digits f <> [] /\
  Forall (fun d => 0 <= d <= 9) (digits f) /\
  - INT_MAX - 1 <= field_value f <= INT_MAX.

(** A field is detached from the digits before it by white space or by its
    sign. *)
Definition detached (f : Field) : Prop :=
  blanks f <> EmptyString \/ sign f <> Unsigned.

Definition starts_with_digit (s : string) : bool :=
  match s with
  | String c _ => match digit_value c with Some _ => true | None => false end
  | EmptyString => false
  end.



Lemma digit_value_digit_char (d : Z) :
  0 <= d <= 9 -> digit_value (digit_char d) = Some d.
Proof.
  intros H.
  assert (E : d = 0 \/ d = 1 \/ d = 2 \/ d = 3 \/ d = 4 \/ d = 5 \/ d = 6 \/
              d = 7 \/ d = 8 \/ d = 9) by lia.
  repeat (destruct E as [->|E]; [reflexivity|]). subst d. reflexivity.
Qed.

Lemma isspace_cases (c : ascii) :
  isspace c = true ->
  c = " "%char \/ c = "009"%char \/ c = "010"%char \/ c = "011"%char \/
  c = "012"%char \/ c = "013"%char.
Proof.
  unfold isspace. rewrite !orb_true_iff, !Ascii.eqb_eq. tauto.
Qed.

Lemma isspace_not_digit (c : ascii) : isspace c = true -> digit_value c = None.
Proof.
  intros H. apply isspace_cases in H.
  repeat (destruct H as [->|H]; [reflexivity|]). subst c. reflexivity.
Qed.

Lemma digit_not_space (d : Z) : 0 <= d <= 9 -> isspace (digit_char d) = false.
Proof.
  intros H. destruct (isspace (digit_char d)) eqn:E; [|reflexivity].
  apply isspace_not_digit in E. rewrite digit_value_digit_char in E by assumption.
  discriminate E.
Qed.

Lemma skip_whitespace_blanks (b s : string) :
  all_blank b = true -> skip_whitespace (b ++ s) = skip_whitespace s.
Proof.
  induction b as [|c r IH]; cbn [all_blank append skip_whitespace]; intros H.
  - reflexivity.
  - apply andb_true_iff in H. destruct H as [Hc Hr]. rewrite Hc. apply IH, Hr.
Qed.

Lemma read_digits_numeral (ds : list Z) :
  forall rest acc seen,
    Forall (fun d => 0 <= d <= 9) ds ->
    starts_with_digit rest = false ->
    read_digits (numeral ds ++ rest) acc seen
    = (fold_left (fun a d => a * 10 + d) ds acc,
       match ds with [] => seen | _ => true end, rest).
Proof.
  induction ds as [|d r IH]; intros rest acc seen Hds Hrest.
  - cbn [numeral append fold_left]. destruct rest as [|c rest']; [reflexivity|].
    cbn [starts_with_digit] in Hrest. cbn [read_digits].
    destruct (digit_value c); [discriminate Hrest|reflexivity].
  - inversion Hds as [|? ? Hd Hr]; subst.
    cbn [numeral append read_digits fold_left].
    rewrite (digit_value_digit_char d Hd).
    rewrite (IH rest (acc * 10 + d) true Hr Hrest).
    destruct r; reflexivity.
Qed.

Lemma digit_char_not_sign (d : Z) :
  0 <= d <= 9 ->
  Ascii.eqb (digit_char d) "-" = false /\ Ascii.eqb (digit_char d) "+" = false.
Proof.
  intros H.
  assert (E : d = 0 \/ d = 1 \/ d = 2 \/ d = 3 \/ d = 4 \/ d = 5 \/ d = 6 \/
              d = 7 \/ d = 8 \/ d = 9) by lia.
  repeat (destruct E as [->|E]; [split; reflexivity|]). subst d. split; reflexivity.
Qed.

Lemma append_assoc3 (a b c d : string) :
  ((a ++ b ++ c) ++ d = a ++ b ++ c ++ d)%string.
Proof.
  induction a as [|x a IH]; cbn [append].
  - induction b as [|y b IHb]; cbn [append]; [reflexivity|]. rewrite IHb. reflexivity.
  - rewrite IH. reflexivity.
Qed.

Lemma skip_whitespace_signed (sg : Sign) (ds : list Z) (rest : string) :
  ds <> [] -> Forall (fun d => 0 <= d <= 9) ds ->
  skip_whitespace (sign_text sg ++ numeral ds ++ rest)
  = (sign_text sg ++ numeral ds ++ rest)%string.
Proof.
  intros Hne Hds. destruct sg; try reflexivity.
  destruct ds as [|d r]; [congruence|]. inversion Hds; subst.
  cbn [sign_text numeral append skip_whitespace].
  rewrite digit_not_space by assumption. reflexivity.
Qed.

Lemma after_sign_signed (sg : Sign) (ds : list Z) (rest : string) :
  ds <> [] -> Forall (fun d => 0 <= d <= 9) ds ->
  after_sign (sign_text sg ++ numeral ds ++ rest)
  = (match sg with Minus => true | _ => false end, (numeral ds ++ rest)%string).
Proof.
  intros Hne Hds. destruct sg; try reflexivity.
  destruct ds as [|d r]; [congruence|]. inversion Hds as [|? ? Hd Hr]; subst.
  cbn [sign_text numeral append after_sign].
  destruct (digit_char_not_sign d Hd) as [-> ->]. reflexivity.
Qed.

(** Extraction of a well-formed field followed by anything but a digit gives
    its value and leaves what follows. *)
Lemma extract_int_field (f : Field) (rest : string) :
  well_formed f -> starts_with_digit rest = false ->
  extract_int (field_text f ++ rest) = (Some (field_value f), rest).
Proof.
  intros (Hb & Hne & Hds & Hrange) Hrest.
  rewrite extract_int_unfold. unfold field_text. rewrite append_assoc3.
  rewrite skip_whitespace_blanks by exact Hb.
  rewrite skip_whitespace_signed by assumption.
  rewrite after_sign_signed by assumption.
  cbv zeta. cbn [fst snd].
  rewrite (read_digits_numeral (digits f) rest 0 false Hds Hrest).
  cbn [fst snd].
  destruct (digits f) as [|d r] eqn:Ed; [congruence|]. cbn [negb].
  fold (numeral_value (d :: r)).
  assert (Hv : (if match sign f with Minus => true | _ => false end
                then - numeral_value (d :: r) else numeral_value (d :: r))
               = field_value f).
  { unfold field_value. rewrite Ed. destruct (sign f); reflexivity. }
  rewrite Hv.
  assert (Hin : (field_value f <? - INT_MAX - 1) || (field_value f >? INT_MAX) = false).
  { apply orb_false_iff. split; [apply Z.ltb_ge; lia|].
    rewrite Z.gtb_ltb. apply Z.ltb_ge. lia. }
  rewrite Hin. reflexivity.
Qed.

Lemma detached_no_digit (f : Field) (rest : string) :
  well_formed f -> detached f -> starts_with_digit (field_text f ++ rest) = false.
Proof.
  intros (Hb & Hne & Hds & _) Hdet. unfold field_text.
  destruct (blanks f) as [|c b] eqn:Eb.
  - destruct Hdet as [H|H]; [congruence|].
    destruct (sign f); [congruence|reflexivity|reflexivity].
  - cbn [all_blank] in Hb. apply andb_true_iff in Hb. destruct Hb as [Hc _].
    cbn [append starts_with_digit]. rewrite (isspace_not_digit c Hc). reflexivity.
Qed.


Lemma extract_pair_fields (f1 f2 : Field) (rest : string) :
  well_formed f1 -> well_formed f2 -> detached f2 ->
  starts_with_digit rest = false ->
  extract_pair (field_text f1 ++ field_text f2 ++ rest)
  = Some (field_value f1, field_value f2, rest).
Proof.
  intros H1 H2 Hd Hrest. unfold extract_pair.
  rewrite (extract_int_field f1 (field_text f2 ++ rest) H1
             (detached_no_digit f2 rest H2 Hd)).
  rewrite (extract_int_field f2 rest H2 Hrest). reflexivity.
Qed.


Lemma loadPageReferences_unreadable (filename : string)
      (sim : CacheReplacementSimulator) (w : Process) :
  files w filename = None ->
  loadPageReferences filename sim w
  = (false, sim, snd (write_cerr (ErrorOpening filename) w)).
Proof.
  intros H. unfold loadPageReferences, open_file, bind, ret. cbn [fst snd].
  rewrite H. reflexivity.
Qed.

Lemma loadPageReferences_readable (filename content : string) (refs : list PageRef)
      (sim : CacheReplacementSimulator) (w : Process) :
  files w filename = Some content ->
  ingests content refs ->
  loadPageReferences filename sim w
  = (true, set_pageRefs refs sim,
     snd (write_cout (Loaded (List.length refs) filename) w)).
Proof.
  intros H Hin. unfold loadPageReferences, open_file, bind, ret. cbn [fst snd].
  rewrite H.
  rewrite (read_references_ingests (S (String.length content)) content [] refs)
    by (assumption || lia).
  reflexivity.
Qed.

(** *** Ingestion by lines

    The reading in which the file is taken line by line, each line has to
    hold two integers, and the first line that does not ends the ingestion. *)








(** ** Belady's optimality *)

Definition ind (b : bool) : Z := if b then 1 else 0.

(** The number of pages of [S] whose next use, as [f] gives it, comes at
    position [tau] at the latest. *)
Definition due (f : Z -> Z) (tau : Z) (S : list Z) : Z :=
  Z.of_nat (List.length (filter (fun q => f q <=? tau) S)).

(** The policy holding [A] after [cA] misses is not ahead of the one
    holding [O] after [cO] misses: at every horizon, what the first holds
    more of the pages due by then, it has paid for by as many more misses. *)
Definition ahead (f : Z -> Z) (cO : Z) (O : list Z) (cA : Z) (A : list Z) : Prop :=
  forall tau : Z, cO + due f tau A <= cA + due f tau O.

(** One reference for the policy that replaces a page whose next use is
    furthest: it replaces only when all its [F] frames are occupied. *)
Inductive furthest_step (f : Z -> Z) (F : nat) (p : Z) (O O' : list Z) : bool -> Prop :=
| fs_hit :
    In p O -> Permutation O' O ->
    furthest_step f F p O O' false
| fs_add :
    ~ In p O -> Permutation O' (p :: O) ->
    furthest_step f F p O O' true
| fs_replace (x : Z) (R : list Z) :
    ~ In p O ->
    Permutation O (x :: R) ->
    Permutation O' (p :: R) ->
    List.length O = F ->
    (forall q, In q O -> f q <= f x) ->
    furthest_step f F p O O' true.

Lemma ind_range (b : bool) : 0 <= ind b <= 1.
Proof. destruct b; simpl; lia. Qed.

Lemma due_cons (f : Z -> Z) (tau x : Z) (R : list Z) :
  due f tau (x :: R) = ind (f x <=? tau) + due f tau R.
Proof.
  unfold due. cbn [filter]. destruct (f x <=? tau); cbn [List.length ind]; lia.
Qed.

Lemma due_perm (f : Z -> Z) (tau : Z) (S S' : list Z) :
  Permutation S S' -> due f tau S = due f tau S'.
Proof.
  intros H. unfold due. f_equal. apply Permutation_length.
  induction H as [|x l l' _ IH|x y l|l l' l'' _ IH1 _ IH2]; cbn [filter].
  - constructor.
  - destruct (f x <=? tau); [constructor|]; exact IH.
  - destruct (f x <=? tau), (f y <=? tau); try reflexivity. constructor.
  - etransitivity; eassumption.
Qed.

Lemma due_range (f : Z -> Z) (tau : Z) (S : list Z) :
  0 <= due f tau S <= Z.of_nat (List.length S).
Proof.
  unfold due. pose proof (filter_length_le (fun q => f q <=? tau) S). lia.
Qed.

Lemma due_full (f : Z -> Z) (tau : Z) (S : list Z) :
  (forall q, In q S -> f q <= tau) -> due f tau S = Z.of_nat (List.length S).
Proof.
  induction S as [|x S IH]; intros H; [reflexivity|].
  rewrite due_cons, IH by (intros q Hq; apply H; now right).
  assert (Hx : (f x <=? tau) = true) by (apply Z.leb_le, H; now left).
  rewrite Hx. cbn [ind List.length]. lia.
Qed.

Lemma due_none (f : Z -> Z) (tau : Z) (S : list Z) :
  (forall q, In q S -> tau < f q) -> due f tau S = 0.
Proof.
  induction S as [|x S IH]; intros H; [reflexivity|].
  rewrite due_cons, IH by (intros q Hq; apply H; now right).
  assert (Hx : (f x <=? tau) = false) by (apply Z.leb_gt, H; now left).
  rewrite Hx. reflexivity.
Qed.

Lemma due_ext (f g : Z -> Z) (tau : Z) (S : list Z) :
  (forall q, In q S -> f q = g q) -> due f tau S = due g tau S.
Proof.
  induction S as [|x S IH]; intros H; [reflexivity|].
  rewrite !due_cons, IH by (intros q Hq; apply H; now right).
  rewrite (H x) by now left. reflexivity.
Qed.

Lemma present_split (p : Z) (S : list Z) :
  In p S -> NoDup S -> exists R, Permutation S (p :: R) /\ ~ In p R.
Proof.
  intros Hin Hnd. destruct (in_split _ _ Hin) as (l1 & l2 & ->).
  exists (l1 ++ l2). split.
  - symmetry. apply Permutation_middle.
  - apply NoDup_remove_2 in Hnd. exact Hnd.
Qed.

Section FurthestInFuture.

Variables (dist dist' : Z -> Z) (t p : Z).
Hypothesis dist_now : dist p = t.
Hypothesis dist_other : forall q, q <> p -> dist q = dist' q.
Hypothesis dist_later : forall q, t + 1 <= dist' q.

Lemma due_absent (tau : Z) (S : list Z) :
  ~ In p S -> due dist tau S = due dist' tau S.
Proof.
  intros H. apply due_ext. intros q Hq. apply dist_other. congruence.
Qed.

Lemma due_present (tau : Z) (S R : list Z) :
  Permutation S (p :: R) -> ~ In p R ->
  due dist tau S = ind (t <=? tau) + due dist' tau R.
Proof.
  intros HS HR. rewrite (due_perm _ _ _ _ HS), due_cons, dist_now.
  rewrite (due_absent tau R HR). reflexivity.
Qed.

Lemma due_not_yet (tau : Z) (S : list Z) : tau <= t -> due dist' tau S = 0.
Proof.
  intros H. apply due_none. intros q _. pose proof (dist_later q). lia.
Qed.

End FurthestInFuture.

Section OneReference.

Variables (dist dist' : Z -> Z) (t p : Z) (F : nat).
Hypothesis dist_now : dist p = t.
Hypothesis dist_other : forall q, q <> p -> dist q = dist' q.
Hypothesis dist_later : forall q, t + 1 <= dist' q.
Hypothesis requested : p <> -1.

(** How one reference changes the pages due at a horizon [tau], for a policy
    that holds [A]: [sA] tells whether the page was held, the fault adds one
    to the misses, and when the holding grows its new size is given. *)
Lemma resident_step_due (A A' : list Z) (fault : bool) :
  NoDup A ->
  resident_step p A A' fault ->
  exists (sA : Z),
    ind fault = 1 - sA /\ 0 <= sA <= 1 /\
    due dist t A = sA /\
    forall tau,
      t + 1 <= tau ->
      exists rA,
        0 <= rA /\ rA + 1 <= Z.of_nat (List.length A') /\
        sA + rA <= due dist tau A /\
        due dist' tau A' = ind (dist' p <=? tau) + rA.
Proof.
  intros Hnd [Hin Hperm | Hnot Hperm | x R Hnot HA HA'].
  - specialize (Hin requested).
    destruct (present_split p A Hin Hnd) as (R & HR & HpR).
    exists 1. split; [reflexivity|]. split; [lia|]. split.
    + rewrite (due_present dist dist' t p dist_now dist_other t A R HR HpR).
      rewrite (due_not_yet dist' t dist_later t R) by lia.
      rewrite Z.leb_refl. reflexivity.
    + intros tau Htau. exists (due dist' tau R).
      pose proof (due_range dist' tau R) as Hr.
      rewrite (Permutation_length Hperm), (Permutation_length HR). cbn [List.length].
      rewrite (due_present dist dist' t p dist_now dist_other tau A R HR HpR).
      rewrite (due_perm dist' tau A' (p :: R)) by (rewrite Hperm; exact HR).
      rewrite due_cons.
      assert (E : (t <=? tau) = true) by (apply Z.leb_le; lia). rewrite E.
      cbn [ind]. lia.
  - rewrite (opt_page_occupied p requested) in Hperm. cbn [app] in Hperm.
    exists 0. split; [reflexivity|]. split; [lia|]. split.
    + rewrite (due_absent dist dist' p dist_other t A Hnot).
      apply (due_not_yet dist' t dist_later). lia.
    + intros tau Htau. exists (due dist' tau A).
      pose proof (due_range dist' tau A) as Hr.
      rewrite (Permutation_length Hperm). cbn [List.length].
      rewrite (due_absent dist dist' p dist_other tau A Hnot).
      rewrite (due_perm dist' tau A' (p :: A) Hperm), due_cons. lia.
  - rewrite (opt_page_occupied p requested) in HA'. cbn [app] in HA'.
    exists 0. split; [reflexivity|]. split; [lia|]. split.
    + rewrite (due_absent dist dist' p dist_other t A Hnot).
      apply (due_not_yet dist' t dist_later). lia.
    + intros tau Htau. exists (due dist' tau R).
      pose proof (due_range dist' tau R) as Hr.
      rewrite (Permutation_length HA'). cbn [List.length].
      rewrite (due_absent dist dist' p dist_other tau A Hnot).
      rewrite (due_perm dist' tau A (x :: R) HA), due_cons.
      rewrite (due_perm dist' tau A' (p :: R) HA'), due_cons.
      pose proof (ind_range (dist' x <=? tau)). lia.
Qed.

(** The same for the policy that replaces the page used furthest: when the
    replaced page is itself due at [tau], every page held was, and all the
    [F] frames were occupied. *)
Lemma furthest_step_due (O O' : list Z) (fault : bool) :
  NoDup O ->
  furthest_step dist' F p O O' fault ->
  exists (sO : Z),
    ind fault = 1 - sO /\ 0 <= sO <= 1 /\
    due dist t O = sO /\
    forall tau,
      t + 1 <= tau ->
      exists rO,
        due dist' tau O' = ind (dist' p <=? tau) + rO /\
        (due dist tau O = sO + rO \/
         (sO = 0 /\ due dist tau O = 1 + rO /\ rO + 1 = Z.of_nat F)).
Proof.
  intros Hnd [Hin Hperm | Hnot Hperm | x R Hnot HO HO' Hfull Hmax].
  - destruct (present_split p O Hin Hnd) as (R & HR & HpR).
    exists 1. split; [reflexivity|]. split; [lia|]. split.
    + rewrite (due_present dist dist' t p dist_now dist_other t O R HR HpR).
      rewrite (due_not_yet dist' t dist_later t R) by lia.
      rewrite Z.leb_refl. reflexivity.
    + intros tau Htau. exists (due dist' tau R). split.
      * rewrite (due_perm dist' tau O' (p :: R)) by (rewrite Hperm; exact HR).
        apply due_cons.
      * left. rewrite (due_present dist dist' t p dist_now dist_other tau O R HR HpR).
        assert (E : (t <=? tau) = true) by (apply Z.leb_le; lia). rewrite E.
        reflexivity.
  - exists 0. split; [reflexivity|]. split; [lia|]. split.
    + rewrite (due_absent dist dist' p dist_other t O Hnot).
      apply (due_not_yet dist' t dist_later). lia.
    + intros tau Htau. exists (due dist' tau O). split.
      * rewrite (due_perm dist' tau O' (p :: O) Hperm). apply due_cons.
      * left. rewrite (due_absent dist dist' p dist_other tau O Hnot). lia.
  - exists 0. split; [reflexivity|]. split; [lia|]. split.
    + rewrite (due_absent dist dist' p dist_other t O Hnot).
      apply (due_not_yet dist' t dist_later). lia.
    + intros tau Htau. exists (due dist' tau R). split.
      * rewrite (due_perm dist' tau O' (p :: R) HO'). apply due_cons.
      * rewrite (due_absent dist dist' p dist_other tau O Hnot).
        rewrite (due_perm dist' tau O (x :: R) HO), due_cons.
        destruct (Z.leb_spec (dist' x) tau) as [Hx|Hx]; cbn [ind]; [right|left; lia].
        split; [reflexivity|]. split; [reflexivity|].
        rewrite (due_full dist' tau R).
        -- rewrite <- Hfull, (Permutation_length HO). cbn [List.length]. lia.
        -- intros q Hq.
           assert (HqO : In q O) by (rewrite HO; now right).
           specialize (Hmax q HqO). lia.
Qed.

(** One reference keeps the furthest-in-future policy not behind any policy
    that holds at most [F] pages. *)
Lemma ahead_step (cO cA : Z) (O O' A A' : list Z) (fO fA : bool) :
  NoDup O -> NoDup A ->
  (List.length A' <= F)%nat ->
  furthest_step dist' F p O O' fO ->
  resident_step p A A' fA ->
  ahead dist cO O cA A ->
  ahead dist' (cO + ind fO) O' (cA + ind fA) A'.
Proof.
  intros HnO HnA Hcap HO HA Hahead tau.
  destruct (resident_step_due A A' fA HnA HA) as (sA & EfA & HsA & HtA & HA').
  destruct (furthest_step_due O O' fO HnO HO) as (sO & EfO & HsO & HtO & HO').
  pose proof (Hahead t) as Ht. rewrite HtA, HtO in Ht.
  destruct (Z_le_gt_dec (t + 1) tau) as [Htau|Htau].
  - destruct (HA' tau Htau) as (rA & HrA0 & HrA1 & HrA2 & EA').
    destruct (HO' tau Htau) as (rO & EO' & HrO).
    pose proof (Hahead tau) as H. rewrite EA', EO'.
    destruct HrO as [HrO | (Hs0 & HrO & Hfull)]; lia.
  - rewrite (due_not_yet dist' t dist_later tau A') by lia.
    rewrite (due_not_yet dist' t dist_later tau O') by lia.
    lia.
Qed.

End OneReference.

(** *** The distances that [optimal] computes *)

(** Position of the first use of [q] at or after position [t], as the scan
    of [optimal] finds it. *)
Definition distance_from (refs : list PageRef) (t : Z) (q : Z) : Z :=
  scan_next_use (skipn (Z.to_nat t) refs) t q.

Lemma next_use_distance_from (m : Members) (q : Z) :
  next_use_distance m q = distance_from (pageRefs m) (counter m + 1) q.
Proof. reflexivity. Qed.

Lemma static_cast_int_small (x : Z) :
  0 <= x <= INT_MAX -> static_cast_int x = x.
Proof.
  unfold static_cast_int, INT_MAX. intros H.
  rewrite Z.mod_small by lia. lia.
Qed.

Lemma scan_next_use_lower (l : list PageRef) :
  forall i q,
    0 <= i -> i + Z.of_nat (List.length l) <= INT_MAX ->
    i <= scan_next_use l i q.
Proof.
  induction l as [|r l IH]; intros i q Hi Hlen; cbn [scan_next_use].
  - cbn [List.length] in Hlen. lia.
  - cbn [List.length] in Hlen. destruct (pageNum r =? q).
    + rewrite static_cast_int_small by lia. lia.
    + specialize (IH (i + 1) q). lia.
Qed.

Lemma skipn_nth_cons {A : Type} (d : A) (l : list A) :
  forall n, (n < List.length l)%nat -> skipn n l = nth n l d :: skipn (S n) l.
Proof.
  induction l as [|x l IH]; intros [|n] H; cbn [List.length] in H; try lia.
  - reflexivity.
  - cbn [skipn nth]. rewrite (IH n) by lia. reflexivity.
Qed.

Section Distances.

Variables (refs : list PageRef) (t : Z).
Hypothesis position : 0 <= t < Z.of_nat (List.length refs).
Hypothesis bounded : Z.of_nat (List.length refs) <= INT_MAX.

Let p : Z := pageNum (nth (Z.to_nat t) refs (mkPageRef (-1) (-1))).

Lemma skipn_current :
  skipn (Z.to_nat t) refs
  = nth (Z.to_nat t) refs (mkPageRef (-1) (-1)) :: skipn (Z.to_nat (t + 1)) refs.
Proof.
  replace (Z.to_nat (t + 1)) with (S (Z.to_nat t)) by lia.
  apply skipn_nth_cons. lia.
Qed.

Lemma distance_now : distance_from refs t p = t.
Proof.
  unfold distance_from. rewrite skipn_current. cbn [scan_next_use].
  fold p. rewrite Z.eqb_refl. apply static_cast_int_small. lia.
Qed.

Lemma distance_other (q : Z) :
  q <> p -> distance_from refs t q = distance_from refs (t + 1) q.
Proof.
  intros H. unfold distance_from. rewrite skipn_current. cbn [scan_next_use].
  fold p. destruct (Z.eqb_spec p q); [congruence|reflexivity].
Qed.

Lemma distance_later (q : Z) : t + 1 <= distance_from refs (t + 1) q.
Proof.
  unfold distance_from. apply scan_next_use_lower; [lia|].
  rewrite length_skipn. lia.
Qed.

End Distances.

(** *** The victim of [optimal] *)

Lemma optimal_victim_spec (m : Members) (l : list Frame) :
  forall (it : nat) (maxDistance : Z) (victimIt : nat),
  exists M : Z,
    maxDistance <= M /\
    (forall f, In f l -> next_use_distance m (page f) <= M) /\
    ((optimal_victim m l it maxDistance victimIt = victimIt /\ M = maxDistance) \/
     (exists k f, optimal_victim m l it maxDistance victimIt = (it + k)%nat /\
                  nth_error l k = Some f /\ next_use_distance m (page f) = M)).
Proof.
  induction l as [|f l IH]; intros it md v; cbn [optimal_victim].
  - exists md. split; [lia|]. split; [intros f []|]. left. split; reflexivity.
  - destruct (Z.gtb_spec (next_use_distance m (page f)) md) as [Hgt|Hle].
    + destruct (IH (S it) (next_use_distance m (page f)) it)
        as (M & HM & Hall & [[E EM] | (k & g & E & Hk & Hg)]).
      * exists M. split; [lia|]. split.
        -- intros g [<-|Hg]; [lia|auto].
        -- right. exists 0%nat, f. rewrite E. split; [lia|]. split; [reflexivity|lia].
      * exists M. split; [lia|]. split.
        -- intros h [<-|Hh]; [lia|auto].
        -- right. exists (S k), g. rewrite E. split; [lia|]. split; assumption.
    + destruct (IH (S it) md v) as (M & HM & Hall & [[E EM] | (k & g & E & Hk & Hg)]).
      * exists M. split; [lia|]. split.
        -- intros g [<-|Hg]; [lia|auto].
        -- left. split; assumption.
      * exists M. split; [lia|]. split.
        -- intros h [<-|Hh]; [lia|auto].
        -- right. exists (S k), g. rewrite E. split; [lia|]. split; assumption.
Qed.

(** With distances that are not negative the victim is a frame whose page
    is used furthest in the future. *)
Lemma optimal_victim_furthest (m : Members) (t : list Frame) :
  t <> [] ->
  (forall q, 0 <= next_use_distance m q) ->
  exists f,
    nth_error t (optimal_victim m t 0 (-1) 0) = Some f /\
    forall g, In g t -> next_use_distance m (page g) <= next_use_distance m (page f).
Proof.
  intros Hne Hpos.
  destruct (optimal_victim_spec m t 0 (-1) 0)
    as (M & HM & Hall & [[E EM] | (k & f & E & Hk & Hf)]).
  - destruct t as [|g t]; [congruence|].
    specialize (Hall g (or_introl eq_refl)). specialize (Hpos (page g)). lia.
  - exists f. rewrite E. cbn [Nat.add]. split; [exact Hk|].
    intros g Hg. rewrite Hf. apply Hall, Hg.
Qed.

(** One reference of [optimal] seen on its resident pages: a page is
    replaced only when every frame is occupied, and the replaced page is one
    whose next use is furthest. *)
Lemma optimal_furthest (m : Members) (d : AlgorithmData) (w : Process) :
  1 <= numFrames m ->
  List.length (pageTable d) = Z.to_nat (numFrames m) ->
  lastPageRef m <> -1 ->
  (forall q, 0 <= next_use_distance m q) ->
  furthest_step (next_use_distance m) (Z.to_nat (numFrames m)) (lastPageRef m)
                (resident (pageTable d))
                (resident (pageTable (snd (fst (optimal m d w)))))
                (fst (fst (optimal m d w))).
Proof.
  intros HF Hlen Hp Hpos. unfold optimal.
  destruct (find_if (is_requested m) (pageTable d)) as [hitIt|] eqn:Ehit.
  - unfold_effects. apply fs_hit.
    + apply In_resident. split; [exact (hit_page_in_table _ _ _ Ehit)|exact Hp].
    + rewrite (same_pages_same_resident (pageTable d)); [reflexivity|].
      apply map_page_update_keep. reflexivity.
  - pose proof (miss_page_not_in_table _ _ Ehit) as Hnot.
    assert (Hnot' : ~ In (lastPageRef m) (resident (pageTable d))).
    { intros H. apply In_resident in H. tauto. }
    destruct (find_if is_empty (pageTable d)) as [emptyIt|] eqn:Eemp.
    + unfold_effects. apply fs_add; [exact Hnot'|].
      destruct (resident_after_update (pageTable d)
                  (update emptyIt
                     (fun f => set_extra (counter m)
                                 (set_time (steady_clock w (steady_reads w))
                                    (set_page (lastPageRef m) f)))
                     (pageTable d))
                  emptyIt (-1) (lastPageRef m) (empty_frame_at _ _ Eemp))
        as (R & H1 & H2).
      { apply map_page_update_set. reflexivity. }
      rewrite opt_page_empty in H1. rewrite (opt_page_occupied _ Hp) in H2.
      cbn [app] in H1, H2. rewrite H2, H1. reflexivity.
    + pose proof (full_table_no_empty _ Eemp) as Hfull.
      assert (Hne : pageTable d <> []).
      { intros E. rewrite E in Hlen. cbn [List.length] in Hlen. lia. }
      destruct (optimal_victim_furthest m (pageTable d) Hne Hpos) as (f & Hf & Hmax).
      unfold_effects.
      set (v := optimal_victim m (pageTable d) 0 (-1) 0) in *.
      assert (Hx : nth_error (map page (pageTable d)) v = Some (page f)).
      { rewrite nth_error_map, Hf. reflexivity. }
      assert (Hxne : page f <> -1).
      { intros E. apply Hfull. rewrite <- E. apply in_map.
        eapply nth_error_In; eassumption. }
      destruct (resident_after_update (pageTable d)
                  (update v
                     (fun f => set_extra (counter m)
                                 (set_time (steady_clock w (steady_reads w))
                                    (set_page (lastPageRef m) f)))
                     (pageTable d))
                  v (page f) (lastPageRef m) Hx)
        as (R & H1 & H2).
      { apply map_page_update_set. reflexivity. }
      rewrite (opt_page_occupied _ Hxne) in H1. rewrite (opt_page_occupied _ Hp) in H2.
      cbn [app] in H1, H2.
      apply (fs_replace _ _ _ _ _ (page f) R); try assumption.
      * rewrite (resident_full _ Hfull), length_map. exact Hlen.
      * intros q Hq. apply In_resident in Hq. destruct Hq as [Hq _].
        apply in_map_iff in Hq. destruct Hq as (g & <- & Hg). apply Hmax, Hg.
Qed.

(** *** Along a run of all policies *)

(** A policy is compared with OPTIMAL when it holds at most as many pages as
    there are frames: every policy but LFRU does, and LFRU does once the
    frames are as many as its two partitions together. *)
Definition fits (F : Z) (a : Algorithm) : Prop :=
  label a <> "LFRU"%string \/
  PRIVILEGED_PARTITION_SIZE + UNPRIVILEGED_PARTITION_SIZE <= F.

Lemma lfru_not_table_policy : ~ table_policy lfru.
Proof.
  intros H.
  pose (m := mkMembers 1 0 0 false false 0 0 []).
  pose (d := mkAlgorithmData 0 0 [Frame_default 0] [] 0 None).
  pose (w := fresh_process (fun _ => 0) (fun _ => 0) (fun _ => 0%nat) (fun _ => None)).
  destruct (H m d w) as (_ & _ & Hlf & _);
    [cbn; lia | reflexivity | cbn; lia |].
  vm_compute in Hlf. discriminate Hlf.
Qed.

Lemma listed_table_policy (a : Algorithm) :
  listed a -> label a <> "LFRU"%string -> table_policy (algoFunc a).
Proof.
  intros Hl Hne. pose proof policy_list_ok as H. rewrite Forall_forall in H.
  destruct (H _ Hl) as [[Hn _]|[_ Ht]]; cbn [fst snd] in *.
  - apply String.eqb_eq in Hn. contradiction.
  - exact Ht.
Qed.

Lemma contents_table (d : AlgorithmData) :
  lfruData d = None -> contents d = resident (pageTable d).
Proof. intros H. unfold contents. rewrite H. apply app_nil_r. Qed.

Lemma contents_fit (F : Z) (a : Algorithm) :
  listed a -> algorithm_ok F a -> fits F a ->
  (List.length (contents (data a)) <= Z.to_nat F)%nat.
Proof.
  intros Hl [(Hpol & Hnone & Hlen) | (Hfun & Hres & lf & Hsome & HP & HU)] Hfit.
  - rewrite (contents_table _ Hnone), <- Hlen. apply resident_length.
  - destruct Hfit as [Hne|H10].
    + exfalso. apply lfru_not_table_policy. rewrite <- Hfun.
      now apply listed_table_policy.
    + unfold contents. rewrite Hres, Hsome. cbn [app].
      pose proof (resident_length (frames (privileged lf) ++ frames (unprivileged lf)))
        as H.
      rewrite length_app, HP, HU in H.
      unfold PRIVILEGED_PARTITION_SIZE, UNPRIVILEGED_PARTITION_SIZE in *. lia.
Qed.

Lemma Forall2_Forall_step {A : Type} (R : A -> A -> Prop) (P Q : A -> Prop)
      (l l' : list A) :
  (forall a a', R a a' -> P a -> Q a') ->
  Forall2 R l l' -> Forall P l -> Forall Q l'.
Proof.
  intros H. induction 1 as [|a a' l l' Ha _ IH]; intros HP; constructor;
    inversion HP; subst; eauto.
Qed.

Section Optimality.

Variable refs : list PageRef.
Hypothesis pages_valid : Forall (fun r => pageNum r <> -1) refs.
Hypothesis bounded : Z.of_nat (List.length refs) <= INT_MAX.

(** Before the reference at position [t], policy [a] is not ahead of [aO]. *)
Definition not_behind (t : Z) (aO a : Algorithm) : Prop :=
  NoDup (contents (data a)) /\
  misses (data aO) <= misses (data a) /\
  ahead (distance_from refs t) (misses (data aO)) (contents (data aO))
        (misses (data a)) (contents (data a)).

Definition belady_invariant (mem : Members) (algs : list Algorithm) (w : Process)
  : Prop :=
  1 <= numFrames mem /\ 0 <= clockHand w /\ pageRefs mem = refs /\ 0 <= counter mem /\
  Forall (algorithm_ok (numFrames mem)) algs /\
  Forall listed algs /\
  Forall (fun a => selected a = true) algs /\
  exists aO rest,
    algs = aO :: rest /\
    label aO = "OPTIMAL"%string /\ algoFunc aO = optimal /\
    lfruData (data aO) = None /\
    List.length (pageTable (data aO)) = Z.to_nat (numFrames mem) /\
    NoDup (contents (data aO)) /\
    Forall (fun a => fits (numFrames mem) a -> not_behind (counter mem) aO a) rest.

Lemma loop_position (mem : Members) :
  pageRefs mem = refs -> 0 <= counter mem -> loop_condition mem = true ->
  0 <= counter mem < Z.of_nat (List.length refs) /\ current_page mem <> -1.
Proof.
  intros Hrefs Hc Hloop. unfold loop_condition in Hloop.
  apply andb_true_iff in Hloop. destruct Hloop as [_ Hlt].
  apply Z.ltb_lt in Hlt. unfold pageRefs_size in Hlt. rewrite Hrefs in Hlt.
  rewrite static_cast_int_small in Hlt by lia.
  split; [lia|]. unfold current_page. rewrite Hrefs.
  rewrite Forall_forall in pages_valid. apply pages_valid. apply nth_In. lia.
Qed.

(** One reference keeps a policy that fits not ahead of OPTIMAL. *)
Lemma not_behind_step (mem : Members) (aO aO' a a' : Algorithm) (fO : bool) :
  pageRefs mem = refs ->
  0 <= counter mem < Z.of_nat (List.length refs) ->
  current_page mem <> -1 ->
  NoDup (contents (data aO)) ->
  furthest_step (distance_from refs (counter mem + 1)) (Z.to_nat (numFrames mem))
                (current_page mem) (contents (data aO)) (contents (data aO')) fO ->
  misses (data aO') = misses (data aO) + ind fO ->
  policy_step (during mem) a a' ->
  listed a -> selected a = true ->
  (fits (numFrames mem) a -> not_behind (counter mem) aO a) ->
  fits (numFrames mem) a' -> not_behind (counter mem + 1) aO' a'.
Proof.
  intros Hrefs Hpos Hp HndO HstepO HmO [Hl Hf Hs Hok _ Hrun] Hlisted Hsel Hnb Hfit.
  assert (Hfit0 : fits (numFrames mem) a).
  { destruct Hfit as [H|H]; [left; congruence|right; exact H]. }
  destruct (Hnb Hfit0) as (HndA & Hle & Hahead).
  destruct (Hrun Hsel) as (fA & HstepA & _ & HmA).
  change (lastPageRef (during mem)) with (current_page mem) in HstepA.
  assert (Hcap : (List.length (contents (data a')) <= Z.to_nat (numFrames mem))%nat).
  { apply contents_fit; [|exact Hok|exact Hfit].
    unfold listed in *. rewrite Hl, Hf. exact Hlisted. }
  assert (Hp' : current_page mem
                = pageNum (nth (Z.to_nat (counter mem)) refs (mkPageRef (-1) (-1)))).
  { unfold current_page. rewrite Hrefs. reflexivity. }
  assert (Hnew : ahead (distance_from refs (counter mem + 1))
                       (misses (data aO')) (contents (data aO'))
                       (misses (data a')) (contents (data a'))).
  { rewrite HmO, HmA.
    change (if fA then 1 else 0) with (ind fA).
    apply (ahead_step (distance_from refs (counter mem))
                      (distance_from refs (counter mem + 1))
                      (counter mem) (current_page mem) (Z.to_nat (numFrames mem)))
      with (O := contents (data aO)) (A := contents (data a));
      try assumption.
    - rewrite Hp'. apply distance_now; assumption.
    - intros q Hq. apply distance_other; [assumption|]. rewrite <- Hp'. exact Hq.
    - intros q. apply distance_later; assumption. }
  split; [exact (resident_step_NoDup _ _ _ _ HstepA HndA)|]. split; [|exact Hnew].
  specialize (Hnew (counter mem)).
  rewrite !(due_not_yet (distance_from refs (counter mem + 1)) (counter mem)) in Hnew;
    try lia; try (intros q; apply distance_later; assumption).
Qed.

Lemma belady_invariant_step (mem : Members) (algs : list Algorithm) (w : Process) :
  belady_invariant mem algs w ->
  loop_condition mem = true ->
  belady_invariant (advance mem)
                   (fst (process_each (during mem) algs w))
                   (snd (process_each (during mem) algs w)).
Proof.
  intros (HF & Hw & Hrefs & Hc & Hok & Hlisted & Hsel & aO & rest & -> & HlO & HfO
          & HnoneO & HlenO & HndO & Hrest) Hloop.
  destruct (loop_position mem Hrefs Hc Hloop) as [Hpos Hp].
  change (numFrames mem) with (numFrames (during mem)) in HF, Hok, HlenO.
  destruct (process_each_steps (during mem) (aO :: rest) w HF Hok Hw) as [Hsteps Hw2].
  cbn [process_each] in *. unfold bind, ret in *. cbn [fst snd] in *.
  inversion Hok as [|? ? HokO Hokrest]; subst.
  inversion Hlisted as [|? ? HlistedO Hlistedrest]; subst.
  inversion Hsel as [|? ? HselO Hselrest]; subst.
  inversion Hsteps as [|? ? ? ? HstepO Hstepsrest]; subst.
  destruct (process_one_selected (during mem) aO w HselO)
    as (aO' & w' & E & _ & HlO' & HfO' & HsO' & Ht & _ & Hlf & _ & Hm).
  rewrite E in *. cbn [fst snd] in *.
  rewrite HfO in Ht, Hlf, Hm.
  set (w1 := snd (high_resolution_clock_now w)) in *.
  assert (Hw1 : 0 <= clockHand w1) by exact Hw.
  destruct (optimal_table_policy (during mem) (data aO) w1 HF HlenO Hw1)
    as (_ & Hm0 & Hlf0 & Hidx & _ & _).
  assert (Hdist : forall q, 0 <= next_use_distance (during mem) q).
  { intros q. rewrite next_use_distance_from.
    change (pageRefs (during mem)) with (pageRefs mem).
    change (counter (during mem)) with (counter mem). rewrite Hrefs.
    pose proof (distance_later refs (counter mem) Hpos bounded q). lia. }
  pose proof (optimal_furthest (during mem) (data aO) w1 HF HlenO Hp Hdist) as Hfur.
  assert (HnoneO' : lfruData (data aO') = None) by congruence.
  assert (Hfur' : furthest_step (distance_from refs (counter mem + 1))
                    (Z.to_nat (numFrames mem)) (current_page mem)
                    (contents (data aO)) (contents (data aO'))
                    (fst (fst (optimal (during mem) (data aO) w1)))).
  { rewrite (contents_table _ HnoneO), (contents_table _ HnoneO'), Ht.
    rewrite <- Hrefs. exact Hfur. }
  assert (HmO' : misses (data aO')
                 = misses (data aO) + ind (fst (fst (optimal (during mem) (data aO) w1)))).
  { rewrite Hm, Hm0. reflexivity. }
  unfold belady_invariant.
  change (numFrames (advance mem)) with (numFrames (during mem)).
  change (pageRefs (advance mem)) with (pageRefs mem).
  change (counter (advance mem)) with (counter mem + 1).
  split; [exact HF|]. split; [exact Hw2|]. split; [exact Hrefs|]. split; [lia|].
  split; [exact (policy_steps_ok _ _ _ Hsteps)|].
  split.
  { apply (Forall2_Forall_step _ _ _ _ _
             (fun a a' (H : policy_step (during mem) a a') (Ha : listed a) =>
                eq_ind_r (fun l => In (l, algoFunc a') policy_list)
                  (eq_ind_r (fun f => In (label a, f) policy_list) Ha (ps_func _ _ _ H))
                  (ps_label _ _ _ H))
             Hsteps Hlisted). }
  split.
  { apply (Forall2_Forall_step _ _ _ _ _
             (fun a a' (H : policy_step (during mem) a a') (Ha : selected a = true) =>
                eq_trans (ps_selected _ _ _ H) Ha)
             Hsteps Hsel). }
  exists aO'. eexists. split; [reflexivity|].
  split; [congruence|]. split; [congruence|]. split; [exact HnoneO'|].
  split.
  { rewrite Ht, <- HlenO, <- (length_map index), Hidx. apply length_map. }
  split.
  { destruct HstepO as [_ _ _ _ _ Hrun]. destruct (Hrun HselO) as (f & Hst & _).
    exact (resident_step_NoDup _ _ _ _ Hst HndO). }
  assert (Hall : Forall (fun a => listed a /\ selected a = true /\
                                  (fits (numFrames mem) a ->
                                   not_behind (counter mem) aO a)) rest).
  { rewrite Forall_forall in *. intros a Ha. auto. }
  apply (Forall2_Forall_step _ _ _ _ _
           (fun a a' (H : policy_step (during mem) a a')
                (Ha : listed a /\ selected a = true /\
                      (fits (numFrames mem) a -> not_behind (counter mem) aO a)) =>
              not_behind_step mem aO aO' a a' _ Hrefs Hpos Hp HndO Hfur' HmO' H
                              (proj1 Ha) (proj1 (proj2 Ha)) (proj2 (proj2 Ha)))
           Hstepsrest Hall).
Qed.

Lemma policy_steps_labels (mem : Members) (algs algs' : list Algorithm) :
  Forall2 (policy_step mem) algs algs' -> map label algs' = map label algs.
Proof.
  induction 1 as [|a a' l l' H _ IH]; cbn [map]; [reflexivity|].
  rewrite IH, (ps_label _ _ _ H). reflexivity.
Qed.

Lemma belady_invariant_labels (mem : Members) (algs : list Algorithm) (w : Process) :
  belady_invariant mem algs w ->
  map label (fst (process_each (during mem) algs w)) = map label algs.
Proof.
  intros (HF & Hw & _ & _ & Hok & _).
  apply (policy_steps_labels (during mem)).
  apply process_each_steps; assumption.
Qed.

Lemma belady_invariant_initial (nframes maxCalls : Z) (dbg pr : bool)
      (sim0 : CacheReplacementSimulator) (w0 w : Process) :
  0 <= clockHand w ->
  let sim := runSimulation_init (configured nframes maxCalls dbg pr refs "a" sim0 w0) in
  belady_invariant (members sim) (algorithms sim) w.
Proof.
  intros Hw sim.
  destruct (configured_start nframes maxCalls dbg pr refs "a" sim0 w0)
    as (HF & Hrefs & Hc & _ & Hready & Hlab & Hfun).
  fold sim in HF, Hrefs, Hc, Hready, Hlab, Hfun.
  assert (Hsel : Forall (fun a => selected a = true) (algorithms sim)).
  { exact (selectAlgorithm_all
             (set_pageRefs refs (fst (setConfiguration nframes maxCalls dbg pr sim0 w0)))). }
  pose proof (listed_of_maps _ _ Hlab Hfun) as Hlisted.
  unfold belady_invariant. rewrite HF, Hrefs, Hc.
  split; [lia|]. split; [exact Hw|]. split; [reflexivity|]. split; [lia|].
  split; [exact (ready_algorithms_ok _ _ Hready)|].
  split; [exact Hlisted|]. split; [exact Hsel|].
  destruct (algorithms sim) as [|aO rest]; [discriminate Hlab|].
  cbn [map policy_list fst snd] in Hlab, Hfun.
  injection Hlab as HlO _. injection Hfun as HfO _.
  inversion Hready as [|? ? (HokO & _ & _ & _ & HcO) Hrest]; subst.
  exists aO, rest. split; [reflexivity|]. split; [exact HlO|]. split; [exact HfO|].
  assert (Htab : lfruData (data aO) = None /\
                 List.length (pageTable (data aO)) = Z.to_nat (Z.max 1 nframes)).
  { destruct HokO as [(_ & H1 & H2) | (Hl & _)]; [split; assumption|].
    exfalso. apply lfru_not_table_policy. rewrite <- Hl, HfO.
    exact optimal_table_policy. }
  split; [apply Htab|]. split; [apply Htab|].
  split; [rewrite HcO; constructor|].
  eapply Forall_impl; [|exact Hrest].
  intros a (_ & _ & Hm & _ & Hca) _.
  inversion Hready as [|? ? (_ & _ & HmO & _ & _) _]; subst.
  unfold not_behind. rewrite Hca, HcO, Hm, HmO.
  split; [constructor|]. split; [lia|]. intros tau. lia.
Qed.

End Optimality.

(** With a single frame and the pages 0, 1, 0, 1, OPTIMAL misses every
    reference, while LFRU, which keeps its two partitions of five frames
    whatever the configured frame count, misses the first two only.  The
    policies are found by their labels: the run ends by sorting them. *)
Lemma lfru_beats_optimal_below_partition_sizes :
  let trace := ("1 0" ++ newline ++ "1 1" ++ newline ++ "1 0" ++ newline
                ++ "1 1" ++ newline)%string in
  let w0 := fresh_process (fun n => Z.of_nat n) (fun n => Z.of_nat n) (fun n => n)
                          (fun _ => Some trace) in
  let r := fst (simulate "trace.txt" "a" 1 1000 w0) in
  let result := fun a => (label a, hits (data a), misses (data a)) in
  numFrames (members r) = 1 /\
  map pageNum (pageRefs (members r)) = [0; 1; 0; 1] /\
  map result (filter (fun a => String.eqb (label a) "OPTIMAL") (algorithms r))
  = [("OPTIMAL"%string, 0, 4)] /\
  map result (filter (fun a => String.eqb (label a) "LFRU") (algorithms r))
  = [("LFRU"%string, 2, 2)].
Proof. vm_compute. repeat split; reflexivity. Qed.

(** C1 (as amended).  In a run of all policies over a trace whose pages are
    not the EMPTY sentinel and whose length fits an [int], after any number
    of iterations of the simulation loop -- so also after the whole trace
    --, OPTIMAL has missed at most as often as every other policy of the
    catalogue that holds no more pages than there are frames: every policy
    but LFRU, and LFRU too when the frame count is at least the sum of its
    two partition sizes. *)
Theorem optimal_misses_least
        (nframes maxCalls : Z) (dbg pr : bool) (refs : list PageRef)
        (sim0 : CacheReplacementSimulator) (w0 w : Process) (fuel : nat) :
  Forall (fun r => pageNum r <> -1) refs ->
  Z.of_nat (List.length refs) <= INT_MAX ->
  0 <= clockHand w ->
  let r := fst (runSimulation_for fuel
                  (runSimulation_init
                     (configured nframes maxCalls dbg pr refs "a" sim0 w0)) w) in
  map label (algorithms r) = map fst policy_list /\
  exists aO others,
    algorithms r = aO :: others /\
    label aO = "OPTIMAL"%string /\
    forall a,
      In a others ->
      label a <> "LFRU"%string \/
      PRIVILEGED_PARTITION_SIZE + UNPRIVILEGED_PARTITION_SIZE <= Z.max 1 nframes ->
      misses (data aO) <= misses (data a).
Proof.
  intros Hpages Hbound Hw r.
  pose (I := fun (mem : Members) (algs : list Algorithm) (w' : Process) =>
               numFrames mem = Z.max 1 nframes /\
               map label algs = map fst policy_list /\
               belady_invariant refs mem algs w').
  assert (Hstep : forall mem algs w',
             I mem algs w' -> loop_condition mem = true ->
             I (advance mem) (fst (process_each (during mem) algs w'))
               (snd (process_each (during mem) algs w'))).
  { intros mem algs w' (HF & Hlab & HI) Hloop. split; [exact HF|]. split.
    - rewrite (belady_invariant_labels refs mem algs w' HI). exact Hlab.
    - apply belady_invariant_step; assumption. }
  assert (Hstart : I (members (runSimulation_init
                                 (configured nframes maxCalls dbg pr refs "a" sim0 w0)))
                     (algorithms (runSimulation_init
                                    (configured nframes maxCalls dbg pr refs "a" sim0 w0)))
                     w).
  { destruct (configured_start nframes maxCalls dbg pr refs "a" sim0 w0)
      as (HF & _ & _ & _ & _ & Hlab & _).
    split; [exact HF|]. split; [exact Hlab|].
    apply belady_invariant_initial; assumption. }
  destruct (runSimulation_for_invariant_process I Hstep fuel _ w Hstart)
    as (HF & Hlab & (_ & _ & _ & _ & _ & _ & _ & aO & rest & E & HlO & _ & _ & _ & _
                     & Hrest)).
  fold r in HF, Hlab, E, Hrest.
  split; [exact Hlab|]. exists aO, rest. split; [exact E|]. split; [exact HlO|].
  intros a Ha Hfit. rewrite Forall_forall in Hrest.
  rewrite HF in Hrest. apply (Hrest a Ha Hfit).
Qed.

Lemma optimal_misses_least_witness :
  let refs := map (fun p => mkPageRef p 1)
                  [7; 0; 1; 2; 0; 3; 0; 4; 2; 3; 0; 3; 2; 1; 2; 0; 1; 7; 0; 1] in
  let sim0 := mkSimulator (mkMembers 12 1048576 1000 false false 0 (-1) []) [] in
  let w := fresh_process (fun n => Z.of_nat n) (fun n => Z.of_nat n) (fun n => n)
                         (fun _ => None) in
  let r := fst (runSimulation_for 21
                  (runSimulation_init (configured 3 1000 false false refs "a" sim0 w))
                  w) in
  map label (algorithms r) = map fst policy_list /\
  exists aO others,
    algorithms r = aO :: others /\
    label aO = "OPTIMAL"%string /\
    forall a,
      In a others ->
      label a <> "LFRU"%string \/
      PRIVILEGED_PARTITION_SIZE + UNPRIVILEGED_PARTITION_SIZE <= Z.max 1 3 ->
      misses (data aO) <= misses (data a).
Proof.
  intros refs sim0 w.
  apply (optimal_misses_least 3 1000 false false refs sim0 w w 21%nat).
  - unfold refs. repeat (apply Forall_cons; [cbn; lia|]). apply Forall_nil.
  - unfold INT_MAX. cbn. lia.
  - cbn. lia.
Defined.


(** * Further properties of the simulator *)

(** ** Algorithm codes *)

Lemma valid_code_cases (c : ascii) :
  string_find c validCodes = true ->
  In c ["O"; "R"; "F"; "L"; "C"; "N"; "A"; "M"; "n"; "m"; "l"; "f"; "a"]%char.
Proof.
  unfold validCodes. cbn [string_find]. rewrite !orb_true_iff, !Ascii.eqb_eq.
  cbn [In]. intuition congruence.
Qed.

Lemma twelve_labelled (algs : list Algorithm) :
  map label algs = map fst policy_list ->
  exists a0 a1 a2 a3 a4 a5 a6 a7 a8 a9 a10 a11,
    algs = [a0; a1; a2; a3; a4; a5; a6; a7; a8; a9; a10; a11] /\
    map label algs = ["OPTIMAL"; "RANDOM"; "FIFO"; "LRU"; "CLOCK"; "NFU"; "AGING";
                      "MRU"; "NRU"; "MFU"; "LFU"; "LFRU"]%string.
Proof.
  intros H.
  do 12 (destruct algs as [|? algs]; [discriminate H|]).
  destruct algs; [|discriminate H].
  do 12 eexists. split; [reflexivity|exact H].
Qed.

Lemma selectAlgorithm_accepts (c : ascii) (sim : CacheReplacementSimulator) :
  (snd (selectAlgorithm c sim) = None <-> string_find c validCodes = true) /\
  (snd (selectAlgorithm c sim) = None \/
   snd (selectAlgorithm c sim) = Some (invalid_argument "Invalid algorithm choice")).
Proof.
  unfold selectAlgorithm, validCodes. cbn [string_find].
  rewrite !(Ascii.eqb_sym _ c).
  repeat match goal with
         | |- context [Ascii.eqb c ?x] =>
             destruct (Ascii.eqb c x);
             [cbn [orb snd]; split; [split; congruence|left; reflexivity] |]
         end.
  cbn [orb snd]. split; [split; congruence|right; reflexivity].
Qed.

(** X1.  [selectAlgorithm] throws exactly for the codes that
    [validateArguments] of the command-line driver rejects.  It returns
    normally exactly for the thirteen codes of the string that
    [validateArguments] searches; and on a command line of four to six
    arguments, [validateArguments] reports [Invalid algorithm code 'c'],
    [c] being the first character of the algorithm argument, exactly when
    [selectAlgorithm] throws [invalid_argument] for [c]. *)
Theorem selectAlgorithm_throws_iff_invalid_code
        (argv : list string) (sim : CacheReplacementSimulator) :
  (4 <= List.length argv <= 6)%nat ->
  let c := first_char (arg 2 argv) in
  (snd (selectAlgorithm c sim) = None <-> string_find c validCodes = true) /\
  (snd (selectAlgorithm c sim) = Some (invalid_argument "Invalid algorithm choice")
   <-> validateArguments argv
       = Some ("Invalid algorithm code '" ++ String c "'")%string).
Proof.
  intros Hlen c.
  destruct (selectAlgorithm_accepts c sim) as [Hiff Hcases].
  split; [exact Hiff|]. unfold validateArguments. fold c.
  destruct (Z.ltb_spec (Z.of_nat (List.length argv)) 4) as [Hlt|_]; [lia|].
  destruct (Z.gtb_spec (Z.of_nat (List.length argv)) 6) as [Hgt|_]; [lia|].
  destruct (string_find c validCodes) eqn:E; cbn [negb].
  - assert (H : snd (selectAlgorithm c sim) = None) by (apply Hiff; reflexivity).
    rewrite H. split; [discriminate|]. unfold validate_flag.
    destruct (stoi (arg 3 argv)) as [n|e]; [|cbn; discriminate].
    destruct (n <? 1); [cbn; discriminate|]. destruct (n >? 1000); [cbn; discriminate|].
    destruct (Z.of_nat (List.length argv) >? 4);
      [destruct (stoi (arg 4 argv)) as [v|e];
       [destruct (negb (v =? 0) && negb (v =? 1)); [cbn; discriminate|]
       |cbn; discriminate]|];
      (destruct (Z.of_nat (List.length argv) >? 5);
       [destruct (stoi (arg 5 argv)) as [v'|e'];
        [destruct (negb (v' =? 0) && negb (v' =? 1)); cbn; discriminate
        |cbn; discriminate]
       |discriminate]).
  - destruct Hcases as [H|H].
    + apply Hiff in H. discriminate H.
    + rewrite H. split; reflexivity.
Qed.

Lemma selectAlgorithm_throws_iff_invalid_code_witness :
  let argv := ["cache_simulator"; "trace.txt"; "X"; "4"]%string in
  let sim := mkSimulator (mkMembers 12 1048576 1000 false false 0 (-1) []) [] in
  snd (selectAlgorithm "X" sim) = Some (invalid_argument "Invalid algorithm choice")
  /\ validateArguments argv = Some "Invalid algorithm code 'X'"%string.
Proof.
  intros argv sim.
  destruct (selectAlgorithm_throws_iff_invalid_code argv sim) as [_ H].
  - cbn. lia.
  - split; [reflexivity|]. apply H. reflexivity.
Defined.

(** ** Frames and victim log of the table-based policies *)

(** One reference seen on the frames (index and page) and on the victim
    log of a table-based policy: a hit and a fill log nothing, an eviction
    happens only when no frame is empty and logs the frame it overwrites. *)
Inductive eviction_step (p : Z) (d d' : AlgorithmData) : bool -> Prop :=
| es_hit :
    In p (map page (pageTable d)) ->
    map frame_id (pageTable d') = map frame_id (pageTable d) ->
    victimList d' = victimList d ->
    eviction_step p d d' false
| es_fill (pos : nat) :
    ~ In p (map page (pageTable d)) ->
    nth_error (map page (pageTable d)) pos = Some (-1) ->
    map frame_id (pageTable d')
    = update pos (fun x => (fst x, p)) (map frame_id (pageTable d)) ->
    victimList d' = victimList d ->
    eviction_step p d d' true
| es_evict (pos : nat) (v : Frame) :
    ~ In p (map page (pageTable d)) ->
    ~ In (-1) (map page (pageTable d)) ->
    nth_error (map frame_id (pageTable d)) pos = Some (frame_id v) ->
    map frame_id (pageTable d')
    = update pos (fun x => (fst x, p)) (map frame_id (pageTable d)) ->
    victimList d' = victimList d ++ [v] ->
    eviction_step p d d' true.

Definition logging_policy (pol : Policy) : Prop :=
  forall m d w,
    1 <= numFrames m ->
    List.length (pageTable d) = Z.to_nat (numFrames m) ->
    0 <= clockHand w ->
    eviction_step (lastPageRef m) d (snd (fst (pol m d w))) (fst (fst (pol m d w))).

Lemma nth_error_frame_id_deref (it : nat) (t : list Frame) :
  (it < List.length t)%nat ->
  nth_error (map frame_id t) it = Some (frame_id (deref it t)).
Proof.
  intros H. rewrite nth_error_map, (nth_error_deref it t H). reflexivity.
Qed.

(** Closes the goal of a three-branch policy once the searches and the
    victim selection have been case-analysed and [v] is the victim. *)
Ltac logging_branches m d :=
  unfold_effects;
  match goal with
  | Hhit : find_if (is_requested m) _ = Some _ |- eviction_step _ _ _ false =>
      apply es_hit;
      [ exact (hit_page_in_table _ _ _ Hhit)
      | first [ reflexivity | apply map_frame_id_update_keep; reflexivity ]
      | reflexivity ]
  | Hmiss : find_if (is_requested m) _ = None,
    Hemp : find_if is_empty _ = Some ?e |- eviction_step _ _ _ true =>
      apply (es_fill _ _ _ e);
      [ exact (miss_page_not_in_table _ _ Hmiss)
      | exact (empty_frame_at _ _ Hemp)
      | apply map_frame_id_update_set; reflexivity
      | reflexivity ]
  | Hmiss : find_if (is_requested m) _ = None,
    Hemp : find_if is_empty _ = None
    |- eviction_step _ _ (set_pageTable (update ?v _ _) _) true =>
      apply (es_evict _ _ _ v (deref v (pageTable d)));
      [ exact (miss_page_not_in_table _ _ Hmiss)
      | exact (full_table_no_empty _ Hemp)
      | apply nth_error_frame_id_deref
      | apply map_frame_id_update_set; reflexivity
      | reflexivity ]
  end.

Ltac logging_policy_tac pol :=
  let m := fresh "m" in let d := fresh "d" in let w := fresh "w" in
  let HF := fresh "HF" in let Hlen := fresh "Hlen" in let Hw := fresh "Hw" in
  let Ehit := fresh "Ehit" in let Eemp := fresh "Eemp" in let Ev := fresh "Ev" in
  intros m d w HF Hlen Hw; unfold pol;
  destruct (find_if (is_requested m) (pageTable d)) eqn:Ehit;
  [ logging_branches m d
  | destruct (find_if is_empty (pageTable d)) eqn:Eemp;
    [ logging_branches m d
    | match goal with
      | |- context [min_element ?c (pageTable d)] =>
          destruct (min_element c (pageTable d)) eqn:Ev;
          [ logging_branches m d; exact (min_element_lt _ _ _ Ev)
          | apply min_element_None in Ev; pose proof (nonempty_table m _ HF Hlen);
            rewrite Ev in *; simpl in *; lia ]
      | |- context [max_element ?c (pageTable d)] =>
          destruct (max_element c (pageTable d)) eqn:Ev;
          [ logging_branches m d; exact (max_element_lt _ _ _ Ev)
          | apply max_element_None in Ev; pose proof (nonempty_table m _ HF Hlen);
            rewrite Ev in *; simpl in *; lia ]
      end ] ].

Lemma fifo_logging : logging_policy fifo.
Proof. logging_policy_tac fifo. Qed.

Lemma lru_logging : logging_policy lru.
Proof. logging_policy_tac lru. Qed.

Lemma nru_logging : logging_policy nru.
Proof. logging_policy_tac nru. Qed.

Lemma mru_logging : logging_policy mru.
Proof. logging_policy_tac mru. Qed.

Lemma nfu_logging : logging_policy nfu.
Proof. logging_policy_tac nfu. Qed.

Lemma mfu_logging : logging_policy mfu.
Proof. logging_policy_tac mfu. Qed.

Lemma lfu_logging : logging_policy lfu.
Proof. logging_policy_tac lfu. Qed.

Lemma optimal_logging : logging_policy optimal.
Proof.
  intros m d w HF Hlen Hw. unfold optimal.
  destruct (find_if (is_requested m) (pageTable d)) eqn:Ehit;
  [ logging_branches m d
  | destruct (find_if is_empty (pageTable d)) eqn:Eemp;
    [ logging_branches m d | logging_branches m d ] ].
  pose proof (optimal_victim_lt m (pageTable d) 0 (-1) 0). lia.
Qed.

Lemma random_logging : logging_policy random.
Proof.
  intros m d w HF Hlen Hw. unfold random.
  destruct (find_if (is_requested m) (pageTable d)) eqn:Ehit;
  [ logging_branches m d
  | destruct (find_if is_empty (pageTable d)) eqn:Eemp;
    [ logging_branches m d | logging_branches m d ] ].
  pose proof (Z.mod_pos_bound (Z.of_nat (rng w (rng_draws w))) (numFrames m - 1 - 0 + 1)).
  lia.
Qed.

Lemma age_frame_id (f : Frame) : frame_id (age_frame f) = frame_id f.
Proof. unfold age_frame. destruct (negb (page f =? -1)); reflexivity. Qed.

Lemma map_frame_id_aged (t : list Frame) :
  map frame_id (map age_frame t) = map frame_id t.
Proof. rewrite map_map. apply map_ext. apply age_frame_id. Qed.

Lemma eviction_step_same_frames (p : Z) (d0 d d' : AlgorithmData) (fault : bool) :
  map frame_id (pageTable d) = map frame_id (pageTable d0) ->
  victimList d = victimList d0 ->
  eviction_step p d d' fault -> eviction_step p d0 d' fault.
Proof.
  intros E Ev H. pose proof (frame_id_pages _ _ E) as Ep.
  destruct H as [H1 H2 H3 | pos H1 H2 H3 H4 | pos v H1 H2 H3 H4 H5];
    rewrite ?E, ?Ep, ?Ev in *.
  - now apply es_hit.
  - now apply (es_fill _ _ _ pos).
  - now apply (es_evict _ _ _ pos v).
Qed.

Lemma aging_logging : logging_policy aging.
Proof.
  intros m d0 w HF Hlen0 Hw. unfold aging.
  set (d := set_pageTable (map age_frame (pageTable d0)) d0).
  assert (Hlen : List.length (pageTable d) = Z.to_nat (numFrames m)).
  { unfold d. cbn [pageTable set_pageTable]. now rewrite length_map. }
  apply (eviction_step_same_frames _ d0 d);
    [ apply map_frame_id_aged | reflexivity | ].
  clearbody d.
  destruct (find_if (is_requested m) (pageTable d)) eqn:Ehit;
  [ logging_branches m d
  | destruct (find_if is_empty (pageTable d)) eqn:Eemp;
    [ logging_branches m d
    | destruct (min_element (fun a b => extra a <? extra b) (pageTable d)) eqn:Ev;
      [ logging_branches m d; exact (min_element_lt _ _ _ Ev)
      | apply min_element_None in Ev; pose proof (nonempty_table m _ HF Hlen);
        rewrite Ev in *; simpl in *; lia ] ] ].
Qed.

Lemma frame_ids_of_index_and_page (p : Z) (t : list Frame) :
  forall (t' : list Frame) (pos : nat),
    map index t' = map index t ->
    map page t' = update pos (fun _ => p) (map page t) ->
    map frame_id t' = update pos (fun x => (fst x, p)) (map frame_id t).
Proof.
  induction t as [|f t IH]; intros [|f' t'] pos Hi Hp; cbn [map update] in *;
    try discriminate; [destruct pos; reflexivity|].
  injection Hi as Hi0 Hi. destruct pos as [|pos]; cbn [update] in *.
  - injection Hp as Hp0 Hp. unfold frame_id at 1. rewrite Hi0, Hp0. cbn [fst frame_id].
    f_equal. clear IH. revert t' Hi Hp.
    induction t as [|g t IHt]; intros [|g' t'] Hi Hp; cbn [map] in *;
      try discriminate; [reflexivity|].
    injection Hi as Hi1 Hi. injection Hp as Hp1 Hp.
    unfold frame_id at 1 3. rewrite Hi1, Hp1. f_equal. now apply IHt.
  - injection Hp as Hp0 Hp. unfold frame_id at 1 3. rewrite Hi0, Hp0. f_equal.
    now apply IH.
Qed.

Lemma clock_logging : logging_policy clock.
Proof.
  intros m d w HF Hlen Hw. rewrite clock_unfold.
  pose proof (clock_hand_checked_range m w HF Hw) as Hw1.
  set (w1 := clock_hand_checked m w) in *. clearbody w1.
  unfold clock_after_check.
  destruct (find_if (is_requested m) (pageTable d)) eqn:Ehit.
  - unfold ret. cbn [fst snd]. apply es_hit.
    + exact (hit_page_in_table _ _ _ Ehit).
    + cbn [pageTable set_pageTable]. now apply map_frame_id_update_keep.
    + reflexivity.
  - destruct (find_if is_empty (pageTable d)) as [e|] eqn:Eemp.
    + unfold ret. cbn [fst snd]. apply (es_fill _ _ _ e).
      * exact (miss_page_not_in_table _ _ Ehit).
      * exact (empty_frame_at _ _ Eemp).
      * cbn [pageTable set_pageTable]. now apply map_frame_id_update_set.
      * reflexivity.
    + unfold bind, get_clockHand, ret. cbn [fst snd].
      destruct (clock_search_progress (Z.to_nat (numFrames m)) m (clockHand w1) 0 d w1)
        as (iters & inloop & d' & w' & pos & Hrun & _ & _ & Hev & Hw'); try assumption.
      { unfold revolution_left. rewrite Z.ltb_irrefl. lia. }
      rewrite Hrun. cbn [fst snd].
      destruct Hev as (Hp & (v & Hv & Hvi & Hvp) & Hmp & Hmi & _).
      apply (es_evict _ _ _ pos v).
      * exact (miss_page_not_in_table _ _ Ehit).
      * exact (full_table_no_empty _ Eemp).
      * rewrite (nth_error_frame_id_deref pos _ Hp). unfold frame_id.
        now rewrite Hvi, Hvp.
      * now apply frame_ids_of_index_and_page.
      * exact Hv.
Qed.

Lemma policy_list_logging (name : string) (pol : Policy) :
  In (name, pol) policy_list -> name <> "LFRU"%string -> logging_policy pol.
Proof.
  unfold policy_list. cbn [In].
  intros H Hne.
  repeat (destruct H as [H|H];
          [ injection H as <- <-;
            first [ exact optimal_logging | exact random_logging | exact fifo_logging
                  | exact lru_logging | exact clock_logging | exact nfu_logging
                  | exact aging_logging | exact mru_logging | exact nru_logging
                  | exact mfu_logging | exact lfu_logging | congruence ] | ]).
  contradiction.
Qed.

(** ** Every policy along a run *)

(** What [processPageReference] does to the frames and the victim log of
    one policy: a table-based policy that is selected makes an
    [eviction_step] and its counters follow the outcome; LFRU touches
    neither its page table nor its victim log. *)
Record log_step (mem : Members) (a a' : Algorithm) : Prop := {
  ls_table : label a <> "LFRU"%string -> selected a = true ->
             exists fault : bool,
               eviction_step (lastPageRef mem) (data a) (data a') fault /\
               hits (data a') = hits (data a) + (if fault then 0 else 1) /\
               misses (data a') = misses (data a) + (if fault then 1 else 0);
  ls_lfru : label a = "LFRU"%string ->
            pageTable (data a') = pageTable (data a) /\
            victimList (data a') = victimList (data a)
}.

Lemma listed_lfru (a : Algorithm) :
  listed a -> label a = "LFRU"%string -> algoFunc a = lfru.
Proof.
  unfold listed, policy_list. cbn [In]. intros H E. rewrite E in H.
  repeat (destruct H as [H|H]; [try discriminate H|]).
  - injection H as H. congruence.
  - contradiction.
Qed.

Lemma table_algorithm (nF : Z) (a : Algorithm) :
  listed a -> algorithm_ok nF a -> label a <> "LFRU"%string ->
  lfruData (data a) = None /\ List.length (pageTable (data a)) = Z.to_nat nF.
Proof.
  intros Hl [(_ & H1 & H2) | (Hf & _)] Hne; [split; assumption|].
  exfalso. apply lfru_not_table_policy. rewrite <- Hf.
  now apply listed_table_policy.
Qed.

Lemma lfru_algorithm (nF : Z) (a : Algorithm) :
  listed a -> algorithm_ok nF a -> label a = "LFRU"%string ->
  algoFunc a = lfru /\ resident (pageTable (data a)) = [] /\
  exists lf, lfruData (data a) = Some lf /\
             List.length (frames (privileged lf)) = Z.to_nat PRIVILEGED_PARTITION_SIZE /\
             List.length (frames (unprivileged lf)) = Z.to_nat UNPRIVILEGED_PARTITION_SIZE.
Proof.
  intros Hl Hok E. pose proof (listed_lfru a Hl E) as Hf.
  destruct Hok as [(Ht & _) | (_ & H)]; [|split; [exact Hf|exact H]].
  exfalso. apply lfru_not_table_policy. now rewrite <- Hf.
Qed.

Lemma process_one_log (mem : Members) (a : Algorithm) (w : Process) :
  1 <= numFrames mem ->
  listed a ->
  algorithm_ok (numFrames mem) a ->
  0 <= clockHand w ->
  log_step mem a (fst (process_one mem a w)).
Proof.
  intros HF Hl Hok Hw. destruct (selected a) eqn:Hsel.
  2:{ rewrite (process_one_unselected _ _ _ Hsel). cbn [fst].
      constructor; [intros _ H; congruence|auto]. }
  destruct (process_one_selected mem a w Hsel)
    as (a' & w' & E & _ & _ & _ & _ & Ht & Hv & _ & Hh & Hm).
  rewrite E. cbn [fst].
  set (w1 := snd (high_resolution_clock_now w)) in *.
  assert (Hw1 : 0 <= clockHand w1) by exact Hw.
  constructor.
  - intros Hne _. destruct (table_algorithm _ a Hl Hok Hne) as [Hnone Hlen].
    pose proof (policy_list_logging (label a) (algoFunc a) Hl Hne mem (data a) w1
                  HF Hlen Hw1) as Hstep.
    assert (Hpol : table_policy (algoFunc a)) by now apply listed_table_policy.
    destruct (Hpol mem (data a) w1 HF Hlen Hw1) as (H1 & H2 & _).
    exists (fst (fst (algoFunc a mem (data a) w1))).
    split; [|split; congruence].
    destruct Hstep as [S1 S2 S3 | pos S1 S2 S3 S4 | pos v S1 S2 S3 S4 S5].
    + apply es_hit; congruence.
    + apply (es_fill _ _ _ pos); congruence.
    + apply (es_evict _ _ _ pos v); congruence.
  - intros Elab. destruct (lfru_algorithm _ a Hl Hok Elab)
      as (Hf & _ & lf & Hsome & HP & HU).
    pose proof (lfru_contract mem (data a) lf w1 Hsome (lfru_shape_of_lengths lf HP HU))
      as (_ & _ & H3 & H4 & _).
    rewrite <- Hf in H3, H4. split; congruence.
Qed.

(** Both descriptions of one reference, for one policy. *)
Definition reference_step (mem : Members) (a a' : Algorithm) : Prop :=
  policy_step mem a a' /\ log_step mem a a'.

Lemma process_each_reference_steps (mem : Members) (algs : list Algorithm) (w : Process) :
  1 <= numFrames mem ->
  Forall listed algs ->
  Forall (algorithm_ok (numFrames mem)) algs ->
  0 <= clockHand w ->
  Forall2 (reference_step mem) algs (fst (process_each mem algs w)) /\
  0 <= clockHand (snd (process_each mem algs w)).
Proof.
  intros HF. revert w. induction algs as [|a algs IH]; intros w Hl Hok Hw.
  - split; [constructor|exact Hw].
  - inversion Hok as [|? ? Ha Hrest]; subst. inversion Hl as [|? ? Hla Hlrest]; subst.
    cbn [process_each]. unfold bind, ret. cbn [fst snd].
    destruct (process_one_step mem a w HF Ha Hw) as [Hstep Hw1].
    pose proof (process_one_log mem a w HF Hla Ha Hw) as Hlog.
    destruct (IH (snd (process_one mem a w)) Hlrest Hrest Hw1) as [Hsteps Hw2].
    split; [constructor; [split|]; assumption | exact Hw2].
Qed.

Lemma policy_step_listed (mem : Members) (a a' : Algorithm) :
  policy_step mem a a' -> listed a -> listed a'.
Proof.
  intros H Hl. unfold listed. rewrite (ps_label _ _ _ H), (ps_func _ _ _ H). exact Hl.
Qed.

(** Induction over the loop of [runSimulation], policy by policy: a
    property of one policy that every reference preserves holds for every
    policy when the loop is left, whatever the fuel. *)
Lemma runSimulation_for_each (Q : Members -> Algorithm -> Prop) :
  (forall mem a a',
      Q mem a -> listed a -> algorithm_ok (numFrames mem) a ->
      loop_condition mem = true ->
      reference_step (during mem) a a' ->
      Q (advance mem) a') ->
  forall (fuel : nat) (sim : CacheReplacementSimulator) (w : Process),
    1 <= numFrames (members sim) ->
    Forall listed (algorithms sim) ->
    Forall (algorithm_ok (numFrames (members sim))) (algorithms sim) ->
    0 <= clockHand w ->
    Forall (Q (members sim)) (algorithms sim) ->
    Forall (Q (members (fst (runSimulation_for fuel sim w))))
           (algorithms (fst (runSimulation_for fuel sim w))).
Proof.
  intros Hstep fuel sim w HF Hl Hok Hw HQ.
  pose (I := fun (mem : Members) (algs : list Algorithm) (w' : Process) =>
               1 <= numFrames mem /\ 0 <= clockHand w' /\ Forall listed algs /\
               Forall (algorithm_ok (numFrames mem)) algs /\ Forall (Q mem) algs).
  assert (HI : forall mem algs w',
             I mem algs w' -> loop_condition mem = true ->
             I (advance mem) (fst (process_each (during mem) algs w'))
               (snd (process_each (during mem) algs w'))).
  { intros mem algs w' (H1 & H2 & H3 & H4 & H5) Hloop.
    change (numFrames mem) with (numFrames (during mem)) in H1, H4.
    destruct (process_each_reference_steps (during mem) algs w' H1 H3 H4 H2)
      as [Hsteps Hw'].
    unfold I. change (numFrames (advance mem)) with (numFrames (during mem)).
    split; [exact H1|]. split; [exact Hw'|].
    assert (Hall : Forall (fun a => listed a /\ algorithm_ok (numFrames mem) a /\ Q mem a)
                          algs).
    { rewrite Forall_forall in *. intros a Ha. auto. }
    split; [|split].
    - apply (Forall2_Forall_step _ _ _ _ _
               (fun a a' (H : reference_step (during mem) a a') (Ha : listed a) =>
                  policy_step_listed _ _ _ (proj1 H) Ha) Hsteps H3).
    - apply (Forall2_Forall_step _ (fun _ => True) _ _ _
               (fun a a' (H : reference_step (during mem) a a') (_ : True) =>
                  ps_ok _ _ _ (proj1 H)) Hsteps).
      apply Forall_forall. auto.
    - apply (Forall2_Forall_step _ _ _ _ _
               (fun a a' (H : reference_step (during mem) a a')
                    (Ha : listed a /\ algorithm_ok (numFrames mem) a /\ Q mem a) =>
                  Hstep mem a a' (proj2 (proj2 Ha)) (proj1 Ha) (proj1 (proj2 Ha))
                        Hloop H) Hsteps Hall). }
  destruct (runSimulation_for_invariant_process I HI fuel sim w) as (_ & _ & _ & _ & H).
  - unfold I. auto.
  - exact H.
Qed.

(** The start of the loop after [setConfiguration], a load and
    [selectAlgorithm]: every policy is listed, well-formed and has processed
    nothing. *)
Lemma configured_policies (nframes maxCalls : Z) (dbg pr : bool) (refs : list PageRef)
      (algoCode : ascii) (sim0 : CacheReplacementSimulator) (w0 : Process) :
  let sim := runSimulation_init (configured nframes maxCalls dbg pr refs algoCode sim0 w0) in
  numFrames (members sim) = Z.max 1 nframes /\
  pageRefs (members sim) = refs /\
  counter (members sim) = 0 /\
  Forall listed (algorithms sim) /\
  Forall (algorithm_ok (numFrames (members sim))) (algorithms sim) /\
  Forall (ready_algorithm (Z.max 1 nframes)) (algorithms sim).
Proof.
  intros sim.
  destruct (configured_start nframes maxCalls dbg pr refs algoCode sim0 w0)
    as (HF & Hrefs & Hc & _ & Hready & Hlab & Hfun).
  fold sim in HF, Hrefs, Hc, Hready, Hlab, Hfun.
  split; [exact HF|]. split; [exact Hrefs|]. split; [exact Hc|].
  split; [exact (listed_of_maps _ _ Hlab Hfun)|].
  split; [rewrite HF; exact (ready_algorithms_ok _ _ Hready)|exact Hready].
Qed.

(** ** Fresh page tables *)

(** Frame [k] of a table of [n] frames, as [AlgorithmData] constructs it. *)
Definition fresh_ids (n : nat) : list (Z * Z) :=
  map (fun k => (Z.of_nat k, -1)) (seq 0 n).

Lemma emplace_frames_frame_ids (n : nat) :
  forall (i : nat) (w : Process),
    map frame_id (fst (emplace_frames n (Z.of_nat i) w))
    = map (fun k => (Z.of_nat k, -1)) (seq i n).
Proof.
  induction n as [|n IH]; intros i w; cbn [emplace_frames]; [reflexivity|].
  unfold bind, ret. cbn [fst snd map seq]. f_equal.
  replace (Z.of_nat i + 1) with (Z.of_nat (S i)) by lia. apply IH.
Qed.

Lemma allocate_data_fresh (nF : Z) (l : list (string * Policy)) :
  forall w : Process,
    Forall (fun a => map frame_id (pageTable (data a)) = fresh_ids (Z.to_nat nF))
           (fst (allocate_data nF l w)).
Proof.
  induction l as [|[name pol] l IH]; intros w; cbn [allocate_data].
  - constructor.
  - unfold bind, ret, AlgorithmData_new, bind, ret. cbn [fst snd].
    constructor; [|apply IH].
    cbn [data].
    destruct (String.eqb name "LFRU"); unfold bind, ret; cbn [fst snd pageTable set_lfruData];
      apply (emplace_frames_frame_ids (Z.to_nat nF) 0).
Qed.

Lemma same_policy_data (P : AlgorithmData -> Prop) (l l' : list Algorithm) :
  Forall2 same_policy l l' ->
  Forall (fun a => P (data a)) l -> Forall (fun a => P (data a)) l'.
Proof.
  induction 1 as [|a a' l l' (_ & _ & Hd) _ IH]; intros H; [constructor|].
  inversion H; subst. constructor; [rewrite Hd; assumption|auto].
Qed.

Lemma configured_fresh (nframes maxCalls : Z) (dbg pr : bool) (refs : list PageRef)
      (algoCode : ascii) (sim0 : CacheReplacementSimulator) (w0 : Process) :
  Forall (fun a => map frame_id (pageTable (data a))
                   = fresh_ids (Z.to_nat (Z.max 1 nframes)))
         (algorithms (runSimulation_init
                        (configured nframes maxCalls dbg pr refs algoCode sim0 w0))).
Proof.
  unfold configured, runSimulation_init. cbn [algorithms].
  destruct (selectAlgorithm_same_policies algoCode
              (set_pageRefs refs (fst (setConfiguration nframes maxCalls dbg pr sim0 w0))))
    as [_ Hs].
  apply (same_policy_data
           (fun d => map frame_id (pageTable d) = fresh_ids (Z.to_nat (Z.max 1 nframes)))
           _ _ Hs).
  cbn [set_pageRefs algorithms].
  unfold setConfiguration, initializeAlgorithms, bind, ret. cbn [fst snd algorithms numFrames].
  apply allocate_data_fresh.
Qed.

Lemma map_fst_update_snd {A B : Type} (pos : nat) (b : B) (l : list (A * B)) :
  map fst (update pos (fun x => (fst x, b)) l) = map fst l.
Proof.
  revert pos. induction l as [|x l IH]; intros [|pos]; cbn [update map fst]; auto.
  now rewrite IH.
Qed.

Lemma map_snd_update_snd {A B : Type} (pos : nat) (b : B) (l : list (A * B)) :
  map snd (update pos (fun x => (fst x, b)) l) = update pos (fun _ => b) (map snd l).
Proof.
  revert pos. induction l as [|x l IH]; intros [|pos]; cbn [update map snd]; auto.
  now rewrite IH.
Qed.

Lemma map_index_frame_id (t : list Frame) : map index t = map fst (map frame_id t).
Proof. rewrite map_map. reflexivity. Qed.

Lemma map_page_frame_id (t : list Frame) : map page t = map snd (map frame_id t).
Proof. rewrite map_map. reflexivity. Qed.

(** A step keeps the index of every frame. *)
Lemma eviction_step_indices (p : Z) (d d' : AlgorithmData) (fault : bool) :
  eviction_step p d d' fault ->
  map index (pageTable d') = map index (pageTable d).
Proof.
  intros [_ H _ | pos _ _ H _ | pos v _ _ _ H _];
    rewrite !map_index_frame_id, H; [reflexivity| |]; apply map_fst_update_snd.
Qed.

(** The pages after a step. *)
Lemma eviction_step_pages (p : Z) (d d' : AlgorithmData) (fault : bool) :
  eviction_step p d d' fault ->
  table_step p (pageTable d) (pageTable d') fault.
Proof.
  intros [H1 H2 _ | pos H1 H2 H3 _ | pos v H1 H2 H3 H4 _].
  - apply step_hit; [exact H1|]. now apply frame_id_pages.
  - apply (step_fill _ _ _ pos); [exact H1|exact H2|].
    rewrite !map_page_frame_id, H3. apply map_snd_update_snd.
  - apply (step_evict _ _ _ pos); [exact H1|exact H2| |].
    + rewrite <- (length_map frame_id). apply nth_error_Some. congruence.
    + rewrite !map_page_frame_id, H4. apply map_snd_update_snd.
Qed.

(** ** Configuration *)

(** X2.  [setConfiguration] rebuilds every policy: whatever the simulator
    held before -- selections, counters, resident pages, victims --, all
    twelve policies come out deselected, with zero counters, an empty victim
    log and a table of [max 1 frames] empty frames numbered from zero.  The
    loaded trace is kept. *)
Theorem setConfiguration_resets_policies
        (nframes maxCalls : Z) (dbg pr : bool)
        (sim : CacheReplacementSimulator) (w : Process) :
  let sim' := fst (setConfiguration nframes maxCalls dbg pr sim w) in
  pageRefs (members sim') = pageRefs (members sim) /\
  map label (algorithms sim')
  = ["OPTIMAL"; "RANDOM"; "FIFO"; "LRU"; "CLOCK"; "NFU"; "AGING"; "MRU"; "NRU";
     "MFU"; "LFU"; "LFRU"]%string /\
  Forall (fun a => selected a = false /\
                   hits (data a) = 0 /\ misses (data a) = 0 /\
                   victimList (data a) = [] /\
                   map frame_id (pageTable (data a))
                   = fresh_ids (Z.to_nat (Z.max 1 nframes)))
         (algorithms sim').
Proof.
  intros sim'.
  destruct (setConfiguration_algorithms nframes maxCalls dbg pr sim w) as (Hi & Hl & _).
  fold sim' in Hi, Hl.
  split; [reflexivity|]. split; [exact Hl|].
  assert (Hfresh : Forall (fun a => map frame_id (pageTable (data a))
                                    = fresh_ids (Z.to_nat (Z.max 1 nframes)))
                          (algorithms sim')).
  { unfold sim', setConfiguration, initializeAlgorithms, bind, ret.
    cbn [fst snd algorithms numFrames]. apply allocate_data_fresh. }
  rewrite Forall_forall in *. intros a Ha.
  destruct (Hi a Ha) as (_ & H1 & H2 & H3 & H4 & _).
  repeat split; auto.
Qed.

(** X3.  For each of the twelve policy codes, [selectAlgorithm] on a
    configured simulator selects exactly one policy, the one whose name
    [printAlgorithmInfo] writes for that code; for the code [a] it selects
    all twelve. *)
Theorem selectAlgorithm_selects_announced_policy
        (c : ascii) (nframes maxCalls : Z) (dbg pr : bool)
        (sim0 : CacheReplacementSimulator) (w : Process) :
  string_find c validCodes = true ->
  let sim := fst (selectAlgorithm c (fst (setConfiguration nframes maxCalls dbg pr sim0 w))) in
  if Ascii.eqb c "a" then
    map label (filter selected (algorithms sim)) = map fst policy_list
  else
    exists a,
      filter selected (algorithms sim) = [a] /\
      String.prefix ("Selected Algorithm: " ++ label a ++ " (") (printAlgorithmInfo c)
      = true.
Proof.
  intros Hc sim.
  destruct (setConfiguration_algorithms nframes maxCalls dbg pr sim0 w) as (_ & Hl & _).
  destruct (twelve_labelled _ Hl)
    as (a0 & a1 & a2 & a3 & a4 & a5 & a6 & a7 & a8 & a9 & a10 & a11 & E & Hlab).
  unfold sim. clear sim.
  set (s := fst (setConfiguration nframes maxCalls dbg pr sim0 w)) in *.
  assert (Hsel : forall algoCode,
             algorithms (fst (selectAlgorithm algoCode s))
             = algorithms (fst (selectAlgorithm algoCode
                                  (mkSimulator (members s)
                                     [a0; a1; a2; a3; a4; a5; a6; a7; a8; a9; a10; a11])))).
  { intros algoCode. unfold selectAlgorithm. rewrite E.
    repeat match goal with
           | |- context [if Ascii.eqb algoCode ?x then _ else _] =>
               destruct (Ascii.eqb algoCode x)
           end; reflexivity. }
  rewrite Hsel. rewrite E in Hlab. cbn [map] in Hlab.
  injection Hlab as L0 L1 L2 L3 L4 L5 L6 L7 L8 L9 L10 L11.
  apply valid_code_cases in Hc. cbn [In] in Hc.
  repeat (destruct Hc as [<-|Hc];
          [ cbn; first [ eexists; split; [reflexivity|];
                         cbn [label set_selected];
                         first [rewrite L0|rewrite L1|rewrite L2|rewrite L3|rewrite L4
                               |rewrite L5|rewrite L6|rewrite L7|rewrite L8|rewrite L9
                               |rewrite L10|rewrite L11]; reflexivity
                       | congruence ] | ]).
  contradiction.
Qed.

Lemma selectAlgorithm_selects_announced_policy_witness :
  let w := fresh_process (fun n => Z.of_nat n) (fun n => Z.of_nat n) (fun n => n)
                         (fun _ => None) in
  let sim0 := fst (CacheReplacementSimulator_new w) in
  let sim := fst (selectAlgorithm "n" (fst (setConfiguration 4 1000 false false sim0 w))) in
  exists a,
    filter selected (algorithms sim) = [a] /\
    String.prefix ("Selected Algorithm: " ++ label a ++ " (") (printAlgorithmInfo "n")
    = true.
Proof.
  intros w sim0.
  apply (selectAlgorithm_selects_announced_policy "n" 4 1000 false false sim0 w).
  reflexivity.
Defined.

(** ** Frames along a run *)

Definition numbered_frames (F : Z) (mem : Members) (a : Algorithm) : Prop :=
  map index (pageTable (data a)) = map Z.of_nat (seq 0 (Z.to_nat F)).

Lemma numbered_frames_step (F : Z) (mem : Members) (a a' : Algorithm) :
  numbered_frames F mem a -> listed a -> algorithm_ok (numFrames mem) a ->
  loop_condition mem = true ->
  reference_step (during mem) a a' ->
  numbered_frames F (advance mem) a'.
Proof.
  unfold numbered_frames. intros HQ Hl Hok _ [Hstep Hlog].
  destruct (selected a) eqn:Hsel.
  2:{ rewrite (ps_idle _ _ _ Hstep Hsel). exact HQ. }
  destruct (string_dec (label a) "LFRU") as [E|Hne].
  - destruct (ls_lfru _ _ _ Hlog E) as [Ht _]. rewrite Ht. exact HQ.
  - destruct (ls_table _ _ _ Hlog Hne Hsel) as (fault & Hev & _).
    rewrite (eviction_step_indices _ _ _ _ Hev). exact HQ.
Qed.

Lemma fresh_ids_indices (n : nat) : map fst (fresh_ids n) = map Z.of_nat (seq 0 n).
Proof. unfold fresh_ids. rewrite map_map. reflexivity. Qed.

(** X4.  Whatever the policies selected and the references processed,
    every policy's page table keeps its [max 1 frames] frames, and frame
    number [k] keeps the index [k]: no policy moves, adds or removes a
    frame. *)
Theorem frame_indices_are_positions
        (nframes maxCalls : Z) (dbg pr : bool) (refs : list PageRef) (algoCode : ascii)
        (sim0 : CacheReplacementSimulator) (w0 w : Process) (fuel : nat) :
  0 <= clockHand w ->
  let r := fst (runSimulation_for fuel
                  (runSimulation_init
                     (configured nframes maxCalls dbg pr refs algoCode sim0 w0)) w) in
  Forall (fun a => map index (pageTable (data a))
                   = map Z.of_nat (seq 0 (Z.to_nat (Z.max 1 nframes))))
         (algorithms r).
Proof.
  intros Hw r.
  destruct (configured_policies nframes maxCalls dbg pr refs algoCode sim0 w0)
    as (HF & _ & _ & Hl & Hok & _).
  apply (runSimulation_for_each (numbered_frames (Z.max 1 nframes))
           (numbered_frames_step (Z.max 1 nframes)) fuel _ w); try assumption.
  - rewrite HF. lia.
  - eapply Forall_impl; [|apply (configured_fresh nframes maxCalls dbg pr refs algoCode)].
    intros a Ha. unfold numbered_frames.
    rewrite map_index_frame_id, Ha. apply fresh_ids_indices.
Qed.

Lemma frame_indices_are_positions_witness :
  let refs := map (fun p => mkPageRef p 1) [7; 0; 1; 2; 0; 3; 0; 4] in
  let sim0 := mkSimulator (mkMembers 12 1048576 1000 false false 0 (-1) []) [] in
  let w := fresh_process (fun n => Z.of_nat n) (fun n => Z.of_nat n) (fun n => n)
                         (fun _ => None) in
  let r := fst (runSimulation_for 9
                  (runSimulation_init (configured 3 1000 false false refs "a" sim0 w))
                  w) in
  Forall (fun a => map index (pageTable (data a)) = [0; 1; 2]) (algorithms r).
Proof.
  intros refs sim0 w.
  apply (frame_indices_are_positions 3 1000 false false refs "a" sim0 w w 9%nat).
  cbn. lia.
Defined.

(** ** LFRU logs nothing *)

Definition silent_lfru (F : Z) (mem : Members) (a : Algorithm) : Prop :=
  label a = "LFRU"%string ->
  victimList (data a) = [] /\
  map frame_id (pageTable (data a)) = fresh_ids (Z.to_nat F).

Lemma silent_lfru_step (F : Z) (mem : Members) (a a' : Algorithm) :
  silent_lfru F mem a -> listed a -> algorithm_ok (numFrames mem) a ->
  loop_condition mem = true ->
  reference_step (during mem) a a' ->
  silent_lfru F (advance mem) a'.
Proof.
  unfold silent_lfru. intros HQ _ _ _ [Hstep Hlog] E.
  rewrite (ps_label _ _ _ Hstep) in E.
  destruct (ls_lfru _ _ _ Hlog E) as [Ht Hv]. rewrite Ht, Hv. auto.
Qed.

(** X5.  LFRU never writes to its page table nor to its victim log: after
    any run the victim log of LFRU is empty, although LFRU does evict pages,
    and its page table still holds the empty frames of the configuration
    (its pages live in the two partitions). *)
Theorem lfru_logs_nothing
        (nframes maxCalls : Z) (dbg pr : bool) (refs : list PageRef) (algoCode : ascii)
        (sim0 : CacheReplacementSimulator) (w0 w : Process) (fuel : nat) :
  0 <= clockHand w ->
  let r := fst (runSimulation_for fuel
                  (runSimulation_init
                     (configured nframes maxCalls dbg pr refs algoCode sim0 w0)) w) in
  Forall (fun a => label a = "LFRU"%string ->
                   victimList (data a) = [] /\
                   map frame_id (pageTable (data a))
                   = fresh_ids (Z.to_nat (Z.max 1 nframes)))
         (algorithms r).
Proof.
  intros Hw r.
  destruct (configured_policies nframes maxCalls dbg pr refs algoCode sim0 w0)
    as (HF & _ & _ & Hl & Hok & Hready).
  apply (runSimulation_for_each (silent_lfru (Z.max 1 nframes))
           (silent_lfru_step (Z.max 1 nframes)) fuel _ w); try assumption.
  - rewrite HF. lia.
  - pose proof (configured_fresh nframes maxCalls dbg pr refs algoCode sim0 w0) as Hfresh.
    rewrite Forall_forall in *. intros a Ha _.
    destruct (Hready a Ha) as (_ & _ & _ & Hv & _). split; [exact Hv|auto].
Qed.

Lemma lfru_logs_nothing_witness :
  let refs := map (fun p => mkPageRef p 1)
                  [0; 1; 2; 3; 4; 5; 6; 7; 8; 9; 10; 11; 12; 0; 1] in
  let sim0 := mkSimulator (mkMembers 12 1048576 1000 false false 0 (-1) []) [] in
  let w := fresh_process (fun n => Z.of_nat n) (fun n => Z.of_nat n) (fun n => n)
                         (fun _ => None) in
  let r := fst (runSimulation_for 16
                  (runSimulation_init (configured 2 1000 false false refs "f" sim0 w))
                  w) in
  Forall (fun a => label a = "LFRU"%string ->
                   victimList (data a) = [] /\
                   map frame_id (pageTable (data a)) = fresh_ids (Z.to_nat (Z.max 1 2)))
         (algorithms r).
Proof.
  intros refs sim0 w.
  apply (lfru_logs_nothing 2 1000 false false refs "f" sim0 w w 16%nat).
  cbn. lia.
Defined.

(** ** Misses, fills and evictions *)

Lemma eviction_step_fill_grows (p : Z) (t t' : list Frame) (pos : nat) :
  p <> -1 ->
  nth_error (map page t) pos = Some (-1) ->
  map frame_id t' = update pos (fun x => (fst x, p)) (map frame_id t) ->
  List.length (resident t') = S (List.length (resident t)).
Proof.
  intros Hp Hpos Hupd.
  assert (Hpages : map page t' = update pos (fun _ => p) (map page t)).
  { rewrite !map_page_frame_id, Hupd. apply map_snd_update_snd. }
  destruct (resident_after_update t t' pos (-1) p Hpos Hpages) as (R & H1 & H2).
  rewrite opt_page_empty in H1. rewrite (opt_page_occupied p Hp) in H2.
  rewrite (Permutation_length H1), (Permutation_length H2). reflexivity.
Qed.

Lemma eviction_step_evict_keeps (p x : Z) (t t' : list Frame) (pos : nat) :
  p <> -1 -> x <> -1 ->
  nth_error (map page t) pos = Some x ->
  map frame_id t' = update pos (fun x => (fst x, p)) (map frame_id t) ->
  List.length (resident t') = List.length (resident t).
Proof.
  intros Hp Hx Hpos Hupd.
  assert (Hpages : map page t' = update pos (fun _ => p) (map page t)).
  { rewrite !map_page_frame_id, Hupd. apply map_snd_update_snd. }
  destruct (resident_after_update t t' pos x p Hpos Hpages) as (R & H1 & H2).
  rewrite (opt_page_occupied x Hx) in H1. rewrite (opt_page_occupied p Hp) in H2.
  rewrite (Permutation_length H1), (Permutation_length H2). reflexivity.
Qed.

Lemma victim_page_at (t : list Frame) (pos : nat) (v : Frame) :
  nth_error (map frame_id t) pos = Some (frame_id v) ->
  nth_error (map page t) pos = Some (page v).
Proof.
  intros H. rewrite map_page_frame_id, nth_error_map, H. reflexivity.
Qed.

Section Accounting.

Variable refs : list PageRef.
Hypothesis pages_valid : Forall (fun r => pageNum r <> -1) refs.
Hypothesis bounded : Z.of_nat (List.length refs) <= INT_MAX.

(** The members follow the trace [refs]. *)
Definition follows (mem : Members) : Prop :=
  pageRefs mem = refs /\ 0 <= counter mem.

Lemma follows_advance (mem : Members) : follows mem -> follows (advance mem).
Proof.
  intros [H1 H2]. split; [exact H1|].
  change (counter (advance mem)) with (counter mem + 1). lia.
Qed.

Definition accounted (mem : Members) (a : Algorithm) : Prop :=
  follows mem /\
  (label a <> "LFRU"%string -> selected a = true ->
   misses (data a)
   = Z.of_nat (List.length (victimList (data a)))
     + Z.of_nat (List.length (resident (pageTable (data a)))) /\
   Forall (fun v => page v <> -1) (victimList (data a))).

Lemma accounted_step (mem : Members) (a a' : Algorithm) :
  accounted mem a -> listed a -> algorithm_ok (numFrames mem) a ->
  loop_condition mem = true ->
  reference_step (during mem) a a' ->
  accounted (advance mem) a'.
Proof.
  intros [Hfol HQ] _ _ Hloop [Hstep Hlog]. split; [now apply follows_advance|].
  intros Hne Hsel.
  rewrite (ps_label _ _ _ Hstep) in Hne. rewrite (ps_selected _ _ _ Hstep) in Hsel.
  destruct (HQ Hne Hsel) as [Hm Hv].
  destruct (loop_position refs pages_valid bounded mem (proj1 Hfol) (proj2 Hfol) Hloop)
    as [_ Hp].
  destruct (ls_table _ _ _ Hlog Hne Hsel) as (fault & Hev & _ & Hm').
  change (lastPageRef (during mem)) with (current_page mem) in Hev.
  destruct Hev as [H1 H2 H3 | pos H1 H2 H3 H4 | pos v H1 H2 H3 H4 H5].
  - rewrite Hm', H3, (same_pages_same_resident _ _ (frame_id_pages _ _ H2)).
    split; [lia|exact Hv].
  - rewrite Hm', H4, (eviction_step_fill_grows _ _ _ _ Hp H2 H3).
    split; [lia|exact Hv].
  - pose proof (victim_page_at _ _ _ H3) as Hx.
    assert (Hxne : page v <> -1).
    { intros E. apply H2. rewrite <- E. eapply nth_error_In; eassumption. }
    rewrite Hm', H5, (eviction_step_evict_keeps _ _ _ _ _ Hp Hxne Hx H4).
    rewrite length_app. cbn [List.length]. split; [lia|].
    apply Forall_app. split; [exact Hv|]. constructor; [exact Hxne|constructor].
Qed.

Lemma ready_resident_empty (nF : Z) (a : Algorithm) :
  ready_algorithm nF a -> resident (pageTable (data a)) = [].
Proof.
  intros (_ & _ & _ & _ & Hc). unfold contents in Hc.
  apply app_eq_nil in Hc. apply Hc.
Qed.

End Accounting.

(** X6.  For every table-based policy that is selected, and after any
    number of references of a trace without the EMPTY page number: every
    miss either filled an empty frame or evicted a page, so the misses are
    the logged victims plus the resident pages; and every logged victim held
    a page. *)
Theorem misses_are_fills_and_evictions
        (nframes maxCalls : Z) (dbg pr : bool) (refs : list PageRef) (algoCode : ascii)
        (sim0 : CacheReplacementSimulator) (w0 w : Process) (fuel : nat) :
  Forall (fun r => pageNum r <> -1) refs ->
  Z.of_nat (List.length refs) <= INT_MAX ->
  0 <= clockHand w ->
  let r := fst (runSimulation_for fuel
                  (runSimulation_init
                     (configured nframes maxCalls dbg pr refs algoCode sim0 w0)) w) in
  Forall (fun a => label a <> "LFRU"%string -> selected a = true ->
                   misses (data a)
                   = Z.of_nat (List.length (victimList (data a)))
                     + Z.of_nat (List.length (resident (pageTable (data a)))) /\
                   Forall (fun v => page v <> -1) (victimList (data a)))
         (algorithms r).
Proof.
  intros Hpages Hbound Hw r.
  destruct (configured_policies nframes maxCalls dbg pr refs algoCode sim0 w0)
    as (HF & Hrefs & Hc & Hl & Hok & Hready).
  eapply Forall_impl;
    [|apply (runSimulation_for_each (accounted refs)
               (accounted_step refs Hpages Hbound) fuel _ w); try assumption].
  - intros a [_ Ha]. exact Ha.
  - rewrite HF. lia.
  - rewrite Forall_forall in *. intros a Ha. split; [split; [exact Hrefs|lia]|].
    intros _ _. rewrite (ready_resident_empty _ a (Hready a Ha)).
    destruct (Hready a Ha) as (_ & _ & Hm & Hv & _). rewrite Hm, Hv.
    split; [reflexivity|constructor].
Qed.

Lemma misses_are_fills_and_evictions_witness :
  let refs := map (fun p => mkPageRef p 1) [7; 0; 1; 2; 0; 3; 0; 4] in
  let sim0 := mkSimulator (mkMembers 12 1048576 1000 false false 0 (-1) []) [] in
  let w := fresh_process (fun n => Z.of_nat n) (fun n => Z.of_nat n) (fun n => n)
                         (fun _ => None) in
  let r := fst (runSimulation_for 9
                  (runSimulation_init (configured 3 1000 false false refs "a" sim0 w))
                  w) in
  Forall (fun a => label a <> "LFRU"%string -> selected a = true ->
                   misses (data a)
                   = Z.of_nat (List.length (victimList (data a)))
                     + Z.of_nat (List.length (resident (pageTable (data a)))) /\
                   Forall (fun v => page v <> -1) (victimList (data a)))
         (algorithms r).
Proof.
  intros refs sim0 w.
  apply (misses_are_fills_and_evictions 3 1000 false false refs "a" sim0 w w 9%nat).
  - unfold refs. repeat (apply Forall_cons; [cbn; lia|]). apply Forall_nil.
  - unfold INT_MAX. cbn. lia.
  - cbn. lia.
Defined.

(** ** Distinct pages *)

(** The number of distinct page numbers of a list. *)
Definition distinct (l : list Z) : nat := List.length (nodup Z.eq_dec l).

Lemma distinct_snoc_old (p : Z) (l : list Z) :
  In p l -> distinct (l ++ [p]) = distinct l.
Proof.
  intros H. unfold distinct. apply Permutation_length.
  apply NoDup_Permutation; try apply NoDup_nodup.
  intros x. rewrite !nodup_In, in_app_iff. cbn [In]. intuition congruence.
Qed.

Lemma distinct_snoc_new (p : Z) (l : list Z) :
  ~ In p l -> distinct (l ++ [p]) = S (distinct l).
Proof.
  intros H. unfold distinct.
  change (S (List.length (nodup Z.eq_dec l)))
    with (List.length (p :: nodup Z.eq_dec l)).
  apply Permutation_length.
  apply NoDup_Permutation; [apply NoDup_nodup| |].
  - constructor; [rewrite nodup_In; exact H|apply NoDup_nodup].
  - intros x. cbn [In]. rewrite !nodup_In, in_app_iff. cbn [In]. intuition congruence.
Qed.

Lemma firstn_succ_nth {A : Type} (d : A) (l : list A) :
  forall n, (n < List.length l)%nat -> firstn (S n) l = firstn n l ++ [nth n l d].
Proof.
  induction l as [|x l IH]; intros [|n] H; cbn [List.length] in H; try lia.
  - reflexivity.
  - cbn [firstn nth app]. f_equal. apply IH. lia.
Qed.

Lemma In_firstn {A : Type} (x : A) (l : list A) :
  forall n, In x (firstn n l) -> In x l.
Proof.
  induction l as [|y l IH]; intros [|n] H; cbn [firstn In] in *; try contradiction.
  destruct H as [H|H]; [now left|right; eapply IH; eassumption].
Qed.

Section Processed.

Variable refs : list PageRef.
Hypothesis pages_valid : Forall (fun r => pageNum r <> -1) refs.
Hypothesis bounded : Z.of_nat (List.length refs) <= INT_MAX.

(** The pages of the references processed so far. *)
Definition seen (mem : Members) : list Z :=
  map pageNum (firstn (Z.to_nat (counter mem)) refs).

Lemma seen_advance (mem : Members) :
  follows refs mem -> loop_condition mem = true ->
  seen (advance mem) = seen mem ++ [current_page mem].
Proof.
  intros [Hrefs Hc] Hloop.
  destruct (loop_position refs pages_valid bounded mem Hrefs Hc Hloop) as [Hpos _].
  unfold seen, current_page. change (counter (advance mem)) with (counter mem + 1).
  replace (Z.to_nat (counter mem + 1)) with (S (Z.to_nat (counter mem))) by lia.
  rewrite (firstn_succ_nth (mkPageRef (-1) (-1))) by lia.
  rewrite map_app, Hrefs. reflexivity.
Qed.

Lemma seen_in_trace (mem : Members) (q : Z) :
  In q (seen mem) -> In q (map pageNum refs).
Proof.
  unfold seen. intros H. apply in_map_iff in H. destruct H as (r & <- & Hr).
  apply in_map. eapply In_firstn. eassumption.
Qed.

(** *** Compulsory misses *)

Definition compulsory (mem : Members) (a : Algorithm) : Prop :=
  follows refs mem /\
  (selected a = true ->
   (forall q, In q (contents (data a)) -> In q (seen mem)) /\
   Z.of_nat (distinct (seen mem)) <= misses (data a)).

Lemma compulsory_step (mem : Members) (a a' : Algorithm) :
  compulsory mem a -> listed a -> algorithm_ok (numFrames mem) a ->
  loop_condition mem = true ->
  reference_step (during mem) a a' ->
  compulsory (advance mem) a'.
Proof.
  intros [Hfol HQ] _ _ Hloop [Hstep _]. split; [now apply follows_advance|].
  intros Hsel. rewrite (ps_selected _ _ _ Hstep) in Hsel.
  destruct (HQ Hsel) as [Hsub Hm].
  destruct (loop_position refs pages_valid bounded mem (proj1 Hfol) (proj2 Hfol) Hloop)
    as [_ Hp].
  destruct (ps_run _ _ _ Hstep Hsel) as (fault & Hres & _ & Hm').
  change (lastPageRef (during mem)) with (current_page mem) in Hres.
  rewrite (seen_advance mem Hfol Hloop), Hm'.
  set (p := current_page mem) in *.
  assert (Hin' : forall q, In q (contents (data a')) -> In q (seen mem ++ [p])).
  { intros q Hq. rewrite in_app_iff. cbn [In].
    destruct Hres as [_ Hperm | _ Hperm | x R _ HA HA'].
    - left. apply Hsub. now rewrite <- Hperm.
    - rewrite (opt_page_occupied p Hp) in Hperm. rewrite Hperm in Hq.
      destruct Hq as [<-|Hq]; auto.
    - rewrite (opt_page_occupied p Hp) in HA'. rewrite HA' in Hq.
      destruct Hq as [<-|Hq]; auto. left. apply Hsub. rewrite HA. now right. }
  split; [exact Hin'|].
  destruct (in_dec Z.eq_dec p (seen mem)) as [Hold|Hnew].
  - rewrite (distinct_snoc_old p _ Hold). destruct fault; lia.
  - rewrite (distinct_snoc_new p _ Hnew).
    destruct Hres as [Hhit _ | _ _ | x R _ _ _]; try lia.
    exfalso. apply Hnew, Hsub, Hhit, Hp.
Qed.

(** *** A trace whose pages all fit *)

Variable F : Z.
Hypothesis pages_fit : (distinct (map pageNum refs) <= Z.to_nat F)%nat.

Definition settled (mem : Members) (a : Algorithm) : Prop :=
  follows refs mem /\ numFrames mem = F /\
  (label a <> "LFRU"%string -> selected a = true ->
   NoDup (resident (pageTable (data a))) /\
   (forall q, In q (resident (pageTable (data a))) <-> In q (seen mem)) /\
   victimList (data a) = [] /\
   misses (data a) = Z.of_nat (List.length (resident (pageTable (data a))))).

Lemma settled_step (mem : Members) (a a' : Algorithm) :
  settled mem a -> listed a -> algorithm_ok (numFrames mem) a ->
  loop_condition mem = true ->
  reference_step (during mem) a a' ->
  settled (advance mem) a'.
Proof.
  intros (Hfol & HF & HQ) Hl Hok Hloop [Hstep Hlog].
  split; [now apply follows_advance|]. split; [exact HF|].
  intros Hne Hsel.
  rewrite (ps_label _ _ _ Hstep) in Hne. rewrite (ps_selected _ _ _ Hstep) in Hsel.
  destruct (HQ Hne Hsel) as (Hnd & Hiff & Hv & Hm).
  destruct (loop_position refs pages_valid bounded mem (proj1 Hfol) (proj2 Hfol) Hloop)
    as [Hpos Hp].
  destruct (table_algorithm _ a Hl Hok Hne) as [_ Hlen].
  destruct (ls_table _ _ _ Hlog Hne Hsel) as (fault & Hev & _ & Hm').
  change (lastPageRef (during mem)) with (current_page mem) in Hev.
  rewrite (seen_advance mem Hfol Hloop), Hm'.
  set (p := current_page mem) in *.
  destruct Hev as [H1 H2 H3 | pos H1 H2 H3 H4 | pos v H1 H2 H3 H4 H5].
  - rewrite (same_pages_same_resident _ _ (frame_id_pages _ _ H2)), H3.
    split; [exact Hnd|]. split; [|split; [exact Hv|lia]].
    intros q. rewrite in_app_iff, <- Hiff. cbn [In].
    assert (In p (resident (pageTable (data a)))) by (apply In_resident; auto).
    intuition congruence.
  - assert (Hpages : map page (pageTable (data a'))
                     = update pos (fun _ => p) (map page (pageTable (data a)))).
    { rewrite !map_page_frame_id, H3. apply map_snd_update_snd. }
    destruct (resident_after_update _ _ pos (-1) p H2 Hpages) as (R & P1 & P2).
    rewrite opt_page_empty in P1. rewrite (opt_page_occupied p Hp) in P2.
    cbn [app] in P1, P2.
    assert (Hnot : ~ In p (resident (pageTable (data a)))).
    { intros H. apply In_resident in H. tauto. }
    assert (P3 : Permutation (resident (pageTable (data a')))
                             (p :: resident (pageTable (data a)))).
    { rewrite P2, P1. reflexivity. }
    split.
    { apply (Permutation_NoDup (Permutation_sym P3)). constructor; assumption. }
    split.
    { intros q. rewrite in_app_iff, <- Hiff. cbn [In]. split.
      - intros Hq. apply (Permutation_in _ P3) in Hq. destruct Hq; auto.
      - intros Hq. apply (Permutation_in _ (Permutation_sym P3)).
        destruct Hq as [Hq|[Hq|[]]]; [now right|now left]. }
    split; [congruence|].
    rewrite (Permutation_length P3). cbn [List.length]. lia.
  - exfalso.
    assert (Hnot : ~ In p (resident (pageTable (data a)))).
    { intros H. apply In_resident in H. tauto. }
    assert (Hfull : List.length (resident (pageTable (data a))) = Z.to_nat F).
    { rewrite (resident_full _ H2), length_map, Hlen, HF. reflexivity. }
    assert (Hincl : incl (p :: resident (pageTable (data a)))
                         (nodup Z.eq_dec (map pageNum refs))).
    { intros q [<-|Hq]; apply nodup_In.
      - unfold p, current_page. rewrite (proj1 Hfol). apply in_map. apply nth_In. lia.
      - apply (seen_in_trace mem). now apply Hiff. }
    assert (Hnd' : NoDup (p :: resident (pageTable (data a)))) by (constructor; assumption).
    pose proof (NoDup_incl_length Hnd' Hincl) as Hle.
    cbn [List.length] in Hle. unfold distinct in pages_fit. lia.
Qed.

End Processed.

(** X7.  Along a run over a trace without the EMPTY page number (-1),
    whatever the policy -- LFRU included -- and the frame count, a selected
    policy has missed at least once for every distinct page among the
    references processed: the first reference to a page is always a miss.
    (A reference to -1 is a hit on an empty frame.) *)
Theorem misses_at_least_distinct_pages
        (nframes maxCalls : Z) (dbg pr : bool) (refs : list PageRef) (algoCode : ascii)
        (sim0 : CacheReplacementSimulator) (w0 w : Process) (fuel : nat) :
  Forall (fun r => pageNum r <> -1) refs ->
  Z.of_nat (List.length refs) <= INT_MAX ->
  0 <= clockHand w ->
  let r := fst (runSimulation_for fuel
                  (runSimulation_init
                     (configured nframes maxCalls dbg pr refs algoCode sim0 w0)) w) in
  Forall (fun a => selected a = true ->
                   Z.of_nat (distinct (map pageNum
                                         (firstn (Z.to_nat (counter (members r))) refs)))
                   <= misses (data a))
         (algorithms r).
Proof.
  intros Hpages Hbound Hw r.
  destruct (configured_policies nframes maxCalls dbg pr refs algoCode sim0 w0)
    as (HF & Hrefs & Hc & Hl & Hok & Hready).
  eapply Forall_impl;
    [|apply (runSimulation_for_each (compulsory refs)
               (compulsory_step refs Hpages Hbound) fuel _ w); try assumption].
  - intros a [_ Ha] Hsel. apply (Ha Hsel).
  - rewrite HF. lia.
  - rewrite Forall_forall in *. intros a Ha. split; [split; [exact Hrefs|lia]|].
    intros _. destruct (Hready a Ha) as (_ & _ & Hm & _ & Hcont).
    unfold seen. rewrite Hc, Hcont, Hm. cbn. split; [intros q []|lia].
Qed.

Lemma misses_at_least_distinct_pages_witness :
  let refs := map (fun p => mkPageRef p 1) [7; 0; 1; 2; 0; 3; 0; 4] in
  let sim0 := mkSimulator (mkMembers 12 1048576 1000 false false 0 (-1) []) [] in
  let w := fresh_process (fun n => Z.of_nat n) (fun n => Z.of_nat n) (fun n => n)
                         (fun _ => None) in
  let r := fst (runSimulation_for 9
                  (runSimulation_init (configured 3 1000 false false refs "a" sim0 w))
                  w) in
  Forall (fun a => selected a = true ->
                   Z.of_nat (distinct (map pageNum
                                         (firstn (Z.to_nat (counter (members r))) refs)))
                   <= misses (data a))
         (algorithms r).
Proof.
  intros refs sim0 w.
  apply (misses_at_least_distinct_pages 3 1000 false false refs "a" sim0 w w 9%nat).
  - unfold refs. repeat (apply Forall_cons; [cbn; lia|]). apply Forall_nil.
  - unfold INT_MAX. cbn. lia.
  - cbn. lia.
Defined.

(** X8.  When a trace without the EMPTY page number (-1) has no more
    distinct pages than there are frames, no table-based policy ever
    evicts: its victim log stays empty and its misses are exactly the
    distinct pages among the references processed, the same for every such
    policy. *)
Theorem no_eviction_when_pages_fit
        (nframes maxCalls : Z) (dbg pr : bool) (refs : list PageRef) (algoCode : ascii)
        (sim0 : CacheReplacementSimulator) (w0 w : Process) (fuel : nat) :
  Forall (fun r => pageNum r <> -1) refs ->
  Z.of_nat (List.length refs) <= INT_MAX ->
  (distinct (map pageNum refs) <= Z.to_nat (Z.max 1 nframes))%nat ->
  0 <= clockHand w ->
  let r := fst (runSimulation_for fuel
                  (runSimulation_init
                     (configured nframes maxCalls dbg pr refs algoCode sim0 w0)) w) in
  Forall (fun a => label a <> "LFRU"%string -> selected a = true ->
                   victimList (data a) = [] /\
                   misses (data a)
                   = Z.of_nat (distinct (map pageNum
                                           (firstn (Z.to_nat (counter (members r))) refs))))
         (algorithms r).
Proof.
  intros Hpages Hbound Hfit Hw r.
  destruct (configured_policies nframes maxCalls dbg pr refs algoCode sim0 w0)
    as (HF & Hrefs & Hc & Hl & Hok & Hready).
  eapply Forall_impl;
    [|apply (runSimulation_for_each (settled refs (Z.max 1 nframes))
               (settled_step refs Hpages Hbound (Z.max 1 nframes) Hfit) fuel _ w);
      try assumption].
  - intros a (_ & _ & Ha) Hne Hsel. destruct (Ha Hne Hsel) as (Hnd & Hiff & Hv & Hm).
    split; [exact Hv|]. rewrite Hm. f_equal. unfold distinct.
    apply Permutation_length. apply NoDup_Permutation; [exact Hnd|apply NoDup_nodup|].
    intros q. rewrite nodup_In. apply Hiff.
  - rewrite HF. lia.
  - rewrite Forall_forall in *. intros a Ha.
    split; [split; [exact Hrefs|lia]|]. split; [exact HF|].
    intros _ _. rewrite (ready_resident_empty _ a (Hready a Ha)).
    destruct (Hready a Ha) as (_ & _ & Hm & Hv & _).
    unfold seen. rewrite Hc, Hm, Hv. cbn.
    split; [constructor|]. split; [tauto|]. split; reflexivity.
Qed.

Lemma no_eviction_when_pages_fit_witness :
  let refs := map (fun p => mkPageRef p 1) [7; 0; 1; 7; 0; 1; 1; 7] in
  let sim0 := mkSimulator (mkMembers 12 1048576 1000 false false 0 (-1) []) [] in
  let w := fresh_process (fun n => Z.of_nat n) (fun n => Z.of_nat n) (fun n => n)
                         (fun _ => None) in
  let r := fst (runSimulation_for 9
                  (runSimulation_init (configured 3 1000 false false refs "a" sim0 w))
                  w) in
  Forall (fun a => label a <> "LFRU"%string -> selected a = true ->
                   victimList (data a) = [] /\
                   misses (data a)
                   = Z.of_nat (distinct (map pageNum
                                           (firstn (Z.to_nat (counter (members r))) refs))))
         (algorithms r).
Proof.
  intros refs sim0 w.
  apply (no_eviction_when_pages_fit 3 1000 false false refs "a" sim0 w w 9%nat).
  - unfold refs. repeat (apply Forall_cons; [cbn; lia|]). apply Forall_nil.
  - unfold INT_MAX. cbn. lia.
  - vm_compute. lia.
  - cbn. lia.
Defined.

(** ** Demand paging and capacity *)

Section Demand.

Variable refs : list PageRef.
Hypothesis pages_valid : Forall (fun r => pageNum r <> -1) refs.
Hypothesis bounded : Z.of_nat (List.length refs) <= INT_MAX.

Definition holds_last (mem : Members) (a : Algorithm) : Prop :=
  follows refs mem /\
  (selected a = true -> 0 < counter mem ->
   In (lastPageRef mem) (contents (data a))).

Lemma holds_last_step (mem : Members) (a a' : Algorithm) :
  holds_last mem a -> listed a -> algorithm_ok (numFrames mem) a ->
  loop_condition mem = true ->
  reference_step (during mem) a a' ->
  holds_last (advance mem) a'.
Proof.
  intros [Hfol _] _ _ Hloop [Hstep _]. split; [now apply follows_advance|].
  intros Hsel _. rewrite (ps_selected _ _ _ Hstep) in Hsel.
  destruct (loop_position refs pages_valid bounded mem (proj1 Hfol) (proj2 Hfol) Hloop)
    as [_ Hp].
  destruct (ps_run _ _ _ Hstep Hsel) as (fault & Hres & _).
  change (lastPageRef (advance mem)) with (current_page mem).
  change (lastPageRef (during mem)) with (current_page mem) in Hres.
  destruct Hres as [Hin Hperm | _ Hperm | x R _ _ Hperm].
  - apply (Permutation_in _ (Permutation_sym Hperm)). auto.
  - apply (Permutation_in _ (Permutation_sym Hperm)).
    rewrite (opt_page_occupied _ Hp). now left.
  - apply (Permutation_in _ (Permutation_sym Hperm)).
    rewrite (opt_page_occupied _ Hp). now left.
Qed.

End Demand.

(** X9.  Every policy loads on demand and never bypasses: after each
    reference of a trace without the EMPTY page number, every selected
    policy -- LFRU in its partitions -- holds the page just referenced. *)
Theorem referenced_page_is_resident
        (nframes maxCalls : Z) (dbg pr : bool) (refs : list PageRef) (algoCode : ascii)
        (sim0 : CacheReplacementSimulator) (w0 w : Process) (fuel : nat) :
  Forall (fun r => pageNum r <> -1) refs ->
  Z.of_nat (List.length refs) <= INT_MAX ->
  0 <= clockHand w ->
  let r := fst (runSimulation_for fuel
                  (runSimulation_init
                     (configured nframes maxCalls dbg pr refs algoCode sim0 w0)) w) in
  Forall (fun a => selected a = true -> 0 < counter (members r) ->
                   In (lastPageRef (members r)) (contents (data a)))
         (algorithms r).
Proof.
  intros Hpages Hbound Hw r.
  destruct (configured_policies nframes maxCalls dbg pr refs algoCode sim0 w0)
    as (HF & Hrefs & Hc & Hl & Hok & Hready).
  eapply Forall_impl;
    [|apply (runSimulation_for_each (holds_last refs)
               (holds_last_step refs Hpages Hbound) fuel _ w); try assumption].
  - intros a [_ Ha]. exact Ha.
  - rewrite HF. lia.
  - rewrite Forall_forall in *. intros a Ha. split; [split; [exact Hrefs|lia]|].
    intros _ H. lia.
Qed.

Lemma referenced_page_is_resident_witness :
  let refs := map (fun p => mkPageRef p 1) [7; 0; 1; 2; 0; 3; 0; 4] in
  let sim0 := mkSimulator (mkMembers 12 1048576 1000 false false 0 (-1) []) [] in
  let w := fresh_process (fun n => Z.of_nat n) (fun n => Z.of_nat n) (fun n => n)
                         (fun _ => None) in
  let r := fst (runSimulation_for 5
                  (runSimulation_init (configured 3 1000 false false refs "a" sim0 w))
                  w) in
  Forall (fun a => selected a = true -> 0 < counter (members r) ->
                   In (lastPageRef (members r)) (contents (data a)))
         (algorithms r).
Proof.
  intros refs sim0 w.
  apply (referenced_page_is_resident 3 1000 false false refs "a" sim0 w w 5%nat).
  - unfold refs. repeat (apply Forall_cons; [cbn; lia|]). apply Forall_nil.
  - unfold INT_MAX. cbn. lia.
  - cbn. lia.
Defined.

Definition well_formed_policy (mem : Members) (a : Algorithm) : Prop :=
  listed a /\ algorithm_ok (numFrames mem) a.

Lemma well_formed_policy_step (mem : Members) (a a' : Algorithm) :
  well_formed_policy mem a -> listed a -> algorithm_ok (numFrames mem) a ->
  loop_condition mem = true ->
  reference_step (during mem) a a' ->
  well_formed_policy (advance mem) a'.
Proof.
  intros _ Hl _ _ [Hstep _]. split.
  - exact (policy_step_listed _ _ _ Hstep Hl).
  - exact (ps_ok _ _ _ Hstep).
Qed.

Lemma runSimulation_for_numFrames (fuel : nat) (sim : CacheReplacementSimulator)
      (w : Process) :
  numFrames (members (fst (runSimulation_for fuel sim w))) = numFrames (members sim) /\
  maxPageCalls (members (fst (runSimulation_for fuel sim w))) = maxPageCalls (members sim) /\
  pageRefs (members (fst (runSimulation_for fuel sim w))) = pageRefs (members sim).
Proof.
  apply (runSimulation_for_invariant_process
           (fun mem _ _ => numFrames mem = numFrames (members sim) /\
                           maxPageCalls mem = maxPageCalls (members sim) /\
                           pageRefs mem = pageRefs (members sim))).
  - intros mem algs w' H _. exact H.
  - auto.
Qed.

(** X10.  No policy ever holds more pages than it has frames: a
    table-based policy at most the configured [max 1 frames], LFRU at most
    the sum of its two partition sizes, whatever the configured frame count
    is. *)
Theorem resident_pages_within_capacity
        (nframes maxCalls : Z) (dbg pr : bool) (refs : list PageRef) (algoCode : ascii)
        (sim0 : CacheReplacementSimulator) (w0 w : Process) (fuel : nat) :
  0 <= clockHand w ->
  let r := fst (runSimulation_for fuel
                  (runSimulation_init
                     (configured nframes maxCalls dbg pr refs algoCode sim0 w0)) w) in
  Forall (fun a =>
            (List.length (contents (data a))
             <= if String.eqb (label a) "LFRU"
                then Z.to_nat (PRIVILEGED_PARTITION_SIZE + UNPRIVILEGED_PARTITION_SIZE)
                else Z.to_nat (Z.max 1 nframes))%nat)
         (algorithms r).
Proof.
  intros Hw r.
  destruct (configured_policies nframes maxCalls dbg pr refs algoCode sim0 w0)
    as (HF & _ & _ & Hl & Hok & _).
  pose proof (runSimulation_for_numFrames fuel
                (runSimulation_init
                   (configured nframes maxCalls dbg pr refs algoCode sim0 w0)) w)
    as (HF' & _).
  fold r in HF'. rewrite HF in HF'.
  eapply Forall_impl;
    [|apply (runSimulation_for_each well_formed_policy well_formed_policy_step fuel _ w);
      try assumption].
  - intros a [Hla Hoka]. fold r in Hoka. rewrite HF' in Hoka.
    destruct (String.eqb_spec (label a) "LFRU") as [E|Hne].
    + destruct (lfru_algorithm _ a Hla Hoka E) as (_ & Hres & lf & Hsome & HP & HU).
      unfold contents. rewrite Hres, Hsome. cbn [app].
      pose proof (resident_length (frames (privileged lf) ++ frames (unprivileged lf)))
        as H.
      rewrite length_app, HP, HU in H.
      unfold PRIVILEGED_PARTITION_SIZE, UNPRIVILEGED_PARTITION_SIZE in *. lia.
    + apply contents_fit; [exact Hla|exact Hoka|left; exact Hne].
  - rewrite HF. lia.
  - rewrite Forall_forall in *. intros a Ha. split; auto.
Qed.

Lemma resident_pages_within_capacity_witness :
  let refs := map (fun p => mkPageRef p 1) [7; 0; 1; 2; 0; 3; 0; 4] in
  let sim0 := mkSimulator (mkMembers 12 1048576 1000 false false 0 (-1) []) [] in
  let w := fresh_process (fun n => Z.of_nat n) (fun n => Z.of_nat n) (fun n => n)
                         (fun _ => None) in
  let r := fst (runSimulation_for 9
                  (runSimulation_init (configured 3 1000 false false refs "a" sim0 w))
                  w) in
  Forall (fun a =>
            (List.length (contents (data a))
             <= if String.eqb (label a) "LFRU"
                then Z.to_nat (PRIVILEGED_PARTITION_SIZE + UNPRIVILEGED_PARTITION_SIZE)
                else Z.to_nat (Z.max 1 3))%nat)
         (algorithms r).
Proof.
  intros refs sim0 w.
  apply (resident_pages_within_capacity 3 1000 false false refs "a" sim0 w w 9%nat).
  cbn. lia.
Defined.

(** ** Policies that are not selected *)

Definition left_alone (a0 a : Algorithm) : Prop :=
  selected a = selected a0 /\ (selected a0 = false -> a = a0).

Lemma left_alone_refl (l : list Algorithm) : Forall2 left_alone l l.
Proof. induction l; constructor; auto. split; auto. Qed.

Lemma left_alone_trans (l1 l2 l3 : list Algorithm) :
  Forall2 left_alone l1 l2 -> Forall2 left_alone l2 l3 -> Forall2 left_alone l1 l3.
Proof.
  intros H. revert l3. induction H as [|a b l1 l2 [Hs Hi] _ IH]; intros l3 H23;
    inversion H23 as [|? c ? l3' [Hs' Hi'] Hrest]; subst; constructor; [|auto].
  split; [congruence|]. intros H0. rewrite Hi' by congruence. auto.
Qed.

Lemma process_each_left_alone (mem : Members) (algs : list Algorithm) :
  forall w, Forall2 left_alone algs (fst (process_each mem algs w)).
Proof.
  induction algs as [|a algs IH]; intros w; cbn [process_each].
  - constructor.
  - unfold bind, ret. cbn [fst snd]. constructor; [|apply IH].
    destruct (selected a) eqn:Hsel.
    + destruct (process_one_selected mem a w Hsel) as (a' & w' & E & _ & _ & _ & Hs & _).
      rewrite E. cbn [fst]. split; [congruence|]. intros H. congruence.
    + rewrite (process_one_unselected _ _ _ Hsel). cbn [fst]. split; auto.
Qed.

(** X11.  A run touches only the selected policies: whatever the
    simulator, the trace and the number of iterations, every policy that is
    not selected comes out of the loop exactly as it went in, and no policy
    changes its selection. *)
Theorem unselected_policies_untouched
        (fuel : nat) (sim : CacheReplacementSimulator) (w : Process) :
  Forall2 (fun a0 a => selected a = selected a0 /\ (selected a0 = false -> a = a0))
          (algorithms sim) (algorithms (fst (runSimulation_for fuel sim w))).
Proof.
  revert sim w. induction fuel as [|fuel IH]; intros sim w.
  - apply left_alone_refl.
  - rewrite runSimulation_for_S. destruct (loop_condition (members sim)).
    + eapply left_alone_trans; [|apply IH]. cbn [algorithms].
      apply process_each_left_alone.
    + apply left_alone_refl.
Qed.

(** ** The number of references processed *)

Lemma runSimulation_for_done (fuel : nat) (sim : CacheReplacementSimulator) (w : Process) :
  loop_condition (members sim) = false -> runSimulation_for fuel sim w = (sim, w).
Proof.
  intros H. destruct fuel as [|fuel]; [reflexivity|].
  rewrite runSimulation_for_S, H. reflexivity.
Qed.

Lemma runSimulation_for_add (n : nat) :
  forall (k : nat) (sim : CacheReplacementSimulator) (w : Process),
    runSimulation_for (n + k) sim w
    = runSimulation_for k (fst (runSimulation_for n sim w))
                          (snd (runSimulation_for n sim w)).
Proof.
  induction n as [|n IH]; intros k sim w; [reflexivity|].
  cbn [Nat.add]. rewrite !runSimulation_for_S.
  destruct (loop_condition (members sim)) eqn:E.
  - apply IH.
  - cbn [fst snd]. symmetry. apply runSimulation_for_done. exact E.
Qed.

(** X12.  [runSimulation] processes the first [min maxPageCalls N]
    references of a trace of [N] references, none when [maxPageCalls] is not
    positive, and then leaves its loop (the fuel of the model is not what
    stops it).  It lowers [maxPageCalls] to [N] for good when it was larger. *)
Theorem runSimulation_processes_the_trace
        (nframes maxCalls : Z) (dbg pr : bool) (refs : list PageRef) (algoCode : ascii)
        (sim0 : CacheReplacementSimulator) (w0 w : Process) :
  Z.of_nat (List.length refs) <= INT_MAX ->
  let r := fst (runSimulation
                  (configured nframes maxCalls dbg pr refs algoCode sim0 w0) w) in
  counter (members r) = Z.max 0 (Z.min maxCalls (Z.of_nat (List.length refs))) /\
  maxPageCalls (members r) = Z.min maxCalls (Z.of_nat (List.length refs)) /\
  loop_condition (members r) = false /\
  forall extra_fuel,
    fst (runSimulation_for extra_fuel r
           (snd (runSimulation
                   (configured nframes maxCalls dbg pr refs algoCode sim0 w0) w)))
    = r.
Proof.
  intros Hbound r.
  set (start := runSimulation_init
                  (configured nframes maxCalls dbg pr refs algoCode sim0 w0)).
  destruct (configured_start nframes maxCalls dbg pr refs algoCode sim0 w0)
    as (_ & Hrefs & Hc & Hmax & _).
  fold start in Hrefs, Hc, Hmax.
  rewrite static_cast_int_small in Hmax by lia.
  set (N := Z.max 0 (Z.min maxCalls (Z.of_nat (List.length refs)))).
  assert (Hpr : pageRefs (members
                   (configured nframes maxCalls dbg pr refs algoCode sim0 w0)) = refs).
  { exact Hrefs. }
  assert (Hsplit : S (List.length refs) = (Z.to_nat N + (S (List.length refs) - Z.to_nat N))%nat)
    by (unfold N; lia).
  assert (Hr : runSimulation_for (S (List.length refs)) start w
               = runSimulation_for (S (List.length refs) - Z.to_nat N)
                   (fst (runSimulation_for (Z.to_nat N) start w))
                   (snd (runSimulation_for (Z.to_nat N) start w))).
  { rewrite Hsplit at 1. apply runSimulation_for_add. }
  assert (Hcount : counter (members (fst (runSimulation_for (Z.to_nat N) start w)))
                   = counter (members start) + Z.of_nat (Z.to_nat N) /\
                   pageRefs (members (fst (runSimulation_for (Z.to_nat N) start w)))
                   = pageRefs (members start)).
  { destruct (Z_lt_le_dec (Z.min maxCalls (Z.of_nat (List.length refs))) 0) as [Hneg|Hpos].
    - replace (Z.to_nat N) with 0%nat by (unfold N; lia).
      cbn [runSimulation_for]. unfold ret. cbn [fst]. split; [lia|reflexivity].
    - destruct (runSimulation_for_counter (Z.to_nat N) start w) as (H1 & _ & H3 & _).
      + lia.
      + rewrite Hc, Hmax. unfold N. lia.
      + rewrite Hc. unfold pageRefs_size. rewrite Hrefs, static_cast_int_small by lia.
        unfold N. lia.
      + split; assumption. }
  destruct Hcount as [H1 H3].
  destruct (runSimulation_for_numFrames (Z.to_nat N) start w) as (_ & H4 & _).
  set (mid := fst (runSimulation_for (Z.to_nat N) start w)) in *.
  assert (Hdone : loop_condition (members mid) = false).
  { unfold loop_condition, pageRefs_size. rewrite H1, H3, H4, Hc, Hmax, Hrefs.
    rewrite static_cast_int_small by lia.
    apply andb_false_iff. unfold N.
    destruct (Z_lt_le_dec (Z.min maxCalls (Z.of_nat (List.length refs))) 0).
    - left. apply Z.ltb_ge. lia.
    - left. apply Z.ltb_ge. lia. }
  assert (E : members r = members mid).
  { unfold r, runSimulation. rewrite Hpr. fold start. unfold bind, ret. cbn [fst snd members].
    rewrite Hr, (runSimulation_for_done _ mid _ Hdone). reflexivity. }
  rewrite E. split; [rewrite H1, Hc; unfold N; lia|].
  split; [rewrite H4; exact Hmax|]. split; [exact Hdone|].
  intros extra_fuel. rewrite runSimulation_for_done; [reflexivity|].
  rewrite E. exact Hdone.
Qed.

Lemma runSimulation_processes_the_trace_witness :
  let refs := map (fun p => mkPageRef p 1) [7; 0; 1; 2; 0; 3; 0; 4] in
  let sim0 := mkSimulator (mkMembers 12 1048576 1000 false false 0 (-1) []) [] in
  let w := fresh_process (fun n => Z.of_nat n) (fun n => Z.of_nat n) (fun n => n)
                         (fun _ => None) in
  let r := fst (runSimulation (configured 3 5 false false refs "L" sim0 w) w) in
  counter (members r) = 5 /\ maxPageCalls (members r) = 5 /\
  loop_condition (members r) = false.
Proof.
  intros refs sim0 w.
  destruct (runSimulation_processes_the_trace 3 5 false false refs "L" sim0 w w)
    as (H1 & H2 & H3 & _).
  - unfold INT_MAX. cbn. lia.
  - repeat split; assumption.
Defined.

(** ** One policy along a run, from its own function *)

(** Induction over the loop of [runSimulation] for a property of one
    policy that [process_one] preserves, from whatever state of the process
    it is called in. *)
Lemma runSimulation_for_each_call (Q : Members -> Algorithm -> Prop) :
  (forall mem a w',
      Q mem a -> listed a -> algorithm_ok (numFrames mem) a ->
      loop_condition mem = true -> 0 <= clockHand w' ->
      Q (advance mem) (fst (process_one (during mem) a w'))) ->
  forall (fuel : nat) (sim : CacheReplacementSimulator) (w : Process),
    1 <= numFrames (members sim) ->
    Forall listed (algorithms sim) ->
    Forall (algorithm_ok (numFrames (members sim))) (algorithms sim) ->
    0 <= clockHand w ->
    Forall (Q (members sim)) (algorithms sim) ->
    Forall (Q (members (fst (runSimulation_for fuel sim w))))
           (algorithms (fst (runSimulation_for fuel sim w))).
Proof.
  intros Hstep fuel sim w HF Hl Hok Hw HQ.
  pose (I := fun (mem : Members) (algs : list Algorithm) (w' : Process) =>
               1 <= numFrames mem /\ 0 <= clockHand w' /\ Forall listed algs /\
               Forall (algorithm_ok (numFrames mem)) algs /\ Forall (Q mem) algs).
  assert (Heach : forall mem algs w',
             1 <= numFrames mem -> loop_condition mem = true ->
             0 <= clockHand w' -> Forall listed algs ->
             Forall (algorithm_ok (numFrames mem)) algs -> Forall (Q mem) algs ->
             Forall (Q (advance mem)) (fst (process_each (during mem) algs w'))).
  { intros mem algs. induction algs as [|a algs IH]; intros w' H1 Hloop H2 H3 H4 H5;
      cbn [process_each]; [constructor|].
    unfold bind, ret. cbn [fst snd].
    inversion H3; inversion H4; inversion H5; subst. constructor.
    - apply Hstep; assumption.
    - apply IH; try assumption.
      change (numFrames mem) with (numFrames (during mem)) in H1.
      apply (process_one_step (during mem) a w'); assumption. }
  assert (HI : forall mem algs w',
             I mem algs w' -> loop_condition mem = true ->
             I (advance mem) (fst (process_each (during mem) algs w'))
               (snd (process_each (during mem) algs w'))).
  { intros mem algs w' (H1 & H2 & H3 & H4 & H5) Hloop.
    pose proof (Heach mem algs w' H1 Hloop H2 H3 H4 H5) as HQ'.
    change (numFrames mem) with (numFrames (during mem)) in H1, H4.
    destruct (process_each_reference_steps (during mem) algs w' H1 H3 H4 H2)
      as [Hsteps Hw'].
    unfold I. change (numFrames (advance mem)) with (numFrames (during mem)).
    split; [exact H1|]. split; [exact Hw'|]. split; [|split; [|exact HQ']].
    - apply (Forall2_Forall_step _ _ _ _ _
               (fun a a' (H : reference_step (during mem) a a') (Ha : listed a) =>
                  policy_step_listed _ _ _ (proj1 H) Ha) Hsteps H3).
    - apply (Forall2_Forall_step _ (fun _ => True) _ _ _
               (fun a a' (H : reference_step (during mem) a a') (_ : True) =>
                  ps_ok _ _ _ (proj1 H)) Hsteps).
      apply Forall_forall. auto. }
  destruct (runSimulation_for_invariant_process I HI fuel sim w) as (_ & _ & _ & _ & H).
  - unfold I. auto.
  - exact H.
Qed.

(** The function behind a label of the list of policies. *)
Ltac function_of_label :=
  let H := fresh "H" in let E := fresh "E" in
  unfold listed, policy_list; cbn [In]; intros H E; rewrite E in H;
  repeat (destruct H as [H|H]; [try discriminate H; injection H as H; congruence|]);
  contradiction.


Lemma listed_lru (a : Algorithm) :
  listed a -> label a = "LRU"%string -> algoFunc a = lru.
Proof. function_of_label. Qed.

Lemma listed_clock (a : Algorithm) :
  listed a -> label a = "CLOCK"%string -> algoFunc a = clock.
Proof. function_of_label. Qed.

Lemma listed_aging (a : Algorithm) :
  listed a -> label a = "AGING"%string -> algoFunc a = aging.
Proof. function_of_label. Qed.

Lemma listed_nfu (a : Algorithm) :
  listed a -> label a = "NFU"%string -> algoFunc a = nfu.
Proof. function_of_label. Qed.

Lemma listed_mfu (a : Algorithm) :
  listed a -> label a = "MFU"%string -> algoFunc a = mfu.
Proof. function_of_label. Qed.

Lemma listed_lfu (a : Algorithm) :
  listed a -> label a = "LFU"%string -> algoFunc a = lfu.
Proof. function_of_label. Qed.

(** The data of a selected policy after [process_one], but for its
    counters and its execution time. *)
Lemma process_one_data (mem : Members) (a : Algorithm) (w : Process) :
  selected a = true ->
  let r := algoFunc a mem (data a) (snd (high_resolution_clock_now w)) in
  let a' := fst (process_one mem a w) in
  label a' = label a /\ selected a' = true /\
  pageTable (data a') = pageTable (snd (fst r)) /\
  victimList (data a') = victimList (snd (fst r)) /\
  lfruData (data a') = lfruData (snd (fst r)).
Proof.
  intros Hsel r a'.
  destruct (process_one_selected mem a w Hsel)
    as (b & w' & E & _ & Hl & _ & Hs & Ht & Hv & Hlf & _).
  unfold a'. rewrite E. cbn [fst]. repeat split; try assumption. congruence.
Qed.

(** ** The per-frame registers *)

Lemma Forall_update {A : Type} (P : A -> Prop) (it : nat) (g : A -> A) (l : list A) :
  Forall P l ->
  (forall x, nth_error l it = Some x -> P x -> P (g x)) ->
  Forall P (update it g l).
Proof.
  revert it. induction l as [|a l IH]; intros [|it] H Hg; cbn [update]; auto;
    inversion H; subst; constructor; auto.
Qed.

Lemma emplace_frames_all (P : Frame -> Prop) (n : nat) :
  (forall i now, P (mkFrame i (-1) now 0 0 0)) ->
  forall i w, Forall P (fst (emplace_frames n i w)).
Proof.
  intros HP. induction n as [|n IH]; intros i w; cbn [emplace_frames]; [constructor|].
  unfold bind, ret. cbn [fst snd]. constructor; [apply HP|apply IH].
Qed.

Lemma allocate_data_frames (P : Frame -> Prop) (nF : Z) (l : list (string * Policy)) :
  (forall i now, P (mkFrame i (-1) now 0 0 0)) ->
  forall w : Process,
    Forall (fun a => Forall P (pageTable (data a))) (fst (allocate_data nF l w)).
Proof.
  intros HP. induction l as [|[name pol] l IH]; intros w; cbn [allocate_data].
  - constructor.
  - unfold bind, ret, AlgorithmData_new, bind, ret. cbn [fst snd].
    constructor; [|apply IH]. cbn [data].
    destruct (String.eqb name "LFRU"); unfold bind, ret; cbn [fst snd pageTable set_lfruData];
      apply (emplace_frames_all P _ HP).
Qed.

(** The frames at the start of the loop are those that [AlgorithmData]
    constructs. *)
Lemma configured_frames (P : Frame -> Prop)
      (nframes maxCalls : Z) (dbg pr : bool) (refs : list PageRef)
      (algoCode : ascii) (sim0 : CacheReplacementSimulator) (w0 : Process) :
  (forall i now, P (mkFrame i (-1) now 0 0 0)) ->
  Forall (fun a => Forall P (pageTable (data a)))
         (algorithms (runSimulation_init
                        (configured nframes maxCalls dbg pr refs algoCode sim0 w0))).
Proof.
  intros HP. unfold configured, runSimulation_init. cbn [algorithms].
  destruct (selectAlgorithm_same_policies algoCode
              (set_pageRefs refs (fst (setConfiguration nframes maxCalls dbg pr sim0 w0))))
    as [_ Hs].
  apply (same_policy_data (fun d => Forall P (pageTable d)) _ _ Hs).
  cbn [set_pageRefs algorithms].
  unfold setConfiguration, initializeAlgorithms, bind, ret. cbn [fst snd algorithms numFrames].
  apply allocate_data_frames. exact HP.
Qed.

(** *** AGING *)

Definition aging_register (f : Frame) : Prop := 0 <= extra f < 20000000.

Lemma age_frame_register (f : Frame) :
  aging_register f ->
  aging_register (age_frame f) /\ (page (age_frame f) <> -1 -> extra (age_frame f) < 10000000).
Proof.
  unfold aging_register, age_frame. intros H.
  destruct (Z.eqb_spec (page f) (-1)) as [E|Hne]; cbn [negb].
  - split; [exact H|]. intros Hp. contradiction.
  - cbn [extra set_extra page]. 
    pose proof (Z.quot_pos (extra f) 2). 
    assert (Z.quot (extra f) 2 < 10000000) by (apply Z.quot_lt_upper_bound; lia).
    split; [lia|]. intros _. lia.
Qed.

Lemma aging_register_step (m : Members) (d : AlgorithmData) (w : Process) :
  lastPageRef m <> -1 ->
  Forall aging_register (pageTable d) ->
  Forall aging_register (pageTable (snd (fst (aging m d w)))).
Proof.
  intros Hp H. unfold aging.
  set (t := map age_frame (pageTable d)).
  assert (Ht : Forall (fun f => aging_register f /\
                                (page f <> -1 -> extra f < 10000000)) t).
  { unfold t. apply Forall_map. eapply Forall_impl; [|exact H].
    intros f. apply age_frame_register. }
  assert (Ht' : Forall aging_register t).
  { eapply Forall_impl; [|exact Ht]. intros f Hf. apply Hf. }
  cbn [pageTable set_pageTable]. fold t.
  destruct (find_if (is_requested m) t) as [hitIt|] eqn:Ehit.
  - unfold_effects. apply Forall_update; [exact Ht'|].
    intros x Hx _. destruct (find_if_Some _ _ _ Ehit) as (y & Hy & Hpy & _).
    assert (y = x) by congruence. subst y.
    unfold is_requested in Hpy. apply Z.eqb_eq in Hpy.
    rewrite Forall_forall in Ht.
    destruct (Ht x (nth_error_In _ _ Hx)) as [[H0 _] H1].
    unfold aging_register. cbn [extra set_time set_extra].
    assert (extra x < 10000000) by (apply H1; congruence). lia.
  - destruct (find_if is_empty t) as [emptyIt|] eqn:Eemp.
    + unfold_effects. apply Forall_update; [exact Ht'|].
      intros x _ _. unfold aging_register. cbn. lia.
    + destruct (min_element (fun a b => extra a <? extra b) t) as [victimIt|] eqn:Ev.
      * unfold_effects. apply Forall_update; [exact Ht'|].
        intros x _ _. unfold aging_register. cbn. lia.
      * unfold ret. cbn [fst snd pageTable set_pageTable]. exact Ht'.
Qed.

Section Registers.

Variable refs : list PageRef.
Hypothesis pages_valid : Forall (fun r => pageNum r <> -1) refs.
Hypothesis bounded : Z.of_nat (List.length refs) <= INT_MAX.

Definition aging_bounded (mem : Members) (a : Algorithm) : Prop :=
  follows refs mem /\
  (label a = "AGING"%string -> Forall aging_register (pageTable (data a))).

Lemma aging_bounded_step (mem : Members) (a : Algorithm) (w' : Process) :
  aging_bounded mem a -> listed a -> algorithm_ok (numFrames mem) a ->
  loop_condition mem = true -> 0 <= clockHand w' ->
  aging_bounded (advance mem) (fst (process_one (during mem) a w')).
Proof.
  intros [Hfol HQ] Hl _ Hloop _. split; [now apply follows_advance|].
  destruct (selected a) eqn:Hsel.
  2:{ rewrite (process_one_unselected _ _ _ Hsel). exact HQ. }
  destruct (process_one_data (during mem) a w' Hsel) as (Hlab & _ & Ht & _).
  intros E. rewrite Hlab in E. rewrite Ht, (listed_aging a Hl E).
  apply aging_register_step; [|exact (HQ E)].
  apply (loop_position refs pages_valid bounded mem (proj1 Hfol) (proj2 Hfol) Hloop).
Qed.

End Registers.

(** X13.  The aging register of AGING never overflows: along any run over
    a trace without the EMPTY page number, the [extra] field of every frame
    of AGING stays within 0 and 19999999, so that halving it and adding
    10000000 on a hit stays far inside the range of [int]. *)
Theorem aging_register_bounded
        (nframes maxCalls : Z) (dbg pr : bool) (refs : list PageRef) (algoCode : ascii)
        (sim0 : CacheReplacementSimulator) (w0 w : Process) (fuel : nat) :
  Forall (fun r => pageNum r <> -1) refs ->
  Z.of_nat (List.length refs) <= INT_MAX ->
  0 <= clockHand w ->
  let r := fst (runSimulation_for fuel
                  (runSimulation_init
                     (configured nframes maxCalls dbg pr refs algoCode sim0 w0)) w) in
  Forall (fun a => label a = "AGING"%string ->
                   Forall (fun f => 0 <= extra f < 20000000) (pageTable (data a)))
         (algorithms r).
Proof.
  intros Hpages Hbound Hw r.
  destruct (configured_policies nframes maxCalls dbg pr refs algoCode sim0 w0)
    as (HF & Hrefs & Hc & Hl & Hok & _).
  eapply Forall_impl;
    [|apply (runSimulation_for_each_call (aging_bounded refs)
               (aging_bounded_step refs Hpages Hbound) fuel _ w); try assumption].
  - intros a [_ Ha]. exact Ha.
  - rewrite HF. lia.
  - pose proof (configured_frames aging_register nframes maxCalls dbg pr refs algoCode
                  sim0 w0) as Hfr.
    rewrite Forall_forall in *. intros a Ha. split; [split; [exact Hrefs|lia]|].
    intros _. apply Hfr; [|exact Ha]. intros i now. unfold aging_register. cbn. lia.
Qed.

Lemma aging_register_bounded_witness :
  let refs := map (fun p => mkPageRef p 1) [7; 0; 7; 7; 0; 3; 0; 4] in
  let sim0 := mkSimulator (mkMembers 12 1048576 1000 false false 0 (-1) []) [] in
  let w := fresh_process (fun n => Z.of_nat n) (fun n => Z.of_nat n) (fun n => n)
                         (fun _ => None) in
  let r := fst (runSimulation_for 9
                  (runSimulation_init (configured 3 1000 false false refs "A" sim0 w))
                  w) in
  Forall (fun a => label a = "AGING"%string ->
                   Forall (fun f => 0 <= extra f < 20000000) (pageTable (data a)))
         (algorithms r).
Proof.
  intros refs sim0 w.
  apply (aging_register_bounded 3 1000 false false refs "A" sim0 w w 9%nat).
  - unfold refs. repeat (apply Forall_cons; [cbn; lia|]). apply Forall_nil.
  - unfold INT_MAX. cbn. lia.
  - cbn. lia.
Defined.

(** *** The use counters of NFU, MFU and LFU *)

Definition counted (c : Z) (f : Frame) : Prop :=
  0 <= extra f <= c /\ 0 <= frequency f <= c.

Lemma counted_mono (c c' : Z) (t : list Frame) :
  c <= c' -> Forall (counted c) t -> Forall (counted c') t.
Proof.
  intros H. apply Forall_impl. unfold counted. intros f. lia.
Qed.

Lemma Forall_update_grow {A : Type} (P P' : A -> Prop) (it : nat) (g : A -> A)
      (l : list A) :
  Forall P l -> (forall x, P x -> P' x) -> (forall x, P x -> P' (g x)) ->
  Forall P' (update it g l).
Proof.
  intros H H1 H2. revert it. induction H as [|a l Ha Hl IH]; intros [|it]; cbn [update].
  - constructor.
  - constructor.
  - constructor; [apply H2, Ha|]. eapply Forall_impl; [exact H1|exact Hl].
  - constructor; [apply H1, Ha|apply IH].
Qed.

Ltac counted_branches c H :=
  first
    [ unfold ret; cbn [fst snd]; apply (counted_mono c (c + 1)); [lia|exact H]
    | unfold_effects;
      apply (Forall_update_grow (counted c) (counted (c + 1)) _ _ _ H);
      unfold counted; intros x Hx; cbn; lia ].

Lemma nfu_counted (m : Members) (d : AlgorithmData) (w : Process) (c : Z) :
  0 <= c -> Forall (counted c) (pageTable d) ->
  Forall (counted (c + 1)) (pageTable (snd (fst (nfu m d w)))).
Proof.
  intros Hc H. unfold nfu.
  destruct (find_if (is_requested m) (pageTable d)); [counted_branches c H|].
  destruct (find_if is_empty (pageTable d)); [counted_branches c H|].
  destruct (min_element (fun a b => extra a <? extra b) (pageTable d));
    counted_branches c H.
Qed.

Lemma mfu_counted (m : Members) (d : AlgorithmData) (w : Process) (c : Z) :
  0 <= c -> Forall (counted c) (pageTable d) ->
  Forall (counted (c + 1)) (pageTable (snd (fst (mfu m d w)))).
Proof.
  intros Hc H. unfold mfu.
  destruct (find_if (is_requested m) (pageTable d)); [counted_branches c H|].
  destruct (find_if is_empty (pageTable d)); [counted_branches c H|].
  destruct (max_element (fun a b => extra a <? extra b) (pageTable d));
    counted_branches c H.
Qed.

Lemma lfu_counted (m : Members) (d : AlgorithmData) (w : Process) (c : Z) :
  0 <= c -> Forall (counted c) (pageTable d) ->
  Forall (counted (c + 1)) (pageTable (snd (fst (lfu m d w)))).
Proof.
  intros Hc H. unfold lfu.
  destruct (find_if (is_requested m) (pageTable d)); [counted_branches c H|].
  destruct (find_if is_empty (pageTable d)); [counted_branches c H|].
  destruct (min_element lfu_less (pageTable d)); counted_branches c H.
Qed.

Definition use_counted (mem : Members) (a : Algorithm) : Prop :=
  0 <= counter mem /\
  (label a = "NFU"%string \/ label a = "MFU"%string \/ label a = "LFU"%string ->
   Forall (counted (counter mem)) (pageTable (data a))).

Lemma use_counted_step (mem : Members) (a : Algorithm) (w' : Process) :
  use_counted mem a -> listed a -> algorithm_ok (numFrames mem) a ->
  loop_condition mem = true -> 0 <= clockHand w' ->
  use_counted (advance mem) (fst (process_one (during mem) a w')).
Proof.
  intros [Hc HQ] Hl _ _ _. unfold use_counted.
  change (counter (advance mem)) with (counter mem + 1).
  split; [lia|].
  destruct (selected a) eqn:Hsel.
  2:{ rewrite (process_one_unselected _ _ _ Hsel). cbn [fst]. intros E.
      apply (counted_mono (counter mem)); [lia|auto]. }
  destruct (process_one_data (during mem) a w' Hsel) as (Hlab & _ & Ht & _).
  intros E. rewrite Hlab in E. rewrite Ht. specialize (HQ E).
  destruct E as [E|[E|E]].
  - rewrite (listed_nfu a Hl E). now apply nfu_counted.
  - rewrite (listed_mfu a Hl E). now apply mfu_counted.
  - rewrite (listed_lfu a Hl E). now apply lfu_counted.
Qed.

(** X14.  The use counters never run ahead of the trace: along any run,
    the counter that NFU and MFU keep in [extra] and the one that LFU keeps
    in [frequency] are, in every frame, between 0 and the number of
    references processed; they cannot overflow. *)
Theorem use_counters_bounded
        (nframes maxCalls : Z) (dbg pr : bool) (refs : list PageRef) (algoCode : ascii)
        (sim0 : CacheReplacementSimulator) (w0 w : Process) (fuel : nat) :
  0 <= clockHand w ->
  let r := fst (runSimulation_for fuel
                  (runSimulation_init
                     (configured nframes maxCalls dbg pr refs algoCode sim0 w0)) w) in
  Forall (fun a =>
            label a = "NFU"%string \/ label a = "MFU"%string \/ label a = "LFU"%string ->
            Forall (fun f => 0 <= extra f <= counter (members r) /\
                             0 <= frequency f <= counter (members r))
                   (pageTable (data a)))
         (algorithms r).
Proof.
  intros Hw r.
  destruct (configured_policies nframes maxCalls dbg pr refs algoCode sim0 w0)
    as (HF & Hrefs & Hc & Hl & Hok & _).
  eapply Forall_impl;
    [|apply (runSimulation_for_each_call use_counted use_counted_step fuel _ w);
      try assumption].
  - intros a [_ Ha]. exact Ha.
  - rewrite HF. lia.
  - pose proof (configured_frames (counted 0) nframes maxCalls dbg pr refs algoCode
                  sim0 w0) as Hfr.
    rewrite Forall_forall in *. intros a Ha. split; [lia|].
    intros _. rewrite Hc. apply Hfr; [|exact Ha]. intros i now. unfold counted. cbn. lia.
Qed.

Lemma use_counters_bounded_witness :
  let refs := map (fun p => mkPageRef p 1) [7; 0; 7; 7; 0; 3; 0; 4] in
  let sim0 := mkSimulator (mkMembers 12 1048576 1000 false false 0 (-1) []) [] in
  let w := fresh_process (fun n => Z.of_nat n) (fun n => Z.of_nat n) (fun n => n)
                         (fun _ => None) in
  let r := fst (runSimulation_for 9
                  (runSimulation_init (configured 3 1000 false false refs "a" sim0 w))
                  w) in
  Forall (fun a =>
            label a = "NFU"%string \/ label a = "MFU"%string \/ label a = "LFU"%string ->
            Forall (fun f => 0 <= extra f <= counter (members r) /\
                             0 <= frequency f <= counter (members r))
                   (pageTable (data a)))
         (algorithms r).
Proof.
  intros refs sim0 w.
  apply (use_counters_bounded 3 1000 false false refs "a" sim0 w w 9%nat).
  cbn. lia.
Defined.

(** ** The element that [min_element] finds *)

Section MinElement.

Context {A : Type}.
Variable comp : A -> A -> bool.
Hypothesis comp_irrefl : forall x, comp x x = false.
Hypothesis comp_below : forall x y z, comp y z = false -> comp x z = true -> comp y x = false.

Lemma min_element_from_least (l : list A) :
  forall (pre : list A) (s : nat) (sv : A),
    nth_error (pre ++ l) s = Some sv ->
    (s < List.length pre)%nat ->
    (forall y, In y pre -> comp y sv = false) ->
    exists x,
      nth_error (pre ++ l) (min_element_from comp l (List.length pre) s sv) = Some x /\
      forall y, In y (pre ++ l) -> comp y x = false.
Proof.
  induction l as [|a l IH]; intros pre s sv Hs Hlt Hpre; cbn [min_element_from].
  - exists sv. split; [exact Hs|]. rewrite app_nil_r. exact Hpre.
  - replace (pre ++ a :: l) with ((pre ++ [a]) ++ l) in * by (rewrite <- app_assoc; reflexivity).
    replace (S (List.length pre)) with (List.length (pre ++ [a]))
      by (rewrite length_app; cbn; lia).
    destruct (comp a sv) eqn:E.
    + apply IH.
      * rewrite <- app_assoc. cbn [app]. rewrite nth_error_app2 by lia.
        rewrite Nat.sub_diag. reflexivity.
      * rewrite length_app. cbn. lia.
      * intros y Hy. apply in_app_iff in Hy. destruct Hy as [Hy|[<-|[]]].
        -- apply (comp_below a y sv); auto.
        -- apply comp_irrefl.
    + apply IH.
      * exact Hs.
      * rewrite length_app. cbn. lia.
      * intros y Hy. apply in_app_iff in Hy. destruct Hy as [Hy|[<-|[]]]; auto.
Qed.

Lemma min_element_least (l : list A) (i : nat) :
  min_element comp l = Some i ->
  exists x, nth_error l i = Some x /\ forall y, In y l -> comp y x = false.
Proof.
  destruct l as [|a l]; cbn [min_element]; [discriminate|]. intros [= <-].
  destruct (min_element_from_least l [a] 0 a) as (x & Hx & Hmin).
  - reflexivity.
  - cbn. lia.
  - intros y [<-|[]]. apply comp_irrefl.
  - exists x. split; [exact Hx|exact Hmin].
Qed.

End MinElement.

Lemma min_element_by_key (key : Frame -> Z) (t : list Frame) (i : nat) :
  min_element (fun a b => key a <? key b) t = Some i ->
  exists x, nth_error t i = Some x /\ forall y, In y t -> key x <= key y.
Proof.
  intros H.
  destruct (min_element_least (fun a b => key a <? key b)) with (l := t) (i := i)
    as (x & Hx & Hmin).
  - intros x. apply Z.ltb_irrefl.
  - intros x y z H1 H2. apply Z.ltb_ge in H1. apply Z.ltb_lt in H2. apply Z.ltb_ge. lia.
  - exact H.
  - exists x. split; [exact Hx|]. intros y Hy. specialize (Hmin y Hy).
    apply Z.ltb_ge in Hmin. exact Hmin.
Qed.

(** ** FIFO: first in, first out *)

Lemma Forall_update_at {A : Type} (P : A -> Prop) (it : nat) (g : A -> A) (l : list A) :
  (forall j f, nth_error l j = Some f -> j <> it -> P f) ->
  (forall x, nth_error l it = Some x -> P (g x)) ->
  Forall P (update it g l).
Proof.
  revert it. induction l as [|a l IH]; intros [|it] H1 H2; cbn [update]; constructor.
  - apply H2. reflexivity.
  - apply Forall_forall. intros f Hf. destruct (In_nth_error _ _ Hf) as [j Hj].
    apply (H1 (S j) f); [exact Hj|lia].
  - apply (H1 0%nat a); [reflexivity|lia].
  - apply IH.
    + intros j f Hj Hne. apply (H1 (S j) f); [exact Hj|lia].
    + intros x Hx. apply H2. exact Hx.
Qed.

(** Every element is below all those that follow it. *)
Fixpoint increasing (l : list Z) : Prop :=
  match l with
  | [] => True
  | x :: r => Forall (fun y => x < y) r /\ increasing r
  end.

Lemma increasing_snoc (l : list Z) (y : Z) :
  increasing l -> Forall (fun x => x < y) l -> increasing (l ++ [y]).
Proof.
  induction l as [|a l IH]; intros Hl Hy; cbn [app increasing].
  - split; [constructor|exact I].
  - destruct Hl as [Ha Hl]. inversion Hy; subst. split; [|auto].
    apply Forall_app. split; [exact Ha|]. constructor; [assumption|constructor].
Qed.

Section Fifo.

Variable refs : list PageRef.

(** The frame records in [extra] the position of the reference that loaded
    its page, a position before [c]. *)
Definition loaded_at (c : Z) (f : Frame) : Prop :=
  0 <= extra f < c /\
  pageNum (nth (Z.to_nat (extra f)) refs (mkPageRef (-1) (-1))) = page f.


Lemma loaded_at_mono (c : Z) (f : Frame) : loaded_at c f -> loaded_at (c + 1) f.
Proof. unfold loaded_at. intros [H1 H2]. split; [lia|exact H2]. Qed.





End Fifo.





(** ** Writing a trace file and loading it

    [createTestFile] of the test suite writes one line per reference with
    [operator<<] for [int]; [loadPageReferences] reads the file back. *)

(** The decimal digits of [n], most significant first, in front of [acc];
    one unit of [fuel] per digit. *)
Fixpoint decimal (fuel : nat) (n : Z) (acc : list Z) : list Z :=
  match fuel with
  | O => acc
  | S k => if n <? 10 then n :: acc else decimal k (n / 10) (n mod 10 :: acc)
  end.

(** [stream << value] for an [int]: a minus sign for a negative value, then
    the digits of its magnitude, at most ten. *)
Definition int_sign (x : Z) : Sign := if x <? 0 then Minus else Unsigned.
Definition int_digits (x : Z) : list Z := decimal 10 (Z.abs x) [].
Definition int_text (x : Z) : string :=
  (sign_text (int_sign x) ++ numeral (int_digits x))%string.

(** An [std::ofstream] opened on [filename], written and closed: the file
    holds what was written. *)
Definition write_file (filename content : string) : M unit := fun w =>
  (tt,
   mkProcess (steady_clock w) (steady_reads w) (high_resolution_clock w)
             (high_reads w) (rng w) (rng_draws w) (timeCounter w) (clockHand w)
             (cout w) (cerr w)
             (fun name => if String.eqb name filename then Some content else files w name)).

Fixpoint reference_lines (references : list (Z * Z)) : string :=
  match references with
  | [] => EmptyString
  | ref :: r =>
      (int_text (fst ref) ++ " " ++ int_text (snd ref) ++ newline ++ reference_lines r)%string
  end.

Definition createTestFile (filename : string) (references : list (Z * Z)) : M unit :=
  write_file filename (reference_lines references).

Lemma numeral_value_app (l1 l2 : list Z) :
  numeral_value (l1 ++ l2)
  = numeral_value l1 * 10 ^ Z.of_nat (List.length l2) + numeral_value l2.
Proof.
  unfold numeral_value. rewrite fold_left_app.
  generalize (fold_left (fun acc d => acc * 10 + d) l1 0). intros v.
  revert v. induction l2 as [|d l2 IH]; intros v; cbn [fold_left List.length].
  - cbn. lia.
  - rewrite IH. rewrite (IH (0 * 10 + d)).
    replace (Z.of_nat (S (List.length l2))) with (Z.of_nat (List.length l2) + 1) by lia.
    rewrite Z.pow_add_r by lia. lia.
Qed.

Lemma decimal_value (fuel : nat) :
  forall n acc,
    0 <= n < 10 ^ Z.of_nat fuel ->
    numeral_value (decimal fuel n acc)
    = n * 10 ^ Z.of_nat (List.length acc) + numeral_value acc.
Proof.
  induction fuel as [|k IH]; intros n acc Hn; cbn [decimal].
  - cbn in Hn. replace n with 0 by lia. lia.
  - destruct (Z.ltb_spec n 10) as [Hlt|Hge].
    + change (n :: acc) with ([n] ++ acc). rewrite numeral_value_app.
      unfold numeral_value at 1. cbn [fold_left]. lia.
    + replace (Z.of_nat (S k)) with (Z.of_nat k + 1) in Hn by lia.
      rewrite Z.pow_add_r in Hn by lia.
      rewrite IH by (split; [apply Z.div_pos; lia | apply Z.div_lt_upper_bound; lia]).
      change (n mod 10 :: acc) with ([n mod 10] ++ acc). rewrite numeral_value_app.
      unfold numeral_value at 1. cbn [fold_left List.length app].
      replace (Z.of_nat (S (List.length acc))) with (Z.of_nat (List.length acc) + 1) by lia.
      rewrite Z.pow_add_r by lia.
      pose proof (Z.div_mod n 10). nia.
Qed.

Lemma decimal_digits (fuel : nat) :
  forall n acc,
    0 <= n -> Forall (fun d => 0 <= d <= 9) acc ->
    Forall (fun d => 0 <= d <= 9) (decimal fuel n acc).
Proof.
  induction fuel as [|k IH]; intros n acc Hn Hacc; cbn [decimal]; [exact Hacc|].
  destruct (Z.ltb_spec n 10) as [Hlt|Hge].
  - constructor; [lia|exact Hacc].
  - apply IH; [apply Z.div_pos; lia|].
    constructor; [|exact Hacc]. pose proof (Z.mod_pos_bound n 10). lia.
Qed.

Lemma decimal_grows (fuel : nat) :
  forall n acc, (List.length acc <= List.length (decimal fuel n acc))%nat.
Proof.
  induction fuel as [|k IH]; intros n acc; cbn [decimal]; [lia|].
  destruct (n <? 10); [cbn; lia|].
  specialize (IH (n / 10) (n mod 10 :: acc)). cbn [List.length] in IH. lia.
Qed.

Lemma decimal_nonempty (fuel : nat) (n : Z) : decimal (S fuel) n [] <> [].
Proof.
  cbn [decimal]. destruct (n <? 10); [discriminate|].
  pose proof (decimal_grows fuel (n / 10) [n mod 10]) as H. cbn [List.length] in H.
  intros E. rewrite E in H. cbn in H. lia.
Qed.

(** The text of an [int] is a well-formed field with its value. *)
Lemma int_field (b : string) (x : Z) :
  all_blank b = true ->
  - INT_MAX - 1 <= x <= INT_MAX ->
  well_formed (mkField b (int_sign x) (int_digits x)) /\
  field_value (mkField b (int_sign x) (int_digits x)) = x /\
  field_text (mkField b (int_sign x) (int_digits x)) = (b ++ int_text x)%string.
Proof.
  intros Hb Hx.
  assert (Hv : numeral_value (int_digits x) = Z.abs x).
  { unfold int_digits. rewrite decimal_value.
    - cbn [List.length]. unfold numeral_value. cbn. lia.
    - unfold INT_MAX in Hx. cbn. lia. }
  assert (Hval : field_value (mkField b (int_sign x) (int_digits x)) = x).
  { unfold field_value, int_sign. cbn [sign digits].
    destruct (Z.ltb_spec x 0); rewrite Hv; lia. }
  split; [|split; [exact Hval|reflexivity]].
  unfold well_formed. cbn [blanks digits]. split; [exact Hb|]. split.
  - apply decimal_nonempty.
  - split; [|rewrite Hval; exact Hx].
    apply decimal_digits; [lia|constructor].
Qed.

Lemma string_app_assoc (a b c : string) : ((a ++ b) ++ c = a ++ b ++ c)%string.
Proof. induction a as [|x a IH]; cbn [append]; [reflexivity|]. now rewrite IH. Qed.

Lemma string_app_nil_r (a : string) : (a ++ EmptyString)%string = a.
Proof. induction a as [|x a IH]; cbn [append]; [reflexivity|]. now rewrite IH. Qed.

Lemma extract_pair_blank (b : string) : all_blank b = true -> extract_pair b = None.
Proof.
  intros Hb. unfold extract_pair. rewrite extract_int_unfold.
  rewrite <- (string_app_nil_r b), (skip_whitespace_blanks b EmptyString Hb). reflexivity.
Qed.

Lemma starts_with_blank (b s : string) :
  b <> EmptyString -> all_blank b = true -> starts_with_digit (b ++ s) = false.
Proof.
  destruct b as [|c b]; [congruence|]. intros _ Hb.
  cbn [all_blank] in Hb. apply andb_true_iff in Hb. destruct Hb as [Hc _].
  cbn [append starts_with_digit]. now rewrite (isspace_not_digit c Hc).
Qed.

Definition in_int_range (x : Z) : Prop := - INT_MAX - 1 <= x <= INT_MAX.

Lemma ingests_reference_lines (references : list (Z * Z)) :
  Forall (fun ref => in_int_range (fst ref) /\ in_int_range (snd ref)) references ->
  forall b, all_blank b = true ->
    ingests (b ++ reference_lines references)
            (map (fun ref => mkPageRef (snd ref) (fst ref)) references).
Proof.
  induction 1 as [|[pid pg] r [Hpid Hpg] _ IH]; intros b Hb; cbn [reference_lines map].
  - rewrite string_app_nil_r. apply ingests_stop. now apply extract_pair_blank.
  - cbn [fst snd] in *.
    destruct (int_field b pid Hb Hpid) as (W1 & V1 & T1).
    destruct (int_field " " pg eq_refl Hpg) as (W2 & V2 & T2).
    set (f1 := mkField b (int_sign pid) (int_digits pid)) in *.
    set (f2 := mkField " " (int_sign pg) (int_digits pg)) in *.
    replace (b ++ int_text pid ++ " " ++ int_text pg ++ newline ++ reference_lines r)%string
      with (field_text f1 ++ field_text f2 ++ (newline ++ reference_lines r))%string.
    2:{ rewrite T1, T2. rewrite !string_app_assoc. reflexivity. }
    apply ingests_pair with (s' := (newline ++ reference_lines r)%string).
    + rewrite <- V1, <- V2. apply extract_pair_fields; try assumption.
      * left. discriminate.
      * apply starts_with_blank; [discriminate|reflexivity].
    + apply IH. reflexivity.
Qed.

(** X16.  Round trip of a trace: the file that [createTestFile] writes for
    a list of pairs of [int] values, negative ones included, is read back by
    [loadPageReferences] as exactly these references, in order; the load
    returns true and replaces the references held before. *)
Theorem createTestFile_then_load
        (filename : string) (references : list (Z * Z))
        (sim : CacheReplacementSimulator) (w : Process) :
  Forall (fun ref => (- INT_MAX - 1 <= fst ref <= INT_MAX) /\
                     (- INT_MAX - 1 <= snd ref <= INT_MAX)) references ->
  fst (loadPageReferences filename sim (snd (createTestFile filename references w)))
  = (true, set_pageRefs (map (fun ref => mkPageRef (snd ref) (fst ref)) references) sim).
Proof.
  intros Hrange.
  rewrite (loadPageReferences_readable filename (reference_lines references)
             (map (fun ref => mkPageRef (snd ref) (fst ref)) references)).
  - reflexivity.
  - unfold createTestFile, write_file. cbn [snd files]. now rewrite String.eqb_refl.
  - apply (ingests_reference_lines references Hrange EmptyString). reflexivity.
Qed.

Lemma createTestFile_then_load_witness :
  let sim := mkSimulator (mkMembers 12 1048576 1000 false false 0 (-1)
                                    [mkPageRef 5 5]) [] in
  let w := fresh_process (fun n => Z.of_nat n) (fun n => Z.of_nat n) (fun n => n)
                         (fun _ => None) in
  let references := [(1, 0); (1, 2147483647); (-2147483648, 10); (2, -7)] in
  reference_lines references
  = ("1 0" ++ newline ++ "1 2147483647" ++ newline ++ "-2147483648 10" ++ newline
     ++ "2 -7" ++ newline)%string /\
  fst (loadPageReferences "test1.txt" sim (snd (createTestFile "test1.txt" references w)))
  = (true, set_pageRefs [mkPageRef 0 1; mkPageRef 2147483647 1;
                         mkPageRef 10 (-2147483648); mkPageRef (-7) 2] sim).
Proof.
  intros sim w references. split; [reflexivity|].
  apply (createTestFile_then_load "test1.txt" references sim w).
  unfold references, INT_MAX. repeat (apply Forall_cons; [cbn; lia|]). apply Forall_nil.
Defined.

(** ** The command-line driver *)

(** A computation that neither creates nor changes a file. *)
Definition keeps_files {A : Type} (c : M A) : Prop :=
  forall w, files (snd (c w)) = files w.

Lemma keeps_files_ret {A : Type} (a : A) : keeps_files (ret a).
Proof. intros w. reflexivity. Qed.

Lemma keeps_files_bind {A B : Type} (c : M A) (k : A -> M B) :
  keeps_files c -> (forall a, keeps_files (k a)) -> keeps_files (bind c k).
Proof.
  intros Hc Hk w. unfold bind. cbn zeta. rewrite Hk. apply Hc.
Qed.

Lemma keeps_files_emplace_frames (n : nat) : forall i, keeps_files (emplace_frames n i).
Proof.
  induction n as [|n IH]; intros i; cbn [emplace_frames]; [apply keeps_files_ret|].
  apply keeps_files_bind; [intros w; reflexivity|]. intros now.
  apply keeps_files_bind; [apply IH|]. intros r. apply keeps_files_ret.
Qed.

Lemma keeps_files_default_frames (n : nat) : keeps_files (default_frames n).
Proof.
  induction n as [|n IH]; cbn [default_frames]; [apply keeps_files_ret|].
  apply keeps_files_bind; [intros w; reflexivity|]. intros now.
  apply keeps_files_bind; [apply IH|]. intros r. apply keeps_files_ret.
Qed.

Lemma keeps_files_LFRUData_new : keeps_files LFRUData_new.
Proof.
  assert (HP : forall n, keeps_files (Partition_new n)).
  { intros n. unfold Partition_new. apply keeps_files_bind;
      [apply keeps_files_default_frames|intros fr; apply keeps_files_ret]. }
  unfold LFRUData_new.
  apply keeps_files_bind; [apply HP|]. intros p.
  apply keeps_files_bind; [apply HP|]. intros u. apply keeps_files_ret.
Qed.

Lemma keeps_files_allocate_data (nF : Z) (l : list (string * Policy)) :
  keeps_files (allocate_data nF l).
Proof.
  induction l as [|[name pol] l IH]; cbn [allocate_data]; [apply keeps_files_ret|].
  apply keeps_files_bind.
  { unfold AlgorithmData_new. apply keeps_files_bind;
      [apply keeps_files_emplace_frames|intros t; apply keeps_files_ret]. }
  intros d. apply keeps_files_bind.
  { destruct (String.eqb name "LFRU"); [|apply keeps_files_ret].
    apply keeps_files_bind; [apply keeps_files_LFRUData_new|].
    intros lf. apply keeps_files_ret. }
  intros d'. apply keeps_files_bind; [apply IH|]. intros rest. apply keeps_files_ret.
Qed.

Lemma keeps_files_initializeAlgorithms (mem : Members) :
  keeps_files (initializeAlgorithms mem).
Proof.
  unfold initializeAlgorithms. apply keeps_files_bind;
    [apply keeps_files_allocate_data|intros algs; apply keeps_files_ret].
Qed.

Lemma keeps_files_main_frame_count (c : ascii) (n : Z) :
  keeps_files (main_frame_count c n).
Proof.
  unfold main_frame_count.
  destruct (Ascii.eqb c "f" || Ascii.eqb c "a"); [|apply keeps_files_ret].
  destruct (n <? PRIVILEGED_PARTITION_SIZE + UNPRIVILEGED_PARTITION_SIZE);
    [|apply keeps_files_ret].
  intros w. reflexivity.
Qed.

(** What [main] does before it loads the trace. *)
Definition main_before_load (filename : string) (algorithmCode : ascii) (numFrames : Z)
           (showRefs debugFlag : bool) : M CacheReplacementSimulator :=
  write_cout (Configuration filename (printAlgorithmInfo algorithmCode) numFrames
                            showRefs debugFlag) ;;;
  numFrames1 <- main_frame_count algorithmCode numFrames ;;
  simulator0 <- CacheReplacementSimulator_new ;;
  simulator1 <- setConfiguration numFrames1 1000 debugFlag showRefs simulator0 ;;
  write_cout LoadingNotice ;;;
  ret simulator1.

Lemma keeps_files_main_before_load (f : string) (c : ascii) (n : Z) (s d : bool) :
  keeps_files (main_before_load f c n s d).
Proof.
  unfold main_before_load, CacheReplacementSimulator_new, setConfiguration.
  apply keeps_files_bind; [intros w; reflexivity|]. intros _.
  apply keeps_files_bind; [apply keeps_files_main_frame_count|]. intros n1.
  apply keeps_files_bind; [apply keeps_files_initializeAlgorithms|]. intros s0.
  apply keeps_files_bind; [apply keeps_files_initializeAlgorithms|]. intros s1.
  apply keeps_files_bind; [intros w; reflexivity|]. intros _. apply keeps_files_ret.
Qed.

(** Once the arguments are converted, the exit code only depends on the
    trace file. *)
Lemma main_simulation_exit (prog f : string) (c : ascii) (n : Z) (s d : bool)
      (w : Process) :
  string_find c validCodes = true ->
  let r := fst (main_simulation prog f c n s d w) in
  (fst r = 0 \/ fst r = 1) /\ (fst r = 0 <-> files w f <> None).
Proof.
  intros Hc r. unfold r, main_simulation. clear r.
  pose proof (keeps_files_main_before_load f c n s d w) as Hf.
  unfold main_before_load in Hf. unfold bind in *. cbn zeta in *.
  unfold ret in Hf. cbn [fst snd] in Hf.
  set (w0 := snd (write_cout (Configuration f (printAlgorithmInfo c) n s d) w)) in *.
  set (w1 := snd (main_frame_count c n w0)) in *.
  set (n1 := fst (main_frame_count c n w0)) in *.
  set (w2 := snd (CacheReplacementSimulator_new w1)) in *.
  set (s0 := fst (CacheReplacementSimulator_new w1)) in *.
  set (w3 := snd (setConfiguration n1 1000 d s s0 w2)) in *.
  set (s1 := fst (setConfiguration n1 1000 d s s0 w2)) in *.
  set (w4 := snd (write_cout LoadingNotice w3)) in *.
  destruct (files w f) as [content|] eqn:Efile.
  - destruct (ingests_total content) as [refs Hrefs].
    rewrite (loadPageReferences_readable f content refs s1 w4)
      by (congruence || assumption).
    cbn [fst snd negb].
    destruct (selectAlgorithm_accepts c (set_pageRefs refs s1)) as [Hiff _].
    assert (Hsel : snd (selectAlgorithm c (set_pageRefs refs s1)) = None)
      by (apply Hiff; exact Hc).
    destruct (selectAlgorithm c (set_pageRefs refs s1)) as [s2 e] eqn:Es.
    cbn [snd] in Hsel. subst e. unfold ret. cbn [fst snd].
    split; [left; reflexivity|]. split; [intros _; discriminate|reflexivity].
  - rewrite (loadPageReferences_unreadable f s1 w4) by congruence.
    cbn [fst snd negb]. unfold ret. cbn [fst snd].
    split; [right; reflexivity|]. split; [discriminate|intros H; now elim H].
Qed.

(** Arguments that [validateArguments] accepts are converted without an
    exception in [main], and the code is one that [selectAlgorithm] knows. *)
Lemma validateArguments_accepts (argv : list string) :
  validateArguments argv = None ->
  string_find (first_char (arg 2 argv)) validCodes = true /\
  exists numFrames showRefs debugFlag,
    stoi (arg 3 argv) = inl numFrames /\ 1 <= numFrames <= 1000 /\
    stoi_flag (Z.of_nat (List.length argv) >? 4) (arg 4 argv) = inl showRefs /\
    stoi_flag (Z.of_nat (List.length argv) >? 5) (arg 5 argv) = inl debugFlag.
Proof.
  unfold validateArguments, validate_flag, stoi_flag. intros H.
  destruct (Z.of_nat (List.length argv) <? 4); [discriminate H|].
  destruct (Z.of_nat (List.length argv) >? 6); [discriminate H|].
  destruct (string_find (first_char (arg 2 argv)) validCodes); [|discriminate H].
  cbn [negb] in H. split; [reflexivity|].
  destruct (stoi (arg 3 argv)) as [n|e]; [|discriminate H].
  destruct (Z.ltb_spec n 1) as [|Hn1]; [discriminate H|].
  destruct (Z.gtb_spec n 1000) as [|Hn2]; [discriminate H|].
  exists n.
  destruct (Z.of_nat (List.length argv) >? 4).
  - destruct (stoi (arg 4 argv)) as [v|e]; [|discriminate H].
    destruct (negb (v =? 0) && negb (v =? 1)); [discriminate H|].
    destruct (Z.of_nat (List.length argv) >? 5).
    + destruct (stoi (arg 5 argv)) as [v'|e']; [|discriminate H].
      do 2 eexists. repeat split; try reflexivity; lia.
    + do 2 eexists. repeat split; try reflexivity; lia.
  - destruct (Z.of_nat (List.length argv) >? 5).
    + destruct (stoi (arg 5 argv)) as [v'|e']; [|discriminate H].
      do 2 eexists. repeat split; try reflexivity; lia.
    + do 2 eexists. repeat split; try reflexivity; lia.
Qed.

(** X17.  The exit code of [main], called with at least the program name.
    It is 0 for the help request ([--help] or [-h] as the only argument),
    and otherwise exactly when [validateArguments] accepts the command line
    and the trace file can be opened; in every other case it is 1.  For
    the help request and for rejected arguments no simulator is created.
    So under [main] neither a conversion of the [try] block nor
    [selectAlgorithm] throws: the handlers of [std::invalid_argument] and
    of [std::exception], which would return 1, are never entered. *)
Theorem main_exit_code (argv : list string) (w : Process) :
  argv <> [] ->
  let r := fst (main argv w) in
  let help := List.length argv = 2%nat /\
              (arg 1 argv = "--help" \/ arg 1 argv = "-h")%string in
  (fst r = 0 \/ fst r = 1) /\
  (fst r = 0 <->
   help \/ (validateArguments argv = None /\ files w (arg 1 argv) <> None)) /\
  (help \/ validateArguments argv <> None -> snd r = None).
Proof.
  intros _ r help.
  assert (Hr : r = fst (main argv w)) by reflexivity. clearbody r.
  unfold main in Hr. unfold bind at 1 in Hr. cbn zeta in Hr. cbn [fst snd] in Hr.
  set (w1 := snd (write_cout Banner w)) in Hr.
  assert (Hw1 : files w1 = files w) by reflexivity.
  destruct ((Z.of_nat (List.length argv) =? 2)
            && (String.eqb (arg 1 argv) "--help" || String.eqb (arg 1 argv) "-h"))
    eqn:Ehelp.
  - assert (Hh : help).
    { apply andb_true_iff in Ehelp. destruct Ehelp as [E1 E2].
      apply Z.eqb_eq in E1. apply orb_true_iff in E2.
      rewrite !String.eqb_eq in E2. split; [lia|exact E2]. }
    unfold bind, ret, printUsageAndAlgorithms in Hr. cbn [fst snd] in Hr. subst r.
    cbn [fst snd].
    split; [left; reflexivity|]. split; [split; auto|reflexivity].
  - assert (Hh : ~ help).
    { intros [E1 E2]. apply andb_false_iff in Ehelp. destruct Ehelp as [E|E].
      - apply Z.eqb_neq in E. lia.
      - apply orb_false_iff in E. destruct E as [Ea Eb].
        apply String.eqb_neq in Ea, Eb. tauto. }
    destruct (validateArguments argv) as [msg|] eqn:Ev.
    + unfold bind, ret, printUsageAndAlgorithms in Hr. cbn [fst snd] in Hr. subst r.
      cbn [fst snd].
      split; [right; reflexivity|].
      split; [split; [discriminate|intros [H|[H _]]; [tauto|discriminate H]]|].
      reflexivity.
    + destruct (validateArguments_accepts argv Ev)
        as (Hc & n & s & d & E3 & _ & E4 & E5).
      rewrite E3, E4, E5 in Hr.
      destruct (main_simulation_exit (arg 0 argv) (arg 1 argv) (first_char (arg 2 argv))
                  n s d w1 Hc) as [H1 H2].
      rewrite Hw1 in H2. rewrite <- Hr in H1, H2.
      split; [exact H1|]. split.
      * split; [intros H; right; split; [reflexivity|apply H2; exact H]|].
        intros [H|[_ H]]; [tauto|apply H2; exact H].
      * intros [H|H]; [tauto|now elim H].
Qed.

Lemma main_exit_code_witness :
  let trace := ("1 0" ++ newline ++ "1 1" ++ newline ++ "1 0" ++ newline)%string in
  let w := fresh_process (fun n => Z.of_nat n) (fun n => Z.of_nat n) (fun n => n)
                         (fun f => if String.eqb f "trace.txt" then Some trace else None) in
  fst (fst (main ["cache_simulator"; "trace.txt"; "L"; "2"; "0"]%string w)) = 0 /\
  fst (fst (main ["cache_simulator"; "missing.txt"; "L"; "2"]%string w)) = 1 /\
  fst (fst (main ["cache_simulator"; "--help"]%string w)) = 0 /\
  fst (fst (main ["cache_simulator"; "trace.txt"; "L"; "two"]%string w)) = 1.
Proof.
  intros trace w.
  split; [|split; [|split]].
  - apply (proj1 (proj2 (main_exit_code
                           ["cache_simulator"; "trace.txt"; "L"; "2"; "0"]%string w
                           ltac:(discriminate)))).
    right. split; [reflexivity|discriminate].
  - destruct (main_exit_code ["cache_simulator"; "missing.txt"; "L"; "2"]%string w
                ltac:(discriminate)) as ([H|H] & H2 & _); [|exact H].
    apply H2 in H. destruct H as [[H _]|[_ H]]; [discriminate H|now elim H].
  - apply (proj1 (proj2 (main_exit_code ["cache_simulator"; "--help"]%string w
                           ltac:(discriminate)))).
    left. split; [reflexivity|left; reflexivity].
  - destruct (main_exit_code ["cache_simulator"; "trace.txt"; "L"; "two"]%string w
                ltac:(discriminate)) as ([H|H] & H2 & _); [|exact H].
    apply H2 in H. destruct H as [[H _]|[H _]]; discriminate H.
Defined.

(** ** LFRU: the two partitions along a run *)

(** [updateLFU] is never called: in LFRU's partitions [frequency] only
    records whether the frame is occupied. *)
Definition occupancy (f : Frame) : Prop :=
  frequency f = (if page f =? -1 then 0 else 1).

Definition lfru_tidy (lf : LFRUData) : Prop :=
  Forall occupancy (frames (privileged lf)) /\
  Forall occupancy (frames (unprivileged lf)).

Lemma clear_frame_occupancy (now : Z) (f : Frame) : occupancy (clear_frame now f).
Proof. reflexivity. Qed.

Lemma updateLRU_occupancy (part : Partition) (pg : Z) (w : Process) :
  Forall occupancy (frames part) ->
  Forall occupancy (frames (fst (updateLRU part pg w))).
Proof.
  intros H. unfold updateLRU. destruct (find_if _ (frames part)) as [it|].
  - unfold_effects. cbn [frames set_frames]. apply Forall_update; [exact H|].
    intros x _ Hx. exact Hx.
  - exact H.
Qed.

Lemma removeFromPartition_occupancy (part : Partition) (pg : Z) (w : Process) :
  Forall occupancy (frames part) ->
  Forall occupancy (frames (fst (removeFromPartition part pg w))).
Proof.
  intros H. unfold removeFromPartition. destruct (find_if _ (frames part)) as [it|].
  - unfold_effects. cbn [frames set_frames]. apply Forall_update; [exact H|].
    intros x _ _. apply clear_frame_occupancy.
  - exact H.
Qed.

Lemma insertIntoPartition_occupancy (part : Partition) (pg : Z) (w : Process) :
  pg <> -1 ->
  Forall occupancy (frames part) ->
  Forall occupancy (frames (fst (insertIntoPartition part pg w))).
Proof.
  intros Hpg H. unfold insertIntoPartition. destruct (find_if _ (frames part)) as [it|].
  - unfold_effects. cbn [frames set_frames]. apply Forall_update; [exact H|].
    intros x _ _. unfold occupancy. cbn [frequency page set_frequency set_lastUsed set_page].
    destruct (Z.eqb_spec pg (-1)); [contradiction|reflexivity].
  - exact H.
Qed.

Lemma demoteLRU_occupancy (part : Partition) (w : Process) :
  Forall occupancy (frames part) ->
  Forall occupancy (frames (snd (fst (demoteLRU part w)))).
Proof.
  intros H. unfold demoteLRU. destruct (min_element _ (frames part)) as [it|].
  - unfold_effects. cbn [frames set_frames]. apply Forall_update; [exact H|].
    intros x _ _. apply clear_frame_occupancy.
  - exact H.
Qed.

Lemma evictLFU_occupancy (part : Partition) (w : Process) :
  Forall occupancy (frames part) ->
  Forall occupancy (frames (snd (fst (evictLFU part w)))).
Proof.
  intros H. unfold evictLFU. destruct (min_element _ (frames part)) as [it|].
  - unfold_effects. cbn [frames set_frames]. apply Forall_update; [exact H|].
    intros x _ _. apply clear_frame_occupancy.
  - exact H.
Qed.

Lemma insertIntoPartition_holds (part : Partition) (pg : Z) (w : Process) :
  hasSpace part = true -> pg <> -1 ->
  hasPage (fst (insertIntoPartition part pg w)) pg = true.
Proof.
  intros Hs Hpg. destruct (insertIntoPartition_spec part pg w Hs) as [_ Hperm].
  apply hasPage_true.
  assert (Hin : In pg (resident (frames (fst (insertIntoPartition part pg w))))).
  { apply (Permutation_in _ (Permutation_sym Hperm)).
    rewrite (opt_page_occupied _ Hpg). now left. }
  apply In_resident in Hin. tauto.
Qed.

Lemma updateLRU_holds (part : Partition) (pg : Z) (w : Process) :
  hasPage part pg = true -> hasPage (fst (updateLRU part pg w)) pg = true.
Proof.
  intros H. apply hasPage_true. rewrite (proj1 (updateLRU_spec part pg w)).
  now apply hasPage_true.
Qed.

(** On frames of one frequency [std::min_element] with the LFU order is
    [std::min_element] with the LRU order. *)
Lemma min_element_from_ext {A : Type} (comp comp' : A -> A -> bool) (l : list A) :
  forall (i s : nat) (sv : A),
    (forall x y, In x (sv :: l) -> In y (sv :: l) -> comp x y = comp' x y) ->
    min_element_from comp l i s sv = min_element_from comp' l i s sv.
Proof.
  induction l as [|a l IH]; intros i s sv H; cbn [min_element_from]; [reflexivity|].
  rewrite (H a sv) by (simpl; auto).
  destruct (comp' a sv); apply IH; intros x y Hx Hy; apply H; simpl in *; tauto.
Qed.

Lemma evictLFU_by_last_use (part : Partition) (w : Process) :
  Forall occupancy (frames part) -> hasSpace part = false ->
  evictLFU part w = demoteLRU part w.
Proof.
  intros H Hfull. apply hasSpace_false in Hfull.
  assert (Hone : forall x, In x (frames part) -> frequency x = 1).
  { intros x Hx. rewrite Forall_forall in H. rewrite (H x Hx).
    destruct (Z.eqb_spec (page x) (-1)) as [E|_]; [|reflexivity].
    exfalso. apply Hfull. rewrite <- E. now apply in_map. }
  unfold evictLFU, demoteLRU.
  assert (E : min_element lfu_less (frames part)
              = min_element (fun a b => lastUsed a <? lastUsed b) (frames part)).
  { destruct (frames part) as [|a l]; [reflexivity|]. cbn [min_element]. f_equal.
    apply min_element_from_ext. intros x y Hx Hy. unfold lfu_less.
    rewrite (Hone x Hx), (Hone y Hy). reflexivity. }
  rewrite E. reflexivity.
Qed.

(** One reference: the requested page ends in the privileged partition,
    and [frequency] keeps recording occupancy. *)
Lemma lfru_partitions (m : Members) (d : AlgorithmData) (lf : LFRUData) (w : Process) :
  lfruData d = Some lf -> lfru_shape lf -> lastPageRef m <> -1 -> lfru_tidy lf ->
  exists lf',
    lfruData (snd (fst (lfru m d w))) = Some lf' /\
    hasPage (privileged lf') (lastPageRef m) = true /\
    lfru_tidy lf'.
Proof.
  intros Hlf [HP HU] Hpg [TP TU]. unfold lfru, handlePageInsertion. rewrite Hlf.
  destruct lf as [P U]. unfold bind, ret.
  cbn [fst snd privileged unprivileged] in *.
  destruct (hasPage P (lastPageRef m)) eqn:EP.
  - eexists. cbn [fst snd lfruData set_lfruData]. split; [reflexivity|].
    cbn [privileged unprivileged]. split; [now apply updateLRU_holds|].
    split; [now apply updateLRU_occupancy|exact TU].
  - destruct (hasPage U (lastPageRef m)) eqn:EU.
    + destruct (removeFromPartition_spec U (lastPageRef m) w EU) as (_ & Hus & _).
      pose proof (removeFromPartition_occupancy U (lastPageRef m) w TU) as Tu.
      destruct (removeFromPartition U (lastPageRef m) w) as [u w1].
      cbn [fst snd privileged unprivileged] in *.
      destruct (hasSpace P) eqn:ES; cbn [negb fst snd privileged unprivileged].
      * eexists. cbn [fst snd lfruData set_lfruData]. split; [reflexivity|].
        cbn [privileged unprivileged]. split; [now apply insertIntoPartition_holds|].
        split; [now apply insertIntoPartition_occupancy|exact Tu].
      * destruct (demoteLRU_spec P w1 ES HP) as (Hd & _ & Hds & _).
        pose proof (demoteLRU_occupancy P w1 TP) as Tp.
        destruct (demoteLRU P w1) as [[dp P1] w2].
        cbn [fst snd] in *. rewrite Hus. cbn [negb fst snd].
        eexists. cbn [fst snd lfruData set_lfruData]. split; [reflexivity|].
        cbn [privileged unprivileged]. split; [now apply insertIntoPartition_holds|].
        split; now apply insertIntoPartition_occupancy.
    + destruct (hasSpace P) eqn:ES; cbn [negb fst snd privileged unprivileged].
      * eexists. cbn [fst snd lfruData set_lfruData]. split; [reflexivity|].
        cbn [privileged unprivileged]. split; [now apply insertIntoPartition_holds|].
        split; [now apply insertIntoPartition_occupancy|exact TU].
      * destruct (demoteLRU_spec P w ES HP) as (Hd & _ & Hds & _).
        pose proof (demoteLRU_occupancy P w TP) as Tp.
        destruct (demoteLRU P w) as [[dp P1] w1].
        cbn [fst snd privileged unprivileged] in *.
        destruct (hasSpace U) eqn:ESU; cbn [negb fst snd privileged unprivileged].
        -- eexists. cbn [fst snd lfruData set_lfruData]. split; [reflexivity|].
           cbn [privileged unprivileged]. split; [now apply insertIntoPartition_holds|].
           split; now apply insertIntoPartition_occupancy.
        -- pose proof (evictLFU_occupancy U w1 TU) as Tu.
           eexists. cbn [fst snd lfruData set_lfruData]. split; [reflexivity|].
           cbn [privileged unprivileged]. split; [now apply insertIntoPartition_holds|].
           split; now apply insertIntoPartition_occupancy.
Qed.
(** The partitions that [LFRUData] constructs. *)
Lemma Partition_new_occupancy (n : Z) (w : Process) :
  Forall occupancy (frames (fst (Partition_new n w))).
Proof.
  unfold Partition_new, bind, ret. cbn [fst snd frames].
  apply Forall_map. apply Forall_forall. intros f _. reflexivity.
Qed.

Lemma LFRUData_new_tidy (w : Process) : lfru_tidy (fst (LFRUData_new w)).
Proof.
  unfold LFRUData_new, bind, ret. cbn [fst snd]. split; cbn [privileged unprivileged];
    apply Partition_new_occupancy.
Qed.

Definition tidy_data (d : AlgorithmData) : Prop :=
  forall lf, lfruData d = Some lf -> lfru_tidy lf.

Lemma allocate_data_tidy (nF : Z) (l : list (string * Policy)) :
  forall w : Process,
    Forall (fun a => tidy_data (data a)) (fst (allocate_data nF l w)).
Proof.
  induction l as [|[name pol] l IH]; intros w; cbn [allocate_data].
  - constructor.
  - unfold bind, ret, AlgorithmData_new, bind, ret. cbn [fst snd].
    constructor; [|apply IH]. cbn [data]. intros lf.
    destruct (String.eqb name "LFRU"); unfold bind, ret;
      cbn [fst snd lfruData set_lfruData]; [|discriminate].
    intros [= <-]. apply LFRUData_new_tidy.
Qed.

Lemma configured_tidy (nframes maxCalls : Z) (dbg pr : bool) (refs : list PageRef)
      (algoCode : ascii) (sim0 : CacheReplacementSimulator) (w0 : Process) :
  Forall (fun a => tidy_data (data a))
         (algorithms (runSimulation_init
                        (configured nframes maxCalls dbg pr refs algoCode sim0 w0))).
Proof.
  unfold configured, runSimulation_init. cbn [algorithms].
  destruct (selectAlgorithm_same_policies algoCode
              (set_pageRefs refs (fst (setConfiguration nframes maxCalls dbg pr sim0 w0))))
    as [_ Hs].
  apply (same_policy_data tidy_data _ _ Hs).
  cbn [set_pageRefs algorithms].
  unfold setConfiguration, initializeAlgorithms, bind, ret. cbn [fst snd algorithms numFrames].
  apply allocate_data_tidy.
Qed.

Section Partitions.

Variable refs : list PageRef.
Hypothesis pages_valid : Forall (fun r => pageNum r <> -1) refs.
Hypothesis bounded : Z.of_nat (List.length refs) <= INT_MAX.

Definition promoted (mem : Members) (a : Algorithm) : Prop :=
  follows refs mem /\
  (label a = "LFRU"%string -> selected a = true ->
   exists lf, lfruData (data a) = Some lf /\ lfru_tidy lf /\
              (0 < counter mem -> hasPage (privileged lf) (lastPageRef mem) = true)).

Lemma promoted_step (mem : Members) (a : Algorithm) (w : Process) :
  promoted mem a -> listed a -> algorithm_ok (numFrames mem) a ->
  loop_condition mem = true -> 0 <= clockHand w ->
  promoted (advance mem) (fst (process_one (during mem) a w)).
Proof.
  intros [Hfol Ha] Hl Hok Hloop _. split; [now apply follows_advance|].
  destruct (selected a) eqn:Hsel.
  2:{ rewrite (process_one_unselected _ _ _ Hsel). cbn [fst]. intros _ H. congruence. }
  destruct (process_one_data (during mem) a w Hsel) as (Hlab & _ & _ & _ & Hdata).
  intros Elab _. rewrite Hlab in Elab.
  destruct (Ha Elab eq_refl) as (lf & Hsome & Htidy & _).
  destruct (lfru_algorithm _ a Hl Hok Elab) as (Hf & _ & lf0 & Hsome0 & HP & HU).
  assert (lf0 = lf) by congruence. subst lf0.
  destruct (loop_position refs pages_valid bounded mem (proj1 Hfol) (proj2 Hfol) Hloop)
    as [_ Hp].
  rewrite Hf in Hdata.
  destruct (lfru_partitions (during mem) (data a) lf (snd (high_resolution_clock_now w))
              Hsome (lfru_shape_of_lengths lf HP HU) Hp Htidy)
    as (lf' & Hsome' & Hhas & Htidy').
  exists lf'. split; [congruence|]. split; [exact Htidy'|]. intros _. exact Hhas.
Qed.

End Partitions.

Lemma promoted_run
      (nframes maxCalls : Z) (dbg pr : bool) (refs : list PageRef) (algoCode : ascii)
      (sim0 : CacheReplacementSimulator) (w0 w : Process) (fuel : nat) :
  Forall (fun r => pageNum r <> -1) refs ->
  Z.of_nat (List.length refs) <= INT_MAX ->
  0 <= clockHand w ->
  let r := fst (runSimulation_for fuel
                  (runSimulation_init
                     (configured nframes maxCalls dbg pr refs algoCode sim0 w0)) w) in
  Forall (promoted refs (members r)) (algorithms r).
Proof.
  intros Hpages Hbound Hw r.
  destruct (configured_policies nframes maxCalls dbg pr refs algoCode sim0 w0)
    as (HF & Hrefs & Hc & Hl & Hok & Hready).
  pose proof (configured_tidy nframes maxCalls dbg pr refs algoCode sim0 w0) as Ht.
  apply (runSimulation_for_each_call (promoted refs)
           (promoted_step refs Hpages Hbound) fuel _ w); try assumption.
  - rewrite HF. lia.
  - rewrite Forall_forall in *. intros a Ha. split; [split; [exact Hrefs|lia]|].
    intros Elab _.
    destruct (lfru_algorithm _ a (Hl a Ha) (Hok a Ha) Elab) as (_ & _ & lf & Hsome & _).
    exists lf. split; [exact Hsome|]. split; [exact (Ht a Ha lf Hsome)|]. intros H. lia.
Qed.

(** X18.  LFRU promotes on every reference: after each reference of a
    trace without the EMPTY page number, the page just referenced is in
    LFRU's privileged partition, whether it was a hit there, a hit in the
    unprivileged partition or a fault. *)
Theorem lfru_referenced_page_is_privileged
        (nframes maxCalls : Z) (dbg pr : bool) (refs : list PageRef) (algoCode : ascii)
        (sim0 : CacheReplacementSimulator) (w0 w : Process) (fuel : nat) :
  Forall (fun r => pageNum r <> -1) refs ->
  Z.of_nat (List.length refs) <= INT_MAX ->
  0 <= clockHand w ->
  let r := fst (runSimulation_for fuel
                  (runSimulation_init
                     (configured nframes maxCalls dbg pr refs algoCode sim0 w0)) w) in
  Forall (fun a => label a = "LFRU"%string -> selected a = true ->
                   0 < counter (members r) ->
                   exists lf, lfruData (data a) = Some lf /\
                              hasPage (privileged lf) (lastPageRef (members r)) = true)
         (algorithms r).
Proof.
  intros Hpages Hbound Hw r.
  eapply Forall_impl;
    [|exact (promoted_run nframes maxCalls dbg pr refs algoCode sim0 w0 w fuel
               Hpages Hbound Hw)].
  intros a [_ Ha] Elab Hsel Hc. destruct (Ha Elab Hsel) as (lf & Hsome & _ & Hhas).
  exists lf. split; [exact Hsome|]. apply Hhas. exact Hc.
Qed.

Lemma lfru_referenced_page_is_privileged_witness :
  let refs := map (fun p => mkPageRef p 1)
                  [0; 1; 2; 3; 4; 5; 6; 7; 8; 9; 10; 11; 12; 0; 1] in
  let sim0 := mkSimulator (mkMembers 12 1048576 1000 false false 0 (-1) []) [] in
  let w := fresh_process (fun n => Z.of_nat n) (fun n => Z.of_nat n) (fun n => n)
                         (fun _ => None) in
  let r := fst (runSimulation_for 14
                  (runSimulation_init (configured 2 1000 false false refs "f" sim0 w))
                  w) in
  Forall (fun a => label a = "LFRU"%string -> selected a = true ->
                   0 < counter (members r) ->
                   exists lf, lfruData (data a) = Some lf /\
                              hasPage (privileged lf) (lastPageRef (members r)) = true)
         (algorithms r).
Proof.
  intros refs sim0 w.
  apply (lfru_referenced_page_is_privileged 2 1000 false false refs "f" sim0 w w 14%nat).
  - unfold refs. apply Forall_forall. intros x Hx. apply in_map_iff in Hx.
    destruct Hx as (p & <- & Hp). cbn [pageNum]. cbn in Hp.
    repeat (destruct Hp as [<-|Hp]; [lia|]). contradiction.
  - unfold INT_MAX. cbn. lia.
  - cbn. lia.
Defined.

(** X19.  LFRU never counts uses: [updateLFU] is not called, so at every
    point of a run over a trace without the EMPTY page number (-1) each
    frame of both partitions has frequency 1 when it holds a page and 0
    when it is empty, and the eviction from a full
    unprivileged partition, [evictLFU], removes the page that [demoteLRU]
    would remove: the one with the smallest [lastUsed] stamp. *)
Theorem lfru_evicts_by_last_use
        (nframes maxCalls : Z) (dbg pr : bool) (refs : list PageRef) (algoCode : ascii)
        (sim0 : CacheReplacementSimulator) (w0 w : Process) (fuel : nat) :
  Forall (fun r => pageNum r <> -1) refs ->
  Z.of_nat (List.length refs) <= INT_MAX ->
  0 <= clockHand w ->
  let r := fst (runSimulation_for fuel
                  (runSimulation_init
                     (configured nframes maxCalls dbg pr refs algoCode sim0 w0)) w) in
  Forall (fun a => label a = "LFRU"%string -> selected a = true ->
                   exists lf,
                     lfruData (data a) = Some lf /\
                     Forall occupancy (frames (privileged lf) ++ frames (unprivileged lf)) /\
                     (hasSpace (unprivileged lf) = false ->
                      forall w', evictLFU (unprivileged lf) w'
                                 = demoteLRU (unprivileged lf) w'))
         (algorithms r).
Proof.
  intros Hpages Hbound Hw r.
  eapply Forall_impl;
    [|exact (promoted_run nframes maxCalls dbg pr refs algoCode sim0 w0 w fuel
               Hpages Hbound Hw)].
  intros a [_ Ha] Elab Hsel. destruct (Ha Elab Hsel) as (lf & Hsome & [HP HU] & _).
  exists lf. split; [exact Hsome|]. split; [apply Forall_app; split; assumption|].
  intros Hfull w'. now apply evictLFU_by_last_use.
Qed.

Lemma lfru_evicts_by_last_use_witness :
  let refs := map (fun p => mkPageRef p 1)
                  [0; 1; 2; 3; 4; 5; 6; 7; 8; 9; 10; 11; 12; 0; 1] in
  let sim0 := mkSimulator (mkMembers 12 1048576 1000 false false 0 (-1) []) [] in
  let w := fresh_process (fun n => Z.of_nat n) (fun n => Z.of_nat n) (fun n => n)
                         (fun _ => None) in
  let r := fst (runSimulation_for 13
                  (runSimulation_init (configured 2 1000 false false refs "f" sim0 w))
                  w) in
  Forall (fun a => label a = "LFRU"%string -> selected a = true ->
                   exists lf,
                     lfruData (data a) = Some lf /\
                     Forall occupancy (frames (privileged lf) ++ frames (unprivileged lf)) /\
                     (hasSpace (unprivileged lf) = false ->
                      forall w', evictLFU (unprivileged lf) w'
                                 = demoteLRU (unprivileged lf) w'))
         (algorithms r).
Proof.
  intros refs sim0 w.
  apply (lfru_evicts_by_last_use 2 1000 false false refs "f" sim0 w w 13%nat).
  - unfold refs. apply Forall_forall. intros x Hx. apply in_map_iff in Hx.
    destruct Hx as (p & <- & Hp). cbn [pageNum]. cbn in Hp.
    repeat (destruct Hp as [<-|Hp]; [lia|]). contradiction.
  - unfold INT_MAX. cbn. lia.
  - cbn. lia.
Defined.
(** ** One policy along a run, with the clock it reads *)

(** Induction over the loop of [runSimulation] for a property of one policy
    and the process, which [process_one] preserves and which survives the
    clock readings of the other policies. *)
Lemma runSimulation_for_each_process (Q : Members -> Algorithm -> Process -> Prop) :
  (forall mem a w w', Q mem a w -> later w w' -> Q mem a w') ->
  (forall mem a w,
      Q mem a w -> listed a -> algorithm_ok (numFrames mem) a ->
      loop_condition mem = true -> 0 <= clockHand w ->
      Q (advance mem) (fst (process_one (during mem) a w))
        (snd (process_one (during mem) a w))) ->
  forall (fuel : nat) (sim : CacheReplacementSimulator) (w : Process),
    1 <= numFrames (members sim) ->
    Forall listed (algorithms sim) ->
    Forall (algorithm_ok (numFrames (members sim))) (algorithms sim) ->
    0 <= clockHand w ->
    Forall (fun a => Q (members sim) a w) (algorithms sim) ->
    Forall (fun a => Q (members (fst (runSimulation_for fuel sim w))) a
                       (snd (runSimulation_for fuel sim w)))
           (algorithms (fst (runSimulation_for fuel sim w))).
Proof.
  intros Hlater Hstep fuel sim w HF Hl Hok Hw HQ.
  pose (I := fun (mem : Members) (algs : list Algorithm) (w' : Process) =>
               1 <= numFrames mem /\ 0 <= clockHand w' /\ Forall listed algs /\
               Forall (algorithm_ok (numFrames mem)) algs /\
               Forall (fun a => Q mem a w') algs).
  assert (Heach : forall mem algs w',
             1 <= numFrames mem -> loop_condition mem = true ->
             0 <= clockHand w' -> Forall listed algs ->
             Forall (algorithm_ok (numFrames mem)) algs ->
             Forall (fun a => Q mem a w') algs ->
             Forall (fun a => Q (advance mem) a (snd (process_each (during mem) algs w')))
                    (fst (process_each (during mem) algs w'))).
  { intros mem algs. induction algs as [|a algs IH]; intros w' H1 Hloop H2 H3 H4 H5;
      cbn [process_each]; [constructor|].
    unfold bind, ret. cbn [fst snd].
    inversion H3; inversion H4; inversion H5; subst.
    assert (L1 : later w' (snd (process_one (during mem) a w')))
      by (now apply advances_process_one).
    assert (L2 : later (snd (process_one (during mem) a w'))
                       (snd (process_each (during mem) algs
                               (snd (process_one (during mem) a w')))))
      by (now apply advances_process_each).
    constructor.
    - apply (Hlater _ _ _ _ (Hstep mem a w' ltac:(assumption) ltac:(assumption)
                               ltac:(assumption) Hloop H2) L2).
    - apply IH; try assumption.
      + change (numFrames mem) with (numFrames (during mem)) in H1.
        apply (process_one_step (during mem) a w'); assumption.
      + eapply Forall_impl; [|eassumption]. intros b Hb. exact (Hlater _ _ _ _ Hb L1). }
  assert (HI : forall mem algs w',
             I mem algs w' -> loop_condition mem = true ->
             I (advance mem) (fst (process_each (during mem) algs w'))
               (snd (process_each (during mem) algs w'))).
  { intros mem algs w' (H1 & H2 & H3 & H4 & H5) Hloop.
    pose proof (Heach mem algs w' H1 Hloop H2 H3 H4 H5) as HQ'.
    change (numFrames mem) with (numFrames (during mem)) in H1, H4.
    destruct (process_each_reference_steps (during mem) algs w' H1 H3 H4 H2)
      as [Hsteps Hw'].
    unfold I. change (numFrames (advance mem)) with (numFrames (during mem)).
    split; [exact H1|]. split; [exact Hw'|]. split; [|split; [|exact HQ']].
    - apply (Forall2_Forall_step _ _ _ _ _
               (fun a a' (H : reference_step (during mem) a a') (Ha : listed a) =>
                  policy_step_listed _ _ _ (proj1 H) Ha) Hsteps H3).
    - apply (Forall2_Forall_step _ (fun _ => True) _ _ _
               (fun a a' (H : reference_step (during mem) a a') (_ : True) =>
                  ps_ok _ _ _ (proj1 H)) Hsteps).
      apply Forall_forall. auto. }
  destruct (runSimulation_for_invariant_process I HI fuel sim w) as (_ & _ & _ & _ & H).
  - unfold I. auto.
  - exact H.
Qed.

(** ** LRU: least recently used *)

(** The time stamp of every occupied frame is one of the first [n] clock
    readings. *)
Definition stamped_pages (c : nat -> Z) (n : nat) (t : list Frame) : Prop :=
  Forall (fun f => page f <> -1 -> exists k, (k < n)%nat /\ time f = c k) t.

Lemma stamped_pages_later (w w' : Process) (t : list Frame) :
  later w w' ->
  stamped_pages (steady_clock w) (steady_reads w) t ->
  stamped_pages (steady_clock w') (steady_reads w') t.
Proof.
  intros [Hc Hn] H. rewrite Hc. eapply Forall_impl; [|exact H].
  intros f Hf Hp. destruct (Hf Hp) as (k & Hk & E). exists k. split; [lia|exact E].
Qed.

Lemma stamped_pages_fresh (c : nat -> Z) (n : nat) (t : list Frame) :
  strictly_increasing c -> stamped_pages c n t ->
  forall f, In f t -> page f <> -1 -> time f < c n.
Proof.
  intros Hc Hs f Hin Hp. unfold stamped_pages in Hs. rewrite Forall_forall in Hs.
  destruct (Hs f Hin Hp) as (k & Hk & ->). now apply Hc.
Qed.

Lemma stamped_pages_update (c : nat -> Z) (n : nat) (g : Frame -> Frame)
      (t : list Frame) (it : nat) :
  (forall f, time (g f) = c n) ->
  stamped_pages c n t -> stamped_pages c (S n) (update it g t).
Proof.
  intros Hg Hs. apply Forall_update_at.
  - intros j f Hj _ Hp. unfold stamped_pages in Hs. rewrite Forall_forall in Hs.
    destruct (Hs f (nth_error_In _ _ Hj) Hp) as (k & Hk & E). exists k. split; [lia|exact E].
  - intros x _ _. exists n. split; [lia|apply Hg].
Qed.

Lemma update_at_frame {A : Type} (it : nat) (g g' : A -> A) (l : list A) (x : A) :
  nth_error l it = Some x -> g x = g' x -> update it g l = update it g' l.
Proof.
  revert it. induction l as [|a l IH]; intros [|it] H E; cbn [update]; try reflexivity.
  - injection H as ->. now rewrite E.
  - f_equal. now apply IH.
Qed.

Section Lru.

Variable refs : list PageRef.

(** The frame records in [extra] the position of the last reference to its
    page before position [c]. *)
Definition last_used_at (c : Z) (f : Frame) : Prop :=
  loaded_at refs c f /\
  forall k, extra f < k < c ->
            pageNum (nth (Z.to_nat k) refs (mkPageRef (-1) (-1))) <> page f.

Record lru_stack (c : Z) (t vs : list Frame) : Prop := {
  lk_used : Forall (fun f => page f <> -1 -> last_used_at c f) t;
  lk_victims : Forall (loaded_at refs c) vs;
  lk_distinct : forall i j fi fj,
      nth_error t i = Some fi -> nth_error t j = Some fj -> i <> j ->
      page fi <> -1 -> page fj <> -1 -> page fi <> page fj;
  lk_recency : forall i j fi fj,
      nth_error t i = Some fi -> nth_error t j = Some fj ->
      page fi <> -1 -> page fj <> -1 -> extra fi < extra fj -> time fi < time fj;
  lk_order : increasing (map extra vs);
  lk_older : Forall (fun v => Forall (fun f => page f <> -1 -> extra v < extra f) t) vs
}.

(** Two occupied frames of the stack have different last uses. *)
Lemma lru_stack_uses (c : Z) (t vs : list Frame) (i j : nat) (fi fj : Frame) :
  lru_stack c t vs ->
  nth_error t i = Some fi -> nth_error t j = Some fj -> i <> j ->
  page fi <> -1 -> page fj <> -1 -> extra fi <> extra fj.
Proof.
  intros [H1 _ H3 _ _ _] Hi Hj Hne Hpi Hpj E.
  rewrite Forall_forall in H1.
  destruct (H1 fi (nth_error_In _ _ Hi) Hpi) as [[_ Ei] _].
  destruct (H1 fj (nth_error_In _ _ Hj) Hpj) as [[_ Ej] _].
  apply (H3 i j fi fj Hi Hj Hne Hpi Hpj). rewrite <- Ei, <- Ej, E. reflexivity.
Qed.

(** The reference at position [c] to page [p] stamps frame [it], the only
    one that holds [p] afterwards. *)
Lemma lru_stack_touch (c now : Z) (p : Z) (it : nat) (g : Frame -> Frame)
      (t vs : list Frame) :
  0 <= c -> p <> -1 ->
  pageNum (nth (Z.to_nat c) refs (mkPageRef (-1) (-1))) = p ->
  (forall x, page (g x) = p /\ extra (g x) = c /\ time (g x) = now) ->
  (forall j f, nth_error t j = Some f -> j <> it -> page f <> p) ->
  (forall f, In f t -> page f <> -1 -> time f < now) ->
  lru_stack c t vs ->
  lru_stack (c + 1) (update it g t) vs.
Proof.
  intros Hc Hp1 Hp Hg Hother Hnow [H1 H2 H3 H4 H5 H6].
  assert (Hold : forall j f, nth_error t j = Some f -> page f <> -1 -> last_used_at c f).
  { intros j f Hj. rewrite Forall_forall in H1. apply H1. eapply nth_error_In; eauto. }
  assert (Hat : forall f, nth_error (update it g t) it = Some f ->
                          page f = p /\ extra f = c /\ time f = now).
  { intros f Hf.
    assert (Hlt : (it < List.length t)%nat).
    { rewrite <- (length_update it g t). apply nth_error_Some. congruence. }
    rewrite (nth_error_update_eq it g t _ (nth_error_deref it t Hlt)) in Hf.
    injection Hf as <-. apply Hg. }
  constructor.
  - apply Forall_update_at.
    + intros j f Hj Hne Hpf. destruct (Hold j f Hj Hpf) as [[Hb He] Hk].
      split; [split; [lia|exact He]|]. intros k Hk'.
      destruct (Z.eq_dec k c) as [->|Hkc].
      * rewrite Hp. apply not_eq_sym. now apply (Hother j f).
      * apply Hk. lia.
    + intros x _ _. destruct (Hg x) as (E1 & E2 & _).
      split; [split; [lia|rewrite E1, E2; exact Hp]|]. intros k Hk. lia.
  - eapply Forall_impl; [|exact H2]. intros f. apply loaded_at_mono.
  - intros i j fi fj Hi Hj Hne Hpi Hpj.
    destruct (Nat.eq_dec i it) as [->|Hi'];
      destruct (Nat.eq_dec j it) as [->|Hj']; try congruence.
    + rewrite nth_error_update_ne in Hj by congruence.
      destruct (Hat fi Hi) as (E & _). rewrite E.
      apply not_eq_sym. now apply (Hother j fj).
    + rewrite nth_error_update_ne in Hi by congruence.
      destruct (Hat fj Hj) as (E & _). rewrite E. now apply (Hother i fi).
    + rewrite nth_error_update_ne in Hi, Hj by congruence. eauto.
  - intros i j fi fj Hi Hj Hpi Hpj Hlt.
    destruct (Nat.eq_dec i it) as [->|Hi'];
      destruct (Nat.eq_dec j it) as [->|Hj'].
    + rewrite Hi in Hj. injection Hj as <-. lia.
    + rewrite nth_error_update_ne in Hj by congruence.
      destruct (Hat fi Hi) as (_ & E & _).
      destruct (Hold j fj Hj Hpj) as [[Hb _] _]. lia.
    + rewrite nth_error_update_ne in Hi by congruence.
      destruct (Hat fj Hj) as (_ & _ & E). rewrite E.
      apply Hnow; [eapply nth_error_In; eauto|exact Hpi].
    + rewrite nth_error_update_ne in Hi, Hj by congruence. eauto.
  - exact H5.
  - rewrite Forall_forall in *. intros v Hv. specialize (H6 v Hv).
    apply Forall_update_at.
    + intros j f Hj _. rewrite Forall_forall in H6. apply H6. eapply nth_error_In; eauto.
    + intros x _ _. destruct (H2 v Hv) as [Hb _]. destruct (Hg x) as (_ & E & _). lia.
Qed.

(** Evicting the frame at [it], whose time stamp is the smallest of a table
    without empty frames, for the reference at position [c]. *)
Lemma lru_stack_evict (c now : Z) (p : Z) (it : nat) (x : Frame) (g : Frame -> Frame)
      (t vs : list Frame) :
  0 <= c -> p <> -1 ->
  pageNum (nth (Z.to_nat c) refs (mkPageRef (-1) (-1))) = p ->
  (forall x, page (g x) = p /\ extra (g x) = c /\ time (g x) = now) ->
  (forall f, In f t -> page f <> p) ->
  (forall f, In f t -> page f <> -1 -> time f < now) ->
  (forall f, In f t -> page f <> -1) ->
  nth_error t it = Some x ->
  (forall y, In y t -> time x <= time y) ->
  lru_stack c t vs ->
  lru_stack (c + 1) (update it g t) (vs ++ [x]).
Proof.
  intros Hc Hp1 Hp Hg Hnone Hnow Hfull Hx Hmin Hq.
  assert (Hother : forall j f, nth_error t j = Some f -> j <> it -> page f <> p).
  { intros j f Hj _. apply Hnone. eapply nth_error_In; eauto. }
  pose proof (lru_stack_touch c now p it g t vs Hc Hp1 Hp Hg Hother Hnow Hq)
    as [L1 L2 L3 L4 L5 L6].
  pose proof (lru_stack_uses c t vs) as Huses.
  destruct Hq as [H1 H2 H3 H4 H5 H6].
  assert (Hxin : In x t) by (eapply nth_error_In; eauto).
  assert (Hxl : loaded_at refs c x).
  { rewrite Forall_forall in H1. apply H1; auto. }
  constructor.
  - exact L1.
  - apply Forall_app. split; [exact L2|].
    constructor; [apply loaded_at_mono, Hxl|constructor].
  - exact L3.
  - exact L4.
  - rewrite map_app. cbn [map]. apply increasing_snoc; [exact H5|].
    apply Forall_map. eapply Forall_impl; [|exact H6].
    intros v Hv. rewrite Forall_forall in Hv. apply Hv; auto.
  - apply Forall_app. split; [exact L6|]. constructor; [|constructor].
    apply Forall_update_at.
    + intros j f Hj Hne _.
      assert (Hf : In f t) by (eapply nth_error_In; eauto).
      pose proof (Hmin f Hf) as Hle.
      assert (Hd : extra f <> extra x).
      { apply (Huses j it f x); auto. constructor; auto. }
      destruct (Z.lt_ge_cases (extra f) (extra x)) as [Hlt|Hge]; [|lia].
      pose proof (H4 j it f x Hj Hx (Hfull f Hf) (Hfull x Hxin) Hlt). lia.
    + intros y _ _. destruct (Hg y) as (_ & E & _). destruct Hxl as [Hb _]. lia.
Qed.

Lemma lru_stack_step (m : Members) (d : AlgorithmData) (w : Process) :
  0 <= counter m -> lastPageRef m <> -1 ->
  pageNum (nth (Z.to_nat (counter m)) refs (mkPageRef (-1) (-1))) = lastPageRef m ->
  strictly_increasing (steady_clock w) ->
  stamped_pages (steady_clock w) (steady_reads w) (pageTable d) ->
  lru_stack (counter m) (pageTable d) (victimList d) ->
  lru_stack (counter m + 1) (pageTable (snd (fst (lru m d w))))
            (victimList (snd (fst (lru m d w)))) /\
  stamped_pages (steady_clock w) (steady_reads (snd (lru m d w)))
                (pageTable (snd (fst (lru m d w)))).
Proof.
  intros Hc Hp1 Hp Hinc Hst Hq.
  pose proof (stamped_pages_fresh _ _ _ Hinc Hst) as Hfresh.
  unfold lru.
  destruct (find_if (is_requested m) (pageTable d)) as [hitIt|] eqn:Ehit.
  - unfold_effects. split; [|now apply stamped_pages_update].
    destruct (find_if_Some _ _ _ Ehit) as (x & Hx & Hreq & _).
    unfold is_requested in Hreq. apply Z.eqb_eq in Hreq.
    rewrite (update_at_frame hitIt _
               (fun f => set_extra (counter m)
                           (set_time (steady_clock w (steady_reads w))
                                     (set_page (lastPageRef m) f)))
               (pageTable d) x Hx)
      by (rewrite <- Hreq; destruct x; reflexivity).
    apply (lru_stack_touch _ (steady_clock w (steady_reads w)) (lastPageRef m));
      try assumption.
    + intros y. repeat split.
    + intros j f Hj Hne E. destruct Hq as [_ _ H3 _ _ _].
      apply (H3 j hitIt f x Hj Hx Hne); congruence.
  - assert (Hnone : forall f, In f (pageTable d) -> page f <> lastPageRef m).
    { intros f Hf. rewrite find_if_None in Ehit. specialize (Ehit f Hf).
      unfold is_requested in Ehit. now apply Z.eqb_neq in Ehit. }
    destruct (find_if is_empty (pageTable d)) as [emptyIt|] eqn:Eemp.
    + unfold_effects. split; [|now apply stamped_pages_update].
      apply (lru_stack_touch _ (steady_clock w (steady_reads w)) (lastPageRef m));
        try assumption.
      * intros y. repeat split.
      * intros j f Hj _. apply Hnone. eapply nth_error_In; eauto.
    + destruct (min_element (fun a b => time a <? time b) (pageTable d))
        as [victimIt|] eqn:Ev.
      * unfold_effects. split; [|now apply stamped_pages_update].
        destruct (min_element_by_key time _ _ Ev) as (x & Hx & Hmin).
        rewrite (deref_nth_error _ _ _ Hx).
        apply (lru_stack_evict _ (steady_clock w (steady_reads w)) (lastPageRef m));
          try assumption.
        -- intros y. repeat split.
        -- intros f Hf E. apply (full_table_no_empty _ Eemp). rewrite <- E.
           now apply in_map.
      * unfold ret. cbn [fst snd]. apply min_element_None in Ev.
        rewrite Ev in *. split; [|constructor].
        destruct Hq as [H1 H2 H3 H4 H5 H6]. constructor.
        -- constructor.
        -- eapply Forall_impl; [|exact H2]. intros f. apply loaded_at_mono.
        -- intros i j fi fj Hi. destruct i; discriminate.
        -- intros i j fi fj Hi. destruct i; discriminate.
        -- exact H5.
        -- apply Forall_forall. intros v _. constructor.
Qed.

End Lru.
Section Recency.

Variable refs : list PageRef.
Hypothesis pages_valid : Forall (fun r => pageNum r <> -1) refs.
Hypothesis bounded : Z.of_nat (List.length refs) <= INT_MAX.

Definition lru_recency (mem : Members) (a : Algorithm) (w : Process) : Prop :=
  follows refs mem /\
  strictly_increasing (steady_clock w) /\
  (label a = "LRU"%string -> selected a = true ->
   lru_stack refs (counter mem) (pageTable (data a)) (victimList (data a)) /\
   stamped_pages (steady_clock w) (steady_reads w) (pageTable (data a))).

Lemma lru_recency_later (mem : Members) (a : Algorithm) (w w' : Process) :
  lru_recency mem a w -> later w w' -> lru_recency mem a w'.
Proof.
  intros (Hfol & Hinc & Ha) L. split; [exact Hfol|].
  split; [rewrite (proj1 L); exact Hinc|].
  intros E Hsel. destruct (Ha E Hsel) as [H1 H2].
  split; [exact H1|]. exact (stamped_pages_later _ _ _ L H2).
Qed.

Lemma lru_recency_step (mem : Members) (a : Algorithm) (w : Process) :
  lru_recency mem a w -> listed a -> algorithm_ok (numFrames mem) a ->
  loop_condition mem = true -> 0 <= clockHand w ->
  lru_recency (advance mem) (fst (process_one (during mem) a w))
              (snd (process_one (during mem) a w)).
Proof.
  intros (Hfol & Hinc & Ha) Hl _ Hloop _.
  pose proof (advances_process_one (during mem) a Hl w) as L.
  split; [now apply follows_advance|].
  split; [rewrite (proj1 L); exact Hinc|].
  change (counter (advance mem)) with (counter mem + 1).
  destruct (selected a) eqn:Hsel.
  2:{ rewrite (process_one_unselected _ _ _ Hsel). cbn [fst]. intros _ H. congruence. }
  destruct (process_one_data (during mem) a w Hsel) as (Hlab & _ & Ht & Hv & _).
  intros E _. rewrite Hlab in E. destruct (Ha E eq_refl) as [Hq Hst].
  pose proof (process_one_selected_later (during mem) a w Hsel) as L2.
  rewrite Ht, Hv. rewrite (listed_lru a Hl E) in *.
  set (w1 := snd (high_resolution_clock_now w)) in *.
  destruct (loop_position refs pages_valid bounded mem (proj1 Hfol) (proj2 Hfol) Hloop)
    as [_ Hp].
  destruct (lru_stack_step refs (during mem) (data a) w1) as [S1 S2].
  - exact (proj2 Hfol).
  - exact Hp.
  - change (lastPageRef (during mem)) with (current_page mem).
    unfold current_page. rewrite (proj1 Hfol). reflexivity.
  - exact Hinc.
  - exact Hst.
  - exact Hq.
  - split; [exact S1|].
    apply (stamped_pages_later (snd (lru (during mem) (data a) w1)) _ _ L2).
    assert (L1 : later w1 (snd (lru (during mem) (data a) w1))).
    { apply (advances_policies "LRU"%string lru). unfold policy_list. cbn [In]. auto 12. }
    rewrite (proj1 L1). exact S2.
Qed.

End Recency.

(** X20.  LRU evicts the least recently used page, provided the steady
    clock is strictly increasing from one reading to the next.  Along a run
    over a trace without the EMPTY page number, every resident frame of a
    selected LRU records in [extra] the position of the last reference to
    its page; every logged victim was last used before every page that is
    still resident; and the victims left in the order of their last uses. *)
Theorem lru_evicts_least_recently_used
        (nframes maxCalls : Z) (dbg pr : bool) (refs : list PageRef) (algoCode : ascii)
        (sim0 : CacheReplacementSimulator) (w0 w : Process) (fuel : nat) :
  Forall (fun r => pageNum r <> -1) refs ->
  Z.of_nat (List.length refs) <= INT_MAX ->
  0 <= clockHand w ->
  strictly_increasing (steady_clock w) ->
  let r := fst (runSimulation_for fuel
                  (runSimulation_init
                     (configured nframes maxCalls dbg pr refs algoCode sim0 w0)) w) in
  Forall (fun a =>
            label a = "LRU"%string -> selected a = true ->
            Forall (fun f => page f <> -1 -> last_used_at refs (counter (members r)) f)
                   (pageTable (data a)) /\
            Forall (loaded_at refs (counter (members r))) (victimList (data a)) /\
            increasing (map extra (victimList (data a))) /\
            Forall (fun v => Forall (fun f => page f <> -1 -> extra v < extra f)
                                    (pageTable (data a)))
                   (victimList (data a)))
         (algorithms r).
Proof.
  intros Hpages Hbound Hw Hinc r.
  destruct (configured_policies nframes maxCalls dbg pr refs algoCode sim0 w0)
    as (HF & Hrefs & Hc & Hl & Hok & Hready).
  eapply Forall_impl;
    [|apply (runSimulation_for_each_process (lru_recency refs)
               (lru_recency_later refs)
               (lru_recency_step refs Hpages Hbound) fuel _ w); try assumption].
  - intros a (_ & _ & Ha) E Hsel. destruct (Ha E Hsel) as [[H1 H2 _ _ H5 H6] _]. auto.
  - rewrite HF. lia.
  - pose proof (configured_frames (fun f => page f = -1) nframes maxCalls dbg pr refs
                  algoCode sim0 w0 (fun _ _ => eq_refl)) as Hfr.
    rewrite Forall_forall in *. intros a Ha. split; [split; [exact Hrefs|lia]|].
    split; [exact Hinc|].
    intros _ _. specialize (Hfr a Ha). rewrite Forall_forall in Hfr.
    destruct (Hready a Ha) as (_ & _ & _ & Hv & _). rewrite Hv.
    split.
    + constructor.
      * apply Forall_forall. intros f Hf Hp. elim Hp. auto.
      * constructor.
      * intros i j fi fj Hi _ _ Hp. elim Hp. apply Hfr. eapply nth_error_In; eauto.
      * intros i j fi fj Hi _ Hp. elim Hp. apply Hfr. eapply nth_error_In; eauto.
      * exact I.
      * constructor.
    + apply Forall_forall. intros f Hf Hp. elim Hp. auto.
Qed.

Lemma lru_evicts_least_recently_used_witness :
  let refs := map (fun p => mkPageRef p 1) [7; 0; 1; 2; 0; 3; 0; 4] in
  let sim0 := mkSimulator (mkMembers 12 1048576 1000 false false 0 (-1) []) [] in
  let w := fresh_process (fun n => Z.of_nat n) (fun n => Z.of_nat n) (fun n => n)
                         (fun _ => None) in
  let r := fst (runSimulation_for 8
                  (runSimulation_init (configured 3 1000 false false refs "L" sim0 w))
                  w) in
  Forall (fun a =>
            label a = "LRU"%string -> selected a = true ->
            Forall (fun f => page f <> -1 -> last_used_at refs (counter (members r)) f)
                   (pageTable (data a)) /\
            Forall (loaded_at refs (counter (members r))) (victimList (data a)) /\
            increasing (map extra (victimList (data a))) /\
            Forall (fun v => Forall (fun f => page f <> -1 -> extra v < extra f)
                                    (pageTable (data a)))
                   (victimList (data a)))
         (algorithms r).
Proof.
  intros refs sim0 w.
  apply (lru_evicts_least_recently_used 3 1000 false false refs "L" sim0 w w 8%nat).
  - unfold refs. repeat (apply Forall_cons; [cbn; lia|]). apply Forall_nil.
  - unfold INT_MAX. cbn. lia.
  - cbn. lia.
  - intros i j Hij. cbn. lia.
Defined.
